(** * SmartLoad load optimizer: a shallow embedding of [app/optimizer.py]

    The development follows the source file top-down: the data model of
    [app/models.py], the three pairwise compatibility checks, the
    compatibility bitmasks, the search order with its suffix bound, the
    branch-and-bound [search] closure (its two captured one-element lists
    become an explicit incumbent threaded through the calls), the result
    assembly of [LoadOptimizer.optimize] and the utilization figures of
    [optimize_load]; then the validators of [app/models.py] and, of
    [app/main.py], the payload-size middleware and the endpoint that calls
    the optimizer.

    Python integers are unbounded, so every integer is a [Z] and the
    bitmasks are [Z]s handled with [Z.land], [Z.lor], [Z.shiftl].  A Python
    [str] is the list of its Unicode code points; [str.strip], [str.lower]
    and [int] are the ones of CPython 3.11, with the character properties
    of its Unicode database.  A [float] is a binary64 number. *)

From Stdlib Require Import ZArith Lia Bool Ascii String List Permutation Sorted.
From Stdlib Require Import Floats.SpecFloat.
From Stdlib Require Import QArith Qabs Lqa Qpower.
From stdpp Require Import base list.

Local Open Scope Z_scope.

(** ** Data model ([app/models.py]) *)

(** A [str]: a sequence of Unicode code points. *)
Definition str : Type := list N.

(** The [str] of an ASCII literal. *)
Definition text (s : string) : str := map N_of_ascii (list_ascii_of_string s).

(** A [datetime.date]; Python orders dates lexicographically on
    (year, month, day). *)
Record date : Type := mkDate { year : Z; month : Z; day : Z }.

Record Truck : Type := mkTruck {
  truck_id : str;
  max_weight_lbs : Z;
  max_volume_cuft : Z
}.

Record Order : Type := mkOrder {
  order_id : str;
  payout_cents : Z;
  weight_lbs : Z;
  volume_cuft : Z;
  origin : str;
  destination : str;
  pickup_date : date;
  delivery_date : date;
  is_hazmat : bool
}.

(** Value returned for an index outside the list; the optimizer only ever
    indexes [orders] below [len(orders)]. *)
Definition no_order : Order :=
  mkOrder [] 0 0 0 [] []
          (mkDate 0 0 0) (mkDate 0 0 0) false.

#[global] Instance Order_inhabited : Inhabited Order := populate no_order.

(** ** The Unicode character database

    Version 14.0.0, the one CPython 3.11 is built with; [str.strip] and
    [str.lower] read the properties of a code point from it.  A set of
    code points is a list of closed ranges. *)

Module Unicode.

Definition in_ranges (c : N) (ranges : list (N * N)) : bool :=
  existsb (fun r => (fst r <=? c)%N && (c <=? snd r)%N) ranges.

(** The code points [_PyUnicode_IsWhitespace] accepts: general category Zs
    or bidirectional class WS, B or S. *)
Definition whitespace : list (N * N) :=
  [ (0x9, 0xD); (0x1C, 0x20); (0x85, 0x85); (0xA0, 0xA0); (0x1680, 0x1680); (0x2000, 0x200A);
    (0x2028, 0x2029); (0x202F, 0x202F); (0x205F, 0x205F); (0x3000, 0x3000) ]%N.

(** The code points with the flag [CASED_MASK]: the derived property Cased. *)
Definition cased : list (N * N) :=
  [ (0x41, 0x5A); (0x61, 0x7A); (0xAA, 0xAA); (0xB5, 0xB5); (0xBA, 0xBA); (0xC0, 0xD6);
    (0xD8, 0xF6); (0xF8, 0x1BA); (0x1BC, 0x1BF); (0x1C4, 0x293); (0x295, 0x2B8); (0x2C0, 0x2C1);
    (0x2E0, 0x2E4); (0x345, 0x345); (0x370, 0x373); (0x376, 0x377); (0x37A, 0x37D); (0x37F, 0x37F);
    (0x386, 0x386); (0x388, 0x38A); (0x38C, 0x38C); (0x38E, 0x3A1); (0x3A3, 0x3F5); (0x3F7, 0x481);
    (0x48A, 0x52F); (0x531, 0x556); (0x560, 0x588); (0x10A0, 0x10C5); (0x10C7, 0x10C7); (0x10CD, 0x10CD);
    (0x10D0, 0x10FA); (0x10FD, 0x10FF); (0x13A0, 0x13F5); (0x13F8, 0x13FD); (0x1C80, 0x1C88); (0x1C90, 0x1CBA);
    (0x1CBD, 0x1CBF); (0x1D00, 0x1DBF); (0x1E00, 0x1F15); (0x1F18, 0x1F1D); (0x1F20, 0x1F45); (0x1F48, 0x1F4D);
    (0x1F50, 0x1F57); (0x1F59, 0x1F59); (0x1F5B, 0x1F5B); (0x1F5D, 0x1F5D); (0x1F5F, 0x1F7D); (0x1F80, 0x1FB4);
    (0x1FB6, 0x1FBC); (0x1FBE, 0x1FBE); (0x1FC2, 0x1FC4); (0x1FC6, 0x1FCC); (0x1FD0, 0x1FD3); (0x1FD6, 0x1FDB);
    (0x1FE0, 0x1FEC); (0x1FF2, 0x1FF4); (0x1FF6, 0x1FFC); (0x2071, 0x2071); (0x207F, 0x207F); (0x2090, 0x209C);
    (0x2102, 0x2102); (0x2107, 0x2107); (0x210A, 0x2113); (0x2115, 0x2115); (0x2119, 0x211D); (0x2124, 0x2124);
    (0x2126, 0x2126); (0x2128, 0x2128); (0x212A, 0x212D); (0x212F, 0x2134); (0x2139, 0x2139); (0x213C, 0x213F);
    (0x2145, 0x2149); (0x214E, 0x214E); (0x2160, 0x217F); (0x2183, 0x2184); (0x24B6, 0x24E9); (0x2C00, 0x2CE4);
    (0x2CEB, 0x2CEE); (0x2CF2, 0x2CF3); (0x2D00, 0x2D25); (0x2D27, 0x2D27); (0x2D2D, 0x2D2D); (0xA640, 0xA66D);
    (0xA680, 0xA69D); (0xA722, 0xA787); (0xA78B, 0xA78E); (0xA790, 0xA7CA); (0xA7D0, 0xA7D1); (0xA7D3, 0xA7D3);
    (0xA7D5, 0xA7D9); (0xA7F5, 0xA7F6); (0xA7F8, 0xA7FA); (0xAB30, 0xAB5A); (0xAB5C, 0xAB68); (0xAB70, 0xABBF);
    (0xFB00, 0xFB06); (0xFB13, 0xFB17); (0xFF21, 0xFF3A); (0xFF41, 0xFF5A); (0x10400, 0x1044F); (0x104B0, 0x104D3);
    (0x104D8, 0x104FB); (0x10570, 0x1057A); (0x1057C, 0x1058A); (0x1058C, 0x10592); (0x10594, 0x10595); (0x10597, 0x105A1);
    (0x105A3, 0x105B1); (0x105B3, 0x105B9); (0x105BB, 0x105BC); (0x10780, 0x10780); (0x10783, 0x10785); (0x10787, 0x107B0);
    (0x107B2, 0x107BA); (0x10C80, 0x10CB2); (0x10CC0, 0x10CF2); (0x118A0, 0x118DF); (0x16E40, 0x16E7F); (0x1D400, 0x1D454);
    (0x1D456, 0x1D49C); (0x1D49E, 0x1D49F); (0x1D4A2, 0x1D4A2); (0x1D4A5, 0x1D4A6); (0x1D4A9, 0x1D4AC); (0x1D4AE, 0x1D4B9);
    (0x1D4BB, 0x1D4BB); (0x1D4BD, 0x1D4C3); (0x1D4C5, 0x1D505); (0x1D507, 0x1D50A); (0x1D50D, 0x1D514); (0x1D516, 0x1D51C);
    (0x1D51E, 0x1D539); (0x1D53B, 0x1D53E); (0x1D540, 0x1D544); (0x1D546, 0x1D546); (0x1D54A, 0x1D550); (0x1D552, 0x1D6A5);
    (0x1D6A8, 0x1D6C0); (0x1D6C2, 0x1D6DA); (0x1D6DC, 0x1D6FA); (0x1D6FC, 0x1D714); (0x1D716, 0x1D734); (0x1D736, 0x1D74E);
    (0x1D750, 0x1D76E); (0x1D770, 0x1D788); (0x1D78A, 0x1D7A8); (0x1D7AA, 0x1D7C2); (0x1D7C4, 0x1D7CB); (0x1DF00, 0x1DF09);
    (0x1DF0B, 0x1DF1E); (0x1E900, 0x1E943); (0x1F130, 0x1F149); (0x1F150, 0x1F169); (0x1F170, 0x1F189) ]%N.

(** The code points with the flag [CASE_IGNORABLE_MASK]: the derived
    property Case_Ignorable. *)
Definition case_ignorable : list (N * N) :=
  [ (0x27, 0x27); (0x2E, 0x2E); (0x3A, 0x3A); (0x5E, 0x5E); (0x60, 0x60); (0xA8, 0xA8);
    (0xAD, 0xAD); (0xAF, 0xAF); (0xB4, 0xB4); (0xB7, 0xB8); (0x2B0, 0x36F); (0x374, 0x375);
    (0x37A, 0x37A); (0x384, 0x385); (0x387, 0x387); (0x483, 0x489); (0x559, 0x559); (0x55F, 0x55F);
    (0x591, 0x5BD); (0x5BF, 0x5BF); (0x5C1, 0x5C2); (0x5C4, 0x5C5); (0x5C7, 0x5C7); (0x5F4, 0x5F4);
    (0x600, 0x605); (0x610, 0x61A); (0x61C, 0x61C); (0x640, 0x640); (0x64B, 0x65F); (0x670, 0x670);
    (0x6D6, 0x6DD); (0x6DF, 0x6E8); (0x6EA, 0x6ED); (0x70F, 0x70F); (0x711, 0x711); (0x730, 0x74A);
    (0x7A6, 0x7B0); (0x7EB, 0x7F5); (0x7FA, 0x7FA); (0x7FD, 0x7FD); (0x816, 0x82D); (0x859, 0x85B);
    (0x888, 0x888); (0x890, 0x891); (0x898, 0x89F); (0x8C9, 0x902); (0x93A, 0x93A); (0x93C, 0x93C);
    (0x941, 0x948); (0x94D, 0x94D); (0x951, 0x957); (0x962, 0x963); (0x971, 0x971); (0x981, 0x981);
    (0x9BC, 0x9BC); (0x9C1, 0x9C4); (0x9CD, 0x9CD); (0x9E2, 0x9E3); (0x9FE, 0x9FE); (0xA01, 0xA02);
    (0xA3C, 0xA3C); (0xA41, 0xA42); (0xA47, 0xA48); (0xA4B, 0xA4D); (0xA51, 0xA51); (0xA70, 0xA71);
    (0xA75, 0xA75); (0xA81, 0xA82); (0xABC, 0xABC); (0xAC1, 0xAC5); (0xAC7, 0xAC8); (0xACD, 0xACD);
    (0xAE2, 0xAE3); (0xAFA, 0xAFF); (0xB01, 0xB01); (0xB3C, 0xB3C); (0xB3F, 0xB3F); (0xB41, 0xB44);
    (0xB4D, 0xB4D); (0xB55, 0xB56); (0xB62, 0xB63); (0xB82, 0xB82); (0xBC0, 0xBC0); (0xBCD, 0xBCD);
    (0xC00, 0xC00); (0xC04, 0xC04); (0xC3C, 0xC3C); (0xC3E, 0xC40); (0xC46, 0xC48); (0xC4A, 0xC4D);
    (0xC55, 0xC56); (0xC62, 0xC63); (0xC81, 0xC81); (0xCBC, 0xCBC); (0xCBF, 0xCBF); (0xCC6, 0xCC6);
    (0xCCC, 0xCCD); (0xCE2, 0xCE3); (0xD00, 0xD01); (0xD3B, 0xD3C); (0xD41, 0xD44); (0xD4D, 0xD4D);
    (0xD62, 0xD63); (0xD81, 0xD81); (0xDCA, 0xDCA); (0xDD2, 0xDD4); (0xDD6, 0xDD6); (0xE31, 0xE31);
    (0xE34, 0xE3A); (0xE46, 0xE4E); (0xEB1, 0xEB1); (0xEB4, 0xEBC); (0xEC6, 0xEC6); (0xEC8, 0xECD);
    (0xF18, 0xF19); (0xF35, 0xF35); (0xF37, 0xF37); (0xF39, 0xF39); (0xF71, 0xF7E); (0xF80, 0xF84);
    (0xF86, 0xF87); (0xF8D, 0xF97); (0xF99, 0xFBC); (0xFC6, 0xFC6); (0x102D, 0x1030); (0x1032, 0x1037);
    (0x1039, 0x103A); (0x103D, 0x103E); (0x1058, 0x1059); (0x105E, 0x1060); (0x1071, 0x1074); (0x1082, 0x1082);
    (0x1085, 0x1086); (0x108D, 0x108D); (0x109D, 0x109D); (0x10FC, 0x10FC); (0x135D, 0x135F); (0x1712, 0x1714);
    (0x1732, 0x1733); (0x1752, 0x1753); (0x1772, 0x1773); (0x17B4, 0x17B5); (0x17B7, 0x17BD); (0x17C6, 0x17C6);
    (0x17C9, 0x17D3); (0x17D7, 0x17D7); (0x17DD, 0x17DD); (0x180B, 0x180F); (0x1843, 0x1843); (0x1885, 0x1886);
    (0x18A9, 0x18A9); (0x1920, 0x1922); (0x1927, 0x1928); (0x1932, 0x1932); (0x1939, 0x193B); (0x1A17, 0x1A18);
    (0x1A1B, 0x1A1B); (0x1A56, 0x1A56); (0x1A58, 0x1A5E); (0x1A60, 0x1A60); (0x1A62, 0x1A62); (0x1A65, 0x1A6C);
    (0x1A73, 0x1A7C); (0x1A7F, 0x1A7F); (0x1AA7, 0x1AA7); (0x1AB0, 0x1ACE); (0x1B00, 0x1B03); (0x1B34, 0x1B34);
    (0x1B36, 0x1B3A); (0x1B3C, 0x1B3C); (0x1B42, 0x1B42); (0x1B6B, 0x1B73); (0x1B80, 0x1B81); (0x1BA2, 0x1BA5);
    (0x1BA8, 0x1BA9); (0x1BAB, 0x1BAD); (0x1BE6, 0x1BE6); (0x1BE8, 0x1BE9); (0x1BED, 0x1BED); (0x1BEF, 0x1BF1);
    (0x1C2C, 0x1C33); (0x1C36, 0x1C37); (0x1C78, 0x1C7D); (0x1CD0, 0x1CD2); (0x1CD4, 0x1CE0); (0x1CE2, 0x1CE8);
    (0x1CED, 0x1CED); (0x1CF4, 0x1CF4); (0x1CF8, 0x1CF9); (0x1D2C, 0x1D6A); (0x1D78, 0x1D78); (0x1D9B, 0x1DFF);
    (0x1FBD, 0x1FBD); (0x1FBF, 0x1FC1); (0x1FCD, 0x1FCF); (0x1FDD, 0x1FDF); (0x1FED, 0x1FEF); (0x1FFD, 0x1FFE);
    (0x200B, 0x200F); (0x2018, 0x2019); (0x2024, 0x2024); (0x2027, 0x2027); (0x202A, 0x202E); (0x2060, 0x2064);
    (0x2066, 0x206F); (0x2071, 0x2071); (0x207F, 0x207F); (0x2090, 0x209C); (0x20D0, 0x20F0); (0x2C7C, 0x2C7D);
    (0x2CEF, 0x2CF1); (0x2D6F, 0x2D6F); (0x2D7F, 0x2D7F); (0x2DE0, 0x2DFF); (0x2E2F, 0x2E2F); (0x3005, 0x3005);
    (0x302A, 0x302D); (0x3031, 0x3035); (0x303B, 0x303B); (0x3099, 0x309E); (0x30FC, 0x30FE); (0xA015, 0xA015);
    (0xA4F8, 0xA4FD); (0xA60C, 0xA60C); (0xA66F, 0xA672); (0xA674, 0xA67D); (0xA67F, 0xA67F); (0xA69C, 0xA69F);
    (0xA6F0, 0xA6F1); (0xA700, 0xA721); (0xA770, 0xA770); (0xA788, 0xA78A); (0xA7F2, 0xA7F4); (0xA7F8, 0xA7F9);
    (0xA802, 0xA802); (0xA806, 0xA806); (0xA80B, 0xA80B); (0xA825, 0xA826); (0xA82C, 0xA82C); (0xA8C4, 0xA8C5);
    (0xA8E0, 0xA8F1); (0xA8FF, 0xA8FF); (0xA926, 0xA92D); (0xA947, 0xA951); (0xA980, 0xA982); (0xA9B3, 0xA9B3);
    (0xA9B6, 0xA9B9); (0xA9BC, 0xA9BD); (0xA9CF, 0xA9CF); (0xA9E5, 0xA9E6); (0xAA29, 0xAA2E); (0xAA31, 0xAA32);
    (0xAA35, 0xAA36); (0xAA43, 0xAA43); (0xAA4C, 0xAA4C); (0xAA70, 0xAA70); (0xAA7C, 0xAA7C); (0xAAB0, 0xAAB0);
    (0xAAB2, 0xAAB4); (0xAAB7, 0xAAB8); (0xAABE, 0xAABF); (0xAAC1, 0xAAC1); (0xAADD, 0xAADD); (0xAAEC, 0xAAED);
    (0xAAF3, 0xAAF4); (0xAAF6, 0xAAF6); (0xAB5B, 0xAB5F); (0xAB69, 0xAB6B); (0xABE5, 0xABE5); (0xABE8, 0xABE8);
    (0xABED, 0xABED); (0xFB1E, 0xFB1E); (0xFBB2, 0xFBC2); (0xFE00, 0xFE0F); (0xFE13, 0xFE13); (0xFE20, 0xFE2F);
    (0xFE52, 0xFE52); (0xFE55, 0xFE55); (0xFEFF, 0xFEFF); (0xFF07, 0xFF07); (0xFF0E, 0xFF0E); (0xFF1A, 0xFF1A);
    (0xFF3E, 0xFF3E); (0xFF40, 0xFF40); (0xFF70, 0xFF70); (0xFF9E, 0xFF9F); (0xFFE3, 0xFFE3); (0xFFF9, 0xFFFB);
    (0x101FD, 0x101FD); (0x102E0, 0x102E0); (0x10376, 0x1037A); (0x10780, 0x10785); (0x10787, 0x107B0); (0x107B2, 0x107BA);
    (0x10A01, 0x10A03); (0x10A05, 0x10A06); (0x10A0C, 0x10A0F); (0x10A38, 0x10A3A); (0x10A3F, 0x10A3F); (0x10AE5, 0x10AE6);
    (0x10D24, 0x10D27); (0x10EAB, 0x10EAC); (0x10F46, 0x10F50); (0x10F82, 0x10F85); (0x11001, 0x11001); (0x11038, 0x11046);
    (0x11070, 0x11070); (0x11073, 0x11074); (0x1107F, 0x11081); (0x110B3, 0x110B6); (0x110B9, 0x110BA); (0x110BD, 0x110BD);
    (0x110C2, 0x110C2); (0x110CD, 0x110CD); (0x11100, 0x11102); (0x11127, 0x1112B); (0x1112D, 0x11134); (0x11173, 0x11173);
    (0x11180, 0x11181); (0x111B6, 0x111BE); (0x111C9, 0x111CC); (0x111CF, 0x111CF); (0x1122F, 0x11231); (0x11234, 0x11234);
    (0x11236, 0x11237); (0x1123E, 0x1123E); (0x112DF, 0x112DF); (0x112E3, 0x112EA); (0x11300, 0x11301); (0x1133B, 0x1133C);
    (0x11340, 0x11340); (0x11366, 0x1136C); (0x11370, 0x11374); (0x11438, 0x1143F); (0x11442, 0x11444); (0x11446, 0x11446);
    (0x1145E, 0x1145E); (0x114B3, 0x114B8); (0x114BA, 0x114BA); (0x114BF, 0x114C0); (0x114C2, 0x114C3); (0x115B2, 0x115B5);
    (0x115BC, 0x115BD); (0x115BF, 0x115C0); (0x115DC, 0x115DD); (0x11633, 0x1163A); (0x1163D, 0x1163D); (0x1163F, 0x11640);
    (0x116AB, 0x116AB); (0x116AD, 0x116AD); (0x116B0, 0x116B5); (0x116B7, 0x116B7); (0x1171D, 0x1171F); (0x11722, 0x11725);
    (0x11727, 0x1172B); (0x1182F, 0x11837); (0x11839, 0x1183A); (0x1193B, 0x1193C); (0x1193E, 0x1193E); (0x11943, 0x11943);
    (0x119D4, 0x119D7); (0x119DA, 0x119DB); (0x119E0, 0x119E0); (0x11A01, 0x11A0A); (0x11A33, 0x11A38); (0x11A3B, 0x11A3E);
    (0x11A47, 0x11A47); (0x11A51, 0x11A56); (0x11A59, 0x11A5B); (0x11A8A, 0x11A96); (0x11A98, 0x11A99); (0x11C30, 0x11C36);
    (0x11C38, 0x11C3D); (0x11C3F, 0x11C3F); (0x11C92, 0x11CA7); (0x11CAA, 0x11CB0); (0x11CB2, 0x11CB3); (0x11CB5, 0x11CB6);
    (0x11D31, 0x11D36); (0x11D3A, 0x11D3A); (0x11D3C, 0x11D3D); (0x11D3F, 0x11D45); (0x11D47, 0x11D47); (0x11D90, 0x11D91);
    (0x11D95, 0x11D95); (0x11D97, 0x11D97); (0x11EF3, 0x11EF4); (0x13430, 0x13438); (0x16AF0, 0x16AF4); (0x16B30, 0x16B36);
    (0x16B40, 0x16B43); (0x16F4F, 0x16F4F); (0x16F8F, 0x16F9F); (0x16FE0, 0x16FE1); (0x16FE3, 0x16FE4); (0x1AFF0, 0x1AFF3);
    (0x1AFF5, 0x1AFFB); (0x1AFFD, 0x1AFFE); (0x1BC9D, 0x1BC9E); (0x1BCA0, 0x1BCA3); (0x1CF00, 0x1CF2D); (0x1CF30, 0x1CF46);
    (0x1D167, 0x1D169); (0x1D173, 0x1D182); (0x1D185, 0x1D18B); (0x1D1AA, 0x1D1AD); (0x1D242, 0x1D244); (0x1DA00, 0x1DA36);
    (0x1DA3B, 0x1DA6C); (0x1DA75, 0x1DA75); (0x1DA84, 0x1DA84); (0x1DA9B, 0x1DA9F); (0x1DAA1, 0x1DAAF); (0x1E000, 0x1E006);
    (0x1E008, 0x1E018); (0x1E01B, 0x1E021); (0x1E023, 0x1E024); (0x1E026, 0x1E02A); (0x1E130, 0x1E13D); (0x1E2AE, 0x1E2AE);
    (0x1E2EC, 0x1E2EF); (0x1E8D0, 0x1E8D6); (0x1E944, 0x1E94B); (0x1F3FB, 0x1F3FF); (0xE0001, 0xE0001); (0xE0020, 0xE007F);
    (0xE0100, 0xE01EF) ]%N.

(** The type records with a non-zero [lower] field, one entry per run of
    code points [lo, lo + step, ..., hi] that share the field; U+0130, the
    one code point with an extended mapping, is handled apart. *)
Definition lower_records : list (N * N * N * Z) :=
  [ (0x41, 0x5A, 1, 32%Z); (0xC0, 0xD6, 1, 32%Z); (0xD8, 0xDE, 1, 32%Z); (0x100, 0x12E, 2, 1%Z);
    (0x132, 0x136, 2, 1%Z); (0x139, 0x147, 2, 1%Z); (0x14A, 0x176, 2, 1%Z); (0x178, 0x178, 1, -121%Z);
    (0x179, 0x17D, 2, 1%Z); (0x181, 0x181, 1, 210%Z); (0x182, 0x184, 2, 1%Z); (0x186, 0x186, 1, 206%Z);
    (0x187, 0x187, 1, 1%Z); (0x189, 0x18A, 1, 205%Z); (0x18B, 0x18B, 1, 1%Z); (0x18E, 0x18E, 1, 79%Z);
    (0x18F, 0x18F, 1, 202%Z); (0x190, 0x190, 1, 203%Z); (0x191, 0x191, 1, 1%Z); (0x193, 0x193, 1, 205%Z);
    (0x194, 0x194, 1, 207%Z); (0x196, 0x196, 1, 211%Z); (0x197, 0x197, 1, 209%Z); (0x198, 0x198, 1, 1%Z);
    (0x19C, 0x19C, 1, 211%Z); (0x19D, 0x19D, 1, 213%Z); (0x19F, 0x19F, 1, 214%Z); (0x1A0, 0x1A4, 2, 1%Z);
    (0x1A6, 0x1A6, 1, 218%Z); (0x1A7, 0x1A7, 1, 1%Z); (0x1A9, 0x1A9, 1, 218%Z); (0x1AC, 0x1AC, 1, 1%Z);
    (0x1AE, 0x1AE, 1, 218%Z); (0x1AF, 0x1AF, 1, 1%Z); (0x1B1, 0x1B2, 1, 217%Z); (0x1B3, 0x1B5, 2, 1%Z);
    (0x1B7, 0x1B7, 1, 219%Z); (0x1B8, 0x1B8, 1, 1%Z); (0x1BC, 0x1BC, 1, 1%Z); (0x1C4, 0x1C4, 1, 2%Z);
    (0x1C5, 0x1C5, 1, 1%Z); (0x1C7, 0x1C7, 1, 2%Z); (0x1C8, 0x1C8, 1, 1%Z); (0x1CA, 0x1CA, 1, 2%Z);
    (0x1CB, 0x1DB, 2, 1%Z); (0x1DE, 0x1EE, 2, 1%Z); (0x1F1, 0x1F1, 1, 2%Z); (0x1F2, 0x1F4, 2, 1%Z);
    (0x1F6, 0x1F6, 1, -97%Z); (0x1F7, 0x1F7, 1, -56%Z); (0x1F8, 0x21E, 2, 1%Z); (0x220, 0x220, 1, -130%Z);
    (0x222, 0x232, 2, 1%Z); (0x23A, 0x23A, 1, 10795%Z); (0x23B, 0x23B, 1, 1%Z); (0x23D, 0x23D, 1, -163%Z);
    (0x23E, 0x23E, 1, 10792%Z); (0x241, 0x241, 1, 1%Z); (0x243, 0x243, 1, -195%Z); (0x244, 0x244, 1, 69%Z);
    (0x245, 0x245, 1, 71%Z); (0x246, 0x24E, 2, 1%Z); (0x370, 0x372, 2, 1%Z); (0x376, 0x376, 1, 1%Z);
    (0x37F, 0x37F, 1, 116%Z); (0x386, 0x386, 1, 38%Z); (0x388, 0x38A, 1, 37%Z); (0x38C, 0x38C, 1, 64%Z);
    (0x38E, 0x38F, 1, 63%Z); (0x391, 0x3A1, 1, 32%Z); (0x3A3, 0x3AB, 1, 32%Z); (0x3CF, 0x3CF, 1, 8%Z);
    (0x3D8, 0x3EE, 2, 1%Z); (0x3F4, 0x3F4, 1, -60%Z); (0x3F7, 0x3F7, 1, 1%Z); (0x3F9, 0x3F9, 1, -7%Z);
    (0x3FA, 0x3FA, 1, 1%Z); (0x3FD, 0x3FF, 1, -130%Z); (0x400, 0x40F, 1, 80%Z); (0x410, 0x42F, 1, 32%Z);
    (0x460, 0x480, 2, 1%Z); (0x48A, 0x4BE, 2, 1%Z); (0x4C0, 0x4C0, 1, 15%Z); (0x4C1, 0x4CD, 2, 1%Z);
    (0x4D0, 0x52E, 2, 1%Z); (0x531, 0x556, 1, 48%Z); (0x10A0, 0x10C5, 1, 7264%Z); (0x10C7, 0x10C7, 1, 7264%Z);
    (0x10CD, 0x10CD, 1, 7264%Z); (0x13A0, 0x13EF, 1, 38864%Z); (0x13F0, 0x13F5, 1, 8%Z); (0x1C90, 0x1CBA, 1, -3008%Z);
    (0x1CBD, 0x1CBF, 1, -3008%Z); (0x1E00, 0x1E94, 2, 1%Z); (0x1E9E, 0x1E9E, 1, -7615%Z); (0x1EA0, 0x1EFE, 2, 1%Z);
    (0x1F08, 0x1F0F, 1, -8%Z); (0x1F18, 0x1F1D, 1, -8%Z); (0x1F28, 0x1F2F, 1, -8%Z); (0x1F38, 0x1F3F, 1, -8%Z);
    (0x1F48, 0x1F4D, 1, -8%Z); (0x1F59, 0x1F5F, 2, -8%Z); (0x1F68, 0x1F6F, 1, -8%Z); (0x1F88, 0x1F8F, 1, -8%Z);
    (0x1F98, 0x1F9F, 1, -8%Z); (0x1FA8, 0x1FAF, 1, -8%Z); (0x1FB8, 0x1FB9, 1, -8%Z); (0x1FBA, 0x1FBB, 1, -74%Z);
    (0x1FBC, 0x1FBC, 1, -9%Z); (0x1FC8, 0x1FCB, 1, -86%Z); (0x1FCC, 0x1FCC, 1, -9%Z); (0x1FD8, 0x1FD9, 1, -8%Z);
    (0x1FDA, 0x1FDB, 1, -100%Z); (0x1FE8, 0x1FE9, 1, -8%Z); (0x1FEA, 0x1FEB, 1, -112%Z); (0x1FEC, 0x1FEC, 1, -7%Z);
    (0x1FF8, 0x1FF9, 1, -128%Z); (0x1FFA, 0x1FFB, 1, -126%Z); (0x1FFC, 0x1FFC, 1, -9%Z); (0x2126, 0x2126, 1, -7517%Z);
    (0x212A, 0x212A, 1, -8383%Z); (0x212B, 0x212B, 1, -8262%Z); (0x2132, 0x2132, 1, 28%Z); (0x2160, 0x216F, 1, 16%Z);
    (0x2183, 0x2183, 1, 1%Z); (0x24B6, 0x24CF, 1, 26%Z); (0x2C00, 0x2C2F, 1, 48%Z); (0x2C60, 0x2C60, 1, 1%Z);
    (0x2C62, 0x2C62, 1, -10743%Z); (0x2C63, 0x2C63, 1, -3814%Z); (0x2C64, 0x2C64, 1, -10727%Z); (0x2C67, 0x2C6B, 2, 1%Z);
    (0x2C6D, 0x2C6D, 1, -10780%Z); (0x2C6E, 0x2C6E, 1, -10749%Z); (0x2C6F, 0x2C6F, 1, -10783%Z); (0x2C70, 0x2C70, 1, -10782%Z);
    (0x2C72, 0x2C72, 1, 1%Z); (0x2C75, 0x2C75, 1, 1%Z); (0x2C7E, 0x2C7F, 1, -10815%Z); (0x2C80, 0x2CE2, 2, 1%Z);
    (0x2CEB, 0x2CED, 2, 1%Z); (0x2CF2, 0x2CF2, 1, 1%Z); (0xA640, 0xA66C, 2, 1%Z); (0xA680, 0xA69A, 2, 1%Z);
    (0xA722, 0xA72E, 2, 1%Z); (0xA732, 0xA76E, 2, 1%Z); (0xA779, 0xA77B, 2, 1%Z); (0xA77D, 0xA77D, 1, -35332%Z);
    (0xA77E, 0xA786, 2, 1%Z); (0xA78B, 0xA78B, 1, 1%Z); (0xA78D, 0xA78D, 1, -42280%Z); (0xA790, 0xA792, 2, 1%Z);
    (0xA796, 0xA7A8, 2, 1%Z); (0xA7AA, 0xA7AA, 1, -42308%Z); (0xA7AB, 0xA7AB, 1, -42319%Z); (0xA7AC, 0xA7AC, 1, -42315%Z);
    (0xA7AD, 0xA7AD, 1, -42305%Z); (0xA7AE, 0xA7AE, 1, -42308%Z); (0xA7B0, 0xA7B0, 1, -42258%Z); (0xA7B1, 0xA7B1, 1, -42282%Z);
    (0xA7B2, 0xA7B2, 1, -42261%Z); (0xA7B3, 0xA7B3, 1, 928%Z); (0xA7B4, 0xA7C2, 2, 1%Z); (0xA7C4, 0xA7C4, 1, -48%Z);
    (0xA7C5, 0xA7C5, 1, -42307%Z); (0xA7C6, 0xA7C6, 1, -35384%Z); (0xA7C7, 0xA7C9, 2, 1%Z); (0xA7D0, 0xA7D0, 1, 1%Z);
    (0xA7D6, 0xA7D8, 2, 1%Z); (0xA7F5, 0xA7F5, 1, 1%Z); (0xFF21, 0xFF3A, 1, 32%Z); (0x10400, 0x10427, 1, 40%Z);
    (0x104B0, 0x104D3, 1, 40%Z); (0x10570, 0x1057A, 1, 39%Z); (0x1057C, 0x1058A, 1, 39%Z); (0x1058C, 0x10592, 1, 39%Z);
    (0x10594, 0x10595, 1, 39%Z); (0x10C80, 0x10CB2, 1, 64%Z); (0x118A0, 0x118BF, 1, 32%Z); (0x16E40, 0x16E5F, 1, 32%Z);
    (0x1E900, 0x1E921, 1, 34%Z) ]%N.

(** The code points [_PyUnicode_ToDecimalDigit] accepts, general category
    Nd: every run starts at a digit zero and goes through the ten digits,
    once or several times. *)
Definition decimal_digits : list (N * N) :=
  [ (0x30, 0x39); (0x660, 0x669); (0x6F0, 0x6F9); (0x7C0, 0x7C9); (0x966, 0x96F); (0x9E6, 0x9EF);
    (0xA66, 0xA6F); (0xAE6, 0xAEF); (0xB66, 0xB6F); (0xBE6, 0xBEF); (0xC66, 0xC6F); (0xCE6, 0xCEF);
    (0xD66, 0xD6F); (0xDE6, 0xDEF); (0xE50, 0xE59); (0xED0, 0xED9); (0xF20, 0xF29); (0x1040, 0x1049);
    (0x1090, 0x1099); (0x17E0, 0x17E9); (0x1810, 0x1819); (0x1946, 0x194F); (0x19D0, 0x19D9); (0x1A80, 0x1A89);
    (0x1A90, 0x1A99); (0x1B50, 0x1B59); (0x1BB0, 0x1BB9); (0x1C40, 0x1C49); (0x1C50, 0x1C59); (0xA620, 0xA629);
    (0xA8D0, 0xA8D9); (0xA900, 0xA909); (0xA9D0, 0xA9D9); (0xA9F0, 0xA9F9); (0xAA50, 0xAA59); (0xABF0, 0xABF9);
    (0xFF10, 0xFF19); (0x104A0, 0x104A9); (0x10D30, 0x10D39); (0x11066, 0x1106F); (0x110F0, 0x110F9); (0x11136, 0x1113F);
    (0x111D0, 0x111D9); (0x112F0, 0x112F9); (0x11450, 0x11459); (0x114D0, 0x114D9); (0x11650, 0x11659); (0x116C0, 0x116C9);
    (0x11730, 0x11739); (0x118E0, 0x118E9); (0x11950, 0x11959); (0x11C50, 0x11C59); (0x11D50, 0x11D59); (0x11DA0, 0x11DA9);
    (0x16A60, 0x16A69); (0x16AC0, 0x16AC9); (0x16B50, 0x16B59); (0x1D7CE, 0x1D7FF); (0x1E140, 0x1E149); (0x1E2F0, 0x1E2F9);
    (0x1E950, 0x1E959); (0x1FBF0, 0x1FBF9) ]%N.

(** [_PyUnicode_ToDecimalDigit(c)] *)
Definition to_decimal (c : N) : option N :=
  match find (fun r => (fst r <=? c)%N && (c <=? snd r)%N) decimal_digits with
  | Some r => Some ((c - fst r) mod 10)%N
  | None => None
  end.

Definition isspace (c : N) : bool := in_ranges c whitespace.
Definition is_cased (c : N) : bool := in_ranges c cased.
Definition is_case_ignorable (c : N) : bool := in_ranges c case_ignorable.

Definition in_record (c : N) (r : N * N * N * Z) : bool :=
  let '(lo, hi, step, _) := r in
  ((lo <=? c) && (c <=? hi) && ((c - lo) mod step =? 0))%N.

(** [ctype->lower] of the type record of [c]. *)
Definition lower_delta (c : N) : Z :=
  match find (in_record c) lower_records with
  | Some (_, _, _, d) => d
  | None => 0
  end.

End Unicode.

(** ** Python built-ins used by the checks *)

Module Py.

(** [a < b] on dates. *)
Definition date_ltb (a b : date) : bool :=
  (year a <? year b)
  || ((year a =? year b)
      && ((month a <? month b)
          || ((month a =? month b) && (day a <? day b)))).

(** [a <= b] on dates. *)
Definition date_leb (a b : date) : bool := negb (date_ltb b a).

(** [max(a, b)]: the first argument is kept unless the second is
    strictly greater. *)
Definition max (a b : date) : date := if date_ltb a b then b else a.

(** [min(a, b)]: the first argument is kept unless the second is
    strictly smaller. *)
Definition min (a b : date) : date := if date_ltb b a then b else a.

Definition isspace (c : N) : bool := Unicode.isspace c.

(** [_PyUnicode_ToLowerFull(ch, res)]: the extended mapping of U+0130, or
    [ch + ctype->lower]. *)
Definition to_lower_full (ch : N) : list N :=
  if (ch =? 0x130)%N then [0x69; 0x307]%N
  else [Z.to_N (Z.of_N ch + Unicode.lower_delta ch)].

(** The backward loop of [handle_capital_sigma], [for (j = i - 1; j >= 0;
    j--)]: the nearest character before index [j] that is not
    case-ignorable, if there is one. *)
Fixpoint before_sigma (data : str) (j : nat) : option N :=
  match j with
  | O => None
  | S j' =>
      let c := data !!! j' in
      if Unicode.is_case_ignorable c then before_sigma data j' else Some c
  end.

(** The forward loop, [for (j = i + 1; j < length; j++)]: the nearest
    character from index [j] on that is not case-ignorable; [n] positions
    are left. *)
Fixpoint after_sigma (data : str) (j n : nat) : option N :=
  match n with
  | O => None
  | S n' =>
      let c := data !!! j in
      if Unicode.is_case_ignorable c then after_sigma data (S j) n' else Some c
  end.

(** [handle_capital_sigma(kind, data, length, i)]: the final or the
    medial small sigma. *)
Definition handle_capital_sigma (data : str) (i : nat) : N :=
  let final_sigma :=
    match before_sigma data i with
    | Some c => Unicode.is_cased c
    | None => false
    end in
  let final_sigma :=
    if final_sigma then
      match after_sigma data (S i) (length data - S i) with
      | Some c => negb (Unicode.is_cased c)
      | None => true
      end
    else false in
  (if final_sigma then 0x3C2 else 0x3C3)%N.

(** [lower_ucs4(kind, data, length, i, c, mapped)] *)
Definition lower_ucs4 (data : str) (i : nat) (c : N) : list N :=
  if (c =? 0x3A3)%N then [handle_capital_sigma data i] else to_lower_full c.

(** [s.lower()]: [do_lower] maps every character in turn (the shortcut
    for ASCII strings gives the same). *)
Definition lower (s : str) : str := concat (imap (lower_ucs4 s) s).

Fixpoint lstrip (s : str) : str :=
  match s with
  | [] => []
  | c :: s' => if isspace c then lstrip s' else s
  end.

Fixpoint rstrip (s : str) : str :=
  match s with
  | [] => []
  | c :: s' =>
      match rstrip s' with
      | [] => if isspace c then [] else [c]
      | r => c :: r
      end
  end.

(** [s.strip()] with no argument. *)
Definition strip (s : str) : str := rstrip (lstrip s).

(** [a == b] on two [str]. *)
Fixpoint str_eqb (a b : str) : bool :=
  match a, b with
  | [], [] => true
  | x :: a', y :: b' => (x =? y)%N && str_eqb a' b'
  | _, _ => false
  end.

(** [_PyUnicode_TransformDecimalAndSpaceToASCII]: an ASCII string is kept;
    in another one every whitespace becomes a space and every decimal
    digit its ASCII digit, up to the first character above U+007E that is
    neither, which becomes a question mark and ends the string. *)
Fixpoint transform_chars (s : str) : str :=
  match s with
  | [] => []
  | c :: s' =>
      if (c <? 127)%N then c :: transform_chars s'
      else if isspace c then 32%N :: transform_chars s'
      else match Unicode.to_decimal c with
           | Some d => (48 + d)%N :: transform_chars s'
           | None => [63%N]
           end
  end.

Definition transform_decimal_and_space (s : str) : str :=
  if forallb (fun c => (c <? 128)%N) s then s else transform_chars s.

(** [Py_ISSPACE] on a byte of the buffer. *)
Definition Py_ISSPACE (c : N) : bool := ((9 <=? c) && (c <=? 13) || (c =? 32))%N.

Fixpoint skip_space (s : str) : str :=
  match s with
  | [] => []
  | c :: s' => if Py_ISSPACE c then skip_space s' else s
  end.

(** The scan of [PyLong_FromString] in base 10: digits with single
    underscores between them; [None] for two underscores in a row or one
    at the end, else the number of digits, their value and the rest. *)
Fixpoint scan_digits (s : str) (prev_underscore : bool) (digits : nat) (value : Z)
  : option (nat * Z * str) :=
  match s with
  | [] => if prev_underscore then None else Some (digits, value, [])
  | c :: s' =>
      if (c =? 95)%N then
        if prev_underscore then None else scan_digits s' true digits value
      else if ((48 <=? c) && (c <=? 57))%N then
        scan_digits s' false (S digits) (10 * value + (Z.of_N c - 48))
      else if prev_underscore then None else Some (digits, value, s)
  end.

(** [int(s)] on a [str]: [None] is [ValueError].  Whitespace around, a
    sign, at least one digit; more than 4300 digits are refused (the
    default of [sys.get_int_max_str_digits()]). *)
Definition int (s : str) : option Z :=
  let s := skip_space (transform_decimal_and_space s) in
  let '(sign, s) :=
    match s with
    | 43%N :: s' => (1, s')
    | 45%N :: s' => (-1, s')
    | _ => (1, s)
    end in
  match s with
  | 95%N :: _ => None
  | _ =>
      match scan_digits s false 0 0 with
      | None => None
      | Some (digits, value, rest) =>
          if (digits =? 0)%nat then None
          else if (4300 <? digits)%nat then None
          else match skip_space rest with
               | [] => Some (sign * value)
               | _ => None
               end
      end
  end.

End Py.

(** ** The three compatibility checks (methods of [LoadOptimizer]) *)

Definition _check_time_windows (order1 order2 : Order) : bool :=
  let latest_pickup := Py.max (pickup_date order1) (pickup_date order2) in
  let earliest_delivery := Py.min (delivery_date order1) (delivery_date order2) in
  Py.date_leb latest_pickup earliest_delivery.

Definition _check_same_route (order1 order2 : Order) : bool :=
  let origin_match :=
    Py.str_eqb (Py.lower (Py.strip (origin order1)))
               (Py.lower (Py.strip (origin order2))) in
  let dest_match :=
    Py.str_eqb (Py.lower (Py.strip (destination order1)))
               (Py.lower (Py.strip (destination order2))) in
  origin_match && dest_match.

Definition _check_hazmat_ok (order1 order2 : Order) : bool :=
  Bool.eqb (is_hazmat order1) (is_hazmat order2).

(** The expression bound to [can_combine] in [_build_compatibility_masks]. *)
Definition can_combine (order1 order2 : Order) : bool :=
  _check_same_route order1 order2
  && _check_time_windows order1 order2
  && _check_hazmat_ok order1 order2.

(** ** Bitmask helpers *)

(** [1 << i] *)
Definition bit (i : nat) : Z := Z.shiftl 1 (Z.of_nat i).

(** Truth value of an integer in a condition: non-zero. *)
Definition truthy (z : Z) : bool := negb (z =? 0).

(** [masks[i] |= v] *)
Definition or_at (masks : list Z) (i : nat) (v : Z) : list Z :=
  <[i := Z.lor (masks !!! i) v]> masks.

(** [sum(...)] over integers. *)
Definition sumZ (l : list Z) : Z := foldr Z.add 0 l.

(** ** [LoadOptimizer._build_compatibility_masks] *)

(** Body of the inner loop [for j in range(i + 1, n)]. *)
Definition mask_inner (orders : list Order) (i : nat) (masks : list Z) (j : nat)
  : list Z :=
  if can_combine (orders !!! i) (orders !!! j)
  then or_at (or_at masks i (bit j)) j (bit i)
  else masks.

(** Body of the outer loop [for i in range(n)]. *)
Definition mask_outer (orders : list Order) (masks : list Z) (i : nat) : list Z :=
  let n := length orders in
  foldl (mask_inner orders i) (or_at masks i (bit i)) (seq (S i) (n - S i)).

Definition _build_compatibility_masks (orders : list Order) : list Z :=
  let n := length orders in
  foldl (mask_outer orders) (replicate n 0) (seq 0 n).

(** ** Search order and suffix bound (first half of [optimize]) *)

(** [sorted(xs, key=key, reverse=True)]: Python's sort is stable, also with
    [reverse=True], and a stable sort has one possible result; it is
    computed here by stable insertion. *)
Fixpoint insert_desc (key : nat -> Z) (x : nat) (l : list nat) : list nat :=
  match l with
  | [] => [x]
  | y :: l' => if key x <? key y then y :: insert_desc key x l' else x :: y :: l'
  end.

Definition sorted_desc (key : nat -> Z) (l : list nat) : list nat :=
  foldr (insert_desc key) [] l.

Definition payouts_of (orders : list Order) : list Z := map payout_cents orders.
Definition weights_of (orders : list Order) : list Z := map weight_lbs orders.
Definition volumes_of (orders : list Order) : list Z := map volume_cuft orders.

Definition order_by_value (orders : list Order) : list nat :=
  let payouts := payouts_of orders in
  sorted_desc (fun i => payouts !!! i) (seq 0 (length orders)).

(** The loop [for i in range(n - 1, -1, -1)] filling [suffix_payout]. *)
Definition suffix_payout (orders : list Order) : list Z :=
  let n := length orders in
  let payouts := payouts_of orders in
  let obv := order_by_value orders in
  foldl (fun suffix i =>
           <[i := suffix !!! (S i) + payouts !!! (obv !!! i)]> suffix)
        (replicate (S n) 0) (rev (seq 0 n)).

(** ** The [search] closure *)

(** The captured [best_payout[0]] and [best_selection[0]]. *)
Record incumbent : Type := mkInc {
  best_payout : Z;
  best_selection : list nat
}.

Section Search.

(** Names captured by the closure. *)
Variable n : nat.
Variables payouts weights volumes compat_masks suffix : list Z.
Variable obv : list nat.
Variables max_weight max_volume : Z.

(** [[order_by_value[i] for i in range(idx) if selected_mask & (1 << i)]] *)
Definition chosen (idx : nat) (selected_mask : Z) : list nat :=
  map (fun i => obv !!! i)
      (List.filter (fun i => truthy (Z.land selected_mask (bit i))) (seq 0 idx)).

(** One unit of [fuel] per nested call; [None] when it runs out. *)
Fixpoint search (fuel : nat) (idx : nat)
    (selected_mask curr_payout curr_weight curr_volume valid_orders : Z)
    (best : incumbent) : option incumbent :=
  match fuel with
  | O => None
  | S fuel' =>
      let best :=
        if best_payout best <? curr_payout
        then mkInc curr_payout (chosen idx selected_mask)
        else best in
      if (n <=? idx)%nat then Some best
      else if curr_payout + suffix !!! idx <=? best_payout best then Some best
      else
        let order_idx := obv !!! idx in
        let included :=
          if truthy (Z.land valid_orders (bit order_idx)) then
            let new_weight := curr_weight + weights !!! order_idx in
            let new_volume := curr_volume + volumes !!! order_idx in
            if (new_weight <=? max_weight) && (new_volume <=? max_volume) then
              let new_valid := Z.land valid_orders (compat_masks !!! order_idx) in
              search fuel' (S idx) (Z.lor selected_mask (bit idx))
                     (curr_payout + payouts !!! order_idx)
                     new_weight new_volume new_valid best
            else Some best
          else Some best in
        match included with
        | None => None
        | Some best' =>
            search fuel' (S idx) selected_mask curr_payout
                   curr_weight curr_volume valid_orders best'
        end
  end.

End Search.

(** ** [LoadOptimizer.optimize] *)

(** The incumbent left by the call [search(0, 0, 0, 0, 0, all_orders_valid)]. *)
Definition run_search (truck : Truck) (orders : list Order) : option incumbent :=
  let n := length orders in
  let compat_masks := _build_compatibility_masks orders in
  let payouts := payouts_of orders in
  let weights := weights_of orders in
  let volumes := volumes_of orders in
  let max_weight := max_weight_lbs truck in
  let max_volume := max_volume_cuft truck in
  let obv := order_by_value orders in
  let suffix := suffix_payout orders in
  let all_orders_valid := Z.shiftl 1 (Z.of_nat n) - 1 in
  search n payouts weights volumes compat_masks suffix obv max_weight max_volume
         (S n) 0 0 0 0 0 all_orders_valid (mkInc 0 []).

(** The value of [best_selection[0]] when [optimize] builds its result
    (original-order indices); the empty list on the early return. *)
Definition selection (truck : Truck) (orders : list Order) : option (list nat) :=
  if (length orders =? 0)%nat then Some []
  else option_map best_selection (run_search truck orders).

Definition optimize (truck : Truck) (orders : list Order)
  : option (list str * Z * Z * Z) :=
  if (length orders =? 0)%nat then Some ([], 0, 0, 0)
  else
    match run_search truck orders with
    | None => None
    | Some best =>
        let weights := weights_of orders in
        let volumes := volumes_of orders in
        let selected_ids := map (fun i => order_id (orders !!! i)) (best_selection best) in
        let total_weight := sumZ (map (fun i => weights !!! i) (best_selection best)) in
        let total_volume := sumZ (map (fun i => volumes !!! i) (best_selection best)) in
        Some (selected_ids, best_payout best, total_weight, total_volume)
    end.

(** ** Floating point, as far as [optimize_load] uses it

    A Python [float] is an IEEE 754 binary64 number; the operations are the
    ones of the Standard Library's executable specification. *)

Module PyFloat.

Definition prec : Z := 53.
Definition emax : Z := 1024.

Definition float : Type := spec_float.

Inductive exn : Type := ZeroDivisionError | OverflowError.

Inductive result (A : Type) : Type :=
| Ok (a : A)
| Raise (e : exn).
Arguments Ok {A} a.
Arguments Raise {A} e.

Definition bind {A B : Type} (r : result A) (k : A -> result B) : result B :=
  match r with
  | Ok a => k a
  | Raise e => Raise e
  end.

(** The literal [0.0]. *)
Definition zero : float := S754_zero false.

(** The binary64 number nearest to [a / b] (ties to even) with sign [s],
    for positive integers of any size. *)
Definition div_round (s : bool) (a b : positive) : float :=
  let '(mz, ez, lz) := SFdiv_core_binary prec emax (Zpos a) 0 (Zpos b) 0 in
  binary_round_aux prec emax s mz ez lz.

(** [a / b] on two [int]s: the correctly rounded quotient;
    [ZeroDivisionError] for a zero divisor, [OverflowError] when the
    quotient is too large for a float. *)
Definition int_truediv (a b : Z) : result float :=
  match b with
  | 0 => Raise ZeroDivisionError
  | _ =>
      match a with
      | 0 => Ok (S754_zero (b <? 0))
      | _ =>
          match div_round (xorb (a <? 0) (b <? 0))
                          (Z.to_pos (Z.abs a)) (Z.to_pos (Z.abs b)) with
          | S754_infinity _ => Raise OverflowError
          | q => Ok q
          end
      end
  end.

(** [float(100)] *)
Definition hundred : float := binary_normalize prec emax 100 0 false.

(** [x * 100] for a float [x]: the [int] is converted, then multiplied. *)
Definition mul_100 (x : float) : float := SFmul prec emax x hundred.

(** The integer nearest to [n / q] for [0 < q], ties to even. *)
Definition div_half_even (n q : Z) : Z :=
  let k := n / q in
  let r := n mod q in
  if 2 * r <? q then k
  else if q <? 2 * r then k + 1
  else if Z.even k then k else k + 1.

(** [round(x, 2)]: the exact value of [x] is rounded to two decimals
    (half to even) and the decimal is converted back to the nearest
    float; infinities, NaN and zeros round to themselves. *)
Definition round2 (x : float) : float :=
  match x with
  | S754_finite s m e =>
      let hundredths :=
        match e with
        | Zneg p => div_half_even (Zpos m * 100) (2 ^ Zpos p)
        | _ => Zpos m * 2 ^ e * 100
        end in
      match hundredths with
      | Zpos k => div_round s k 100
      | _ => S754_zero s
      end
  | _ => x
  end.

End PyFloat.

Import PyFloat.

(** ** [optimize_load] *)

(** The returned dict. *)
Record Response : Type := mkResponse {
  resp_truck_id : str;
  selected_order_ids : list str;
  total_payout_cents : Z;
  total_weight_lbs : Z;
  total_volume_cuft : Z;
  utilization_weight_percent : float;
  utilization_volume_percent : float
}.

(** [None]: the search ran out of fuel; [Some (Raise e)]: exception [e]. *)
Definition optimize_load (truck : Truck) (orders : list Order)
  : option (result Response) :=
  match optimize truck orders with
  | None => None
  | Some (selected_ids, total_payout, total_weight, total_volume) =>
      Some (
        bind (if 0 <? max_weight_lbs truck
              then bind (int_truediv total_weight (max_weight_lbs truck))
                        (fun q => Ok (mul_100 q))
              else Ok zero) (fun weight_util =>
        bind (if 0 <? max_volume_cuft truck
              then bind (int_truediv total_volume (max_volume_cuft truck))
                        (fun q => Ok (mul_100 q))
              else Ok zero) (fun volume_util =>
        Ok (mkResponse (truck_id truck) selected_ids total_payout
                       total_weight total_volume
                       (round2 weight_util) (round2 volume_util)))))
  end.

(** ** Request validation ([app/models.py])

    The API layer builds the models before it calls the optimizer.  A
    model is accepted when every field meets the constraint of its [Field]
    and every validator returns; a validator returns its (possibly changed)
    value or raises [ValueError]. *)

Inductive validated (A : Type) : Type :=
| Accepted (a : A)
| Rejected (msg : string).
Arguments Accepted {A} a.
Arguments Rejected {A} msg.

(** [Field(..., min_length=1)] on a [str]. *)
Definition min_length_1 (s : str) : bool := (1 <=? length s)%nat.

(** The [Field] constraints of [Truck]. *)
Definition Truck_fields (t : Truck) : bool :=
  min_length_1 (truck_id t) && (0 <? max_weight_lbs t) && (0 <? max_volume_cuft t).

(** The [Field] constraints of [Order]. *)
Definition Order_fields (o : Order) : bool :=
  min_length_1 (order_id o) && (0 <=? payout_cents o)
  && (0 <? weight_lbs o) && (0 <? volume_cuft o)
  && min_length_1 (origin o) && min_length_1 (destination o).

(** [Order.check_dates_make_sense(cls, v, info)]; [pickup] is
    [info.data['pickup_date']] when [info.data] has that key. *)
Definition check_dates_make_sense (v : date) (pickup : option date) : validated date :=
  match pickup with
  | Some p =>
      if Py.date_ltb v p
      then Rejected "delivery_date must be on or after pickup_date"
      else Accepted v
  | None => Accepted v
  end.

(** [OptimizeRequest.not_too_many_orders(cls, v)] *)
Definition not_too_many_orders (v : list Order) : validated (list Order) :=
  if (50 <? length v)%nat
  then Rejected "Too many orders - maximum is 50"
  else Accepted v.

Definition validate_Truck (t : Truck) : validated Truck :=
  if Truck_fields t then Accepted t else Rejected "Truck".

(** Building an [Order]: the fields, then the validator of [delivery_date],
    whose result becomes the field. *)
Definition validate_Order (o : Order) : validated Order :=
  if Order_fields o then
    match check_dates_make_sense (delivery_date o) (Some (pickup_date o)) with
    | Accepted v =>
        Accepted (mkOrder (order_id o) (payout_cents o) (weight_lbs o) (volume_cuft o)
                          (origin o) (destination o) (pickup_date o) v (is_hazmat o))
    | Rejected msg => Rejected msg
    end
  else Rejected "Order".

Fixpoint validate_orders (l : list Order) : validated (list Order) :=
  match l with
  | [] => Accepted []
  | o :: l' =>
      match validate_Order o, validate_orders l' with
      | Accepted o', Accepted l'' => Accepted (o' :: l'')
      | Rejected msg, _ => Rejected msg
      | _, Rejected msg => Rejected msg
      end
  end.

Record OptimizeRequest : Type := mkRequest {
  req_truck : Truck;
  req_orders : list Order
}.

(** Building an [OptimizeRequest]: the truck, the orders one by one, then
    the validator of [orders] on the list of validated orders. *)
Definition validate_OptimizeRequest (r : OptimizeRequest) : validated OptimizeRequest :=
  match validate_Truck (req_truck r), validate_orders (req_orders r) with
  | Accepted t, Accepted l =>
      match not_too_many_orders l with
      | Accepted l' => Accepted (mkRequest t l')
      | Rejected msg => Rejected msg
      end
  | Rejected msg, _ => Rejected msg
  | _, Rejected msg => Rejected msg
  end.

(** ** The endpoint ([app/main.py]) *)

Inductive http_response : Type :=
| Http200 (body : Response)
| Http400 (error : string)
| Http413 (error : string) (max_size_bytes : Z)
| Http500 (detail : string).

(** What the application reads of a request to the route: the text of the
    [Content-Length] header when the request has one, and the body. *)
Record HttpRequest : Type := mkHttpRequest {
  content_length : option str;
  json_body : OptimizeRequest
}.

Definition MAX_CONTENT_LENGTH : Z := 1 * 1024 * 1024.

(** [optimize_truck_load(request)]: everything inside the [try], the log
    line included, whose [payout_dollars = total_payout_cents / 100] is an
    [int / int] division; any exception becomes a 500.  [None]: the search
    ran out of fuel. *)
Definition optimize_truck_load (request : OptimizeRequest) : option http_response :=
  match optimize_load (req_truck request) (req_orders request) with
  | None => None
  | Some (Ok result) =>
      match int_truediv (total_payout_cents result) 100 with
      | Ok payout_dollars => Some (Http200 result)
      | Raise _ => Some (Http500 "Internal server error")
      end
  | Some (Raise _) => Some (Http500 "Internal server error")
  end.

(** A body on the route: validation failures are answered by
    [handle_validation_error] with a 400, accepted requests go to the
    endpoint. *)
Definition route (request : HttpRequest) : option http_response :=
  match validate_OptimizeRequest (json_body request) with
  | Accepted body => optimize_truck_load body
  | Rejected msg => Some (Http400 "Validation error")
  end.

(** [check_payload_size(request, call_next)]: a header that is there and
    not empty is read with [int]; its [ValueError] is not caught, and the
    server answers an exception of a middleware with a 500. *)
Definition check_payload_size (request : HttpRequest)
    (call_next : HttpRequest -> option http_response) : option http_response :=
  match content_length request with
  | None | Some [] => call_next request
  | Some h =>
      match Py.int h with
      | None => Some (Http500 "Internal Server Error")
      | Some n =>
          if MAX_CONTENT_LENGTH <? n
          then Some (Http413 "Payload too large" MAX_CONTENT_LENGTH)
          else call_next request
      end
  end.

(** A POST to the route: the middleware, then the route. *)
Definition post_optimize (request : HttpRequest) : option http_response :=
  check_payload_size request route.

(** * Specification vocabulary

    The notions the properties below are stated with: what the masks
    encode, what a selection is worth, which selections are candidates, and
    the invariants of the search. *)

(** The relation the masks encode: an order goes with itself, two different
    orders go together when [can_combine] says so. *)
Definition compatible (orders : list Order) (a b : nat) : bool :=
  bool_decide (a = b) || can_combine (orders !!! a) (orders !!! b).

(** Pairs whose bit is final while the loops run: rows below [i] are done,
    and row [i] is done for the columns below [m]. *)
Definition pair_done (i m a b : nat) : Prop :=
  (Nat.min a b < i)%nat \/ (Nat.min a b = i /\ Nat.max a b < m)%nat.

#[local] Instance pair_done_dec i m a b : Decision (pair_done i m a b).
Proof. unfold pair_done. apply _. Defined.

(** The masks while the loops run. *)
Definition masks_state (orders : list Order) (i m : nat) (masks : list Z) : Prop :=
  length masks = length orders /\
  forall a b, (a < length orders)%nat -> (b < length orders)%nat ->
    Z.testbit (masks !!! a) (Z.of_nat b)
    = bool_decide (pair_done i m a b) && compatible orders a b.

(** [a] is placed before [b]: higher key first, equal keys by position in
    the input [range(n)]. *)
Definition before (key : nat -> Z) (a b : nat) : Prop :=
  key b < key a \/ (key a = key b /\ (a < b)%nat).

(** Payout of the candidates at the search positions [i], [i+1], ... *)
Definition rest_payout (orders : list Order) (i : nat) : Z :=
  sumZ (map (fun k => payouts_of orders !!! k) (drop i (order_by_value orders))).

(** Totals of a selection of original-order indices, read from the lists
    [payouts], [weights], [volumes] as the code does. *)
Definition sel_payout (orders : list Order) (sel : list nat) : Z :=
  sumZ (map (fun i => payouts_of orders !!! i) sel).
Definition sel_weight (orders : list Order) (sel : list nat) : Z :=
  sumZ (map (fun i => weights_of orders !!! i) sel).
Definition sel_volume (orders : list Order) (sel : list nat) : Z :=
  sumZ (map (fun i => volumes_of orders !!! i) sel).

(** Every two members of the selection go together. *)
Definition pairwise_compatible (orders : list Order) (sel : list nat) : Prop :=
  forall a b, a ∈ sel -> b ∈ sel -> compatible orders a b = true.

(** The incumbent after the test at the head of [search]. *)
Definition updated (obv : list nat) (idx : nat) (mask cp : Z) (best : incumbent)
  : incumbent :=
  if best_payout best <? cp then mkInc cp (chosen obv idx mask) else best.

(** A selection the optimizer may hold: within both capacities unless
    empty, pairwise compatible, made of orders with a positive payout,
    listed in search order. *)
Definition good_selection (truck : Truck) (orders : list Order) (sel : list nat) : Prop :=
  (sel = [] \/ (sel_weight orders sel <= max_weight_lbs truck
                /\ sel_volume orders sel <= max_volume_cuft truck))
  /\ pairwise_compatible orders sel
  /\ (forall c, c ∈ sel -> 0 < payouts_of orders !!! c)
  /\ sublist sel (order_by_value orders).

Definition good_incumbent (truck : Truck) (orders : list Order) (best : incumbent)
  : Prop :=
  best_payout best = sel_payout orders (best_selection best)
  /\ good_selection truck orders (best_selection best).

(** The arguments of a call describe the selection made so far. *)
Definition good_node (truck : Truck) (orders : list Order)
    (idx : nat) (mask cp cw cv valid : Z) : Prop :=
  let sel := chosen (order_by_value orders) idx mask in
  (idx <= length orders)%nat
  /\ (forall k, (idx <= k)%nat -> Z.testbit mask (Z.of_nat k) = false)
  /\ cp = sel_payout orders sel
  /\ cw = sel_weight orders sel
  /\ cv = sel_volume orders sel
  /\ (forall b, (b < length orders)%nat -> Z.testbit valid (Z.of_nat b) = true ->
                forall c, c ∈ sel -> compatible orders c b = true)
  /\ good_selection truck orders sel.

(** The input contract of the optimizer (the API layer validates it). *)
Definition valid_order (o : Order) : Prop :=
  0 <= payout_cents o /\ 0 < weight_lbs o /\ 0 < volume_cuft o.

Definition preconditions (truck : Truck) (orders : list Order) : Prop :=
  0 < max_weight_lbs truck /\ 0 < max_volume_cuft truck /\ Forall valid_order orders.

(** [ext] is a way to extend the selection of a node: later candidates,
    all still eligible, pairwise compatible, fitting in what is left of
    both capacities. *)
Definition extension (truck : Truck) (orders : list Order)
    (idx : nat) (cw cv valid : Z) (ext : list nat) : Prop :=
  sublist ext (drop idx (order_by_value orders))
  /\ (forall e, e ∈ ext -> Z.testbit valid (Z.of_nat e) = true)
  /\ pairwise_compatible orders ext
  /\ cw + sel_weight orders ext <= max_weight_lbs truck
  /\ cv + sel_volume orders ext <= max_volume_cuft truck.

(** A subset of the orders, as a duplicate-free list of positions. *)
Definition is_subset (orders : list Order) (sel : list nat) : Prop :=
  NoDup sel /\ forall i, i ∈ sel -> (i < length orders)%nat.

(** Totals of a subset, read from the orders themselves. *)
Definition subset_payout (orders : list Order) (sel : list nat) : Z :=
  sumZ (map (fun i => payout_cents (orders !!! i)) sel).
Definition subset_weight (orders : list Order) (sel : list nat) : Z :=
  sumZ (map (fun i => weight_lbs (orders !!! i)) sel).
Definition subset_volume (orders : list Order) (sel : list nat) : Z :=
  sumZ (map (fun i => volume_cuft (orders !!! i)) sel).

Definition feasible (truck : Truck) (orders : list Order) (sel : list nat) : Prop :=
  subset_weight orders sel <= max_weight_lbs truck
  /\ subset_volume orders sel <= max_volume_cuft truck.

(** Every two distinct members pass the three checks. *)
Definition pairwise_can_combine (orders : list Order) (sel : list nat) : Prop :=
  forall a b, a ∈ sel -> b ∈ sel -> a <> b ->
    _check_same_route (orders !!! a) (orders !!! b) = true
    /\ _check_time_windows (orders !!! a) (orders !!! b) = true
    /\ _check_hazmat_ok (orders !!! a) (orders !!! b) = true.

(** The request with [extra] put at position [k]. *)
Definition insert_order (orders : list Order) (k : nat) (extra : Order) : list Order :=
  take k orders ++ extra :: drop k orders.

(** Position, in the extended request, of the order that was at [i]. *)
Definition shift (k i : nat) : nat := if (i <? k)%nat then i else S i.

(** [extra] is dominated by an order of the request: it pays no more, is no
    lighter and no smaller, and whatever it can be combined with, the
    dominating order can. *)
Definition dominated (orders : list Order) (extra : Order) : Prop :=
  exists dom, (dom < length orders)%nat
    /\ payout_cents extra <= payout_cents (orders !!! dom)
    /\ weight_lbs (orders !!! dom) <= weight_lbs extra
    /\ volume_cuft (orders !!! dom) <= volume_cuft extra
    /\ forall j, (j < length orders)%nat -> j <> dom ->
                 can_combine extra (orders !!! j) = true ->
                 can_combine (orders !!! dom) (orders !!! j) = true.

(** Calendar order: earlier or the same day. *)
Definition date_le (a b : date) : Prop :=
  year a < year b
  \/ (year a = year b
      /\ (month a < month b \/ (month a = month b /\ day a <= day b))).

(** The whitespace characters: the controls TAB to CR and FS to US, the
    space, NEL, the no-break space, and the space, line and paragraph
    separators of the other blocks. *)
Definition whitespace_characters : list N :=
  [ 0x9; 0xA; 0xB; 0xC; 0xD; 0x1C; 0x1D; 0x1E; 0x1F; 0x20;
    0x85; 0xA0; 0x1680; 0x2000; 0x2001; 0x2002; 0x2003; 0x2004; 0x2005; 0x2006;
    0x2007; 0x2008; 0x2009; 0x200A; 0x2028; 0x2029; 0x202F; 0x205F; 0x3000 ]%N.

Definition is_whitespace (c : N) : bool := existsb (N.eqb c) whitespace_characters.

Arguments is_whitespace : simpl never.

(** A route string as compared: surrounding whitespace trimmed, letters in
    lower case. *)
Definition normalized (s : str) : str := Py.lower (Py.strip s).

Fixpoint all_space (s : str) : bool :=
  match s with
  | [] => true
  | c :: s' => is_whitespace c && all_space s'
  end.

Definition head_space (s : str) : bool :=
  match s with
  | [] => false
  | c :: _ => is_whitespace c
  end.

Fixpoint last_space (s : str) : bool :=
  match s with
  | [] => false
  | [c] => is_whitespace c
  | _ :: s' => last_space s'
  end.

(** ** Route strings

    What the route check is meant to decide, in terms that do not depend
    on [str.strip] and [str.lower]. *)

(** [t] is [s] without its surrounding whitespace. *)
Definition trimmed (s t : str) : Prop :=
  exists l r, s = l ++ t ++ r
              /\ all_space l = true /\ all_space r = true
              /\ head_space t = false /\ last_space t = false.

(** The simple lowercase mappings of UnicodeData.txt: a code point and its
    lowercase, for every code point that has one other than itself (U+0130
    apart, which SpecialCasing.txt maps to two code points). *)
Definition Simple_Lowercase_Mapping : list (N * N) :=
  [ (0x41, 0x61); (0x42, 0x62); (0x43, 0x63); (0x44, 0x64); (0x45, 0x65); (0x46, 0x66);
    (0x47, 0x67); (0x48, 0x68); (0x49, 0x69); (0x4A, 0x6A); (0x4B, 0x6B); (0x4C, 0x6C);
    (0x4D, 0x6D); (0x4E, 0x6E); (0x4F, 0x6F); (0x50, 0x70); (0x51, 0x71); (0x52, 0x72);
    (0x53, 0x73); (0x54, 0x74); (0x55, 0x75); (0x56, 0x76); (0x57, 0x77); (0x58, 0x78);
    (0x59, 0x79); (0x5A, 0x7A); (0xC0, 0xE0); (0xC1, 0xE1); (0xC2, 0xE2); (0xC3, 0xE3);
    (0xC4, 0xE4); (0xC5, 0xE5); (0xC6, 0xE6); (0xC7, 0xE7); (0xC8, 0xE8); (0xC9, 0xE9);
    (0xCA, 0xEA); (0xCB, 0xEB); (0xCC, 0xEC); (0xCD, 0xED); (0xCE, 0xEE); (0xCF, 0xEF);
    (0xD0, 0xF0); (0xD1, 0xF1); (0xD2, 0xF2); (0xD3, 0xF3); (0xD4, 0xF4); (0xD5, 0xF5);
    (0xD6, 0xF6); (0xD8, 0xF8); (0xD9, 0xF9); (0xDA, 0xFA); (0xDB, 0xFB); (0xDC, 0xFC);
    (0xDD, 0xFD); (0xDE, 0xFE); (0x100, 0x101); (0x102, 0x103); (0x104, 0x105); (0x106, 0x107);
    (0x108, 0x109); (0x10A, 0x10B); (0x10C, 0x10D); (0x10E, 0x10F); (0x110, 0x111); (0x112, 0x113);
    (0x114, 0x115); (0x116, 0x117); (0x118, 0x119); (0x11A, 0x11B); (0x11C, 0x11D); (0x11E, 0x11F);
    (0x120, 0x121); (0x122, 0x123); (0x124, 0x125); (0x126, 0x127); (0x128, 0x129); (0x12A, 0x12B);
    (0x12C, 0x12D); (0x12E, 0x12F); (0x132, 0x133); (0x134, 0x135); (0x136, 0x137); (0x139, 0x13A);
    (0x13B, 0x13C); (0x13D, 0x13E); (0x13F, 0x140); (0x141, 0x142); (0x143, 0x144); (0x145, 0x146);
    (0x147, 0x148); (0x14A, 0x14B); (0x14C, 0x14D); (0x14E, 0x14F); (0x150, 0x151); (0x152, 0x153);
    (0x154, 0x155); (0x156, 0x157); (0x158, 0x159); (0x15A, 0x15B); (0x15C, 0x15D); (0x15E, 0x15F);
    (0x160, 0x161); (0x162, 0x163); (0x164, 0x165); (0x166, 0x167); (0x168, 0x169); (0x16A, 0x16B);
    (0x16C, 0x16D); (0x16E, 0x16F); (0x170, 0x171); (0x172, 0x173); (0x174, 0x175); (0x176, 0x177);
    (0x178, 0xFF); (0x179, 0x17A); (0x17B, 0x17C); (0x17D, 0x17E); (0x181, 0x253); (0x182, 0x183);
    (0x184, 0x185); (0x186, 0x254); (0x187, 0x188); (0x189, 0x256); (0x18A, 0x257); (0x18B, 0x18C);
    (0x18E, 0x1DD); (0x18F, 0x259); (0x190, 0x25B); (0x191, 0x192); (0x193, 0x260); (0x194, 0x263);
    (0x196, 0x269); (0x197, 0x268); (0x198, 0x199); (0x19C, 0x26F); (0x19D, 0x272); (0x19F, 0x275);
    (0x1A0, 0x1A1); (0x1A2, 0x1A3); (0x1A4, 0x1A5); (0x1A6, 0x280); (0x1A7, 0x1A8); (0x1A9, 0x283);
    (0x1AC, 0x1AD); (0x1AE, 0x288); (0x1AF, 0x1B0); (0x1B1, 0x28A); (0x1B2, 0x28B); (0x1B3, 0x1B4);
    (0x1B5, 0x1B6); (0x1B7, 0x292); (0x1B8, 0x1B9); (0x1BC, 0x1BD); (0x1C4, 0x1C6); (0x1C5, 0x1C6);
    (0x1C7, 0x1C9); (0x1C8, 0x1C9); (0x1CA, 0x1CC); (0x1CB, 0x1CC); (0x1CD, 0x1CE); (0x1CF, 0x1D0);
    (0x1D1, 0x1D2); (0x1D3, 0x1D4); (0x1D5, 0x1D6); (0x1D7, 0x1D8); (0x1D9, 0x1DA); (0x1DB, 0x1DC);
    (0x1DE, 0x1DF); (0x1E0, 0x1E1); (0x1E2, 0x1E3); (0x1E4, 0x1E5); (0x1E6, 0x1E7); (0x1E8, 0x1E9);
    (0x1EA, 0x1EB); (0x1EC, 0x1ED); (0x1EE, 0x1EF); (0x1F1, 0x1F3); (0x1F2, 0x1F3); (0x1F4, 0x1F5);
    (0x1F6, 0x195); (0x1F7, 0x1BF); (0x1F8, 0x1F9); (0x1FA, 0x1FB); (0x1FC, 0x1FD); (0x1FE, 0x1FF);
    (0x200, 0x201); (0x202, 0x203); (0x204, 0x205); (0x206, 0x207); (0x208, 0x209); (0x20A, 0x20B);
    (0x20C, 0x20D); (0x20E, 0x20F); (0x210, 0x211); (0x212, 0x213); (0x214, 0x215); (0x216, 0x217);
    (0x218, 0x219); (0x21A, 0x21B); (0x21C, 0x21D); (0x21E, 0x21F); (0x220, 0x19E); (0x222, 0x223);
    (0x224, 0x225); (0x226, 0x227); (0x228, 0x229); (0x22A, 0x22B); (0x22C, 0x22D); (0x22E, 0x22F);
    (0x230, 0x231); (0x232, 0x233); (0x23A, 0x2C65); (0x23B, 0x23C); (0x23D, 0x19A); (0x23E, 0x2C66);
    (0x241, 0x242); (0x243, 0x180); (0x244, 0x289); (0x245, 0x28C); (0x246, 0x247); (0x248, 0x249);
    (0x24A, 0x24B); (0x24C, 0x24D); (0x24E, 0x24F); (0x370, 0x371); (0x372, 0x373); (0x376, 0x377);
    (0x37F, 0x3F3); (0x386, 0x3AC); (0x388, 0x3AD); (0x389, 0x3AE); (0x38A, 0x3AF); (0x38C, 0x3CC);
    (0x38E, 0x3CD); (0x38F, 0x3CE); (0x391, 0x3B1); (0x392, 0x3B2); (0x393, 0x3B3); (0x394, 0x3B4);
    (0x395, 0x3B5); (0x396, 0x3B6); (0x397, 0x3B7); (0x398, 0x3B8); (0x399, 0x3B9); (0x39A, 0x3BA);
    (0x39B, 0x3BB); (0x39C, 0x3BC); (0x39D, 0x3BD); (0x39E, 0x3BE); (0x39F, 0x3BF); (0x3A0, 0x3C0);
    (0x3A1, 0x3C1); (0x3A3, 0x3C3); (0x3A4, 0x3C4); (0x3A5, 0x3C5); (0x3A6, 0x3C6); (0x3A7, 0x3C7);
    (0x3A8, 0x3C8); (0x3A9, 0x3C9); (0x3AA, 0x3CA); (0x3AB, 0x3CB); (0x3CF, 0x3D7); (0x3D8, 0x3D9);
    (0x3DA, 0x3DB); (0x3DC, 0x3DD); (0x3DE, 0x3DF); (0x3E0, 0x3E1); (0x3E2, 0x3E3); (0x3E4, 0x3E5);
    (0x3E6, 0x3E7); (0x3E8, 0x3E9); (0x3EA, 0x3EB); (0x3EC, 0x3ED); (0x3EE, 0x3EF); (0x3F4, 0x3B8);
    (0x3F7, 0x3F8); (0x3F9, 0x3F2); (0x3FA, 0x3FB); (0x3FD, 0x37B); (0x3FE, 0x37C); (0x3FF, 0x37D);
    (0x400, 0x450); (0x401, 0x451); (0x402, 0x452); (0x403, 0x453); (0x404, 0x454); (0x405, 0x455);
    (0x406, 0x456); (0x407, 0x457); (0x408, 0x458); (0x409, 0x459); (0x40A, 0x45A); (0x40B, 0x45B);
    (0x40C, 0x45C); (0x40D, 0x45D); (0x40E, 0x45E); (0x40F, 0x45F); (0x410, 0x430); (0x411, 0x431);
    (0x412, 0x432); (0x413, 0x433); (0x414, 0x434); (0x415, 0x435); (0x416, 0x436); (0x417, 0x437);
    (0x418, 0x438); (0x419, 0x439); (0x41A, 0x43A); (0x41B, 0x43B); (0x41C, 0x43C); (0x41D, 0x43D);
    (0x41E, 0x43E); (0x41F, 0x43F); (0x420, 0x440); (0x421, 0x441); (0x422, 0x442); (0x423, 0x443);
    (0x424, 0x444); (0x425, 0x445); (0x426, 0x446); (0x427, 0x447); (0x428, 0x448); (0x429, 0x449);
    (0x42A, 0x44A); (0x42B, 0x44B); (0x42C, 0x44C); (0x42D, 0x44D); (0x42E, 0x44E); (0x42F, 0x44F);
    (0x460, 0x461); (0x462, 0x463); (0x464, 0x465); (0x466, 0x467); (0x468, 0x469); (0x46A, 0x46B);
    (0x46C, 0x46D); (0x46E, 0x46F); (0x470, 0x471); (0x472, 0x473); (0x474, 0x475); (0x476, 0x477);
    (0x478, 0x479); (0x47A, 0x47B); (0x47C, 0x47D); (0x47E, 0x47F); (0x480, 0x481); (0x48A, 0x48B);
    (0x48C, 0x48D); (0x48E, 0x48F); (0x490, 0x491); (0x492, 0x493); (0x494, 0x495); (0x496, 0x497);
    (0x498, 0x499); (0x49A, 0x49B); (0x49C, 0x49D); (0x49E, 0x49F); (0x4A0, 0x4A1); (0x4A2, 0x4A3);
    (0x4A4, 0x4A5); (0x4A6, 0x4A7); (0x4A8, 0x4A9); (0x4AA, 0x4AB); (0x4AC, 0x4AD); (0x4AE, 0x4AF);
    (0x4B0, 0x4B1); (0x4B2, 0x4B3); (0x4B4, 0x4B5); (0x4B6, 0x4B7); (0x4B8, 0x4B9); (0x4BA, 0x4BB);
    (0x4BC, 0x4BD); (0x4BE, 0x4BF); (0x4C0, 0x4CF); (0x4C1, 0x4C2); (0x4C3, 0x4C4); (0x4C5, 0x4C6);
    (0x4C7, 0x4C8); (0x4C9, 0x4CA); (0x4CB, 0x4CC); (0x4CD, 0x4CE); (0x4D0, 0x4D1); (0x4D2, 0x4D3);
    (0x4D4, 0x4D5); (0x4D6, 0x4D7); (0x4D8, 0x4D9); (0x4DA, 0x4DB); (0x4DC, 0x4DD); (0x4DE, 0x4DF);
    (0x4E0, 0x4E1); (0x4E2, 0x4E3); (0x4E4, 0x4E5); (0x4E6, 0x4E7); (0x4E8, 0x4E9); (0x4EA, 0x4EB);
    (0x4EC, 0x4ED); (0x4EE, 0x4EF); (0x4F0, 0x4F1); (0x4F2, 0x4F3); (0x4F4, 0x4F5); (0x4F6, 0x4F7);
    (0x4F8, 0x4F9); (0x4FA, 0x4FB); (0x4FC, 0x4FD); (0x4FE, 0x4FF); (0x500, 0x501); (0x502, 0x503);
    (0x504, 0x505); (0x506, 0x507); (0x508, 0x509); (0x50A, 0x50B); (0x50C, 0x50D); (0x50E, 0x50F);
    (0x510, 0x511); (0x512, 0x513); (0x514, 0x515); (0x516, 0x517); (0x518, 0x519); (0x51A, 0x51B);
    (0x51C, 0x51D); (0x51E, 0x51F); (0x520, 0x521); (0x522, 0x523); (0x524, 0x525); (0x526, 0x527);
    (0x528, 0x529); (0x52A, 0x52B); (0x52C, 0x52D); (0x52E, 0x52F); (0x531, 0x561); (0x532, 0x562);
    (0x533, 0x563); (0x534, 0x564); (0x535, 0x565); (0x536, 0x566); (0x537, 0x567); (0x538, 0x568);
    (0x539, 0x569); (0x53A, 0x56A); (0x53B, 0x56B); (0x53C, 0x56C); (0x53D, 0x56D); (0x53E, 0x56E);
    (0x53F, 0x56F); (0x540, 0x570); (0x541, 0x571); (0x542, 0x572); (0x543, 0x573); (0x544, 0x574);
    (0x545, 0x575); (0x546, 0x576); (0x547, 0x577); (0x548, 0x578); (0x549, 0x579); (0x54A, 0x57A);
    (0x54B, 0x57B); (0x54C, 0x57C); (0x54D, 0x57D); (0x54E, 0x57E); (0x54F, 0x57F); (0x550, 0x580);
    (0x551, 0x581); (0x552, 0x582); (0x553, 0x583); (0x554, 0x584); (0x555, 0x585); (0x556, 0x586);
    (0x10A0, 0x2D00); (0x10A1, 0x2D01); (0x10A2, 0x2D02); (0x10A3, 0x2D03); (0x10A4, 0x2D04); (0x10A5, 0x2D05);
    (0x10A6, 0x2D06); (0x10A7, 0x2D07); (0x10A8, 0x2D08); (0x10A9, 0x2D09); (0x10AA, 0x2D0A); (0x10AB, 0x2D0B);
    (0x10AC, 0x2D0C); (0x10AD, 0x2D0D); (0x10AE, 0x2D0E); (0x10AF, 0x2D0F); (0x10B0, 0x2D10); (0x10B1, 0x2D11);
    (0x10B2, 0x2D12); (0x10B3, 0x2D13); (0x10B4, 0x2D14); (0x10B5, 0x2D15); (0x10B6, 0x2D16); (0x10B7, 0x2D17);
    (0x10B8, 0x2D18); (0x10B9, 0x2D19); (0x10BA, 0x2D1A); (0x10BB, 0x2D1B); (0x10BC, 0x2D1C); (0x10BD, 0x2D1D);
    (0x10BE, 0x2D1E); (0x10BF, 0x2D1F); (0x10C0, 0x2D20); (0x10C1, 0x2D21); (0x10C2, 0x2D22); (0x10C3, 0x2D23);
    (0x10C4, 0x2D24); (0x10C5, 0x2D25); (0x10C7, 0x2D27); (0x10CD, 0x2D2D); (0x13A0, 0xAB70); (0x13A1, 0xAB71);
    (0x13A2, 0xAB72); (0x13A3, 0xAB73); (0x13A4, 0xAB74); (0x13A5, 0xAB75); (0x13A6, 0xAB76); (0x13A7, 0xAB77);
    (0x13A8, 0xAB78); (0x13A9, 0xAB79); (0x13AA, 0xAB7A); (0x13AB, 0xAB7B); (0x13AC, 0xAB7C); (0x13AD, 0xAB7D);
    (0x13AE, 0xAB7E); (0x13AF, 0xAB7F); (0x13B0, 0xAB80); (0x13B1, 0xAB81); (0x13B2, 0xAB82); (0x13B3, 0xAB83);
    (0x13B4, 0xAB84); (0x13B5, 0xAB85); (0x13B6, 0xAB86); (0x13B7, 0xAB87); (0x13B8, 0xAB88); (0x13B9, 0xAB89);
    (0x13BA, 0xAB8A); (0x13BB, 0xAB8B); (0x13BC, 0xAB8C); (0x13BD, 0xAB8D); (0x13BE, 0xAB8E); (0x13BF, 0xAB8F);
    (0x13C0, 0xAB90); (0x13C1, 0xAB91); (0x13C2, 0xAB92); (0x13C3, 0xAB93); (0x13C4, 0xAB94); (0x13C5, 0xAB95);
    (0x13C6, 0xAB96); (0x13C7, 0xAB97); (0x13C8, 0xAB98); (0x13C9, 0xAB99); (0x13CA, 0xAB9A); (0x13CB, 0xAB9B);
    (0x13CC, 0xAB9C); (0x13CD, 0xAB9D); (0x13CE, 0xAB9E); (0x13CF, 0xAB9F); (0x13D0, 0xABA0); (0x13D1, 0xABA1);
    (0x13D2, 0xABA2); (0x13D3, 0xABA3); (0x13D4, 0xABA4); (0x13D5, 0xABA5); (0x13D6, 0xABA6); (0x13D7, 0xABA7);
    (0x13D8, 0xABA8); (0x13D9, 0xABA9); (0x13DA, 0xABAA); (0x13DB, 0xABAB); (0x13DC, 0xABAC); (0x13DD, 0xABAD);
    (0x13DE, 0xABAE); (0x13DF, 0xABAF); (0x13E0, 0xABB0); (0x13E1, 0xABB1); (0x13E2, 0xABB2); (0x13E3, 0xABB3);
    (0x13E4, 0xABB4); (0x13E5, 0xABB5); (0x13E6, 0xABB6); (0x13E7, 0xABB7); (0x13E8, 0xABB8); (0x13E9, 0xABB9);
    (0x13EA, 0xABBA); (0x13EB, 0xABBB); (0x13EC, 0xABBC); (0x13ED, 0xABBD); (0x13EE, 0xABBE); (0x13EF, 0xABBF);
    (0x13F0, 0x13F8); (0x13F1, 0x13F9); (0x13F2, 0x13FA); (0x13F3, 0x13FB); (0x13F4, 0x13FC); (0x13F5, 0x13FD);
    (0x1C90, 0x10D0); (0x1C91, 0x10D1); (0x1C92, 0x10D2); (0x1C93, 0x10D3); (0x1C94, 0x10D4); (0x1C95, 0x10D5);
    (0x1C96, 0x10D6); (0x1C97, 0x10D7); (0x1C98, 0x10D8); (0x1C99, 0x10D9); (0x1C9A, 0x10DA); (0x1C9B, 0x10DB);
    (0x1C9C, 0x10DC); (0x1C9D, 0x10DD); (0x1C9E, 0x10DE); (0x1C9F, 0x10DF); (0x1CA0, 0x10E0); (0x1CA1, 0x10E1);
    (0x1CA2, 0x10E2); (0x1CA3, 0x10E3); (0x1CA4, 0x10E4); (0x1CA5, 0x10E5); (0x1CA6, 0x10E6); (0x1CA7, 0x10E7);
    (0x1CA8, 0x10E8); (0x1CA9, 0x10E9); (0x1CAA, 0x10EA); (0x1CAB, 0x10EB); (0x1CAC, 0x10EC); (0x1CAD, 0x10ED);
    (0x1CAE, 0x10EE); (0x1CAF, 0x10EF); (0x1CB0, 0x10F0); (0x1CB1, 0x10F1); (0x1CB2, 0x10F2); (0x1CB3, 0x10F3);
    (0x1CB4, 0x10F4); (0x1CB5, 0x10F5); (0x1CB6, 0x10F6); (0x1CB7, 0x10F7); (0x1CB8, 0x10F8); (0x1CB9, 0x10F9);
    (0x1CBA, 0x10FA); (0x1CBD, 0x10FD); (0x1CBE, 0x10FE); (0x1CBF, 0x10FF); (0x1E00, 0x1E01); (0x1E02, 0x1E03);
    (0x1E04, 0x1E05); (0x1E06, 0x1E07); (0x1E08, 0x1E09); (0x1E0A, 0x1E0B); (0x1E0C, 0x1E0D); (0x1E0E, 0x1E0F);
    (0x1E10, 0x1E11); (0x1E12, 0x1E13); (0x1E14, 0x1E15); (0x1E16, 0x1E17); (0x1E18, 0x1E19); (0x1E1A, 0x1E1B);
    (0x1E1C, 0x1E1D); (0x1E1E, 0x1E1F); (0x1E20, 0x1E21); (0x1E22, 0x1E23); (0x1E24, 0x1E25); (0x1E26, 0x1E27);
    (0x1E28, 0x1E29); (0x1E2A, 0x1E2B); (0x1E2C, 0x1E2D); (0x1E2E, 0x1E2F); (0x1E30, 0x1E31); (0x1E32, 0x1E33);
    (0x1E34, 0x1E35); (0x1E36, 0x1E37); (0x1E38, 0x1E39); (0x1E3A, 0x1E3B); (0x1E3C, 0x1E3D); (0x1E3E, 0x1E3F);
    (0x1E40, 0x1E41); (0x1E42, 0x1E43); (0x1E44, 0x1E45); (0x1E46, 0x1E47); (0x1E48, 0x1E49); (0x1E4A, 0x1E4B);
    (0x1E4C, 0x1E4D); (0x1E4E, 0x1E4F); (0x1E50, 0x1E51); (0x1E52, 0x1E53); (0x1E54, 0x1E55); (0x1E56, 0x1E57);
    (0x1E58, 0x1E59); (0x1E5A, 0x1E5B); (0x1E5C, 0x1E5D); (0x1E5E, 0x1E5F); (0x1E60, 0x1E61); (0x1E62, 0x1E63);
    (0x1E64, 0x1E65); (0x1E66, 0x1E67); (0x1E68, 0x1E69); (0x1E6A, 0x1E6B); (0x1E6C, 0x1E6D); (0x1E6E, 0x1E6F);
    (0x1E70, 0x1E71); (0x1E72, 0x1E73); (0x1E74, 0x1E75); (0x1E76, 0x1E77); (0x1E78, 0x1E79); (0x1E7A, 0x1E7B);
    (0x1E7C, 0x1E7D); (0x1E7E, 0x1E7F); (0x1E80, 0x1E81); (0x1E82, 0x1E83); (0x1E84, 0x1E85); (0x1E86, 0x1E87);
    (0x1E88, 0x1E89); (0x1E8A, 0x1E8B); (0x1E8C, 0x1E8D); (0x1E8E, 0x1E8F); (0x1E90, 0x1E91); (0x1E92, 0x1E93);
    (0x1E94, 0x1E95); (0x1E9E, 0xDF); (0x1EA0, 0x1EA1); (0x1EA2, 0x1EA3); (0x1EA4, 0x1EA5); (0x1EA6, 0x1EA7);
    (0x1EA8, 0x1EA9); (0x1EAA, 0x1EAB); (0x1EAC, 0x1EAD); (0x1EAE, 0x1EAF); (0x1EB0, 0x1EB1); (0x1EB2, 0x1EB3);
    (0x1EB4, 0x1EB5); (0x1EB6, 0x1EB7); (0x1EB8, 0x1EB9); (0x1EBA, 0x1EBB); (0x1EBC, 0x1EBD); (0x1EBE, 0x1EBF);
    (0x1EC0, 0x1EC1); (0x1EC2, 0x1EC3); (0x1EC4, 0x1EC5); (0x1EC6, 0x1EC7); (0x1EC8, 0x1EC9); (0x1ECA, 0x1ECB);
    (0x1ECC, 0x1ECD); (0x1ECE, 0x1ECF); (0x1ED0, 0x1ED1); (0x1ED2, 0x1ED3); (0x1ED4, 0x1ED5); (0x1ED6, 0x1ED7);
    (0x1ED8, 0x1ED9); (0x1EDA, 0x1EDB); (0x1EDC, 0x1EDD); (0x1EDE, 0x1EDF); (0x1EE0, 0x1EE1); (0x1EE2, 0x1EE3);
    (0x1EE4, 0x1EE5); (0x1EE6, 0x1EE7); (0x1EE8, 0x1EE9); (0x1EEA, 0x1EEB); (0x1EEC, 0x1EED); (0x1EEE, 0x1EEF);
    (0x1EF0, 0x1EF1); (0x1EF2, 0x1EF3); (0x1EF4, 0x1EF5); (0x1EF6, 0x1EF7); (0x1EF8, 0x1EF9); (0x1EFA, 0x1EFB);
    (0x1EFC, 0x1EFD); (0x1EFE, 0x1EFF); (0x1F08, 0x1F00); (0x1F09, 0x1F01); (0x1F0A, 0x1F02); (0x1F0B, 0x1F03);
    (0x1F0C, 0x1F04); (0x1F0D, 0x1F05); (0x1F0E, 0x1F06); (0x1F0F, 0x1F07); (0x1F18, 0x1F10); (0x1F19, 0x1F11);
    (0x1F1A, 0x1F12); (0x1F1B, 0x1F13); (0x1F1C, 0x1F14); (0x1F1D, 0x1F15); (0x1F28, 0x1F20); (0x1F29, 0x1F21);
    (0x1F2A, 0x1F22); (0x1F2B, 0x1F23); (0x1F2C, 0x1F24); (0x1F2D, 0x1F25); (0x1F2E, 0x1F26); (0x1F2F, 0x1F27);
    (0x1F38, 0x1F30); (0x1F39, 0x1F31); (0x1F3A, 0x1F32); (0x1F3B, 0x1F33); (0x1F3C, 0x1F34); (0x1F3D, 0x1F35);
    (0x1F3E, 0x1F36); (0x1F3F, 0x1F37); (0x1F48, 0x1F40); (0x1F49, 0x1F41); (0x1F4A, 0x1F42); (0x1F4B, 0x1F43);
    (0x1F4C, 0x1F44); (0x1F4D, 0x1F45); (0x1F59, 0x1F51); (0x1F5B, 0x1F53); (0x1F5D, 0x1F55); (0x1F5F, 0x1F57);
    (0x1F68, 0x1F60); (0x1F69, 0x1F61); (0x1F6A, 0x1F62); (0x1F6B, 0x1F63); (0x1F6C, 0x1F64); (0x1F6D, 0x1F65);
    (0x1F6E, 0x1F66); (0x1F6F, 0x1F67); (0x1F88, 0x1F80); (0x1F89, 0x1F81); (0x1F8A, 0x1F82); (0x1F8B, 0x1F83);
    (0x1F8C, 0x1F84); (0x1F8D, 0x1F85); (0x1F8E, 0x1F86); (0x1F8F, 0x1F87); (0x1F98, 0x1F90); (0x1F99, 0x1F91);
    (0x1F9A, 0x1F92); (0x1F9B, 0x1F93); (0x1F9C, 0x1F94); (0x1F9D, 0x1F95); (0x1F9E, 0x1F96); (0x1F9F, 0x1F97);
    (0x1FA8, 0x1FA0); (0x1FA9, 0x1FA1); (0x1FAA, 0x1FA2); (0x1FAB, 0x1FA3); (0x1FAC, 0x1FA4); (0x1FAD, 0x1FA5);
    (0x1FAE, 0x1FA6); (0x1FAF, 0x1FA7); (0x1FB8, 0x1FB0); (0x1FB9, 0x1FB1); (0x1FBA, 0x1F70); (0x1FBB, 0x1F71);
    (0x1FBC, 0x1FB3); (0x1FC8, 0x1F72); (0x1FC9, 0x1F73); (0x1FCA, 0x1F74); (0x1FCB, 0x1F75); (0x1FCC, 0x1FC3);
    (0x1FD8, 0x1FD0); (0x1FD9, 0x1FD1); (0x1FDA, 0x1F76); (0x1FDB, 0x1F77); (0x1FE8, 0x1FE0); (0x1FE9, 0x1FE1);
    (0x1FEA, 0x1F7A); (0x1FEB, 0x1F7B); (0x1FEC, 0x1FE5); (0x1FF8, 0x1F78); (0x1FF9, 0x1F79); (0x1FFA, 0x1F7C);
    (0x1FFB, 0x1F7D); (0x1FFC, 0x1FF3); (0x2126, 0x3C9); (0x212A, 0x6B); (0x212B, 0xE5); (0x2132, 0x214E);
    (0x2160, 0x2170); (0x2161, 0x2171); (0x2162, 0x2172); (0x2163, 0x2173); (0x2164, 0x2174); (0x2165, 0x2175);
    (0x2166, 0x2176); (0x2167, 0x2177); (0x2168, 0x2178); (0x2169, 0x2179); (0x216A, 0x217A); (0x216B, 0x217B);
    (0x216C, 0x217C); (0x216D, 0x217D); (0x216E, 0x217E); (0x216F, 0x217F); (0x2183, 0x2184); (0x24B6, 0x24D0);
    (0x24B7, 0x24D1); (0x24B8, 0x24D2); (0x24B9, 0x24D3); (0x24BA, 0x24D4); (0x24BB, 0x24D5); (0x24BC, 0x24D6);
    (0x24BD, 0x24D7); (0x24BE, 0x24D8); (0x24BF, 0x24D9); (0x24C0, 0x24DA); (0x24C1, 0x24DB); (0x24C2, 0x24DC);
    (0x24C3, 0x24DD); (0x24C4, 0x24DE); (0x24C5, 0x24DF); (0x24C6, 0x24E0); (0x24C7, 0x24E1); (0x24C8, 0x24E2);
    (0x24C9, 0x24E3); (0x24CA, 0x24E4); (0x24CB, 0x24E5); (0x24CC, 0x24E6); (0x24CD, 0x24E7); (0x24CE, 0x24E8);
    (0x24CF, 0x24E9); (0x2C00, 0x2C30); (0x2C01, 0x2C31); (0x2C02, 0x2C32); (0x2C03, 0x2C33); (0x2C04, 0x2C34);
    (0x2C05, 0x2C35); (0x2C06, 0x2C36); (0x2C07, 0x2C37); (0x2C08, 0x2C38); (0x2C09, 0x2C39); (0x2C0A, 0x2C3A);
    (0x2C0B, 0x2C3B); (0x2C0C, 0x2C3C); (0x2C0D, 0x2C3D); (0x2C0E, 0x2C3E); (0x2C0F, 0x2C3F); (0x2C10, 0x2C40);
    (0x2C11, 0x2C41); (0x2C12, 0x2C42); (0x2C13, 0x2C43); (0x2C14, 0x2C44); (0x2C15, 0x2C45); (0x2C16, 0x2C46);
    (0x2C17, 0x2C47); (0x2C18, 0x2C48); (0x2C19, 0x2C49); (0x2C1A, 0x2C4A); (0x2C1B, 0x2C4B); (0x2C1C, 0x2C4C);
    (0x2C1D, 0x2C4D); (0x2C1E, 0x2C4E); (0x2C1F, 0x2C4F); (0x2C20, 0x2C50); (0x2C21, 0x2C51); (0x2C22, 0x2C52);
    (0x2C23, 0x2C53); (0x2C24, 0x2C54); (0x2C25, 0x2C55); (0x2C26, 0x2C56); (0x2C27, 0x2C57); (0x2C28, 0x2C58);
    (0x2C29, 0x2C59); (0x2C2A, 0x2C5A); (0x2C2B, 0x2C5B); (0x2C2C, 0x2C5C); (0x2C2D, 0x2C5D); (0x2C2E, 0x2C5E);
    (0x2C2F, 0x2C5F); (0x2C60, 0x2C61); (0x2C62, 0x26B); (0x2C63, 0x1D7D); (0x2C64, 0x27D); (0x2C67, 0x2C68);
    (0x2C69, 0x2C6A); (0x2C6B, 0x2C6C); (0x2C6D, 0x251); (0x2C6E, 0x271); (0x2C6F, 0x250); (0x2C70, 0x252);
    (0x2C72, 0x2C73); (0x2C75, 0x2C76); (0x2C7E, 0x23F); (0x2C7F, 0x240); (0x2C80, 0x2C81); (0x2C82, 0x2C83);
    (0x2C84, 0x2C85); (0x2C86, 0x2C87); (0x2C88, 0x2C89); (0x2C8A, 0x2C8B); (0x2C8C, 0x2C8D); (0x2C8E, 0x2C8F);
    (0x2C90, 0x2C91); (0x2C92, 0x2C93); (0x2C94, 0x2C95); (0x2C96, 0x2C97); (0x2C98, 0x2C99); (0x2C9A, 0x2C9B);
    (0x2C9C, 0x2C9D); (0x2C9E, 0x2C9F); (0x2CA0, 0x2CA1); (0x2CA2, 0x2CA3); (0x2CA4, 0x2CA5); (0x2CA6, 0x2CA7);
    (0x2CA8, 0x2CA9); (0x2CAA, 0x2CAB); (0x2CAC, 0x2CAD); (0x2CAE, 0x2CAF); (0x2CB0, 0x2CB1); (0x2CB2, 0x2CB3);
    (0x2CB4, 0x2CB5); (0x2CB6, 0x2CB7); (0x2CB8, 0x2CB9); (0x2CBA, 0x2CBB); (0x2CBC, 0x2CBD); (0x2CBE, 0x2CBF);
    (0x2CC0, 0x2CC1); (0x2CC2, 0x2CC3); (0x2CC4, 0x2CC5); (0x2CC6, 0x2CC7); (0x2CC8, 0x2CC9); (0x2CCA, 0x2CCB);
    (0x2CCC, 0x2CCD); (0x2CCE, 0x2CCF); (0x2CD0, 0x2CD1); (0x2CD2, 0x2CD3); (0x2CD4, 0x2CD5); (0x2CD6, 0x2CD7);
    (0x2CD8, 0x2CD9); (0x2CDA, 0x2CDB); (0x2CDC, 0x2CDD); (0x2CDE, 0x2CDF); (0x2CE0, 0x2CE1); (0x2CE2, 0x2CE3);
    (0x2CEB, 0x2CEC); (0x2CED, 0x2CEE); (0x2CF2, 0x2CF3); (0xA640, 0xA641); (0xA642, 0xA643); (0xA644, 0xA645);
    (0xA646, 0xA647); (0xA648, 0xA649); (0xA64A, 0xA64B); (0xA64C, 0xA64D); (0xA64E, 0xA64F); (0xA650, 0xA651);
    (0xA652, 0xA653); (0xA654, 0xA655); (0xA656, 0xA657); (0xA658, 0xA659); (0xA65A, 0xA65B); (0xA65C, 0xA65D);
    (0xA65E, 0xA65F); (0xA660, 0xA661); (0xA662, 0xA663); (0xA664, 0xA665); (0xA666, 0xA667); (0xA668, 0xA669);
    (0xA66A, 0xA66B); (0xA66C, 0xA66D); (0xA680, 0xA681); (0xA682, 0xA683); (0xA684, 0xA685); (0xA686, 0xA687);
    (0xA688, 0xA689); (0xA68A, 0xA68B); (0xA68C, 0xA68D); (0xA68E, 0xA68F); (0xA690, 0xA691); (0xA692, 0xA693);
    (0xA694, 0xA695); (0xA696, 0xA697); (0xA698, 0xA699); (0xA69A, 0xA69B); (0xA722, 0xA723); (0xA724, 0xA725);
    (0xA726, 0xA727); (0xA728, 0xA729); (0xA72A, 0xA72B); (0xA72C, 0xA72D); (0xA72E, 0xA72F); (0xA732, 0xA733);
    (0xA734, 0xA735); (0xA736, 0xA737); (0xA738, 0xA739); (0xA73A, 0xA73B); (0xA73C, 0xA73D); (0xA73E, 0xA73F);
    (0xA740, 0xA741); (0xA742, 0xA743); (0xA744, 0xA745); (0xA746, 0xA747); (0xA748, 0xA749); (0xA74A, 0xA74B);
    (0xA74C, 0xA74D); (0xA74E, 0xA74F); (0xA750, 0xA751); (0xA752, 0xA753); (0xA754, 0xA755); (0xA756, 0xA757);
    (0xA758, 0xA759); (0xA75A, 0xA75B); (0xA75C, 0xA75D); (0xA75E, 0xA75F); (0xA760, 0xA761); (0xA762, 0xA763);
    (0xA764, 0xA765); (0xA766, 0xA767); (0xA768, 0xA769); (0xA76A, 0xA76B); (0xA76C, 0xA76D); (0xA76E, 0xA76F);
    (0xA779, 0xA77A); (0xA77B, 0xA77C); (0xA77D, 0x1D79); (0xA77E, 0xA77F); (0xA780, 0xA781); (0xA782, 0xA783);
    (0xA784, 0xA785); (0xA786, 0xA787); (0xA78B, 0xA78C); (0xA78D, 0x265); (0xA790, 0xA791); (0xA792, 0xA793);
    (0xA796, 0xA797); (0xA798, 0xA799); (0xA79A, 0xA79B); (0xA79C, 0xA79D); (0xA79E, 0xA79F); (0xA7A0, 0xA7A1);
    (0xA7A2, 0xA7A3); (0xA7A4, 0xA7A5); (0xA7A6, 0xA7A7); (0xA7A8, 0xA7A9); (0xA7AA, 0x266); (0xA7AB, 0x25C);
    (0xA7AC, 0x261); (0xA7AD, 0x26C); (0xA7AE, 0x26A); (0xA7B0, 0x29E); (0xA7B1, 0x287); (0xA7B2, 0x29D);
    (0xA7B3, 0xAB53); (0xA7B4, 0xA7B5); (0xA7B6, 0xA7B7); (0xA7B8, 0xA7B9); (0xA7BA, 0xA7BB); (0xA7BC, 0xA7BD);
    (0xA7BE, 0xA7BF); (0xA7C0, 0xA7C1); (0xA7C2, 0xA7C3); (0xA7C4, 0xA794); (0xA7C5, 0x282); (0xA7C6, 0x1D8E);
    (0xA7C7, 0xA7C8); (0xA7C9, 0xA7CA); (0xA7D0, 0xA7D1); (0xA7D6, 0xA7D7); (0xA7D8, 0xA7D9); (0xA7F5, 0xA7F6);
    (0xFF21, 0xFF41); (0xFF22, 0xFF42); (0xFF23, 0xFF43); (0xFF24, 0xFF44); (0xFF25, 0xFF45); (0xFF26, 0xFF46);
    (0xFF27, 0xFF47); (0xFF28, 0xFF48); (0xFF29, 0xFF49); (0xFF2A, 0xFF4A); (0xFF2B, 0xFF4B); (0xFF2C, 0xFF4C);
    (0xFF2D, 0xFF4D); (0xFF2E, 0xFF4E); (0xFF2F, 0xFF4F); (0xFF30, 0xFF50); (0xFF31, 0xFF51); (0xFF32, 0xFF52);
    (0xFF33, 0xFF53); (0xFF34, 0xFF54); (0xFF35, 0xFF55); (0xFF36, 0xFF56); (0xFF37, 0xFF57); (0xFF38, 0xFF58);
    (0xFF39, 0xFF59); (0xFF3A, 0xFF5A); (0x10400, 0x10428); (0x10401, 0x10429); (0x10402, 0x1042A); (0x10403, 0x1042B);
    (0x10404, 0x1042C); (0x10405, 0x1042D); (0x10406, 0x1042E); (0x10407, 0x1042F); (0x10408, 0x10430); (0x10409, 0x10431);
    (0x1040A, 0x10432); (0x1040B, 0x10433); (0x1040C, 0x10434); (0x1040D, 0x10435); (0x1040E, 0x10436); (0x1040F, 0x10437);
    (0x10410, 0x10438); (0x10411, 0x10439); (0x10412, 0x1043A); (0x10413, 0x1043B); (0x10414, 0x1043C); (0x10415, 0x1043D);
    (0x10416, 0x1043E); (0x10417, 0x1043F); (0x10418, 0x10440); (0x10419, 0x10441); (0x1041A, 0x10442); (0x1041B, 0x10443);
    (0x1041C, 0x10444); (0x1041D, 0x10445); (0x1041E, 0x10446); (0x1041F, 0x10447); (0x10420, 0x10448); (0x10421, 0x10449);
    (0x10422, 0x1044A); (0x10423, 0x1044B); (0x10424, 0x1044C); (0x10425, 0x1044D); (0x10426, 0x1044E); (0x10427, 0x1044F);
    (0x104B0, 0x104D8); (0x104B1, 0x104D9); (0x104B2, 0x104DA); (0x104B3, 0x104DB); (0x104B4, 0x104DC); (0x104B5, 0x104DD);
    (0x104B6, 0x104DE); (0x104B7, 0x104DF); (0x104B8, 0x104E0); (0x104B9, 0x104E1); (0x104BA, 0x104E2); (0x104BB, 0x104E3);
    (0x104BC, 0x104E4); (0x104BD, 0x104E5); (0x104BE, 0x104E6); (0x104BF, 0x104E7); (0x104C0, 0x104E8); (0x104C1, 0x104E9);
    (0x104C2, 0x104EA); (0x104C3, 0x104EB); (0x104C4, 0x104EC); (0x104C5, 0x104ED); (0x104C6, 0x104EE); (0x104C7, 0x104EF);
    (0x104C8, 0x104F0); (0x104C9, 0x104F1); (0x104CA, 0x104F2); (0x104CB, 0x104F3); (0x104CC, 0x104F4); (0x104CD, 0x104F5);
    (0x104CE, 0x104F6); (0x104CF, 0x104F7); (0x104D0, 0x104F8); (0x104D1, 0x104F9); (0x104D2, 0x104FA); (0x104D3, 0x104FB);
    (0x10570, 0x10597); (0x10571, 0x10598); (0x10572, 0x10599); (0x10573, 0x1059A); (0x10574, 0x1059B); (0x10575, 0x1059C);
    (0x10576, 0x1059D); (0x10577, 0x1059E); (0x10578, 0x1059F); (0x10579, 0x105A0); (0x1057A, 0x105A1); (0x1057C, 0x105A3);
    (0x1057D, 0x105A4); (0x1057E, 0x105A5); (0x1057F, 0x105A6); (0x10580, 0x105A7); (0x10581, 0x105A8); (0x10582, 0x105A9);
    (0x10583, 0x105AA); (0x10584, 0x105AB); (0x10585, 0x105AC); (0x10586, 0x105AD); (0x10587, 0x105AE); (0x10588, 0x105AF);
    (0x10589, 0x105B0); (0x1058A, 0x105B1); (0x1058C, 0x105B3); (0x1058D, 0x105B4); (0x1058E, 0x105B5); (0x1058F, 0x105B6);
    (0x10590, 0x105B7); (0x10591, 0x105B8); (0x10592, 0x105B9); (0x10594, 0x105BB); (0x10595, 0x105BC); (0x10C80, 0x10CC0);
    (0x10C81, 0x10CC1); (0x10C82, 0x10CC2); (0x10C83, 0x10CC3); (0x10C84, 0x10CC4); (0x10C85, 0x10CC5); (0x10C86, 0x10CC6);
    (0x10C87, 0x10CC7); (0x10C88, 0x10CC8); (0x10C89, 0x10CC9); (0x10C8A, 0x10CCA); (0x10C8B, 0x10CCB); (0x10C8C, 0x10CCC);
    (0x10C8D, 0x10CCD); (0x10C8E, 0x10CCE); (0x10C8F, 0x10CCF); (0x10C90, 0x10CD0); (0x10C91, 0x10CD1); (0x10C92, 0x10CD2);
    (0x10C93, 0x10CD3); (0x10C94, 0x10CD4); (0x10C95, 0x10CD5); (0x10C96, 0x10CD6); (0x10C97, 0x10CD7); (0x10C98, 0x10CD8);
    (0x10C99, 0x10CD9); (0x10C9A, 0x10CDA); (0x10C9B, 0x10CDB); (0x10C9C, 0x10CDC); (0x10C9D, 0x10CDD); (0x10C9E, 0x10CDE);
    (0x10C9F, 0x10CDF); (0x10CA0, 0x10CE0); (0x10CA1, 0x10CE1); (0x10CA2, 0x10CE2); (0x10CA3, 0x10CE3); (0x10CA4, 0x10CE4);
    (0x10CA5, 0x10CE5); (0x10CA6, 0x10CE6); (0x10CA7, 0x10CE7); (0x10CA8, 0x10CE8); (0x10CA9, 0x10CE9); (0x10CAA, 0x10CEA);
    (0x10CAB, 0x10CEB); (0x10CAC, 0x10CEC); (0x10CAD, 0x10CED); (0x10CAE, 0x10CEE); (0x10CAF, 0x10CEF); (0x10CB0, 0x10CF0);
    (0x10CB1, 0x10CF1); (0x10CB2, 0x10CF2); (0x118A0, 0x118C0); (0x118A1, 0x118C1); (0x118A2, 0x118C2); (0x118A3, 0x118C3);
    (0x118A4, 0x118C4); (0x118A5, 0x118C5); (0x118A6, 0x118C6); (0x118A7, 0x118C7); (0x118A8, 0x118C8); (0x118A9, 0x118C9);
    (0x118AA, 0x118CA); (0x118AB, 0x118CB); (0x118AC, 0x118CC); (0x118AD, 0x118CD); (0x118AE, 0x118CE); (0x118AF, 0x118CF);
    (0x118B0, 0x118D0); (0x118B1, 0x118D1); (0x118B2, 0x118D2); (0x118B3, 0x118D3); (0x118B4, 0x118D4); (0x118B5, 0x118D5);
    (0x118B6, 0x118D6); (0x118B7, 0x118D7); (0x118B8, 0x118D8); (0x118B9, 0x118D9); (0x118BA, 0x118DA); (0x118BB, 0x118DB);
    (0x118BC, 0x118DC); (0x118BD, 0x118DD); (0x118BE, 0x118DE); (0x118BF, 0x118DF); (0x16E40, 0x16E60); (0x16E41, 0x16E61);
    (0x16E42, 0x16E62); (0x16E43, 0x16E63); (0x16E44, 0x16E64); (0x16E45, 0x16E65); (0x16E46, 0x16E66); (0x16E47, 0x16E67);
    (0x16E48, 0x16E68); (0x16E49, 0x16E69); (0x16E4A, 0x16E6A); (0x16E4B, 0x16E6B); (0x16E4C, 0x16E6C); (0x16E4D, 0x16E6D);
    (0x16E4E, 0x16E6E); (0x16E4F, 0x16E6F); (0x16E50, 0x16E70); (0x16E51, 0x16E71); (0x16E52, 0x16E72); (0x16E53, 0x16E73);
    (0x16E54, 0x16E74); (0x16E55, 0x16E75); (0x16E56, 0x16E76); (0x16E57, 0x16E77); (0x16E58, 0x16E78); (0x16E59, 0x16E79);
    (0x16E5A, 0x16E7A); (0x16E5B, 0x16E7B); (0x16E5C, 0x16E7C); (0x16E5D, 0x16E7D); (0x16E5E, 0x16E7E); (0x16E5F, 0x16E7F);
    (0x1E900, 0x1E922); (0x1E901, 0x1E923); (0x1E902, 0x1E924); (0x1E903, 0x1E925); (0x1E904, 0x1E926); (0x1E905, 0x1E927);
    (0x1E906, 0x1E928); (0x1E907, 0x1E929); (0x1E908, 0x1E92A); (0x1E909, 0x1E92B); (0x1E90A, 0x1E92C); (0x1E90B, 0x1E92D);
    (0x1E90C, 0x1E92E); (0x1E90D, 0x1E92F); (0x1E90E, 0x1E930); (0x1E90F, 0x1E931); (0x1E910, 0x1E932); (0x1E911, 0x1E933);
    (0x1E912, 0x1E934); (0x1E913, 0x1E935); (0x1E914, 0x1E936); (0x1E915, 0x1E937); (0x1E916, 0x1E938); (0x1E917, 0x1E939);
    (0x1E918, 0x1E93A); (0x1E919, 0x1E93B); (0x1E91A, 0x1E93C); (0x1E91B, 0x1E93D); (0x1E91C, 0x1E93E); (0x1E91D, 0x1E93F);
    (0x1E91E, 0x1E940); (0x1E91F, 0x1E941); (0x1E920, 0x1E942); (0x1E921, 0x1E943) ]%N.

(** The lowercase of one code point: the mapping of SpecialCasing.txt for
    U+0130, else the simple mapping, else the code point itself. *)
Definition lowercase_mapping (c : N) : list N :=
  if (c =? 0x130)%N then [0x69; 0x307]%N
  else match find (fun p => (fst p =? c)%N) Simple_Lowercase_Mapping with
       | Some p => [snd p]
       | None => [c]
       end.

(** The nearest character of [s] that is not case-ignorable. *)
Definition nearest_letter (s : str) : option N :=
  find (fun c => negb (Unicode.is_case_ignorable c)) s.

(** The condition under which a capital sigma becomes a final sigma: the
    nearest character before it that is not case-ignorable is cased, and
    the nearest one after it, if any, is not. *)
Definition sigma_is_final (before after : str) : bool :=
  match nearest_letter (rev before) with
  | Some c => Unicode.is_cased c
  | None => false
  end
  && match nearest_letter after with
     | Some c => negb (Unicode.is_cased c)
     | None => true
     end.

(** Lower-casing: every character is replaced by its lowercase, the
    capital sigma by the final or the medial small sigma. *)
Fixpoint lowercase_from (before s : str) : str :=
  match s with
  | [] => []
  | c :: after =>
      (if (c =? 0x3A3)%N
       then [if sigma_is_final before after then 0x3C2 else 0x3C3]%N
       else lowercase_mapping c)
      ++ lowercase_from (before ++ [c]) after
  end.

Definition lowercase (s : str) : str := lowercase_from [] s.

(** Equal after trimming surrounding whitespace and lower-casing. *)
Definition same_text (s1 s2 : str) : Prop :=
  exists t1 t2, trimmed s1 t1 /\ trimmed s2 t2 /\ lowercase t1 = lowercase t2.

(** The case foldings of CaseFolding.txt with status C, to one code point:
    runs of code points [lo, lo + step, ..., hi] and what is added to each. *)
Definition Case_Folding_common : list (N * N * N * Z) :=
  [ (0x41, 0x5A, 1, 32%Z); (0xB5, 0xB5, 1, 775%Z); (0xC0, 0xD6, 1, 32%Z); (0xD8, 0xDE, 1, 32%Z);
    (0x100, 0x12E, 2, 1%Z); (0x132, 0x136, 2, 1%Z); (0x139, 0x147, 2, 1%Z); (0x14A, 0x176, 2, 1%Z);
    (0x178, 0x178, 1, -121%Z); (0x179, 0x17D, 2, 1%Z); (0x17F, 0x17F, 1, -268%Z); (0x181, 0x181, 1, 210%Z);
    (0x182, 0x184, 2, 1%Z); (0x186, 0x186, 1, 206%Z); (0x187, 0x187, 1, 1%Z); (0x189, 0x18A, 1, 205%Z);
    (0x18B, 0x18B, 1, 1%Z); (0x18E, 0x18E, 1, 79%Z); (0x18F, 0x18F, 1, 202%Z); (0x190, 0x190, 1, 203%Z);
    (0x191, 0x191, 1, 1%Z); (0x193, 0x193, 1, 205%Z); (0x194, 0x194, 1, 207%Z); (0x196, 0x196, 1, 211%Z);
    (0x197, 0x197, 1, 209%Z); (0x198, 0x198, 1, 1%Z); (0x19C, 0x19C, 1, 211%Z); (0x19D, 0x19D, 1, 213%Z);
    (0x19F, 0x19F, 1, 214%Z); (0x1A0, 0x1A4, 2, 1%Z); (0x1A6, 0x1A6, 1, 218%Z); (0x1A7, 0x1A7, 1, 1%Z);
    (0x1A9, 0x1A9, 1, 218%Z); (0x1AC, 0x1AC, 1, 1%Z); (0x1AE, 0x1AE, 1, 218%Z); (0x1AF, 0x1AF, 1, 1%Z);
    (0x1B1, 0x1B2, 1, 217%Z); (0x1B3, 0x1B5, 2, 1%Z); (0x1B7, 0x1B7, 1, 219%Z); (0x1B8, 0x1B8, 1, 1%Z);
    (0x1BC, 0x1BC, 1, 1%Z); (0x1C4, 0x1C4, 1, 2%Z); (0x1C5, 0x1C5, 1, 1%Z); (0x1C7, 0x1C7, 1, 2%Z);
    (0x1C8, 0x1C8, 1, 1%Z); (0x1CA, 0x1CA, 1, 2%Z); (0x1CB, 0x1DB, 2, 1%Z); (0x1DE, 0x1EE, 2, 1%Z);
    (0x1F1, 0x1F1, 1, 2%Z); (0x1F2, 0x1F4, 2, 1%Z); (0x1F6, 0x1F6, 1, -97%Z); (0x1F7, 0x1F7, 1, -56%Z);
    (0x1F8, 0x21E, 2, 1%Z); (0x220, 0x220, 1, -130%Z); (0x222, 0x232, 2, 1%Z); (0x23A, 0x23A, 1, 10795%Z);
    (0x23B, 0x23B, 1, 1%Z); (0x23D, 0x23D, 1, -163%Z); (0x23E, 0x23E, 1, 10792%Z); (0x241, 0x241, 1, 1%Z);
    (0x243, 0x243, 1, -195%Z); (0x244, 0x244, 1, 69%Z); (0x245, 0x245, 1, 71%Z); (0x246, 0x24E, 2, 1%Z);
    (0x345, 0x345, 1, 116%Z); (0x370, 0x372, 2, 1%Z); (0x376, 0x376, 1, 1%Z); (0x37F, 0x37F, 1, 116%Z);
    (0x386, 0x386, 1, 38%Z); (0x388, 0x38A, 1, 37%Z); (0x38C, 0x38C, 1, 64%Z); (0x38E, 0x38F, 1, 63%Z);
    (0x391, 0x3A1, 1, 32%Z); (0x3A3, 0x3AB, 1, 32%Z); (0x3C2, 0x3C2, 1, 1%Z); (0x3CF, 0x3CF, 1, 8%Z);
    (0x3D0, 0x3D0, 1, -30%Z); (0x3D1, 0x3D1, 1, -25%Z); (0x3D5, 0x3D5, 1, -15%Z); (0x3D6, 0x3D6, 1, -22%Z);
    (0x3D8, 0x3EE, 2, 1%Z); (0x3F0, 0x3F0, 1, -54%Z); (0x3F1, 0x3F1, 1, -48%Z); (0x3F4, 0x3F4, 1, -60%Z);
    (0x3F5, 0x3F5, 1, -64%Z); (0x3F7, 0x3F7, 1, 1%Z); (0x3F9, 0x3F9, 1, -7%Z); (0x3FA, 0x3FA, 1, 1%Z);
    (0x3FD, 0x3FF, 1, -130%Z); (0x400, 0x40F, 1, 80%Z); (0x410, 0x42F, 1, 32%Z); (0x460, 0x480, 2, 1%Z);
    (0x48A, 0x4BE, 2, 1%Z); (0x4C0, 0x4C0, 1, 15%Z); (0x4C1, 0x4CD, 2, 1%Z); (0x4D0, 0x52E, 2, 1%Z);
    (0x531, 0x556, 1, 48%Z); (0x10A0, 0x10C5, 1, 7264%Z); (0x10C7, 0x10C7, 1, 7264%Z); (0x10CD, 0x10CD, 1, 7264%Z);
    (0x13F8, 0x13FD, 1, -8%Z); (0x1C80, 0x1C80, 1, -6222%Z); (0x1C81, 0x1C81, 1, -6221%Z); (0x1C82, 0x1C82, 1, -6212%Z);
    (0x1C83, 0x1C84, 1, -6210%Z); (0x1C85, 0x1C85, 1, -6211%Z); (0x1C86, 0x1C86, 1, -6204%Z); (0x1C87, 0x1C87, 1, -6180%Z);
    (0x1C88, 0x1C88, 1, 35267%Z); (0x1C90, 0x1CBA, 1, -3008%Z); (0x1CBD, 0x1CBF, 1, -3008%Z); (0x1E00, 0x1E94, 2, 1%Z);
    (0x1E9B, 0x1E9B, 1, -58%Z); (0x1EA0, 0x1EFE, 2, 1%Z); (0x1F08, 0x1F0F, 1, -8%Z); (0x1F18, 0x1F1D, 1, -8%Z);
    (0x1F28, 0x1F2F, 1, -8%Z); (0x1F38, 0x1F3F, 1, -8%Z); (0x1F48, 0x1F4D, 1, -8%Z); (0x1F59, 0x1F5F, 2, -8%Z);
    (0x1F68, 0x1F6F, 1, -8%Z); (0x1FB8, 0x1FB9, 1, -8%Z); (0x1FBA, 0x1FBB, 1, -74%Z); (0x1FBE, 0x1FBE, 1, -7173%Z);
    (0x1FC8, 0x1FCB, 1, -86%Z); (0x1FD8, 0x1FD9, 1, -8%Z); (0x1FDA, 0x1FDB, 1, -100%Z); (0x1FE8, 0x1FE9, 1, -8%Z);
    (0x1FEA, 0x1FEB, 1, -112%Z); (0x1FEC, 0x1FEC, 1, -7%Z); (0x1FF8, 0x1FF9, 1, -128%Z); (0x1FFA, 0x1FFB, 1, -126%Z);
    (0x2126, 0x2126, 1, -7517%Z); (0x212A, 0x212A, 1, -8383%Z); (0x212B, 0x212B, 1, -8262%Z); (0x2132, 0x2132, 1, 28%Z);
    (0x2160, 0x216F, 1, 16%Z); (0x2183, 0x2183, 1, 1%Z); (0x24B6, 0x24CF, 1, 26%Z); (0x2C00, 0x2C2F, 1, 48%Z);
    (0x2C60, 0x2C60, 1, 1%Z); (0x2C62, 0x2C62, 1, -10743%Z); (0x2C63, 0x2C63, 1, -3814%Z); (0x2C64, 0x2C64, 1, -10727%Z);
    (0x2C67, 0x2C6B, 2, 1%Z); (0x2C6D, 0x2C6D, 1, -10780%Z); (0x2C6E, 0x2C6E, 1, -10749%Z); (0x2C6F, 0x2C6F, 1, -10783%Z);
    (0x2C70, 0x2C70, 1, -10782%Z); (0x2C72, 0x2C72, 1, 1%Z); (0x2C75, 0x2C75, 1, 1%Z); (0x2C7E, 0x2C7F, 1, -10815%Z);
    (0x2C80, 0x2CE2, 2, 1%Z); (0x2CEB, 0x2CED, 2, 1%Z); (0x2CF2, 0x2CF2, 1, 1%Z); (0xA640, 0xA66C, 2, 1%Z);
    (0xA680, 0xA69A, 2, 1%Z); (0xA722, 0xA72E, 2, 1%Z); (0xA732, 0xA76E, 2, 1%Z); (0xA779, 0xA77B, 2, 1%Z);
    (0xA77D, 0xA77D, 1, -35332%Z); (0xA77E, 0xA786, 2, 1%Z); (0xA78B, 0xA78B, 1, 1%Z); (0xA78D, 0xA78D, 1, -42280%Z);
    (0xA790, 0xA792, 2, 1%Z); (0xA796, 0xA7A8, 2, 1%Z); (0xA7AA, 0xA7AA, 1, -42308%Z); (0xA7AB, 0xA7AB, 1, -42319%Z);
    (0xA7AC, 0xA7AC, 1, -42315%Z); (0xA7AD, 0xA7AD, 1, -42305%Z); (0xA7AE, 0xA7AE, 1, -42308%Z); (0xA7B0, 0xA7B0, 1, -42258%Z);
    (0xA7B1, 0xA7B1, 1, -42282%Z); (0xA7B2, 0xA7B2, 1, -42261%Z); (0xA7B3, 0xA7B3, 1, 928%Z); (0xA7B4, 0xA7C2, 2, 1%Z);
    (0xA7C4, 0xA7C4, 1, -48%Z); (0xA7C5, 0xA7C5, 1, -42307%Z); (0xA7C6, 0xA7C6, 1, -35384%Z); (0xA7C7, 0xA7C9, 2, 1%Z);
    (0xA7D0, 0xA7D0, 1, 1%Z); (0xA7D6, 0xA7D8, 2, 1%Z); (0xA7F5, 0xA7F5, 1, 1%Z); (0xAB70, 0xABBF, 1, -38864%Z);
    (0xFF21, 0xFF3A, 1, 32%Z); (0x10400, 0x10427, 1, 40%Z); (0x104B0, 0x104D3, 1, 40%Z); (0x10570, 0x1057A, 1, 39%Z);
    (0x1057C, 0x1058A, 1, 39%Z); (0x1058C, 0x10592, 1, 39%Z); (0x10594, 0x10595, 1, 39%Z); (0x10C80, 0x10CB2, 1, 64%Z);
    (0x118A0, 0x118BF, 1, 32%Z); (0x16E40, 0x16E5F, 1, 32%Z); (0x1E900, 0x1E921, 1, 34%Z) ]%N.

(** The case foldings with status F, to several code points. *)
Definition Case_Folding_full : list (N * list N) :=
  [ (0xDF, [0x73; 0x73]); (0x130, [0x69; 0x307]); (0x149, [0x2BC; 0x6E]);
    (0x1F0, [0x6A; 0x30C]); (0x390, [0x3B9; 0x308; 0x301]); (0x3B0, [0x3C5; 0x308; 0x301]);
    (0x587, [0x565; 0x582]); (0x1E96, [0x68; 0x331]); (0x1E97, [0x74; 0x308]);
    (0x1E98, [0x77; 0x30A]); (0x1E99, [0x79; 0x30A]); (0x1E9A, [0x61; 0x2BE]);
    (0x1E9E, [0x73; 0x73]); (0x1F50, [0x3C5; 0x313]); (0x1F52, [0x3C5; 0x313; 0x300]);
    (0x1F54, [0x3C5; 0x313; 0x301]); (0x1F56, [0x3C5; 0x313; 0x342]); (0x1F80, [0x1F00; 0x3B9]);
    (0x1F81, [0x1F01; 0x3B9]); (0x1F82, [0x1F02; 0x3B9]); (0x1F83, [0x1F03; 0x3B9]);
    (0x1F84, [0x1F04; 0x3B9]); (0x1F85, [0x1F05; 0x3B9]); (0x1F86, [0x1F06; 0x3B9]);
    (0x1F87, [0x1F07; 0x3B9]); (0x1F88, [0x1F00; 0x3B9]); (0x1F89, [0x1F01; 0x3B9]);
    (0x1F8A, [0x1F02; 0x3B9]); (0x1F8B, [0x1F03; 0x3B9]); (0x1F8C, [0x1F04; 0x3B9]);
    (0x1F8D, [0x1F05; 0x3B9]); (0x1F8E, [0x1F06; 0x3B9]); (0x1F8F, [0x1F07; 0x3B9]);
    (0x1F90, [0x1F20; 0x3B9]); (0x1F91, [0x1F21; 0x3B9]); (0x1F92, [0x1F22; 0x3B9]);
    (0x1F93, [0x1F23; 0x3B9]); (0x1F94, [0x1F24; 0x3B9]); (0x1F95, [0x1F25; 0x3B9]);
    (0x1F96, [0x1F26; 0x3B9]); (0x1F97, [0x1F27; 0x3B9]); (0x1F98, [0x1F20; 0x3B9]);
    (0x1F99, [0x1F21; 0x3B9]); (0x1F9A, [0x1F22; 0x3B9]); (0x1F9B, [0x1F23; 0x3B9]);
    (0x1F9C, [0x1F24; 0x3B9]); (0x1F9D, [0x1F25; 0x3B9]); (0x1F9E, [0x1F26; 0x3B9]);
    (0x1F9F, [0x1F27; 0x3B9]); (0x1FA0, [0x1F60; 0x3B9]); (0x1FA1, [0x1F61; 0x3B9]);
    (0x1FA2, [0x1F62; 0x3B9]); (0x1FA3, [0x1F63; 0x3B9]); (0x1FA4, [0x1F64; 0x3B9]);
    (0x1FA5, [0x1F65; 0x3B9]); (0x1FA6, [0x1F66; 0x3B9]); (0x1FA7, [0x1F67; 0x3B9]);
    (0x1FA8, [0x1F60; 0x3B9]); (0x1FA9, [0x1F61; 0x3B9]); (0x1FAA, [0x1F62; 0x3B9]);
    (0x1FAB, [0x1F63; 0x3B9]); (0x1FAC, [0x1F64; 0x3B9]); (0x1FAD, [0x1F65; 0x3B9]);
    (0x1FAE, [0x1F66; 0x3B9]); (0x1FAF, [0x1F67; 0x3B9]); (0x1FB2, [0x1F70; 0x3B9]);
    (0x1FB3, [0x3B1; 0x3B9]); (0x1FB4, [0x3AC; 0x3B9]); (0x1FB6, [0x3B1; 0x342]);
    (0x1FB7, [0x3B1; 0x342; 0x3B9]); (0x1FBC, [0x3B1; 0x3B9]); (0x1FC2, [0x1F74; 0x3B9]);
    (0x1FC3, [0x3B7; 0x3B9]); (0x1FC4, [0x3AE; 0x3B9]); (0x1FC6, [0x3B7; 0x342]);
    (0x1FC7, [0x3B7; 0x342; 0x3B9]); (0x1FCC, [0x3B7; 0x3B9]); (0x1FD2, [0x3B9; 0x308; 0x300]);
    (0x1FD3, [0x3B9; 0x308; 0x301]); (0x1FD6, [0x3B9; 0x342]); (0x1FD7, [0x3B9; 0x308; 0x342]);
    (0x1FE2, [0x3C5; 0x308; 0x300]); (0x1FE3, [0x3C5; 0x308; 0x301]); (0x1FE4, [0x3C1; 0x313]);
    (0x1FE6, [0x3C5; 0x342]); (0x1FE7, [0x3C5; 0x308; 0x342]); (0x1FF2, [0x1F7C; 0x3B9]);
    (0x1FF3, [0x3C9; 0x3B9]); (0x1FF4, [0x3CE; 0x3B9]); (0x1FF6, [0x3C9; 0x342]);
    (0x1FF7, [0x3C9; 0x342; 0x3B9]); (0x1FFC, [0x3C9; 0x3B9]); (0xFB00, [0x66; 0x66]);
    (0xFB01, [0x66; 0x69]); (0xFB02, [0x66; 0x6C]); (0xFB03, [0x66; 0x66; 0x69]);
    (0xFB04, [0x66; 0x66; 0x6C]); (0xFB05, [0x73; 0x74]); (0xFB06, [0x73; 0x74]);
    (0xFB13, [0x574; 0x576]); (0xFB14, [0x574; 0x565]); (0xFB15, [0x574; 0x56B]);
    (0xFB16, [0x57E; 0x576]); (0xFB17, [0x574; 0x56D]) ]%N.

(** The full case folding of one code point. *)
Definition case_folding (c : N) : list N :=
  match find (fun p => (fst p =? c)%N) Case_Folding_full with
  | Some p => snd p
  | None =>
      match find (Unicode.in_record c) Case_Folding_common with
      | Some (_, _, _, d) => [Z.to_N (Z.of_N c + d)]
      | None => [c]
      end
  end.

(** Case folding, as the Unicode standard defines it for caseless
    matching: every character is replaced by its full case folding. *)
Definition casefold (s : str) : str := flat_map case_folding s.

(** Equal after trimming surrounding whitespace and case-folding. *)
Definition same_text_folded (s1 s2 : str) : Prop :=
  exists t1 t2, trimmed s1 t1 /\ trimmed s2 t2 /\ casefold t1 = casefold t2.

(** The later of two dates, the earlier of two dates. *)
Definition latest_of (a b m : date) : Prop :=
  (m = a \/ m = b) /\ date_le a m /\ date_le b m.

Definition earliest_of (a b m : date) : Prop :=
  (m = a \/ m = b) /\ date_le m a /\ date_le m b.

(** The later pickup is on or before the earlier delivery. *)
Definition windows_overlap (o1 o2 : Order) : Prop :=
  exists latest_pickup earliest_delivery,
    latest_of (pickup_date o1) (pickup_date o2) latest_pickup
    /\ earliest_of (delivery_date o1) (delivery_date o2) earliest_delivery
    /\ date_le latest_pickup earliest_delivery.

(** Two orders on the same days and to the same place, one from
    "Straße", one from "STRASSE". *)
Definition order_strasse_lower : Order :=
  mkOrder (text "ord-a") 1 1 1 [0x53; 0x74; 0x72; 0x61; 0xDF; 0x65]%N (text "Dallas, TX")
          (mkDate 2025 12 5) (mkDate 2025 12 9) false.

Definition order_strasse_upper : Order :=
  mkOrder (text "ord-b") 1 1 1 (text "STRASSE") (text "Dallas, TX")
          (mkDate 2025 12 5) (mkDate 2025 12 9) false.

(** The code points of a run of type records. *)
Definition record_members (r : N * N * N * Z) : list N :=
  let '(lo, hi, step, _) := r in
  map (fun k => (lo + N.of_nat k * step)%N) (seq 0 (S (N.to_nat ((hi - lo) / step)))).


(** The code points of a range. *)
Definition range_members (r : N * N) : list N :=
  map (fun k => (fst r + N.of_nat k)%N) (seq 0 (S (N.to_nat (snd r - fst r)))).

(** A code point whose lower-casing is itself, wherever it stands. *)
Definition stable (c : N) : bool :=
  negb (c =? 0x3A3)%N
  && match lowercase_mapping c with
     | [d] => (d =? c)%N
     | _ => false
     end.

(** One step of lower-casing. *)
Definition chunk (before : str) (c : N) (after : str) : list N :=
  if (c =? 0x3A3)%N
  then [if sigma_is_final before after then 0x3C2 else 0x3C3]%N
  else lowercase_mapping c.

(** An order with padded, mixed-case route strings, and the same order
    with the strings normalized. *)
Definition sample_padded : Order :=
  mkOrder (text "ord-005") 100000 12000 900 (text "  Los Angeles, CA ") (text "DALLAS, tx")
          (mkDate 2025 12 4) (mkDate 2025 12 10) false.

Definition sample_normalized : Order :=
  mkOrder (text "ord-005") 100000 12000 900 (text "los angeles, ca") (text "dallas, tx")
          (mkDate 2025 12 4) (mkDate 2025 12 10) false.

(** One utilization figure, as [optimize_load] computes it before rounding. *)
Definition utilization (total capacity : Z) : result float :=
  if 0 <? capacity
  then bind (int_truediv total capacity) (fun q => Ok (mul_100 q))
  else Ok zero.

(** ** Floats as numbers

    What the float operations are meant to compute is stated on rational
    numbers: a float stands for a rational, and an operation returns the
    float nearest to the exact result. *)

(** [2 ** e] for any integer [e]. *)
Definition pow2 (e : Z) : Q := (2 ^ e)%Q.

(** Where [y] lies in [[m, m + 1)]: on [m], below, on or above the middle. *)
Definition located (m : Z) (y : Q) (l : location) : Prop :=
  match l with
  | loc_Exact => (y == inject_Z m)%Q
  | loc_Inexact Lt => (inject_Z m < y /\ y < inject_Z m + (1 # 2))%Q
  | loc_Inexact Eq => (y == inject_Z m + (1 # 2))%Q
  | loc_Inexact Gt => (inject_Z m + (1 # 2) < y /\ y < inject_Z m + 1)%Q
  end.

Definition signed (s : bool) (x : Q) : Q := if s then (- x)%Q else x.

(** The number a zero or a finite float stands for. *)
Definition value (u : float) : Q :=
  match u with
  | S754_finite s m e => signed s (inject_Z (Z.pos m) * pow2 e)
  | _ => 0%Q
  end.

(** The binary64 numbers: the zeros and the finite floats whose mantissa
    and exponent are the ones of the format. *)
Definition is_double (u : float) : Prop :=
  match u with
  | S754_zero _ => True
  | S754_finite _ m e => bounded prec emax m e = true
  | _ => False
  end.

Definition sign_of (u : float) : bool :=
  match u with
  | S754_zero s | S754_infinity s | S754_finite s _ _ => s
  | S754_nan => false
  end.

Definition even_mantissa (u : float) : Prop :=
  match u with
  | S754_finite _ m _ => Z.even (Z.pos m) = true
  | _ => True
  end.

(** From here on a number rounds to an infinity: the middle between the
    largest binary64 number and [2 ** 1024]. *)
Definition overflow_threshold : Q := (pow2 1024 - pow2 970)%Q.

(** IEEE 754 rounding of a non-zero number [x] to nearest, ties to even:
    [u] has the sign of [x]; it is an infinity when [x] is out of range;
    otherwise no binary64 number is nearer to [x] than [u], and when
    another one is as near, the mantissa of [u] is even. *)
Definition rounded (x : Q) (u : float) : Prop :=
  (sign_of u = true <-> (x < 0)%Q)
  /\ match u with
     | S754_nan => False
     | S754_infinity _ => (overflow_threshold <= Qabs x)%Q
     | _ =>
         is_double u
         /\ (Qabs x < overflow_threshold)%Q
         /\ (forall g, is_double g -> (Qabs (value u - x) <= Qabs (value g - x))%Q)
         /\ (even_mantissa u
             \/ forall g, is_double g ->
                  (Qabs (value g - x) == Qabs (value u - x))%Q ->
                  (value g == value u)%Q)
     end.

(** [a / b] on two [int]s, [b] not zero: the exact quotient, rounded; a
    zero dividend gives a zero with the sign of the divisor. *)
Definition float_quotient (a b : Z) (q : float) : Prop :=
  if a =? 0 then q = S754_zero (b <? 0)
  else rounded (inject_Z a / inject_Z b) q.

(** [q * 100] on a float: the exact product, rounded; zeros, infinities
    and NaN are kept. *)
Definition float_times_100 (q p : float) : Prop :=
  match q with
  | S754_finite _ _ _ => rounded (value q * 100) p
  | _ => p = q
  end.

(** [k] is an integer nearest to [x], the even one of two. *)
Definition nearest_integer (x : Q) (k : Z) : Prop :=
  (Qabs (inject_Z k - x) <= 1 # 2)%Q
  /\ ((Qabs (inject_Z k - x) == 1 # 2)%Q -> Z.even k = true).

(** [p] rounded to two decimal places: the float of [k / 100] for the
    number of hundredths [k] nearest to [p]; a zero of the sign of [p]
    when that is none. *)
Definition float_round_2 (p u : float) : Prop :=
  match p with
  | S754_finite s _ _ =>
      exists k : Z,
        nearest_integer (value p * 100) k
        /\ if k =? 0 then u = S754_zero s else rounded (inject_Z k / 100) u
  | _ => u = p
  end.

(** [(total / capacity) * 100] rounded to two decimal places, in floats. *)
Definition percent_of (total capacity : Z) (u : float) : Prop :=
  exists q p,
    float_quotient total capacity q /\ float_times_100 q p /\ float_round_2 p u.

(** The sample request of the test suite: orders 0 and 1 go together,
    order 2 is hazmat. *)
Definition sample_truck : Truck := mkTruck (text "truck-123") 44000 3000.

Definition sample_orders : list Order :=
  [ mkOrder (text "ord-001") 250000 18000 1200 (text "Los Angeles, CA") (text "Dallas, TX")
            (mkDate 2025 12 5) (mkDate 2025 12 9) false;
    mkOrder (text "ord-002") 180000 12000 900 (text "Los Angeles, CA") (text "Dallas, TX")
            (mkDate 2025 12 4) (mkDate 2025 12 10) false;
    mkOrder (text "ord-003") 320000 30000 1800 (text "Los Angeles, CA") (text "Dallas, TX")
            (mkDate 2025 12 6) (mkDate 2025 12 8) true ].

(** The sample request with one more order that pays nothing, fits and goes
    with the first two. *)
Definition sample_orders_free : list Order :=
  sample_orders
  ++ [ mkOrder (text "ord-000") 0 1000 100 (text "Los Angeles, CA") (text "Dallas, TX")
               (mkDate 2025 12 5) (mkDate 2025 12 9) false ].

(** A cheaper copy of the second sample order. *)
Definition sample_extra : Order :=
  mkOrder (text "ord-004") 100000 12000 900 (text "Los Angeles, CA") (text "Dallas, TX")
          (mkDate 2025 12 4) (mkDate 2025 12 10) false.

(** No loop sets a bit at or above [n], and no row becomes negative. *)
Definition masks_in_range (orders : list Order) (masks : list Z) : Prop :=
  length masks = length orders
  /\ forall a, (a < length orders)%nat ->
       0 <= masks !!! a
       /\ forall b, (length orders <= b)%nat ->
                    Z.testbit (masks !!! a) (Z.of_nat b) = false.

(** Every order of the request has its pickup on or before its delivery
    (what [check_dates_make_sense] enforces). *)
Definition dates_in_order (orders : list Order) : Prop :=
  Forall (fun o => date_le (pickup_date o) (delivery_date o)) orders.

(** The orders of the request that pay something, in search order. *)
Definition paying_orders (orders : list Order) : list nat :=
  filter (fun i => 0 < payout_cents (orders !!! i)) (order_by_value orders).

(** What the models ask of an order and of a request. *)
Definition order_contract (o : Order) : Prop :=
  order_id o <> []
  /\ 0 <= payout_cents o /\ 0 < weight_lbs o /\ 0 < volume_cuft o
  /\ origin o <> [] /\ destination o <> []
  /\ date_le (pickup_date o) (delivery_date o).

Definition request_contract (r : OptimizeRequest) : Prop :=
  truck_id (req_truck r) <> []
  /\ 0 < max_weight_lbs (req_truck r) /\ 0 < max_volume_cuft (req_truck r)
  /\ (length (req_orders r) <= 50)%nat
  /\ Forall order_contract (req_orders r).

(** Zero or a positive finite number: not NaN, not infinite, not negative. *)
Definition finite_nonneg (x : float) : Prop :=
  match x with
  | S754_zero false => True
  | S754_finite false _ _ => True
  | _ => False
  end.

(** A finite non-negative float whose value is below [2 ^ k]. *)
Definition below_pow2 (k : Z) (x : float) : Prop :=
  match x with
  | S754_zero false => True
  | S754_finite false m e => Zdigits2 (Z.pos m) + e <= k
  | _ => False
  end.

(** The sample request as a body. *)
Definition sample_request : OptimizeRequest := mkRequest sample_truck sample_orders.

(** The header lets the request through the size check: there is none, it
    is empty, or it reads as an integer up to the limit. *)
Definition within_size_limit (request : HttpRequest) : Prop :=
  match content_length request with
  | None => True
  | Some h => h = [] \/ exists n, Py.int h = Some n /\ n <= MAX_CONTENT_LENGTH
  end.

(** The sample request with its length announced. *)
Definition sample_http_request : HttpRequest :=
  mkHttpRequest (Some (text "2048")) sample_request.

(** * Properties *)

(** ** Bit arithmetic *)

Lemma testbit_bit (i j : nat) :
  Z.testbit (bit i) (Z.of_nat j) = bool_decide (i = j).
Proof.
  unfold bit. rewrite Z.shiftl_1_l, Z.pow2_bits_eqb by lia.
  case_bool_decide; [apply Z.eqb_eq | apply Z.eqb_neq]; lia.
Qed.

Lemma truthy_land_bit (v : Z) (i : nat) :
  truthy (Z.land v (bit i)) = Z.testbit v (Z.of_nat i).
Proof.
  unfold truthy.
  destruct (Z.testbit v (Z.of_nat i)) eqn:Hv.
  - apply negb_true_iff, Z.eqb_neq. intros H0.
    assert (Hb : Z.testbit (Z.land v (bit i)) (Z.of_nat i) = true).
    { rewrite Z.land_spec, Hv, testbit_bit. now rewrite bool_decide_eq_true_2. }
    rewrite H0, Z.bits_0 in Hb. discriminate.
  - apply negb_false_iff, Z.eqb_eq, Z.bits_inj'. intros k Hk.
    rewrite Z.land_spec, Z.bits_0.
    replace k with (Z.of_nat (Z.to_nat k)) by lia.
    rewrite testbit_bit. case_bool_decide as E.
    + subst i. rewrite Hv. reflexivity.
    + apply andb_false_r.
Qed.

Lemma or_at_length (masks : list Z) (i : nat) (v : Z) :
  length (or_at masks i v) = length masks.
Proof. unfold or_at. apply length_insert. Qed.

Lemma or_at_lookup (masks : list Z) (i a : nat) (v : Z) :
  (i < length masks)%nat ->
  or_at masks i v !!! a
  = if bool_decide (a = i) then Z.lor (masks !!! a) v else masks !!! a.
Proof.
  intros Hi. unfold or_at. case_bool_decide as E.
  - subst a. now rewrite list_lookup_total_insert_eq.
  - now rewrite list_lookup_total_insert_ne by congruence.
Qed.

(** ** Loops over [range] *)

Lemma foldl_seq_invariant {A : Type} (f : A -> nat -> A) (I : nat -> A -> Prop)
    (len s : nat) (a : A) :
  I s a ->
  (forall j x, (s <= j < s + len)%nat -> I j x -> I (S j) (f x j)) ->
  I (s + len)%nat (foldl f a (seq s len)).
Proof.
  revert s a. induction len as [|len IH]; intros s a Ha Hstep; simpl.
  - now replace (s + 0)%nat with s by lia.
  - replace (s + S len)%nat with (S s + len)%nat by lia.
    apply IH.
    + apply Hstep; [lia | assumption].
    + intros j x Hj. apply Hstep. lia.
Qed.

(** ** The compatibility checks are symmetric *)

Lemma date_ltb_asym (a b : date) : Py.date_ltb a b = true -> Py.date_ltb b a = false.
Proof.
  destruct a as [y1 m1 d1], b as [y2 m2 d2]. unfold Py.date_ltb. simpl.
  rewrite !orb_true_iff, !andb_true_iff, !Z.ltb_lt, !Z.eqb_eq. intros H.
  apply not_true_is_false.
  rewrite !orb_true_iff, !andb_true_iff, !Z.ltb_lt, !Z.eqb_eq. lia.
Qed.

Lemma date_ltb_total (a b : date) :
  Py.date_ltb a b = false -> Py.date_ltb b a = false -> a = b.
Proof.
  destruct a as [y1 m1 d1], b as [y2 m2 d2]. unfold Py.date_ltb. simpl.
  intros H1 H2.
  apply not_true_iff_false in H1, H2.
  rewrite !orb_true_iff, !andb_true_iff, !Z.ltb_lt, !Z.eqb_eq in H1, H2.
  assert (y1 = y2 /\ m1 = m2 /\ d1 = d2) as (-> & -> & ->) by lia.
  reflexivity.
Qed.

Lemma py_max_comm (a b : date) : Py.max a b = Py.max b a.
Proof.
  unfold Py.max.
  destruct (Py.date_ltb a b) eqn:Hab.
  - now rewrite (date_ltb_asym _ _ Hab).
  - destruct (Py.date_ltb b a) eqn:Hba; [reflexivity|].
    now apply date_ltb_total.
Qed.

Lemma py_min_comm (a b : date) : Py.min a b = Py.min b a.
Proof.
  unfold Py.min.
  destruct (Py.date_ltb b a) eqn:Hba.
  - now rewrite (date_ltb_asym _ _ Hba).
  - destruct (Py.date_ltb a b) eqn:Hab; [reflexivity|].
    symmetry. now apply date_ltb_total.
Qed.

(** ** Equality of strings *)

Lemma str_eqb_eq (a b : str) : Py.str_eqb a b = true <-> a = b.
Proof.
  revert b. induction a as [|x a IH]; intros [|y b]; simpl;
    try (split; [discriminate | congruence]); [tauto|].
  rewrite andb_true_iff, N.eqb_eq, IH. split; [intros [-> ->]; reflexivity|].
  intros [= -> ->]. auto.
Qed.

Lemma str_eqb_refl (a : str) : Py.str_eqb a a = true.
Proof. now apply str_eqb_eq. Qed.

Lemma str_eqb_sym (a b : str) : Py.str_eqb a b = Py.str_eqb b a.
Proof.
  destruct (Py.str_eqb a b) eqn:Hab, (Py.str_eqb b a) eqn:Hba; try reflexivity.
  - apply str_eqb_eq in Hab. subst. rewrite str_eqb_refl in Hba. discriminate.
  - apply str_eqb_eq in Hba. subst. rewrite str_eqb_refl in Hab. discriminate.
Qed.

Lemma _check_time_windows_sym (o1 o2 : Order) :
  _check_time_windows o1 o2 = _check_time_windows o2 o1.
Proof.
  unfold _check_time_windows.
  now rewrite (py_max_comm (pickup_date o1)), (py_min_comm (delivery_date o1)).
Qed.

Lemma can_combine_sym (o1 o2 : Order) : can_combine o1 o2 = can_combine o2 o1.
Proof.
  unfold can_combine, _check_same_route, _check_hazmat_ok.
  rewrite (_check_time_windows_sym o1 o2).
  rewrite (str_eqb_sym (Py.lower (Py.strip (origin o1)))).
  rewrite (str_eqb_sym (Py.lower (Py.strip (destination o1)))).
  f_equal. destruct (is_hazmat o1), (is_hazmat o2); reflexivity.
Qed.

(** ** What [_build_compatibility_masks] computes *)

Lemma compatible_sym (orders : list Order) (a b : nat) :
  compatible orders a b = compatible orders b a.
Proof.
  unfold compatible. rewrite can_combine_sym. f_equal.
  apply bool_decide_ext. split; congruence.
Qed.

Lemma or_at_testbit (masks : list Z) (i j a b : nat) :
  (i < length masks)%nat ->
  Z.testbit (or_at masks i (bit j) !!! a) (Z.of_nat b)
  = Z.testbit (masks !!! a) (Z.of_nat b)
    || (bool_decide (a = i) && bool_decide (j = b)).
Proof.
  intros Hi. rewrite or_at_lookup by assumption.
  case_bool_decide as E; simpl.
  - now rewrite Z.lor_spec, testbit_bit.
  - now rewrite orb_false_r.
Qed.

Lemma masks_state_ext (orders : list Order) (i m i' m' : nat) (masks : list Z) :
  (forall a b, (a < length orders)%nat -> (b < length orders)%nat ->
               pair_done i m a b <-> pair_done i' m' a b) ->
  masks_state orders i m masks -> masks_state orders i' m' masks.
Proof.
  intros Heq [Hlen Hbits]. split; [assumption|].
  intros a b Ha Hb. rewrite Hbits by assumption.
  f_equal. apply bool_decide_ext, Heq; assumption.
Qed.

Lemma mask_diag_invariant (orders : list Order) (i : nat) (masks : list Z) :
  (i < length orders)%nat ->
  masks_state orders i 0 masks ->
  masks_state orders i (S i) (or_at masks i (bit i)).
Proof.
  intros Hi [Hlen Hbits]. split; [now rewrite or_at_length|].
  intros a b Ha Hb. rewrite or_at_testbit, Hbits by lia.
  destruct (decide (a = i /\ i = b)) as [[-> <-]|Hne].
  - rewrite (bool_decide_eq_true_2 (pair_done i (S i) i i)) by (unfold pair_done; lia).
    unfold compatible. rewrite (bool_decide_eq_true_2 (i = i)) by reflexivity.
    simpl. apply orb_true_r.
  - replace (bool_decide (a = i) && bool_decide (i = b)) with false.
    + rewrite orb_false_r. f_equal. apply bool_decide_ext. unfold pair_done. lia.
    + symmetry. apply andb_false_iff.
      destruct (decide (a = i)); [right | left]; apply bool_decide_eq_false_2; tauto.
Qed.

Lemma mask_inner_invariant (orders : list Order) (i j : nat) (masks : list Z) :
  (i < j < length orders)%nat ->
  masks_state orders i j masks ->
  masks_state orders i (S j) (mask_inner orders i masks j).
Proof.
  intros Hij [Hlen Hbits]. unfold mask_inner.
  assert (Hnew : forall a b, pair_done i (S j) a b
                 <-> pair_done i j a b \/ (a = i /\ j = b) \/ (a = j /\ i = b)).
  { intros a b. unfold pair_done. lia. }
  destruct (can_combine (orders !!! i) (orders !!! j)) eqn:Hcc.
  - split; [now rewrite !or_at_length|].
    intros a b Ha Hb.
    rewrite !or_at_testbit, Hbits by (rewrite ?or_at_length; lia).
    destruct (decide ((a = i /\ j = b) \/ (a = j /\ i = b))) as [Hp|Hp].
    + rewrite (bool_decide_eq_true_2 (pair_done i (S j) a b)) by (apply Hnew; tauto).
      assert (Hc : compatible orders a b = true).
      { unfold compatible. apply orb_true_iff. right.
        destruct Hp as [[-> <-]|[-> <-]]; [|rewrite can_combine_sym]; assumption. }
      rewrite Hc. simpl. rewrite andb_true_r.
      apply orb_true_iff.
      destruct Hp as [[-> <-]|[-> <-]]; [left; apply orb_true_iff|]; right;
        apply andb_true_iff; split; apply bool_decide_eq_true_2; reflexivity.
    + replace (bool_decide (a = i) && bool_decide (j = b)) with false.
      2:{ symmetry. apply andb_false_iff.
          destruct (decide (a = i)); [right | left];
            apply bool_decide_eq_false_2; tauto. }
      replace (bool_decide (a = j) && bool_decide (i = b)) with false.
      2:{ symmetry. apply andb_false_iff.
          destruct (decide (a = j)); [right | left];
            apply bool_decide_eq_false_2; tauto. }
      rewrite !orb_false_r. f_equal. apply bool_decide_ext.
      rewrite Hnew. tauto.
  - split; [assumption|].
    intros a b Ha Hb. rewrite Hbits by assumption.
    destruct (decide ((a = i /\ j = b) \/ (a = j /\ i = b))) as [Hp|Hp].
    + assert (Hc : compatible orders a b = false).
      { unfold compatible. apply orb_false_iff. split.
        - apply bool_decide_eq_false_2. lia.
        - destruct Hp as [[-> <-]|[-> <-]]; [|rewrite can_combine_sym]; assumption. }
      now rewrite Hc, !andb_false_r.
    + f_equal. apply bool_decide_ext. rewrite Hnew. tauto.
Qed.

Lemma mask_outer_invariant (orders : list Order) (i : nat) (masks : list Z) :
  (i < length orders)%nat ->
  masks_state orders i 0 masks ->
  masks_state orders (S i) 0 (mask_outer orders masks i).
Proof.
  intros Hi Hst. unfold mask_outer.
  apply (masks_state_ext orders i (S i + (length orders - S i))).
  { intros a b Ha Hb. unfold pair_done. lia. }
  apply (foldl_seq_invariant (mask_inner orders i)
           (fun m masks => masks_state orders i m masks)).
  - now apply mask_diag_invariant.
  - intros j x Hj. apply mask_inner_invariant. lia.
Qed.

Lemma build_masks_state (orders : list Order) :
  masks_state orders (length orders) 0 (_build_compatibility_masks orders).
Proof.
  unfold _build_compatibility_masks.
  apply (foldl_seq_invariant (mask_outer orders)
           (fun i masks => masks_state orders i 0 masks) (length orders) 0).
  - split; [apply length_replicate|].
    intros a b Ha Hb.
    rewrite lookup_total_replicate_2 by assumption.
    rewrite Z.bits_0, bool_decide_eq_false_2; [reflexivity|].
    unfold pair_done. lia.
  - intros j x Hj. apply mask_outer_invariant. lia.
Qed.

(** Bit [b] of [compat_masks[a]] is set exactly when [a] and [b] are the
    same order or can be combined. *)
Lemma build_masks_testbit (orders : list Order) (a b : nat) :
  (a < length orders)%nat -> (b < length orders)%nat ->
  Z.testbit (_build_compatibility_masks orders !!! a) (Z.of_nat b)
  = compatible orders a b.
Proof.
  intros Ha Hb. destruct (build_masks_state orders) as [_ Hbits].
  rewrite Hbits by assumption.
  rewrite bool_decide_eq_true_2; [reflexivity|]. unfold pair_done. lia.
Qed.

Lemma build_masks_length (orders : list Order) :
  length (_build_compatibility_masks orders) = length orders.
Proof. apply build_masks_state. Qed.

(** ** The search order *)

Lemma insert_desc_perm (key : nat -> Z) (x : nat) (l : list nat) :
  Permutation (insert_desc key x l) (x :: l).
Proof.
  induction l as [|y l IH]; simpl; [reflexivity|].
  destruct (key x <? key y); [|reflexivity].
  rewrite IH. apply perm_swap.
Qed.

Lemma sorted_desc_perm (key : nat -> Z) (l : list nat) :
  Permutation (sorted_desc key l) l.
Proof.
  induction l as [|x l IH]; simpl; [reflexivity|].
  rewrite insert_desc_perm. now constructor.
Qed.

Lemma insert_desc_sorted (key : nat -> Z) (x : nat) (l : list nat) :
  StronglySorted (before key) l ->
  Forall (fun y => (x < y)%nat) l ->
  StronglySorted (before key) (insert_desc key x l).
Proof.
  induction l as [|y l IH]; intros Hs Hlt; simpl.
  - repeat constructor.
  - inversion Hs as [|? ? Hs' Hy]; subst.
    inversion Hlt as [|? ? Hxy Hlt']; subst.
    destruct (Z.ltb_spec (key x) (key y)) as [Hk|Hk].
    + constructor; [now apply IH|].
      rewrite (insert_desc_perm key x l). constructor; [|assumption].
      left. assumption.
    + constructor; [assumption|].
      constructor; [unfold before; lia|].
      rewrite Forall_forall in Hy, Hlt' |- *.
      intros z Hz. specialize (Hy z Hz). specialize (Hlt' z Hz).
      unfold before in *. lia.
Qed.

Lemma sorted_desc_sorted (key : nat -> Z) (s len : nat) :
  StronglySorted (before key) (sorted_desc key (seq s len)).
Proof.
  revert s. induction len as [|len IH]; intros s; simpl; [constructor|].
  apply insert_desc_sorted; [apply IH|].
  rewrite (sorted_desc_perm key (seq (S s) len)).
  apply Forall_forall. intros y Hy. apply list_elem_of_In, in_seq in Hy. lia.
Qed.

Lemma order_by_value_perm (orders : list Order) :
  Permutation (order_by_value orders) (seq 0 (length orders)).
Proof. apply sorted_desc_perm. Qed.

Lemma order_by_value_length (orders : list Order) :
  length (order_by_value orders) = length orders.
Proof. now rewrite (Permutation_length (order_by_value_perm orders)), length_seq. Qed.

Lemma order_by_value_NoDup (orders : list Order) : NoDup (order_by_value orders).
Proof. rewrite (order_by_value_perm orders). apply NoDup_seq. Qed.

Lemma order_by_value_elem (orders : list Order) (i : nat) :
  i ∈ order_by_value orders <-> (i < length orders)%nat.
Proof.
  rewrite (order_by_value_perm orders), list_elem_of_In, in_seq. lia.
Qed.

Lemma order_by_value_lookup_lt (orders : list Order) (k : nat) :
  (k < length orders)%nat -> (order_by_value orders !!! k < length orders)%nat.
Proof.
  intros Hk. apply order_by_value_elem, list_elem_of_lookup_total_2.
  now rewrite order_by_value_length.
Qed.

Lemma order_by_value_sorted (orders : list Order) :
  StronglySorted (before (fun i => payouts_of orders !!! i)) (order_by_value orders).
Proof. apply sorted_desc_sorted. Qed.

Lemma StronglySorted_lookup {A : Type} `{!Inhabited A} (R : A -> A -> Prop)
    (l : list A) (i j : nat) :
  StronglySorted R l -> (i < j < length l)%nat -> R (l !!! i) (l !!! j).
Proof.
  intros Hs. revert i j. induction Hs as [|x l Hs IH Hx]; intros i j Hij; simpl in *.
  - lia.
  - destruct j as [|j]; [lia|]. destruct i as [|i]; simpl.
    + rewrite Forall_forall in Hx. apply Hx, list_elem_of_lookup_total_2. lia.
    + apply IH. lia.
Qed.

(** ** The suffix bound *)

Lemma foldl_rev_seq_invariant {A : Type} (f : A -> nat -> A) (I : nat -> A -> Prop)
    (len : nat) (a : A) :
  I len a ->
  (forall j x, (j < len)%nat -> I (S j) x -> I j (f x j)) ->
  I 0%nat (foldl f a (rev (seq 0 len))).
Proof.
  revert a. induction len as [|len IH]; intros a Ha Hstep; [assumption|].
  rewrite seq_S, rev_app_distr. simpl.
  apply IH.
  - apply Hstep; [lia | assumption].
  - intros j x Hj. apply Hstep. lia.
Qed.

Lemma rest_payout_step (orders : list Order) (i : nat) :
  (i < length orders)%nat ->
  rest_payout orders i
  = rest_payout orders (S i) + payouts_of orders !!! (order_by_value orders !!! i).
Proof.
  intros Hi. unfold rest_payout.
  rewrite (drop_S (order_by_value orders) (order_by_value orders !!! i) i).
  - simpl. lia.
  - apply list_lookup_lookup_total_lt. now rewrite order_by_value_length.
Qed.

Lemma suffix_payout_state (orders : list Order) :
  length (suffix_payout orders) = S (length orders) /\
  forall i, (i <= length orders)%nat -> suffix_payout orders !!! i = rest_payout orders i.
Proof.
  unfold suffix_payout.
  match goal with
  | |- length ?r = _ /\ _ =>
      cut (length r = S (length orders) /\
           forall i, (0 <= i <= length orders)%nat -> r !!! i = rest_payout orders i)
  end.
  { intros [Hlen Hall]. split; [assumption|]. intros i Hi. apply Hall. lia. }
  apply (foldl_rev_seq_invariant _
    (fun k suffix => length suffix = S (length orders) /\
       forall i, (k <= i <= length orders)%nat -> suffix !!! i = rest_payout orders i)).
  - split; [apply length_replicate|].
    intros i Hi. assert (i = length orders) as -> by lia.
    rewrite lookup_total_replicate_2 by lia.
    unfold rest_payout. rewrite drop_ge; [reflexivity|].
    rewrite order_by_value_length. lia.
  - intros j x Hj [Hlen Hx]. split; [now rewrite length_insert|].
    intros i Hi. destruct (decide (i = j)) as [->|Hne].
    + rewrite list_lookup_total_insert_eq by lia.
      rewrite Hx by lia. now rewrite <- rest_payout_step.
    + rewrite list_lookup_total_insert_ne by congruence. apply Hx. lia.
Qed.

Lemma suffix_payout_lookup (orders : list Order) (i : nat) :
  (i <= length orders)%nat -> suffix_payout orders !!! i = rest_payout orders i.
Proof. apply suffix_payout_state. Qed.

(** ** Totals of a selection of original-order indices *)

Lemma sumZ_app (l1 l2 : list Z) : sumZ (l1 ++ l2) = sumZ l1 + sumZ l2.
Proof. unfold sumZ. induction l1 as [|x l1 IH]; simpl; lia. Qed.

Lemma sumZ_perm (l1 l2 : list Z) : Permutation l1 l2 -> sumZ l1 = sumZ l2.
Proof. unfold sumZ. induction 1; simpl; lia. Qed.

Lemma sumZ_nonneg (l : list Z) : Forall (fun x => 0 <= x) l -> 0 <= sumZ l.
Proof. unfold sumZ. induction 1; simpl; lia. Qed.

Lemma sumZ_sublist (l1 l2 : list Z) :
  Forall (fun x => 0 <= x) l2 -> sublist l1 l2 -> sumZ l1 <= sumZ l2.
Proof.
  intros Hpos Hsub. induction Hsub as [|x l1 l2 Hsub IH|x l1 l2 Hsub IH];
    simpl; inversion Hpos; subst; unfold sumZ in *; simpl.
  - lia.
  - specialize (IH ltac:(assumption)). lia.
  - specialize (IH ltac:(assumption)). lia.
Qed.

Lemma sel_payout_app orders l1 l2 :
  sel_payout orders (l1 ++ l2) = sel_payout orders l1 + sel_payout orders l2.
Proof. unfold sel_payout. now rewrite map_app, sumZ_app. Qed.

Lemma sel_weight_app orders l1 l2 :
  sel_weight orders (l1 ++ l2) = sel_weight orders l1 + sel_weight orders l2.
Proof. unfold sel_weight. now rewrite map_app, sumZ_app. Qed.

Lemma sel_volume_app orders l1 l2 :
  sel_volume orders (l1 ++ l2) = sel_volume orders l1 + sel_volume orders l2.
Proof. unfold sel_volume. now rewrite map_app, sumZ_app. Qed.

Lemma sel_payout_snoc orders l o :
  sel_payout orders (l ++ [o]) = sel_payout orders l + payouts_of orders !!! o.
Proof. rewrite sel_payout_app. unfold sel_payout at 2. simpl. lia. Qed.

Lemma sel_weight_snoc orders l o :
  sel_weight orders (l ++ [o]) = sel_weight orders l + weights_of orders !!! o.
Proof. rewrite sel_weight_app. unfold sel_weight at 2. simpl. lia. Qed.

Lemma sel_volume_snoc orders l o :
  sel_volume orders (l ++ [o]) = sel_volume orders l + volumes_of orders !!! o.
Proof. rewrite sel_volume_app. unfold sel_volume at 2. simpl. lia. Qed.

(** ** The selection list built at a node *)

Lemma chosen_S (obv : list nat) (idx : nat) (mask : Z) :
  chosen obv (S idx) mask
  = chosen obv idx mask
    ++ (if Z.testbit mask (Z.of_nat idx) then [obv !!! idx] else []).
Proof.
  unfold chosen. rewrite seq_S, List.filter_app, map_app. simpl.
  rewrite truthy_land_bit. now destruct (Z.testbit mask (Z.of_nat idx)).
Qed.

Lemma chosen_ext (obv : list nat) (idx : nat) (mask mask' : Z) :
  (forall i, (i < idx)%nat -> Z.testbit mask (Z.of_nat i) = Z.testbit mask' (Z.of_nat i)) ->
  chosen obv idx mask = chosen obv idx mask'.
Proof.
  intros H. unfold chosen. f_equal. apply List.filter_ext_in.
  intros i Hi. apply in_seq in Hi. rewrite !truthy_land_bit. apply H. lia.
Qed.

Lemma chosen_include (obv : list nat) (idx : nat) (mask : Z) :
  chosen obv (S idx) (Z.lor mask (bit idx)) = chosen obv idx mask ++ [obv !!! idx].
Proof.
  rewrite chosen_S, Z.lor_spec, testbit_bit, bool_decide_eq_true_2 by reflexivity.
  rewrite orb_true_r. f_equal. apply chosen_ext. intros i Hi.
  rewrite Z.lor_spec, testbit_bit, bool_decide_eq_false_2 by lia.
  apply orb_false_r.
Qed.

Lemma chosen_exclude (obv : list nat) (idx : nat) (mask : Z) :
  Z.testbit mask (Z.of_nat idx) = false ->
  chosen obv (S idx) mask = chosen obv idx mask.
Proof. intros H. rewrite chosen_S, H. apply app_nil_r. Qed.

Lemma chosen_sublist (obv : list nat) (idx : nat) (mask : Z) :
  (idx <= length obv)%nat -> sublist (chosen obv idx mask) (take idx obv).
Proof.
  induction idx as [|idx IH]; intros Hle.
  - unfold chosen. simpl. rewrite take_0. constructor.
  - rewrite chosen_S.
    rewrite (take_S_r obv idx (obv !!! idx))
      by (apply list_lookup_lookup_total_lt; lia).
    apply sublist_app; [apply IH; lia|].
    destruct (Z.testbit mask (Z.of_nat idx)); [reflexivity | apply sublist_nil_l].
Qed.

(** ** Reasoning about [search] *)

Section SearchRules.

Variable n : nat.
Variables payouts weights volumes compat_masks suffix : list Z.
Variable obv : list nat.
Variables max_weight max_volume : Z.

Local Abbreviation srch :=
  (search n payouts weights volumes compat_masks suffix obv max_weight max_volume).

Lemma updated_ge (idx : nat) (mask cp : Z) (best : incumbent) :
  cp <= best_payout (updated obv idx mask cp best)
  /\ best_payout best <= best_payout (updated obv idx mask cp best).
Proof.
  unfold updated. destruct (Z.ltb_spec (best_payout best) cp); simpl; lia.
Qed.

Lemma search_unfold (fuel idx : nat) (mask cp cw cv valid : Z) (best : incumbent) :
  srch (S fuel) idx mask cp cw cv valid best
  = let best1 := updated obv idx mask cp best in
    if (n <=? idx)%nat then Some best1
    else if cp + suffix !!! idx <=? best_payout best1 then Some best1
    else
      let o := obv !!! idx in
      match
        (if Z.testbit valid (Z.of_nat o)
            && ((cw + weights !!! o <=? max_weight)
                && (cv + volumes !!! o <=? max_volume))
         then srch fuel (S idx) (Z.lor mask (bit idx)) (cp + payouts !!! o)
                   (cw + weights !!! o) (cv + volumes !!! o)
                   (Z.land valid (compat_masks !!! o)) best1
         else Some best1)
      with
      | None => None
      | Some best2 => srch fuel (S idx) mask cp cw cv valid best2
      end.
Proof.
  simpl. unfold updated. rewrite truthy_land_bit.
  destruct (n <=? idx)%nat; [reflexivity|].
  destruct (_ <=? _); [reflexivity|].
  destruct (Z.testbit valid _); simpl; [|reflexivity].
  destruct (_ && _); reflexivity.
Qed.

(** With one unit of fuel per remaining position and one more, the search
    returns. *)
Lemma search_total (fuel idx : nat) (mask cp cw cv valid : Z) (best : incumbent) :
  (n - idx < fuel)%nat ->
  exists best', srch fuel idx mask cp cw cv valid best = Some best'.
Proof.
  revert idx mask cp cw cv valid best.
  induction fuel as [|fuel IH]; intros idx mask cp cw cv valid best Hfuel; [lia|].
  rewrite search_unfold. cbv zeta.
  destruct (Nat.leb_spec n idx) as [Hn|Hn]; [eauto|].
  destruct (_ <=? _); [eauto|].
  destruct (_ && _).
  - destruct (IH (S idx) (Z.lor mask (bit idx)) (cp + payouts !!! (obv !!! idx))
                (cw + weights !!! (obv !!! idx)) (cv + volumes !!! (obv !!! idx))
                (Z.land valid (compat_masks !!! (obv !!! idx)))
                (updated obv idx mask cp best) ltac:(lia)) as [b2 ->].
    apply IH. lia.
  - apply IH. lia.
Qed.

(** The best payout never decreases, and ends at least at the payout of
    the node. *)
Lemma search_mono (fuel idx : nat) (mask cp cw cv valid : Z) (best best' : incumbent) :
  srch fuel idx mask cp cw cv valid best = Some best' ->
  best_payout best <= best_payout best' /\ cp <= best_payout best'.
Proof.
  revert idx mask cp cw cv valid best best'.
  induction fuel as [|fuel IH]; intros idx mask cp cw cv valid best best' Hrun;
    [discriminate|].
  rewrite search_unfold in Hrun. cbv zeta in Hrun.
  pose proof (updated_ge idx mask cp best) as [Hcp Hbest].
  destruct (n <=? idx)%nat; [injection Hrun as <-; lia|].
  destruct (_ <=? _); [injection Hrun as <-; lia|].
  destruct (_ && _).
  - destruct (srch fuel (S idx) (Z.lor mask (bit idx)) _ _ _ _ _) as [b2|] eqn:Hinc;
      [|discriminate].
    apply IH in Hinc. apply IH in Hrun. lia.
  - apply IH in Hrun. lia.
Qed.

(** A rule in the style of a loop invariant: [Pnode] holds of the
    arguments of every call, [Pinc] of every incumbent.  The include step
    may use what the code has checked before it recurses; the bound test
    gives [0 < suffix[idx]] because the incumbent is at least the payout
    of the node. *)
Lemma search_rule (Pnode : nat -> Z -> Z -> Z -> Z -> Z -> Prop)
    (Pinc : incumbent -> Prop) :
  (forall idx mask cp cw cv valid,
      Pnode idx mask cp cw cv valid -> Pinc (mkInc cp (chosen obv idx mask))) ->
  (forall idx mask cp cw cv valid,
      Pnode idx mask cp cw cv valid ->
      (idx < n)%nat ->
      0 < suffix !!! idx ->
      Z.testbit valid (Z.of_nat (obv !!! idx)) = true ->
      cw + weights !!! (obv !!! idx) <= max_weight ->
      cv + volumes !!! (obv !!! idx) <= max_volume ->
      Pnode (S idx) (Z.lor mask (bit idx)) (cp + payouts !!! (obv !!! idx))
            (cw + weights !!! (obv !!! idx)) (cv + volumes !!! (obv !!! idx))
            (Z.land valid (compat_masks !!! (obv !!! idx)))) ->
  (forall idx mask cp cw cv valid,
      Pnode idx mask cp cw cv valid -> (idx < n)%nat ->
      Pnode (S idx) mask cp cw cv valid) ->
  forall fuel idx mask cp cw cv valid best best',
    Pnode idx mask cp cw cv valid ->
    Pinc best ->
    srch fuel idx mask cp cw cv valid best = Some best' ->
    Pinc best'.
Proof.
  intros Hupd Hincl Hexcl.
  induction fuel as [|fuel IH]; intros idx mask cp cw cv valid best best' Hnode Hbest Hrun;
    [discriminate|].
  rewrite search_unfold in Hrun. cbv zeta in Hrun.
  pose proof (updated_ge idx mask cp best) as [Hcp _].
  assert (Hb1 : Pinc (updated obv idx mask cp best)).
  { unfold updated. destruct (_ <? _); [eapply Hupd; eassumption | assumption]. }
  destruct (Nat.leb_spec n idx) as [Hn|Hn]; [injection Hrun as <-; assumption|].
  destruct (Z.leb_spec (cp + suffix !!! idx) (best_payout (updated obv idx mask cp best)))
    as [Hpr|Hpr]; [injection Hrun as <-; assumption|].
  destruct (Z.testbit valid (Z.of_nat (obv !!! idx))) eqn:Hv; simpl in Hrun.
  - destruct (Z.leb_spec (cw + weights !!! (obv !!! idx)) max_weight) as [Hw|Hw];
      simpl in Hrun.
    + destruct (Z.leb_spec (cv + volumes !!! (obv !!! idx)) max_volume) as [Hvol|Hvol];
        simpl in Hrun.
      * destruct (srch fuel (S idx) (Z.lor mask (bit idx)) _ _ _ _ _) as [b2|] eqn:Hinc;
          [|discriminate].
        eapply IH in Hinc; [|apply Hincl; try assumption; lia|assumption].
        exact (IH _ _ _ _ _ _ _ _ (Hexcl _ _ _ _ _ _ Hnode Hn) Hinc Hrun).
      * exact (IH _ _ _ _ _ _ _ _ (Hexcl _ _ _ _ _ _ Hnode Hn) Hb1 Hrun).
    + exact (IH _ _ _ _ _ _ _ _ (Hexcl _ _ _ _ _ _ Hnode Hn) Hb1 Hrun).
  - exact (IH _ _ _ _ _ _ _ _ (Hexcl _ _ _ _ _ _ Hnode Hn) Hb1 Hrun).
Qed.

End SearchRules.

(** ** What the incumbent always satisfies *)

Lemma sumZ_nonpos (l : list Z) : Forall (fun x => x <= 0) l -> sumZ l <= 0.
Proof. unfold sumZ. induction 1; simpl; lia. Qed.

(** When the candidates from position [idx] on are worth something, the one
    at [idx], the most valuable of them, is. *)
Lemma head_payout_pos (orders : list Order) (idx : nat) :
  (idx < length orders)%nat ->
  0 < rest_payout orders idx ->
  0 < payouts_of orders !!! (order_by_value orders !!! idx).
Proof.
  intros Hidx Hrest. rewrite rest_payout_step in Hrest by assumption.
  destruct (Z.lt_ge_cases 0 (payouts_of orders !!! (order_by_value orders !!! idx)))
    as [Hpos|Hneg]; [assumption|exfalso].
  assert (Hle : rest_payout orders (S idx) <= 0); [|lia].
  unfold rest_payout. apply sumZ_nonpos, Forall_forall.
  intros x Hx. apply list_elem_of_In, in_map_iff in Hx as (z & <- & Hz).
  apply list_elem_of_In, list_elem_of_lookup in Hz as [j Hj].
  rewrite lookup_drop in Hj.
  pose proof (lookup_lt_Some _ _ _ Hj) as Hlt.
  apply list_lookup_total_correct in Hj. subst z.
  pose proof (StronglySorted_lookup _ _ idx (S idx + j) (order_by_value_sorted orders)
                ltac:(lia)) as Hb.
  unfold before in Hb. lia.
Qed.

Section Soundness.

Variable truck : Truck.
Variable orders : list Order.

Local Abbreviation n := (length orders).
Local Abbreviation obv := (order_by_value orders).
Local Abbreviation masks := (_build_compatibility_masks orders).
Local Abbreviation max_weight := (max_weight_lbs truck).
Local Abbreviation max_volume := (max_volume_cuft truck).
Local Abbreviation srch :=
  (search n (payouts_of orders) (weights_of orders) (volumes_of orders)
          masks (suffix_payout orders) obv max_weight max_volume).

Lemma good_node_update idx mask cp cw cv valid :
  good_node truck orders idx mask cp cw cv valid ->
  good_incumbent truck orders (mkInc cp (chosen obv idx mask)).
Proof. intros (_ & _ & Hcp & _ & _ & _ & Hsel). split; assumption. Qed.

Lemma good_node_exclude idx mask cp cw cv valid :
  good_node truck orders idx mask cp cw cv valid -> (idx < n)%nat ->
  good_node truck orders (S idx) mask cp cw cv valid.
Proof.
  intros (Hidx & Hhi & Hcp & Hcw & Hcv & Hvalid & Hsel) Hlt.
  unfold good_node. rewrite chosen_exclude by (apply Hhi; lia).
  repeat split; try assumption; try lia; try apply Hsel.
  intros k Hk. apply Hhi. lia.
Qed.

Lemma good_node_include idx mask cp cw cv valid :
  good_node truck orders idx mask cp cw cv valid ->
  (idx < n)%nat ->
  0 < suffix_payout orders !!! idx ->
  Z.testbit valid (Z.of_nat (obv !!! idx)) = true ->
  cw + weights_of orders !!! (obv !!! idx) <= max_weight ->
  cv + volumes_of orders !!! (obv !!! idx) <= max_volume ->
  good_node truck orders (S idx) (Z.lor mask (bit idx))
            (cp + payouts_of orders !!! (obv !!! idx))
            (cw + weights_of orders !!! (obv !!! idx))
            (cv + volumes_of orders !!! (obv !!! idx))
            (Z.land valid (masks !!! (obv !!! idx))).
Proof.
  intros (Hidx & Hhi & Hcp & Hcw & Hcv & Hvalid & Hfeas & Hpair & Hpos & Hsub)
         Hlt Hsuf Hbit Hw Hv.
  pose proof (order_by_value_lookup_lt orders idx Hlt) as Ho.
  unfold good_node, good_selection. rewrite chosen_include.
  rewrite sel_payout_snoc, sel_weight_snoc, sel_volume_snoc.
  split; [lia|]. split.
  { intros k Hk. rewrite Z.lor_spec, Hhi, testbit_bit by lia.
    apply bool_decide_eq_false_2. lia. }
  split; [lia|]. split; [lia|]. split; [lia|]. split.
  { intros b Hb Hvb c Hc.
    rewrite Z.land_spec in Hvb. apply andb_true_iff in Hvb as [Hvb Hmb].
    apply elem_of_app in Hc as [Hc|Hc].
    - now apply Hvalid.
    - apply list_elem_of_singleton in Hc. subst c.
      now rewrite <- build_masks_testbit. }
  split; [right; lia|]. split.
  { intros a b Ha Hb.
    apply elem_of_app in Ha as [Ha|Ha], Hb as [Hb|Hb];
      rewrite ?list_elem_of_singleton in *; subst.
    - now apply Hpair.
    - now apply Hvalid.
    - rewrite compatible_sym. now apply Hvalid.
    - unfold compatible. now rewrite bool_decide_eq_true_2. }
  split.
  { intros c Hc. apply elem_of_app in Hc as [Hc|Hc]; [now apply Hpos|].
    apply list_elem_of_singleton in Hc. subst c.
    apply head_payout_pos; [assumption|].
    now rewrite <- suffix_payout_lookup by lia. }
  transitivity (take (S idx) obv); [|apply sublist_take].
  rewrite (take_S_r obv idx (obv !!! idx)).
  - apply sublist_app; [|reflexivity].
    apply chosen_sublist. rewrite order_by_value_length. lia.
  - apply list_lookup_lookup_total_lt. now rewrite order_by_value_length.
Qed.

Lemma search_good (fuel idx : nat) (mask cp cw cv valid : Z) (best best' : incumbent) :
  good_node truck orders idx mask cp cw cv valid ->
  good_incumbent truck orders best ->
  srch fuel idx mask cp cw cv valid best = Some best' ->
  good_incumbent truck orders best'.
Proof.
  apply search_rule.
  - apply good_node_update.
  - apply good_node_include.
  - apply good_node_exclude.
Qed.

Lemma good_node_root (valid : Z) : good_node truck orders 0 0 0 0 0 valid.
Proof.
  unfold good_node, good_selection, chosen. simpl.
  repeat split; try reflexivity; try lia.
  - intros k _. apply Z.bits_0.
  - intros b _ _ c Hc. inversion Hc.
  - now left.
  - intros a b Ha. inversion Ha.
  - intros c Hc. inversion Hc.
  - apply sublist_nil_l.
Qed.

Lemma good_incumbent_init : good_incumbent truck orders (mkInc 0 []).
Proof.
  unfold good_incumbent, good_selection. simpl.
  repeat split; try reflexivity.
  - now left.
  - intros a b Ha. inversion Ha.
  - intros c Hc. inversion Hc.
  - apply sublist_nil_l.
Qed.

(** The search of [optimize] returns, and what it returns is good. *)
Lemma run_search_good :
  exists best, run_search truck orders = Some best /\ good_incumbent truck orders best.
Proof.
  unfold run_search.
  destruct (search_total n (payouts_of orders) (weights_of orders) (volumes_of orders)
              masks (suffix_payout orders) obv max_weight max_volume
              (S n) 0 0 0 0 0 (Z.shiftl 1 (Z.of_nat n) - 1) (mkInc 0 []))
    as [best Hrun]; [lia|].
  exists best. split; [assumption|].
  eapply search_good; [apply good_node_root | apply good_incumbent_init | exact Hrun].
Qed.

End Soundness.

(** ** Nothing better is missed *)

Lemma payouts_lookup (orders : list Order) (i : nat) :
  (i < length orders)%nat -> payouts_of orders !!! i = payout_cents (orders !!! i).
Proof.
  intros Hi. unfold payouts_of. apply list_lookup_total_correct.
  rewrite list_lookup_fmap, (list_lookup_lookup_total_lt orders i Hi). reflexivity.
Qed.

Lemma weights_lookup (orders : list Order) (i : nat) :
  (i < length orders)%nat -> weights_of orders !!! i = weight_lbs (orders !!! i).
Proof.
  intros Hi. unfold weights_of. apply list_lookup_total_correct.
  rewrite list_lookup_fmap, (list_lookup_lookup_total_lt orders i Hi). reflexivity.
Qed.

Lemma volumes_lookup (orders : list Order) (i : nat) :
  (i < length orders)%nat -> volumes_of orders !!! i = volume_cuft (orders !!! i).
Proof.
  intros Hi. unfold volumes_of. apply list_lookup_total_correct.
  rewrite list_lookup_fmap, (list_lookup_lookup_total_lt orders i Hi). reflexivity.
Qed.

Lemma elem_of_drop_in {A : Type} (l : list A) (i : nat) (x : A) :
  x ∈ drop i l -> x ∈ l.
Proof. apply (sublist_subseteq _ _ (sublist_drop l i)). Qed.

Lemma sublist_map {A B : Type} (f : A -> B) (l1 l2 : list A) :
  sublist l1 l2 -> sublist (map f l1) (map f l2).
Proof. induction 1; simpl; now constructor. Qed.

Lemma valid_order_lookup (orders : list Order) (i : nat) :
  Forall valid_order orders -> (i < length orders)%nat -> valid_order (orders !!! i).
Proof.
  intros Hall Hi. rewrite Forall_forall in Hall.
  apply Hall, list_elem_of_lookup_total_2, Hi.
Qed.

(** The bound used for pruning: when no payout is negative, no choice among
    the candidates from position [idx] on pays more than
    [suffix_payout[idx]]. *)
Lemma suffix_payout_upper_bound (orders : list Order) (idx : nat) (ext : list nat) :
  Forall (fun o => 0 <= payout_cents o) orders ->
  (idx <= length orders)%nat ->
  sublist ext (drop idx (order_by_value orders)) ->
  sel_payout orders ext <= suffix_payout orders !!! idx.
Proof.
  intros Hnonneg Hidx Hsub. rewrite suffix_payout_lookup by assumption.
  unfold sel_payout, rest_payout. apply sumZ_sublist.
  - apply Forall_forall. intros x Hx.
    apply list_elem_of_In, in_map_iff in Hx as (i & <- & Hi).
    apply list_elem_of_In, elem_of_drop_in, order_by_value_elem in Hi.
    rewrite payouts_lookup by assumption.
    rewrite Forall_forall in Hnonneg.
    apply Hnonneg, list_elem_of_lookup_total_2, Hi.
  - now apply sublist_map.
Qed.

Section Completeness.

Variable truck : Truck.
Variable orders : list Order.
Hypothesis Hvalid_orders : Forall valid_order orders.

Local Abbreviation n := (length orders).
Local Abbreviation obv := (order_by_value orders).
Local Abbreviation masks := (_build_compatibility_masks orders).
Local Abbreviation max_weight := (max_weight_lbs truck).
Local Abbreviation max_volume := (max_volume_cuft truck).
Local Abbreviation srch :=
  (search n (payouts_of orders) (weights_of orders) (volumes_of orders)
          masks (suffix_payout orders) obv max_weight max_volume).

Lemma sel_nonneg (sel : list nat) :
  (forall i, i ∈ sel -> (i < n)%nat) ->
  0 <= sel_payout orders sel /\ 0 <= sel_weight orders sel /\ 0 <= sel_volume orders sel.
Proof.
  intros Hsel. unfold sel_payout, sel_weight, sel_volume.
  repeat split; apply sumZ_nonneg, Forall_forall; intros x Hx;
    apply list_elem_of_In, in_map_iff in Hx as (i & <- & Hi);
    apply list_elem_of_In, Hsel in Hi;
    pose proof (valid_order_lookup orders i Hvalid_orders Hi) as (Hp & Hw & Hv);
    rewrite ?payouts_lookup, ?weights_lookup, ?volumes_lookup by assumption; lia.
Qed.

Lemma suffix_payout_bound (idx : nat) (ext : list nat) :
  (idx <= n)%nat ->
  sublist ext (drop idx obv) ->
  sel_payout orders ext <= suffix_payout orders !!! idx.
Proof.
  apply suffix_payout_upper_bound.
  eapply Forall_impl; [exact Hvalid_orders|]. now intros o (Hp & _).
Qed.

Lemma search_complete (fuel idx : nat) (mask cp cw cv valid : Z)
    (best best' : incumbent) (ext : list nat) :
  srch fuel idx mask cp cw cv valid best = Some best' ->
  extension truck orders idx cw cv valid ext ->
  cp + sel_payout orders ext <= best_payout best'.
Proof.
  revert idx mask cp cw cv valid best best' ext.
  induction fuel as [|fuel IH];
    intros idx mask cp cw cv valid best best' ext Hrun Hext; [discriminate|].
  destruct Hext as (Hsub & Hbits & Hpair & Hw & Hv).
  rewrite search_unfold in Hrun. cbv zeta in Hrun.
  pose proof (updated_ge obv idx mask cp best) as [Hcp _].
  destruct (Nat.leb_spec n idx) as [Hn|Hn].
  { injection Hrun as <-.
    rewrite drop_ge in Hsub by (rewrite order_by_value_length; lia).
    apply sublist_nil_r in Hsub. subst ext. unfold sel_payout. simpl. lia. }
  destruct (Z.leb_spec (cp + suffix_payout orders !!! idx)
              (best_payout (updated obv idx mask cp best))) as [Hpr|Hpr].
  { injection Hrun as <-.
    pose proof (suffix_payout_bound idx ext ltac:(lia) Hsub). lia. }
  pose proof (order_by_value_lookup_lt orders idx Hn) as Ho.
  rewrite (drop_S obv (obv !!! idx) idx) in Hsub
    by (apply list_lookup_lookup_total_lt; rewrite order_by_value_length; lia).
  assert (Hmem : forall e, e ∈ ext -> (e < n)%nat).
  { intros e He. apply order_by_value_elem.
    apply (sublist_subseteq _ _ Hsub) in He.
    apply elem_of_cons in He as [->|He].
    - apply order_by_value_elem, Ho.
    - eapply elem_of_drop_in, He. }
  apply sublist_cons_r in Hsub as [Hsub|(ext' & -> & Hsub)].
  - (* the extension truck orders skips this candidate *)
    assert (Hext : extension truck orders (S idx) cw cv valid ext) by (repeat split; assumption).
    destruct (_ && _).
    + destruct (srch fuel (S idx) (Z.lor mask (bit idx)) _ _ _ _ _) as [b2|] eqn:Hinc;
        [|discriminate].
      exact (IH _ _ _ _ _ _ _ _ _ Hrun Hext).
    + exact (IH _ _ _ _ _ _ _ _ _ Hrun Hext).
  - (* the extension truck orders takes this candidate *)
    rewrite (Hbits (obv !!! idx)) in Hrun by (apply elem_of_cons; now left).
    change (obv !!! idx :: ext') with ([obv !!! idx] ++ ext') in Hw, Hv |- *.
    rewrite sel_weight_app in Hw. rewrite sel_volume_app in Hv.
    rewrite sel_payout_app.
    unfold sel_weight at 1 in Hw. unfold sel_volume at 1 in Hv.
    unfold sel_payout at 1. simpl in Hw, Hv |- *.
    assert (Hmem' : forall e, e ∈ ext' -> (e < n)%nat).
    { intros e He. apply Hmem, elem_of_cons. now right. }
    pose proof (sel_nonneg ext' Hmem') as (_ & Hw0 & Hv0).
    destruct (Z.leb_spec (cw + weights_of orders !!! (obv !!! idx)) max_weight)
      as [Hw1|Hw1]; [|lia].
    destruct (Z.leb_spec (cv + volumes_of orders !!! (obv !!! idx)) max_volume)
      as [Hv1|Hv1]; [|lia].
    simpl in Hrun.
    destruct (srch fuel (S idx) (Z.lor mask (bit idx)) _ _ _ _ _) as [b2|] eqn:Hinc;
      [|discriminate].
    assert (Hext : extension truck orders (S idx) (cw + weights_of orders !!! (obv !!! idx))
                     (cv + volumes_of orders !!! (obv !!! idx))
                     (Z.land valid (masks !!! (obv !!! idx))) ext').
    { split; [assumption|]. split.
      - intros e He. rewrite Z.land_spec.
        rewrite Hbits by (apply elem_of_cons; now right).
        rewrite build_masks_testbit by auto.
        simpl. apply Hpair; apply elem_of_cons; [now left | now right].
      - split; [|lia].
        intros a b Ha Hb. apply Hpair; apply elem_of_cons; now right. }
    pose proof (IH _ _ _ _ _ _ _ _ _ Hinc Hext) as Hb2.
    apply search_mono in Hrun. lia.
Qed.

End Completeness.

(** ** The problem [optimize] solves *)

Lemma sel_totals_subset (orders : list Order) (sel : list nat) :
  (forall i, i ∈ sel -> (i < length orders)%nat) ->
  sel_payout orders sel = subset_payout orders sel
  /\ sel_weight orders sel = subset_weight orders sel
  /\ sel_volume orders sel = subset_volume orders sel.
Proof.
  intros Hsel.
  unfold sel_payout, sel_weight, sel_volume, subset_payout, subset_weight, subset_volume.
  repeat split; f_equal; apply map_ext_in; intros i Hi;
    apply list_elem_of_In, Hsel in Hi;
    [apply payouts_lookup | apply weights_lookup | apply volumes_lookup]; assumption.
Qed.

Lemma pairwise_compatible_can_combine (orders : list Order) (sel : list nat) :
  pairwise_compatible orders sel <-> pairwise_can_combine orders sel.
Proof.
  unfold pairwise_compatible, pairwise_can_combine, compatible, can_combine.
  split; intros H a b Ha Hb.
  - intros Hne. specialize (H a b Ha Hb).
    rewrite bool_decide_eq_false_2 in H by assumption. simpl in H.
    apply andb_true_iff in H as [H H3]. apply andb_true_iff in H as [H1 H2]. auto.
  - destruct (decide (a = b)) as [->|Hne].
    + now rewrite bool_decide_eq_true_2.
    + destruct (H a b Ha Hb Hne) as (-> & -> & ->). apply orb_true_r.
Qed.

Lemma all_orders_valid_testbit (n e : nat) :
  (e < n)%nat -> Z.testbit (Z.shiftl 1 (Z.of_nat n) - 1) (Z.of_nat e) = true.
Proof.
  intros He. rewrite Z.shiftl_1_l, Z.sub_1_r, <- Z.ones_equiv.
  apply Z.ones_spec_low. lia.
Qed.

(** The search leaves a payout no candidate subset exceeds. *)
Lemma run_search_optimal (truck : Truck) (orders : list Order)
    (best : incumbent) (sel : list nat) :
  Forall valid_order orders ->
  run_search truck orders = Some best ->
  is_subset orders sel ->
  feasible truck orders sel ->
  pairwise_can_combine orders sel ->
  subset_payout orders sel <= best_payout best.
Proof.
  intros Hvalid Hrun [Hnd Hlt] [Hw Hv] Hpair.
  set (ext := filter (fun i => i ∈ sel) (order_by_value orders)).
  assert (Hperm : Permutation ext sel).
  { apply NoDup_Permutation; [apply NoDup_filter, order_by_value_NoDup | assumption |].
    intros x. unfold ext. rewrite list_elem_of_filter, order_by_value_elem.
    split; [tauto|]. intros Hx. split; [assumption | now apply Hlt]. }
  assert (Hlt' : forall i, i ∈ ext -> (i < length orders)%nat).
  { intros i Hi. apply Hlt. now rewrite <- Hperm. }
  destruct (sel_totals_subset orders ext Hlt') as (Hp1 & Hw1 & Hv1).
  assert (Hp2 : subset_payout orders ext = subset_payout orders sel)
    by (apply sumZ_perm, Permutation_map, Hperm).
  assert (Hw2 : subset_weight orders ext = subset_weight orders sel)
    by (apply sumZ_perm, Permutation_map, Hperm).
  assert (Hv2 : subset_volume orders ext = subset_volume orders sel)
    by (apply sumZ_perm, Permutation_map, Hperm).
  unfold run_search in Hrun.
  eapply (search_complete truck orders Hvalid) with (ext := ext) in Hrun.
  - lia.
  - split; [rewrite drop_0; apply sublist_filter|].
    split; [intros e He; apply all_orders_valid_testbit, Hlt', He|].
    split; [|lia].
    apply pairwise_compatible_can_combine.
    intros a b Ha Hb. apply Hpair; now rewrite <- Hperm.
Qed.

(** What [optimize] returns, in one statement: the tuple is assembled from
    the selection the search ends with, and that selection is good. *)
Lemma optimize_spec (truck : Truck) (orders : list Order) :
  exists sel,
    selection truck orders = Some sel
    /\ optimize truck orders
       = Some (map (fun i => order_id (orders !!! i)) sel,
               subset_payout orders sel, subset_weight orders sel,
               subset_volume orders sel)
    /\ good_selection truck orders sel
    /\ (Forall valid_order orders ->
        forall other, is_subset orders other -> feasible truck orders other ->
                      pairwise_can_combine orders other ->
                      subset_payout orders other <= subset_payout orders sel).
Proof.
  unfold selection, optimize.
  destruct (Nat.eqb_spec (length orders) 0) as [Hn|Hn].
  - exists []. repeat split; try reflexivity.
    + now left.
    + intros a b Ha. inversion Ha.
    + intros c Hc. inversion Hc.
    + apply sublist_nil_l.
    + intros _ other [_ Hlt] _ _. destruct other as [|i other]; [reflexivity|].
      specialize (Hlt i ltac:(left)). lia.
  - destruct (run_search_good truck orders) as (best & Hrun & Hpay & Hgood).
    rewrite Hrun. simpl. exists (best_selection best).
    assert (Hlt : forall i, i ∈ best_selection best -> (i < length orders)%nat).
    { intros i Hi. apply order_by_value_elem.
      destruct Hgood as (_ & _ & _ & Hsub). now apply (sublist_subseteq _ _ Hsub). }
    destruct (sel_totals_subset orders _ Hlt) as (Hp & Hw & Hv).
    split; [reflexivity|]. split.
    { unfold sel_weight, sel_volume in Hw, Hv. rewrite Hw, Hv, Hpay, Hp. reflexivity. }
    split; [assumption|].
    intros Hvalid other Hsub Hfeas Hpair. rewrite <- Hp, <- Hpay.
    eapply run_search_optimal; eassumption.
Qed.

(** The same in terms of the orders themselves. *)
Lemma good_selection_candidate (truck : Truck) (orders : list Order) (sel : list nat) :
  good_selection truck orders sel ->
  is_subset orders sel
  /\ (sel = [] \/ feasible truck orders sel)
  /\ pairwise_can_combine orders sel
  /\ (forall i, i ∈ sel -> 0 < payout_cents (orders !!! i))
  /\ sublist sel (order_by_value orders).
Proof.
  intros (Hfeas & Hpair & Hpos & Hsub).
  assert (Hlt : forall i, i ∈ sel -> (i < length orders)%nat).
  { intros i Hi. now apply order_by_value_elem, (sublist_subseteq _ _ Hsub). }
  destruct (sel_totals_subset orders sel Hlt) as (_ & Hw & Hv).
  split; [|split; [|split; [|split]]].
  - split; [|assumption].
    eapply sublist_NoDup; [apply order_by_value_NoDup | exact Hsub].
  - unfold feasible. rewrite <- Hw, <- Hv. exact Hfeas.
  - now apply pairwise_compatible_can_combine.
  - intros i Hi. rewrite <- payouts_lookup by auto. now apply Hpos.
  - assumption.
Qed.

Lemma feasible_nil (truck : Truck) (orders : list Order) :
  0 <= max_weight_lbs truck -> 0 <= max_volume_cuft truck -> feasible truck orders [].
Proof. intros Hw Hv. unfold feasible, subset_weight, subset_volume. simpl. lia. Qed.

(** Under the input preconditions the returned payout is attained by a
    candidate subset and bounds every candidate subset. *)
Lemma optimize_maximum (truck : Truck) (orders : list Order) :
  preconditions truck orders ->
  exists ids p w v,
    optimize truck orders = Some (ids, p, w, v)
    /\ (exists sel, is_subset orders sel /\ feasible truck orders sel
                    /\ pairwise_can_combine orders sel
                    /\ subset_payout orders sel = p)
    /\ (forall other, is_subset orders other -> feasible truck orders other ->
                      pairwise_can_combine orders other ->
                      subset_payout orders other <= p).
Proof.
  intros (Hmw & Hmv & Hvalid).
  destruct (optimize_spec truck orders) as (sel & _ & Hopt & Hgood & Hbest).
  apply good_selection_candidate in Hgood as (Hsub & Hfeas & Hpair & _ & _).
  eexists _, _, _, _. split; [exact Hopt|]. split.
  - exists sel. split; [exact Hsub|]. split; [|split; [exact Hpair | reflexivity]].
    destruct Hfeas as [->|Hfeas]; [apply feasible_nil; lia | exact Hfeas].
  - now apply Hbest.
Qed.

(** * What [optimize] returns *)

(** C1 (optimality). Under the input preconditions [optimize] returns, and
    the total payout it returns is the maximum, over all subsets of the
    orders that fit both capacities and whose members pairwise pass the
    three checks, of the summed payouts: some such subset reaches it and
    none exceeds it. *)
Theorem optimize_optimal (truck : Truck) (orders : list Order) :
  preconditions truck orders ->
  exists ids p w v,
    optimize truck orders = Some (ids, p, w, v)
    /\ (exists sel, is_subset orders sel /\ feasible truck orders sel
                    /\ pairwise_can_combine orders sel
                    /\ subset_payout orders sel = p)
    /\ (forall other, is_subset orders other -> feasible truck orders other ->
                      pairwise_can_combine orders other ->
                      subset_payout orders other <= p).
Proof. apply optimize_maximum. Qed.

Lemma sample_preconditions : preconditions sample_truck sample_orders.
Proof.
  unfold preconditions, sample_truck, sample_orders, valid_order. simpl.
  repeat split; try lia; repeat constructor; simpl; lia.
Defined.

Example optimize_sample :
  optimize sample_truck sample_orders
  = Some ([text "ord-001"; text "ord-002"], 430000, 30000, 2100).
Proof. vm_compute. reflexivity. Qed.

Lemma optimize_optimal_witness :
  preconditions sample_truck sample_orders
  /\ exists ids p w v,
       optimize sample_truck sample_orders = Some (ids, p, w, v)
       /\ (exists sel, is_subset sample_orders sel /\ feasible sample_truck sample_orders sel
                       /\ pairwise_can_combine sample_orders sel
                       /\ subset_payout sample_orders sel = p)
       /\ (forall other, is_subset sample_orders other ->
                         feasible sample_truck sample_orders other ->
                         pairwise_can_combine sample_orders other ->
                         subset_payout sample_orders other <= p).
Proof.
  split; [exact sample_preconditions|].
  apply (optimize_optimal sample_truck sample_orders). exact sample_preconditions.
Defined.

(** C2 (feasibility). Under the input preconditions the returned
    [total_weight_lbs] is at most the truck's [max_weight_lbs] and the
    returned [total_volume_cuft] at most its [max_volume_cuft]. *)
Theorem optimize_feasible (truck : Truck) (orders : list Order) :
  preconditions truck orders ->
  exists ids p w v,
    optimize truck orders = Some (ids, p, w, v)
    /\ w <= max_weight_lbs truck
    /\ v <= max_volume_cuft truck.
Proof.
  intros (Hmw & Hmv & _).
  destruct (optimize_spec truck orders) as (sel & _ & Hopt & Hgood & _).
  apply good_selection_candidate in Hgood as (_ & Hfeas & _).
  eexists _, _, _, _. split; [exact Hopt|].
  destruct Hfeas as [->|Hfeas]; [apply feasible_nil; lia | exact Hfeas].
Qed.

Lemma optimize_feasible_witness :
  preconditions sample_truck sample_orders
  /\ exists ids p w v,
       optimize sample_truck sample_orders = Some (ids, p, w, v)
       /\ w <= max_weight_lbs sample_truck
       /\ v <= max_volume_cuft sample_truck.
Proof.
  split; [exact sample_preconditions|].
  apply (optimize_feasible sample_truck sample_orders). exact sample_preconditions.
Defined.

(** C3 (pairwise compatibility). [optimize] returns the identifiers of a
    selection of distinct orders, every two of which satisfy the route, the
    time-window and the hazmat check.  The search only ever tests one bit of
    the eligible set and intersects it with one row of the masks; this holds
    for every input, the preconditions included. *)
Theorem optimize_pairwise_compatible (truck : Truck) (orders : list Order) :
  exists sel p w v,
    selection truck orders = Some sel
    /\ optimize truck orders = Some (map (fun i => order_id (orders !!! i)) sel, p, w, v)
    /\ is_subset orders sel
    /\ forall a b, a ∈ sel -> b ∈ sel -> a <> b ->
         _check_same_route (orders !!! a) (orders !!! b) = true
         /\ _check_time_windows (orders !!! a) (orders !!! b) = true
         /\ _check_hazmat_ok (orders !!! a) (orders !!! b) = true.
Proof.
  destruct (optimize_spec truck orders) as (sel & Hsel & Hopt & Hgood & _).
  apply good_selection_candidate in Hgood as (Hsub & _ & Hpair & _).
  exists sel. eexists _, _, _. split; [exact Hsel|]. split; [exact Hopt|].
  split; [exact Hsub | exact Hpair].
Qed.

(** C5 (consistency of the result). The three totals are the sums of the
    weight, volume and payout fields over the selected orders, and
    [selected_order_ids] lists their identifiers in one fixed order: the
    search order, a sub-sequence of [order_by_value].  This holds for every
    input, the preconditions included. *)
Theorem optimize_consistent (truck : Truck) (orders : list Order) :
  exists sel,
    selection truck orders = Some sel
    /\ optimize truck orders
       = Some (map (fun i => order_id (orders !!! i)) sel,
               sumZ (map (fun i => payout_cents (orders !!! i)) sel),
               sumZ (map (fun i => weight_lbs (orders !!! i)) sel),
               sumZ (map (fun i => volume_cuft (orders !!! i)) sel))
    /\ is_subset orders sel
    /\ sublist sel (order_by_value orders).
Proof.
  destruct (optimize_spec truck orders) as (sel & Hsel & Hopt & Hgood & _).
  apply good_selection_candidate in Hgood as (Hsub & _ & _ & _ & Hord).
  exists sel. split; [exact Hsel|]. split; [exact Hopt|]. split; assumption.
Qed.

(** C10 (zero-payout orders). Every selected order has a positive payout,
    so an order with [payout_cents = 0] is never selected; when the
    identifiers of the request are distinct, its identifier is not in
    [selected_order_ids].  This holds for every input, the preconditions
    included. *)
Theorem optimize_no_zero_payout (truck : Truck) (orders : list Order) :
  exists sel p w v,
    selection truck orders = Some sel
    /\ optimize truck orders = Some (map (fun i => order_id (orders !!! i)) sel, p, w, v)
    /\ (forall i, i ∈ sel -> 0 < payout_cents (orders !!! i))
    /\ (NoDup (map order_id orders) ->
        forall i, (i < length orders)%nat -> payout_cents (orders !!! i) = 0 ->
                  order_id (orders !!! i) ∉ map (fun i => order_id (orders !!! i)) sel).
Proof.
  destruct (optimize_spec truck orders) as (sel & Hsel & Hopt & Hgood & _).
  apply good_selection_candidate in Hgood as ([_ Hlt] & _ & _ & Hpos & _).
  exists sel. eexists _, _, _. split; [exact Hsel|]. split; [exact Hopt|].
  split; [exact Hpos|].
  intros Hids i Hi Hzero Hin.
  apply list_elem_of_In, in_map_iff in Hin as (j & Hid & Hj).
  apply list_elem_of_In in Hj.
  assert (j = i); [|subst j; specialize (Hpos i Hj); lia].
  specialize (Hlt j Hj).
  apply (NoDup_lookup (map order_id orders) j i (order_id (orders !!! i))).
  - assumption.
  - rewrite <- Hid.
    now rewrite list_lookup_fmap, (list_lookup_lookup_total_lt orders j Hlt).
  - now rewrite list_lookup_fmap, (list_lookup_lookup_total_lt orders i Hi).
Qed.

Lemma optimize_no_zero_payout_witness :
  NoDup (map order_id sample_orders_free)
  /\ (3 < length sample_orders_free)%nat
  /\ payout_cents (sample_orders_free !!! 3%nat) = 0
  /\ exists sel p w v,
       optimize sample_truck sample_orders_free
       = Some (map (fun i => order_id (sample_orders_free !!! i)) sel, p, w, v)
       /\ order_id (sample_orders_free !!! 3%nat)
            ∉ map (fun i => order_id (sample_orders_free !!! i)) sel.
Proof.
  assert (Hids : NoDup (map order_id sample_orders_free)).
  { unfold sample_orders_free, sample_orders. simpl.
    repeat (apply NoDup_cons_2;
            [rewrite ?not_elem_of_cons; repeat split;
             try discriminate; apply not_elem_of_nil|]).
    apply NoDup_nil_2. }
  assert (Hlen : (3 < length sample_orders_free)%nat) by (simpl; lia).
  assert (Hzero : payout_cents (sample_orders_free !!! 3%nat) = 0) by reflexivity.
  split; [exact Hids|]. split; [exact Hlen|]. split; [exact Hzero|].
  destruct (optimize_no_zero_payout sample_truck sample_orders_free)
    as (sel & p & w & v & _ & Hopt & _ & Hfree).
  exists sel, p, w, v. split; [exact Hopt|].
  exact (Hfree Hids 3%nat Hlen Hzero).
Defined.

(** C6 (search order and bound table). [order_by_value] is a permutation of
    the order indices, by descending payout, equal payouts in input order;
    [suffix_payout] has length [N + 1], ends with [0] and satisfies
    [suffix_payout[i] = suffix_payout[i+1] + payout(order_by_value[i])];
    hence, payouts being non-negative, [suffix_payout[i]] bounds the payout
    of every choice of candidates among the positions [i .. N-1]. *)
Theorem search_order_and_bound (orders : list Order) :
  let n := length orders in
  let obv := order_by_value orders in
  let suffix := suffix_payout orders in
  Permutation obv (seq 0 n)
  /\ (forall i j, (i < j < n)%nat ->
        payout_cents (orders !!! (obv !!! j)) < payout_cents (orders !!! (obv !!! i))
        \/ (payout_cents (orders !!! (obv !!! i)) = payout_cents (orders !!! (obv !!! j))
            /\ (obv !!! i < obv !!! j)%nat))
  /\ length suffix = S n
  /\ suffix !!! n = 0
  /\ (forall i, (i < n)%nat ->
        suffix !!! i = suffix !!! (S i) + payout_cents (orders !!! (obv !!! i)))
  /\ (Forall (fun o => 0 <= payout_cents o) orders ->
      forall i ext, (i <= n)%nat -> sublist ext (drop i obv) ->
        subset_payout orders ext <= suffix !!! i).
Proof.
  cbv zeta. split; [apply order_by_value_perm|]. split.
  { intros i j Hij.
    pose proof (StronglySorted_lookup _ _ i j (order_by_value_sorted orders)) as Hb.
    rewrite order_by_value_length in Hb. specialize (Hb Hij). unfold before in Hb.
    rewrite !payouts_lookup in Hb by (apply order_by_value_lookup_lt; lia).
    exact Hb. }
  split; [apply suffix_payout_state|]. split.
  { rewrite suffix_payout_lookup by lia. unfold rest_payout.
    rewrite drop_ge; [reflexivity|]. rewrite order_by_value_length. lia. }
  split.
  { intros i Hi. rewrite !suffix_payout_lookup by lia.
    rewrite rest_payout_step by assumption.
    now rewrite payouts_lookup by (apply order_by_value_lookup_lt; lia). }
  intros Hnonneg i ext Hi Hsub.
  assert (Hlt : forall e, e ∈ ext -> (e < length orders)%nat).
  { intros e He. apply order_by_value_elem.
    eapply elem_of_drop_in, (sublist_subseteq _ _ Hsub), He. }
  destruct (sel_totals_subset orders ext Hlt) as (<- & _ & _).
  now apply suffix_payout_upper_bound.
Qed.

Lemma search_order_and_bound_witness :
  Forall (fun o => 0 <= payout_cents o) sample_orders
  /\ subset_payout sample_orders [0%nat; 1%nat] <= suffix_payout sample_orders !!! 1%nat.
Proof.
  assert (Hnonneg : Forall (fun o => 0 <= payout_cents o) sample_orders).
  { repeat constructor; simpl; lia. }
  split; [exact Hnonneg|].
  destruct (search_order_and_bound sample_orders) as (_ & _ & _ & _ & _ & Hbound).
  apply (Hbound Hnonneg 1%nat [0%nat; 1%nat]).
  - simpl. lia.
  - vm_compute. repeat constructor.
Defined.

(** ** Adding an order *)

Lemma insert_order_length (orders : list Order) (k : nat) (extra : Order) :
  length (insert_order orders k extra) = S (length orders).
Proof.
  unfold insert_order. rewrite length_app, length_take. simpl.
  rewrite length_drop. lia.
Qed.

Lemma insert_order_lookup (orders : list Order) (k i : nat) (extra : Order) :
  (k <= length orders)%nat ->
  insert_order orders k extra !!! shift k i = orders !!! i.
Proof.
  intros Hk. unfold insert_order, shift.
  destruct (Nat.ltb_spec i k) as [Hi|Hi].
  - rewrite lookup_total_app_l by (rewrite length_take_le; lia).
    now apply lookup_total_take_lt.
  - rewrite lookup_total_app_r by (rewrite length_take_le; lia).
    rewrite length_take_le by lia.
    replace (S i - k)%nat with (S (i - k)) by lia. simpl.
    rewrite lookup_total_drop. f_equal. lia.
Qed.

Lemma shift_inj (k a b : nat) : shift k a = shift k b -> a = b.
Proof.
  unfold shift. destruct (Nat.ltb_spec a k), (Nat.ltb_spec b k); lia.
Qed.

Lemma insert_order_candidate (truck : Truck) (orders : list Order) (k : nat)
    (extra : Order) (sel : list nat) :
  (k <= length orders)%nat ->
  is_subset orders sel -> feasible truck orders sel -> pairwise_can_combine orders sel ->
  let sel' := map (shift k) sel in
  is_subset (insert_order orders k extra) sel'
  /\ feasible truck (insert_order orders k extra) sel'
  /\ pairwise_can_combine (insert_order orders k extra) sel'
  /\ subset_payout (insert_order orders k extra) sel' = subset_payout orders sel.
Proof.
  intros Hk [Hnd Hlt] [Hw Hv] Hpair sel'.
  assert (Hsum : forall f : Order -> Z,
             map (fun i => f (insert_order orders k extra !!! i)) sel'
             = map (fun i => f (orders !!! i)) sel).
  { intros f. unfold sel'. rewrite map_map. apply map_ext.
    intros i. now rewrite insert_order_lookup. }
  split; [|split; [|split]].
  - split.
    + apply NoDup_fmap_2_strong; [|assumption]. intros x y _ _. apply shift_inj.
    + intros i Hi. apply list_elem_of_In, in_map_iff in Hi as (j & <- & Hj).
      apply list_elem_of_In, Hlt in Hj. rewrite insert_order_length.
      unfold shift. destruct (j <? k)%nat; lia.
  - unfold feasible, subset_weight, subset_volume. now rewrite !Hsum.
  - intros a b Ha Hb Hne.
    apply list_elem_of_In, in_map_iff in Ha as (a0 & <- & Ha).
    apply list_elem_of_In, in_map_iff in Hb as (b0 & <- & Hb).
    rewrite !insert_order_lookup by assumption.
    apply Hpair; [now apply list_elem_of_In | now apply list_elem_of_In | congruence].
  - unfold subset_payout. now rewrite Hsum.
Qed.

(** C9 (monotonicity). Under the input preconditions, adding a dominated
    order to the request, at any position, does not lower the total payout
    [optimize] returns. *)
Theorem optimize_monotone (truck : Truck) (orders : list Order) (k : nat)
    (extra : Order) :
  preconditions truck orders ->
  valid_order extra ->
  dominated orders extra ->
  (k <= length orders)%nat ->
  exists ids p w v ids' p' w' v',
    optimize truck orders = Some (ids, p, w, v)
    /\ optimize truck (insert_order orders k extra) = Some (ids', p', w', v')
    /\ p <= p'.
Proof.
  intros Hpre Hextra _ Hk.
  assert (Hpre' : preconditions truck (insert_order orders k extra)).
  { destruct Hpre as (Hmw & Hmv & Hall). repeat split; try assumption.
    unfold insert_order. apply Forall_app. split.
    - now apply Forall_take.
    - constructor; [assumption | now apply Forall_drop]. }
  destruct (optimize_maximum truck orders Hpre)
    as (ids & p & w & v & Hopt & (sel & Hsub & Hfeas & Hpair & Hp) & _).
  destruct (optimize_maximum truck _ Hpre')
    as (ids' & p' & w' & v' & Hopt' & _ & Hbest').
  exists ids, p, w, v, ids', p', w', v'. split; [exact Hopt|]. split; [exact Hopt'|].
  destruct (insert_order_candidate truck orders k extra sel Hk Hsub Hfeas Hpair)
    as (Hsub' & Hfeas' & Hpair' & Hp').
  rewrite <- Hp, <- Hp'. now apply Hbest'.
Qed.

Lemma optimize_monotone_witness :
  preconditions sample_truck sample_orders
  /\ valid_order sample_extra
  /\ dominated sample_orders sample_extra
  /\ (3 <= length sample_orders)%nat
  /\ exists ids p w v ids' p' w' v',
       optimize sample_truck sample_orders = Some (ids, p, w, v)
       /\ optimize sample_truck (insert_order sample_orders 3 sample_extra)
          = Some (ids', p', w', v')
       /\ p <= p'.
Proof.
  assert (Hv : valid_order sample_extra) by (unfold valid_order; simpl; lia).
  assert (Hd : dominated sample_orders sample_extra).
  { exists 1%nat. simpl. repeat split; try lia.
    intros j Hj Hne. destruct j as [|[|[|j]]]; try lia; vm_compute; auto. }
  assert (Hk : (3 <= length sample_orders)%nat) by (simpl; lia).
  split; [exact sample_preconditions|]. split; [exact Hv|]. split; [exact Hd|].
  split; [exact Hk|].
  exact (optimize_monotone sample_truck sample_orders 3 sample_extra
           sample_preconditions Hv Hd Hk).
Defined.

(** ** The compatibility evaluator *)

Lemma date_leb_le (a b : date) : Py.date_leb a b = true <-> date_le a b.
Proof.
  destruct a as [y1 m1 d1], b as [y2 m2 d2].
  unfold Py.date_leb, Py.date_ltb, date_le. simpl.
  rewrite negb_true_iff, <- not_true_iff_false.
  rewrite !orb_true_iff, !andb_true_iff, !Z.ltb_lt, !Z.eqb_eq. lia.
Qed.

Lemma py_max_upper (a b c : date) :
  date_le (Py.max a b) c <-> date_le a c /\ date_le b c.
Proof.
  unfold Py.max. destruct (Py.date_ltb a b) eqn:Hab.
  - assert (Hle : ~ date_le b a).
    { rewrite <- date_leb_le. unfold Py.date_leb. now rewrite Hab. }
    destruct a, b, c. unfold date_le in *. simpl in *. lia.
  - assert (Hle : date_le b a).
    { rewrite <- date_leb_le. unfold Py.date_leb. now rewrite Hab. }
    destruct a, b, c. unfold date_le in *. simpl in *. lia.
Qed.

Lemma py_min_lower (a b c : date) :
  date_le c (Py.min a b) <-> date_le c a /\ date_le c b.
Proof.
  unfold Py.min. destruct (Py.date_ltb b a) eqn:Hba.
  - assert (Hle : ~ date_le a b).
    { rewrite <- date_leb_le. unfold Py.date_leb. now rewrite Hba. }
    destruct a, b, c. unfold date_le in *. simpl in *. lia.
  - assert (Hle : date_le a b).
    { rewrite <- date_leb_le. unfold Py.date_leb. now rewrite Hba. }
    destruct a, b, c. unfold date_le in *. simpl in *. lia.
Qed.

(** The windows overlap when each pickup is no later than each delivery. *)
Lemma _check_time_windows_overlap (o1 o2 : Order) :
  _check_time_windows o1 o2 = true
  <-> date_le (pickup_date o1) (delivery_date o1)
      /\ date_le (pickup_date o1) (delivery_date o2)
      /\ date_le (pickup_date o2) (delivery_date o1)
      /\ date_le (pickup_date o2) (delivery_date o2).
Proof.
  unfold _check_time_windows. rewrite date_leb_le, py_max_upper, !py_min_lower. tauto.
Qed.

(** ** Whitespace *)

Lemma in_ranges_members (c : N) (ranges : list (N * N)) :
  Unicode.in_ranges c ranges = true -> In c (flat_map range_members ranges).
Proof.
  unfold Unicode.in_ranges. rewrite existsb_exists. intros ([lo hi] & Hin & Hc).
  apply in_flat_map. exists (lo, hi). split; [exact Hin|].
  cbn [fst snd] in Hc. apply andb_true_iff in Hc as [Hlo Hhi].
  apply N.leb_le in Hlo, Hhi. unfold range_members. cbn [fst snd].
  apply in_map_iff. exists (N.to_nat (c - lo)). split; [lia|].
  apply in_seq. lia.
Qed.

(** [str.isspace] accepts the whitespace characters and no other. *)
Lemma isspace_whitespace (c : N) : Py.isspace c = is_whitespace c.
Proof.
  assert (H1 : forallb is_whitespace (flat_map range_members Unicode.whitespace) = true)
    by (vm_compute; reflexivity).
  assert (H2 : forallb Py.isspace whitespace_characters = true)
    by (vm_compute; reflexivity).
  rewrite forallb_forall in H1, H2.
  destruct (Py.isspace c) eqn:Hc.
  - symmetry. apply H1. now apply in_ranges_members.
  - destruct (is_whitespace c) eqn:Hw; [|reflexivity].
    unfold is_whitespace in Hw. apply existsb_exists in Hw as (d & Hd & Heq).
    apply N.eqb_eq in Heq. subst d. rewrite (H2 c Hd) in Hc. discriminate.
Qed.

Ltac as_isspace := rewrite <- ?isspace_whitespace in *.

(** ** [str.strip] removes the surrounding whitespace *)

Lemma lstrip_split (s : str) :
  exists l, s = l ++ Py.lstrip s /\ all_space l = true
            /\ head_space (Py.lstrip s) = false.
Proof.
  induction s as [|c s (l & Hs & Hl & Hh)]; simpl.
  - exists []. auto.
  - destruct (Py.isspace c) eqn:Hc.
    + exists (c :: l). simpl. as_isspace. rewrite Hc, Hl, <- Hs. auto.
    + exists []. simpl. as_isspace. auto.
Qed.

Lemma rstrip_split (s : str) :
  exists r, s = Py.rstrip s ++ r /\ all_space r = true
            /\ last_space (Py.rstrip s) = false.
Proof.
  induction s as [|c s (r & Hs & Hr & Hlast)]; simpl.
  - exists []. auto.
  - destruct (Py.rstrip s) as [|c' s'] eqn:Hrs.
    + simpl in Hs. subst r. destruct (Py.isspace c) eqn:Hc.
      * exists (c :: s). simpl. as_isspace. rewrite Hc, Hr. auto.
      * exists s. simpl. as_isspace. auto.
    + exists r. split; [simpl in Hs |- *; congruence|]. split; [assumption|].
      exact Hlast.
Qed.

Lemma rstrip_head (s : str) : head_space s = false -> head_space (Py.rstrip s) = false.
Proof.
  destruct s as [|c s]; simpl; [auto|]. intros Hc.
  destruct (Py.rstrip s); [rewrite isspace_whitespace, Hc|]; auto.
Qed.

Lemma strip_split (s : str) :
  exists l r, s = l ++ Py.strip s ++ r
              /\ all_space l = true /\ all_space r = true
              /\ head_space (Py.strip s) = false
              /\ last_space (Py.strip s) = false.
Proof.
  destruct (lstrip_split s) as (l & Hs & Hl & Hh).
  destruct (rstrip_split (Py.lstrip s)) as (r & Hs' & Hr & Hlast).
  exists l, r. unfold Py.strip. rewrite <- Hs', <- Hs.
  repeat split; try assumption. now apply rstrip_head.
Qed.

Lemma lstrip_app (s r : str) :
  Py.lstrip (s ++ r) = if all_space s then Py.lstrip r else Py.lstrip s ++ r.
Proof.
  induction s as [|c s IH]; simpl; [reflexivity|]. as_isspace.
  destruct (Py.isspace c); simpl; [exact IH | reflexivity].
Qed.

Lemma lstrip_all_space (s : str) : all_space s = true -> Py.lstrip s = [].
Proof.
  induction s as [|c s IH]; simpl; [reflexivity|]. as_isspace.
  destruct (Py.isspace c); simpl; [exact IH | discriminate].
Qed.

Lemma rstrip_all_space (s : str) : all_space s = true -> Py.rstrip s = [].
Proof.
  induction s as [|c s IH]; simpl; [reflexivity|]. as_isspace.
  destruct (Py.isspace c); simpl; [|discriminate].
  intros H. now rewrite (IH H).
Qed.

Lemma rstrip_app_space (s r : str) :
  all_space r = true -> Py.rstrip (s ++ r) = Py.rstrip s.
Proof.
  intros Hr. induction s as [|c s IH]; simpl.
  - now apply rstrip_all_space.
  - now rewrite IH.
Qed.

Lemma lstrip_fixed (s : str) : head_space s = false -> Py.lstrip s = s.
Proof.
  destruct s as [|c s]; simpl; [reflexivity|]. rewrite <- isspace_whitespace.
  now intros ->.
Qed.

Lemma rstrip_fixed (s : str) : last_space s = false -> Py.rstrip s = s.
Proof.
  induction s as [|c s IH]; simpl; [reflexivity|].
  destruct s as [|c' s'].
  - simpl. rewrite <- isspace_whitespace. now intros ->.
  - intros H. rewrite (IH H). reflexivity.
Qed.

(** Whitespace around a string does not change what [strip] returns. *)
Lemma strip_padding (l s r : str) :
  all_space l = true -> all_space r = true -> Py.strip (l ++ s ++ r) = Py.strip s.
Proof.
  intros Hl Hr. unfold Py.strip.
  rewrite lstrip_app, Hl, lstrip_app.
  destruct (all_space s) eqn:Hsp.
  - rewrite (lstrip_all_space r Hr), (lstrip_all_space s Hsp). reflexivity.
  - now apply rstrip_app_space.
Qed.

(** [strip] returns the trimmed string, and nothing else is one. *)
Lemma trimmed_strip (s t : str) : trimmed s t <-> Py.strip s = t.
Proof.
  split.
  - intros (l & r & -> & Hl & Hr & Hh & Hlast).
    rewrite (strip_padding l t r Hl Hr). unfold Py.strip.
    rewrite (lstrip_fixed _ Hh). now apply rstrip_fixed.
  - intros <-. destruct (strip_split s) as (l & r & H). exists l, r. exact H.
Qed.

(** ** [str.lower] is lower-casing *)

Lemma in_record_members (c : N) (r : N * N * N * Z) :
  Unicode.in_record c r = true -> (0 < snd (fst r))%N -> In c (record_members r).
Proof.
  destruct r as [[[lo hi] step] d]. unfold Unicode.in_record, record_members.
  cbn [fst snd]. intros H Hstep.
  apply andb_true_iff in H as [H Hmod]. apply andb_true_iff in H as [Hlo Hhi].
  apply N.leb_le in Hlo, Hhi. apply N.eqb_eq in Hmod.
  assert (Hstep' : step <> 0%N) by (clear Hmod; lia).
  pose proof (N.div_mod (c - lo) step Hstep') as Hdm. rewrite Hmod in Hdm.
  assert (Hle : ((c - lo) / step <= (hi - lo) / step)%N)
    by (apply N.Div0.div_le_mono; clear Hmod Hdm; lia).
  clear Hmod.
  set (k := ((c - lo) / step)%N) in *. set (k' := ((hi - lo) / step)%N) in *.
  clearbody k k'.
  apply in_map_iff. exists (N.to_nat k). split.
  - rewrite N2Nat.id. lia.
  - apply in_seq. lia.
Qed.

Lemma lower_records_steps :
  forallb (fun r => (0 <? snd (fst r))%N) Unicode.lower_records = true.
Proof. vm_compute. reflexivity. Qed.

(** Every pair of the simple mapping is what the type record gives. *)
Lemma lower_records_pairs :
  forallb (fun p => (Z.to_N (Z.of_N (fst p) + Unicode.lower_delta (fst p)) =? snd p)%N)
          Simple_Lowercase_Mapping = true.
Proof. vm_compute. reflexivity. Qed.

(** Every code point of a type record has a pair. *)
Lemma lower_records_covered :
  forallb (fun r =>
             forallb (fun c =>
                        match find (fun p => (fst p =? c)%N) Simple_Lowercase_Mapping with
                        | Some _ => true
                        | None => false
                        end) (record_members r))
          Unicode.lower_records = true.
Proof. vm_compute. reflexivity. Qed.

Lemma to_lower_full_mapping (c : N) : Py.to_lower_full c = lowercase_mapping c.
Proof.
  unfold Py.to_lower_full, lowercase_mapping.
  destruct (c =? 0x130)%N; [reflexivity|].
  destruct (find (fun p => (fst p =? c)%N) Simple_Lowercase_Mapping) as [p|] eqn:Hp.
  - apply find_some in Hp as [Hin Hc]. apply N.eqb_eq in Hc. subst c.
    pose proof lower_records_pairs as H. rewrite forallb_forall in H.
    apply H, N.eqb_eq in Hin. now rewrite Hin.
  - unfold Unicode.lower_delta.
    destruct (find (Unicode.in_record c) Unicode.lower_records) as [r|] eqn:Hr;
      [exfalso | now rewrite Z.add_0_r, N2Z.id].
    apply find_some in Hr as [Hin Hc].
    pose proof lower_records_steps as Hs. rewrite forallb_forall in Hs.
    pose proof (Hs r Hin) as Hstep. apply N.ltb_lt in Hstep.
    pose proof lower_records_covered as Hcov. rewrite forallb_forall in Hcov.
    specialize (Hcov r Hin). rewrite forallb_forall in Hcov.
    specialize (Hcov c (in_record_members c r Hc Hstep)).
    rewrite Hp in Hcov. discriminate.
Qed.

Lemma before_sigma_nearest (data : str) (j : nat) :
  (j <= length data)%nat ->
  Py.before_sigma data j = nearest_letter (rev (take j data)).
Proof.
  induction j as [|j IH]; intros Hj; [reflexivity|].
  destruct (lookup_lt_is_Some_2 data j ltac:(lia)) as [c Hc].
  rewrite (take_S_r _ _ _ Hc), rev_app_distr. simpl.
  rewrite (list_lookup_total_correct _ _ _ Hc).
  destruct (Unicode.is_case_ignorable c); simpl; [apply IH; lia | reflexivity].
Qed.

Lemma after_sigma_nearest (data : str) (j n : nat) :
  (j + n <= length data)%nat ->
  Py.after_sigma data j n = nearest_letter (take n (drop j data)).
Proof.
  revert j. induction n as [|n IH]; intros j Hj; [reflexivity|].
  destruct (lookup_lt_is_Some_2 data j ltac:(lia)) as [c Hc].
  rewrite (drop_S _ _ _ Hc). simpl.
  rewrite (list_lookup_total_correct _ _ _ Hc).
  destruct (Unicode.is_case_ignorable c); simpl; [|reflexivity].
  rewrite IH by lia. reflexivity.
Qed.

Lemma handle_capital_sigma_final (before after : str) (c : N) :
  Py.handle_capital_sigma (before ++ c :: after) (length before)
  = (if sigma_is_final before after then 0x3C2 else 0x3C3)%N.
Proof.
  unfold Py.handle_capital_sigma, sigma_is_final.
  rewrite before_sigma_nearest by (rewrite length_app; lia).
  rewrite take_app_length.
  rewrite after_sigma_nearest by (rewrite length_app; simpl; lia).
  replace (drop (S (length before)) (before ++ c :: after)) with after.
  2:{ change (before ++ c :: after) with (before ++ [c] ++ after).
      rewrite app_assoc.
      replace (S (length before)) with (length (before ++ [c]))
        by (rewrite length_app; simpl; lia).
      now rewrite drop_app_length. }
  replace (length (before ++ c :: after) - S (length before))%nat with (length after)
    by (rewrite length_app; simpl; lia).
  rewrite firstn_all.
  destruct (nearest_letter (rev before)) as [b|]; [|reflexivity].
  destruct (Unicode.is_cased b); [|reflexivity]. simpl.
  destruct (nearest_letter after) as [a|]; reflexivity.
Qed.

(** [str.lower] computes the lower-casing. *)
Lemma lower_lowercase (s : str) : Py.lower s = lowercase s.
Proof.
  unfold Py.lower, lowercase.
  assert (H : forall before t,
             concat (imap (fun i c => Py.lower_ucs4 (before ++ t) (length before + i) c) t)
             = lowercase_from before t).
  { intros before t. revert before. induction t as [|c t IH]; intros before; [reflexivity|].
    simpl. f_equal.
    - unfold Py.lower_ucs4. rewrite Nat.add_0_r.
      destruct (c =? 0x3A3)%N; [|apply to_lower_full_mapping].
      now rewrite handle_capital_sigma_final.
    - rewrite <- IH. f_equal. apply imap_ext. intros i x _. simpl.
      rewrite <- app_assoc, length_app. simpl. f_equal. lia. }
  exact (H [] s).
Qed.

(** ** The route check and the window check *)

Lemma same_route_same_text (a b : str) :
  Py.str_eqb (Py.lower (Py.strip a)) (Py.lower (Py.strip b)) = true <-> same_text a b.
Proof.
  rewrite str_eqb_eq, !lower_lowercase. split.
  - intros H. exists (Py.strip a), (Py.strip b).
    split; [now apply trimmed_strip|]. split; [now apply trimmed_strip | exact H].
  - intros (t1 & t2 & H1 & H2 & H).
    apply trimmed_strip in H1, H2. now rewrite H1, H2.
Qed.

Lemma date_le_refl (a : date) : date_le a a.
Proof. destruct a. unfold date_le. simpl. lia. Qed.

Lemma date_le_trans (a b c : date) : date_le a b -> date_le b c -> date_le a c.
Proof. destruct a, b, c. unfold date_le. simpl. lia. Qed.

Lemma py_max_latest (a b : date) : latest_of a b (Py.max a b).
Proof.
  split.
  - unfold Py.max. destruct (Py.date_ltb a b); auto.
  - apply py_max_upper, date_le_refl.
Qed.

Lemma py_min_earliest (a b : date) : earliest_of a b (Py.min a b).
Proof.
  split.
  - unfold Py.min. destruct (Py.date_ltb b a); auto.
  - apply py_min_lower, date_le_refl.
Qed.

Lemma time_windows_overlap (o1 o2 : Order) :
  _check_time_windows o1 o2 = true <-> windows_overlap o1 o2.
Proof.
  unfold _check_time_windows. rewrite date_leb_le. split.
  - intros H. eexists _, _. split; [apply py_max_latest|].
    split; [apply py_min_earliest | exact H].
  - intros (m & e & (_ & Ha & Hb) & (_ & Hc & Hd) & Hme).
    apply py_max_upper. split; apply py_min_lower; split;
      eauto using date_le_trans.
Qed.

(** C4 (compatibility evaluator), with lower-casing where the claim has
    case folding. Two orders can be combined exactly when their origins
    are equal and their destinations are equal after trimming surrounding
    whitespace and lower-casing, the later of the two pickups is on or
    before the earlier of the two deliveries, and their hazmat flags are
    equal. *)
Theorem can_combine_iff (o1 o2 : Order) :
  can_combine o1 o2 = true
  <-> same_text (origin o1) (origin o2)
      /\ same_text (destination o1) (destination o2)
      /\ windows_overlap o1 o2
      /\ is_hazmat o1 = is_hazmat o2.
Proof.
  unfold can_combine, _check_same_route, _check_hazmat_ok.
  rewrite !andb_true_iff, !same_route_same_text, time_windows_overlap,
    Bool.eqb_true_iff.
  tauto.
Qed.

(** C4 as the claim words it, with case folding, fails: "Straße" and
    "STRASSE" are equal after case folding, the windows overlap and the
    hazmat flags are equal, yet the two orders cannot be combined, because
    lower-casing keeps the sharp s. *)
Lemma can_combine_case_folding_counterexample :
  (same_text_folded (origin order_strasse_lower) (origin order_strasse_upper)
   /\ same_text_folded (destination order_strasse_lower)
                       (destination order_strasse_upper)
   /\ windows_overlap order_strasse_lower order_strasse_upper
   /\ is_hazmat order_strasse_lower = is_hazmat order_strasse_upper)
  /\ can_combine order_strasse_lower order_strasse_upper = false.
Proof.
  assert (Hself : forall s, head_space s = false -> last_space s = false -> trimmed s s).
  { intros s Hh Hl. exists [], []. rewrite app_nil_r. auto. }
  split; [|vm_compute; reflexivity].
  split.
  { eexists _, _. split; [apply Hself; reflexivity|].
    split; [apply Hself; reflexivity|]. vm_compute. reflexivity. }
  split.
  { eexists _, _. split; [apply Hself; reflexivity|].
    split; [apply Hself; reflexivity|]. reflexivity. }
  split; [|reflexivity].
  apply time_windows_overlap. reflexivity.
Qed.

(** Touching endpoints: a pickup on the day of the other delivery overlaps. *)
Example touching_windows_overlap :
  _check_time_windows
    (mkOrder (text "a") 1 1 1 (text "LA") (text "Dallas") (mkDate 2025 12 1) (mkDate 2025 12 3) false)
    (mkOrder (text "b") 1 1 1 (text "LA") (text "Dallas") (mkDate 2025 12 3) (mkDate 2025 12 7) false)
  = true.
Proof. reflexivity. Qed.

Example route_normalization :
  _check_same_route
    (mkOrder (text "a") 1 1 1 (text "  Los Angeles, CA ") (text "DALLAS, tx") (mkDate 2025 12 1) (mkDate 2025 12 3) false)
    (mkOrder (text "b") 1 1 1 (text "los angeles, ca") (text " Dallas, TX  ") (mkDate 2025 12 3) (mkDate 2025 12 7) true)
  = true.
Proof. vm_compute. reflexivity. Qed.

(** ** Floating point: the division of [optimize_load] cannot overflow *)

Lemma digits2_pos_size (p : positive) : digits2_pos p = Pos.size p.
Proof. induction p; simpl; congruence. Qed.

Lemma Zdigits2_gt (m : Z) : 0 <= m -> m < 2 ^ Zdigits2 m.
Proof.
  destruct m as [|p|p]; simpl; intros Hm; [lia| |lia].
  rewrite digits2_pos_size, <- (Pos2Z.inj_pow 2).
  apply Pos2Z.pos_lt_pos, Pos.size_gt.
Qed.

Lemma Zdigits2_nonneg (m : Z) : 0 <= Zdigits2 m.
Proof. destruct m; simpl; lia. Qed.

Lemma Zdigits2_le (m k : Z) : 0 <= m -> 0 <= k -> m < 2 ^ k -> Zdigits2 m <= k.
Proof.
  destruct m as [|p|p]; simpl; intros Hm Hk Hlt; [lia| |lia].
  rewrite digits2_pos_size.
  pose proof (Pos.size_le p) as H.
  destruct (Z.le_gt_cases (Z.pos (Pos.size p)) k) as [|Hgt]; [assumption|exfalso].
  assert (H2 : 2 ^ (k + 1) <= 2 ^ Z.pos (Pos.size p))
    by (apply Z.pow_le_mono_r; lia).
  rewrite Z.pow_add_r in H2 by lia.
  assert (H3 : 2 ^ Z.pos (Pos.size p) <= 2 * Z.pos p).
  { rewrite <- (Pos2Z.inj_pow 2). change (2 * Z.pos p) with (Z.pos p~0).
    apply Pos2Z.pos_le_pos, H. }
  lia.
Qed.

Lemma shr_1_m (mrs : shr_record) :
  0 <= shr_m mrs -> shr_m (shr_1 mrs) = shr_m mrs / 2.
Proof.
  destruct mrs as [m r s]. simpl. intros Hm. rewrite <- Z.div2_div.
  destruct m as [|[p|p|]|p]; simpl; try reflexivity; lia.
Qed.

Lemma pow2_double (k : Z) : 0 <= k -> 2 ^ (2 * k) = 2 ^ k * 2 ^ k.
Proof. intros Hk. replace (2 * k) with (k + k) by lia. now apply Z.pow_add_r. Qed.

Lemma iter_shr_1_m (p : positive) (mrs : shr_record) :
  0 <= shr_m mrs ->
  shr_m (SpecFloat.iter_pos shr_1 p mrs) = shr_m mrs / 2 ^ Z.pos p.
Proof.
  revert mrs. induction p as [p IH|p IH|]; intros mrs Hm; simpl SpecFloat.iter_pos.
  - assert (H1 : 0 <= shr_m (shr_1 mrs)) by (rewrite shr_1_m by lia; apply Z.div_pos; lia).
    assert (H2 : 0 <= shr_m (SpecFloat.iter_pos shr_1 p (shr_1 mrs)))
      by (rewrite IH by lia; apply Z.div_pos; lia).
    assert (Hpow : 0 < 2 ^ Z.pos p) by (apply Z.pow_pos_nonneg; lia).
    rewrite IH, IH, shr_1_m by lia.
    rewrite !Z.div_div by lia. f_equal.
    rewrite (Pos2Z.inj_xI p), Z.pow_add_r, pow2_double by lia.
    change (2 ^ 1) with 2. lia.
  - assert (H2 : 0 <= shr_m (SpecFloat.iter_pos shr_1 p mrs))
      by (rewrite IH by lia; apply Z.div_pos; lia).
    assert (Hpow : 0 < 2 ^ Z.pos p) by (apply Z.pow_pos_nonneg; lia).
    rewrite IH, IH by lia.
    rewrite !Z.div_div by lia. f_equal.
    rewrite (Pos2Z.inj_xO p), pow2_double by lia. reflexivity.
  - now apply shr_1_m.
Qed.

Lemma shr_record_of_loc_m (m : Z) (l : location) : shr_m (shr_record_of_loc m l) = m.
Proof. destruct l as [|[]]; reflexivity. Qed.

(** [shr_fexp] moves to the exponent the format asks for and divides the
    mantissa accordingly. *)
Lemma shr_fexp_spec (m e : Z) (l : location) :
  0 <= m ->
  exists mrs e',
    shr_fexp prec emax m e l = (mrs, e')
    /\ e' = Z.max e (fexp prec emax (Zdigits2 m + e))
    /\ shr_m mrs = m / 2 ^ (e' - e).
Proof.
  intros Hm. unfold shr_fexp, shr.
  destruct (fexp prec emax (Zdigits2 m + e) - e) as [|p|p] eqn:Hn.
  - eexists _, _. split; [reflexivity|]. split; [lia|].
    rewrite shr_record_of_loc_m, Z.sub_diag. simpl. now rewrite Z.div_1_r.
  - eexists _, _. split; [reflexivity|]. split; [lia|].
    rewrite iter_shr_1_m by (rewrite shr_record_of_loc_m; lia).
    rewrite shr_record_of_loc_m. f_equal. f_equal. lia.
  - eexists _, _. split; [reflexivity|]. split; [lia|].
    rewrite shr_record_of_loc_m, Z.sub_diag. simpl. now rewrite Z.div_1_r.
Qed.

Lemma shifted_digits (m e e' : Z) :
  0 <= m -> e <= e' ->
  0 <= m / 2 ^ (e' - e)
  /\ Zdigits2 (m / 2 ^ (e' - e)) + e' <= Z.max (Zdigits2 m + e) e'.
Proof.
  intros Hm He.
  assert (Hpow : 0 < 2 ^ (e' - e)) by (apply Z.pow_pos_nonneg; lia).
  split; [apply Z.div_pos; lia|].
  pose proof (Zdigits2_gt m Hm) as Hd. pose proof (Zdigits2_nonneg m) as Hd0.
  destruct (Z.le_gt_cases (e' - e) (Zdigits2 m)) as [Hk|Hk].
  - assert (Zdigits2 (m / 2 ^ (e' - e)) <= Zdigits2 m - (e' - e)); [|lia].
    apply Zdigits2_le; [apply Z.div_pos; lia | lia |].
    apply Z.div_lt_upper_bound; [lia|].
    rewrite <- Z.pow_add_r by lia.
    now replace (e' - e + (Zdigits2 m - (e' - e))) with (Zdigits2 m) by lia.
  - rewrite Z.div_small; [simpl; lia|].
    split; [lia|]. eapply Z.lt_le_trans; [exact Hd|].
    apply Z.pow_le_mono_r; lia.
Qed.

Lemma round_nearest_even_bound (m : Z) (l : location) :
  0 <= m -> 0 <= round_nearest_even m l <= m + 1.
Proof.
  intros Hm. unfold round_nearest_even.
  destruct l as [|[]]; try lia. destruct (Z.even m); lia.
Qed.

(** Rounding a value below [2 ^ 1023] does not reach infinity. *)
Lemma binary_round_aux_finite (s : bool) (m e : Z) (l : location) :
  0 <= m -> Zdigits2 m + e <= 1023 -> e <= 971 ->
  forall s', binary_round_aux prec emax s m e l <> S754_infinity s'.
Proof.
  intros Hm Hd He s'. unfold binary_round_aux.
  destruct (shr_fexp_spec m e l Hm) as (mrs1 & e1 & -> & He1 & Hm1).
  assert (Hfexp : forall x, fexp prec emax x = Z.max (x - 53) (-1074)) by reflexivity.
  rewrite Hfexp in He1.
  destruct (shifted_digits m e e1 Hm ltac:(lia)) as [Hm1pos Hd1]. rewrite <- Hm1 in *.
  set (m2 := round_nearest_even (shr_m mrs1) (loc_of_shr_record mrs1)).
  pose proof (round_nearest_even_bound (shr_m mrs1) (loc_of_shr_record mrs1) Hm1pos)
    as Hm2. fold m2 in Hm2.
  assert (Hd2 : Zdigits2 m2 <= Zdigits2 (shr_m mrs1) + 1).
  { pose proof (Zdigits2_gt _ Hm1pos) as Hgt. pose proof (Zdigits2_nonneg (shr_m mrs1)).
    apply Zdigits2_le; [lia | lia |]. rewrite Z.pow_add_r by lia.
    change (2 ^ 1) with 2. lia. }
  destruct (shr_fexp_spec m2 e1 loc_Exact ltac:(lia)) as (mrs3 & e3 & -> & He3 & _).
  rewrite Hfexp in He3.
  destruct (shr_m mrs3); try discriminate.
  destruct (Z.leb_spec e3 (emax - prec)) as [_|Hbig]; [discriminate|].
  unfold emax, prec in Hbig. lia.
Qed.

(** A quotient of at most one is rounded to a finite float. *)
Lemma div_round_finite (s : bool) (a b : positive) :
  (a <= b)%positive -> forall s', div_round s a b <> S754_infinity s'.
Proof.
  intros Hab s'. unfold div_round, SFdiv_core_binary.
  set (e := Z.min (fexp prec emax (Zdigits2 (Z.pos a) + 0 - (Zdigits2 (Z.pos b) + 0)))
                  (0 - 0)).
  assert (He : e <= 0) by (unfold e; lia).
  set (m' := match 0 - 0 - e with
             | Z.pos _ => Z.shiftl (Z.pos a) (0 - 0 - e)
             | 0 => Z.pos a
             | Z.neg _ => 0
             end).
  assert (Hm' : m' = Z.pos a * 2 ^ (- e)).
  { unfold m'. replace (0 - 0 - e) with (- e) by lia.
    destruct (- e) as [|p|p] eqn:Hs; [lia | | lia].
    rewrite Z.shiftl_mul_pow2 by lia. reflexivity. }
  assert (Hpow : 0 < 2 ^ (- e)) by (apply Z.pow_pos_nonneg; lia).
  pose proof (Z_div_mod m' (Z.pos b) ltac:(lia)) as Hdiv.
  destruct (Z.div_eucl m' (Z.pos b)) as [q r] eqn:Hqr.
  destruct Hdiv as [Hdiv Hr].
  assert (Hq : 0 <= q <= 2 ^ (- e)) by nia.
  apply binary_round_aux_finite; [lia | | lia].
  assert (Zdigits2 q <= - e + 1); [|lia].
  apply Zdigits2_le; [lia | lia |].
  rewrite Z.pow_add_r by lia. change (2 ^ 1) with 2. lia.
Qed.

(** Dividing a total that fits by the capacity raises nothing. *)
Lemma int_truediv_within (a b : Z) :
  0 <= a <= b -> 0 < b -> exists q, int_truediv a b = Ok q.
Proof.
  intros Hab Hb. unfold int_truediv.
  destruct b as [|pb|pb]; try lia.
  destruct a as [|pa|pa]; try lia; [eauto|].
  simpl Z.abs. simpl Z.to_pos.
  destruct (div_round _ pa pb) eqn:Hq; eauto.
  exfalso. eapply (div_round_finite _ pa pb); [lia | exact Hq].
Qed.

Lemma int_truediv_zero (b : Z) : 0 < b -> int_truediv 0 b = Ok zero.
Proof. intros Hb. destruct b; try lia. reflexivity. Qed.

Lemma round2_mul_100_zero : round2 (mul_100 zero) = zero.
Proof. reflexivity. Qed.

Lemma utilization_within (total capacity : Z) :
  0 <= total -> (total = 0 \/ total <= capacity) ->
  exists u, utilization total capacity = Ok u
            /\ (capacity <= 0 -> u = zero)
            /\ (0 < capacity ->
                exists q, int_truediv total capacity = Ok q /\ u = mul_100 q).
Proof.
  intros Htot Hfit. unfold utilization.
  destruct (Z.ltb_spec 0 capacity) as [Hc|Hc].
  - assert (Hq : exists q, int_truediv total capacity = Ok q).
    { destruct Hfit as [->|Hle]; [rewrite int_truediv_zero by lia; eauto|].
      apply int_truediv_within; lia. }
    destruct Hq as [q Hq]. rewrite Hq. simpl. exists (mul_100 q).
    split; [reflexivity|]. split; [lia|]. intros _. eauto.
  - exists zero. split; [reflexivity|]. split; [reflexivity|]. lia.
Qed.

(** C7 (no orders). With positive capacities, an empty order list makes
    [optimize_load] return normally: no identifier, the three totals zero,
    both utilization percentages [0.0]. *)
Theorem optimize_load_empty (truck : Truck) :
  0 < max_weight_lbs truck -> 0 < max_volume_cuft truck ->
  optimize_load truck []
  = Some (Ok (mkResponse (truck_id truck) [] 0 0 0 zero zero)).
Proof.
  intros Hw Hv. unfold optimize_load. simpl.
  destruct (Z.ltb_spec 0 (max_weight_lbs truck)); [|lia].
  destruct (Z.ltb_spec 0 (max_volume_cuft truck)); [|lia].
  rewrite !int_truediv_zero by assumption. reflexivity.
Qed.

Lemma optimize_load_empty_witness :
  0 < max_weight_lbs sample_truck /\ 0 < max_volume_cuft sample_truck
  /\ optimize_load sample_truck []
     = Some (Ok (mkResponse (truck_id sample_truck) [] 0 0 0 zero zero)).
Proof.
  assert (Hw : 0 < max_weight_lbs sample_truck) by (simpl; lia).
  assert (Hv : 0 < max_volume_cuft sample_truck) by (simpl; lia).
  split; [exact Hw|]. split; [exact Hv|].
  exact (optimize_load_empty sample_truck Hw Hv).
Defined.

Lemma int_truediv_nonzero (a b : Z) :
  b <> 0 -> int_truediv a b <> Raise ZeroDivisionError.
Proof.
  intros Hb. unfold int_truediv.
  destruct b; [congruence| |]; destruct a; try discriminate;
    destruct (div_round _ _ _); discriminate.
Qed.

Lemma utilization_no_zero_division (total capacity : Z) :
  utilization total capacity <> Raise ZeroDivisionError.
Proof.
  unfold utilization. destruct (Z.ltb_spec 0 capacity) as [Hc|Hc]; [|discriminate].
  pose proof (int_truediv_nonzero total capacity ltac:(lia)) as Hne.
  destruct (int_truediv total capacity) as [q|e]; [discriminate|].
  simpl. congruence.
Qed.

Lemma optimize_load_unfold (truck : Truck) (orders : list Order) ids p w v :
  optimize truck orders = Some (ids, p, w, v) ->
  optimize_load truck orders
  = Some (bind (utilization w (max_weight_lbs truck)) (fun weight_util =>
          bind (utilization v (max_volume_cuft truck)) (fun volume_util =>
          Ok (mkResponse (truck_id truck) ids p w v
                         (round2 weight_util) (round2 volume_util))))).
Proof. intros H. unfold optimize_load. rewrite H. reflexivity. Qed.

Lemma hundred_eq : hundred = S754_finite false 7036874417766400 (-46).
Proof. reflexivity. Qed.

(** ** Floating point: the operations round correctly *)

Lemma pow2_pos (e : Z) : (0 < pow2 e)%Q.
Proof. apply Qpower_0_lt. reflexivity. Qed.

Lemma pow2_add (a b : Z) : (pow2 (a + b) == pow2 a * pow2 b)%Q.
Proof. apply Qpower_plus. discriminate. Qed.

Lemma pow2_0 : (pow2 0 == 1)%Q.
Proof. reflexivity. Qed.

Lemma pow2_1 : (pow2 1 == 2)%Q.
Proof. reflexivity. Qed.

Lemma pow2_m1 : (pow2 (-1) == 1 # 2)%Q.
Proof. reflexivity. Qed.

Lemma pow2_Z (n : Z) : 0 <= n -> (pow2 n == inject_Z (2 ^ n))%Q.
Proof. intros Hn. unfold pow2. rewrite Zpower_Qpower by assumption. reflexivity. Qed.

Lemma pow2_opp (a : Z) : (pow2 a * pow2 (- a) == 1)%Q.
Proof. rewrite <- pow2_add, Z.add_opp_diag_r. reflexivity. Qed.

Lemma pow2_le (a b : Z) : a <= b -> (pow2 a <= pow2 b)%Q.
Proof.
  intros Hab. replace b with (a + (b - a)) by lia. rewrite pow2_add.
  assert (H1 : (1 <= pow2 (b - a))%Q).
  { rewrite pow2_Z by lia. change 1%Q with (inject_Z 1). rewrite <- Zle_Qle.
    assert (0 < 2 ^ (b - a)) by (apply Z.pow_pos_nonneg; lia). lia. }
  pose proof (pow2_pos a). nra.
Qed.

Lemma pow2_lt (a b : Z) : a < b -> (pow2 a < pow2 b)%Q.
Proof.
  intros Hab. replace b with (a + (b - a)) by lia. rewrite pow2_add.
  assert (H1 : (2 <= pow2 (b - a))%Q).
  { rewrite pow2_Z by lia. change 2%Q with (inject_Z 2). rewrite <- Zle_Qle.
    change 2 with (2 ^ 1) at 1. apply Z.pow_le_mono_r; lia. }
  pose proof (pow2_pos a). nra.
Qed.

Lemma located_ext (m : Z) (y y' : Q) (l : location) :
  (y == y')%Q -> located m y l -> located m y' l.
Proof. intros Hy. destruct l as [|[]]; simpl; rewrite Hy; auto. Qed.

Lemma inject_Z_xO (p : positive) : (inject_Z (Z.pos p~0) == 2 * inject_Z (Z.pos p))%Q.
Proof. rewrite (Pos2Z.inj_xO p), inject_Z_mult. reflexivity. Qed.

Lemma inject_Z_xI (p : positive) : (inject_Z (Z.pos p~1) == 2 * inject_Z (Z.pos p) + 1)%Q.
Proof. rewrite (Pos2Z.inj_xI p), inject_Z_plus, inject_Z_mult. reflexivity. Qed.

Lemma located_shr_1 (mrs : shr_record) (y : Q) :
  0 <= shr_m mrs ->
  located (shr_m mrs) y (loc_of_shr_record mrs) ->
  located (shr_m (shr_1 mrs)) (y * (1 # 2)) (loc_of_shr_record (shr_1 mrs)).
Proof.
  destruct mrs as [m r s]. intros Hm.
  destruct m as [|[p|p|]|p]; [| | | |simpl in Hm; lia];
    destruct r, s; unfold shr_1, loc_of_shr_record, shr_m, orb, located;
    try pose proof (inject_Z_xO p) as HpO; try pose proof (inject_Z_xI p) as HpI;
    change (inject_Z 0) with 0%Q; change (inject_Z 1) with 1%Q;
    intros H; lra.
Qed.

Lemma shr_1_nonneg (mrs : shr_record) : 0 <= shr_m mrs -> 0 <= shr_m (shr_1 mrs).
Proof. destruct mrs as [[|[p|p|]|p] r s]; simpl; lia. Qed.

Lemma located_iter_shr_1 (p : positive) (mrs : shr_record) (y : Q) :
  0 <= shr_m mrs ->
  located (shr_m mrs) y (loc_of_shr_record mrs) ->
  0 <= shr_m (SpecFloat.iter_pos shr_1 p mrs)
  /\ located (shr_m (SpecFloat.iter_pos shr_1 p mrs)) (y * pow2 (- Z.pos p))
             (loc_of_shr_record (SpecFloat.iter_pos shr_1 p mrs)).
Proof.
  revert mrs y. induction p as [p IH|p IH|]; intros mrs y Hm Hy; simpl SpecFloat.iter_pos.
  - pose proof (shr_1_nonneg mrs Hm) as H1.
    pose proof (located_shr_1 mrs y Hm Hy) as L1.
    destruct (IH _ _ H1 L1) as [H2 L2]. destruct (IH _ _ H2 L2) as [H3 L3].
    split; [exact H3|]. eapply located_ext; [|exact L3].
    rewrite (Pos2Z.inj_xI p).
    replace (- (2 * Z.pos p + 1)) with (-1 + (- Z.pos p + - Z.pos p)) by lia.
    rewrite !pow2_add, pow2_m1. ring.
  - destruct (IH _ _ Hm Hy) as [H2 L2]. destruct (IH _ _ H2 L2) as [H3 L3].
    split; [exact H3|]. eapply located_ext; [|exact L3].
    rewrite (Pos2Z.inj_xO p).
    replace (- (2 * Z.pos p)) with (- Z.pos p + - Z.pos p) by lia.
    rewrite !pow2_add. ring.
  - split; [now apply shr_1_nonneg|]. eapply located_ext; [|apply located_shr_1; eassumption].
    change (pow2 (-1)) with (1 # 2)%Q. reflexivity.
Qed.

Lemma shr_record_of_loc_loc (m : Z) (l : location) :
  loc_of_shr_record (shr_record_of_loc m l) = l.
Proof. destruct l as [|[]]; reflexivity. Qed.

Lemma fexp_eq (x : Z) : fexp prec emax x = Z.max (x - 53) (-1074).
Proof. reflexivity. Qed.

Lemma shr_fexp_located (m e : Z) (l : location) (x : Q) :
  0 <= m ->
  located m (x * pow2 (- e)) l ->
  exists mrs e',
    shr_fexp prec emax m e l = (mrs, e')
    /\ e' = Z.max e (fexp prec emax (Zdigits2 m + e))
    /\ shr_m mrs = m / 2 ^ (e' - e)
    /\ located (shr_m mrs) (x * pow2 (- e')) (loc_of_shr_record mrs).
Proof.
  intros Hm Hl.
  destruct (shr_fexp_spec m e l Hm) as (mrs & e' & Heq & He' & Hmrs).
  exists mrs, e'. split; [exact Heq|]. split; [exact He'|]. split; [exact Hmrs|].
  unfold shr_fexp, shr in Heq.
  destruct (fexp prec emax (Zdigits2 m + e) - e) as [|p|p] eqn:Hn.
  - injection Heq as <- <-. rewrite shr_record_of_loc_m, shr_record_of_loc_loc. exact Hl.
  - injection Heq as <- <-.
    destruct (located_iter_shr_1 p (shr_record_of_loc m l) (x * pow2 (- e)))
      as [_ H].
    + rewrite shr_record_of_loc_m. exact Hm.
    + rewrite shr_record_of_loc_m, shr_record_of_loc_loc. exact Hl.
    + eapply located_ext; [|exact H].
      replace (- (e + Z.pos p)) with (- e + - Z.pos p) by lia.
      rewrite pow2_add. ring.
  - injection Heq as <- <-. rewrite shr_record_of_loc_m, shr_record_of_loc_loc. exact Hl.
Qed.

Lemma Zdigits2_lower (m : Z) : 0 < m -> 2 ^ (Zdigits2 m - 1) <= m.
Proof.
  destruct m as [|p|p]; simpl; intros Hm; try lia.
  rewrite digits2_pos_size.
  pose proof (Pos.size_le p) as H.
  assert (H3 : 2 ^ Z.pos (Pos.size p) <= 2 * Z.pos p).
  { rewrite <- (Pos2Z.inj_pow 2). change (2 * Z.pos p) with (Z.pos p~0).
    apply Pos2Z.pos_le_pos, H. }
  replace (Z.pos (Pos.size p)) with (Z.pos (Pos.size p) - 1 + 1) in H3 by lia.
  rewrite Z.pow_add_r in H3 by lia. change (2 ^ 1) with 2 in H3. lia.
Qed.

Lemma Zdigits2_ge (m k : Z) : 0 <= k -> 2 ^ k <= m -> k + 1 <= Zdigits2 m.
Proof.
  intros Hk Hm.
  assert (Hm0 : 0 < m) by (pose proof (Z.pow_pos_nonneg 2 k); lia).
  pose proof (Zdigits2_gt m ltac:(lia)) as Hlt.
  destruct (Z.le_gt_cases (k + 1) (Zdigits2 m)) as [|Hgt]; [assumption|exfalso].
  assert (2 ^ Zdigits2 m <= 2 ^ k)
    by (apply Z.pow_le_mono_r; [lia | pose proof (Zdigits2_nonneg m); lia]).
  lia.
Qed.

(** The nearest integer, ties to even. *)
Lemma round_nearest_even_located (m : Z) (y : Q) (l : location) :
  located m y l ->
  let k := round_nearest_even m l in
  (k = m \/ k = m + 1)
  /\ (inject_Z m <= y)%Q /\ (y < inject_Z m + 1)%Q
  /\ (Qabs (inject_Z k - y) <= y - inject_Z m)%Q
  /\ (Qabs (inject_Z k - y) <= inject_Z m + 1 - y)%Q
  /\ (Z.even k = true \/ ~ (y - inject_Z m == inject_Z m + 1 - y)%Q).
Proof.
  intros Hl k.
  assert (Hup : (inject_Z (m + 1) == inject_Z m + 1)%Q)
    by (rewrite inject_Z_plus; reflexivity).
  assert (Hcases : (k = m /\ (y - inject_Z m <= inject_Z m + 1 - y)%Q
                    /\ (inject_Z m <= y)%Q
                    /\ (Z.even k = true \/ ~ (y - inject_Z m == inject_Z m + 1 - y)%Q))
                   \/ (k = m + 1 /\ (inject_Z m + 1 - y <= y - inject_Z m)%Q
                       /\ (y < inject_Z m + 1)%Q
                       /\ (Z.even k = true \/ ~ (y - inject_Z m == inject_Z m + 1 - y)%Q))).
  { unfold k, round_nearest_even. destruct l as [|[]]; unfold located in Hl.
    - left. split; [reflexivity|]. split; [lra|]. split; [lra|]. right. lra.
    - destruct (Z.even m) eqn:Hev.
      + left. split; [reflexivity|]. split; [lra|]. split; [lra|]. left. exact Hev.
      + right. split; [reflexivity|]. split; [lra|]. split; [lra|]. left.
        rewrite Z.even_add, Hev. reflexivity.
    - left. split; [reflexivity|]. split; [lra|]. split; [lra|]. right. lra.
    - right. split; [reflexivity|]. split; [lra|]. split; [lra|]. right. lra. }
  assert (Hin : (inject_Z m <= y)%Q /\ (y < inject_Z m + 1)%Q)
    by (destruct l as [|[]]; unfold located in Hl; lra).
  destruct Hin as [Hlo Hhi].
  destruct Hcases as [(-> & Hd & _ & Hev)|(-> & Hd & _ & Hev)].
  - split; [auto|]. split; [exact Hlo|]. split; [exact Hhi|].
    rewrite Qabs_neg by lra. split; [lra|]. split; [lra|]. exact Hev.
  - split; [auto|]. split; [exact Hlo|]. split; [exact Hhi|].
    rewrite Hup. rewrite Qabs_pos by lra. split; [lra|]. split; [lra|]. exact Hev.
Qed.

Lemma scale_to_grid (x : Q) (e : Z) : (x == (x * pow2 (- e)) * pow2 e)%Q.
Proof.
  rewrite <- Qmult_assoc, (Qmult_comm (pow2 (- e))), pow2_opp. ring.
Qed.

Lemma binary_round_aux_core (s : bool) (m e : Z) (l : location) (x : Q) :
  0 <= m -> located m (x * pow2 (- e)) l ->
  e <= fexp prec emax (Zdigits2 m + e) ->
  exists m1 e1 m2 m3 e3,
    e1 = fexp prec emax (Zdigits2 m + e)
    /\ 0 <= m1 < 2 ^ 53
    /\ (e1 = -1074 \/ 2 ^ 52 <= m1)
    /\ (inject_Z m1 * pow2 e1 <= x)%Q
    /\ (x < (inject_Z m1 + 1) * pow2 e1)%Q
    /\ (m2 = m1 \/ m2 = m1 + 1)
    /\ (Qabs (inject_Z m2 * pow2 e1 - x) <= x - inject_Z m1 * pow2 e1)%Q
    /\ (Qabs (inject_Z m2 * pow2 e1 - x) <= (inject_Z m1 + 1) * pow2 e1 - x)%Q
    /\ (Z.even m2 = true
        \/ ~ (x - inject_Z m1 * pow2 e1 == (inject_Z m1 + 1) * pow2 e1 - x)%Q)
    /\ ((m2 < 2 ^ 53 /\ m3 = m2 /\ e3 = e1)
        \/ (m2 = 2 ^ 53 /\ m3 = 2 ^ 52 /\ e3 = e1 + 1))
    /\ binary_round_aux prec emax s m e l
       = match m3 with
         | 0 => S754_zero s
         | Z.pos p => if e3 <=? 971 then S754_finite s p e3 else S754_infinity s
         | Z.neg _ => S754_nan
         end.
Proof.
  intros Hm Hl He.
  destruct (shr_fexp_located m e l x Hm Hl) as (mrs1 & e1 & Hs1 & He1 & Hm1 & Hl1).
  rewrite Z.max_r in He1 by exact He.
  set (m1 := shr_m mrs1) in *.
  assert (He1' : -1074 <= e1) by (rewrite He1, fexp_eq; lia).
  assert (Hk : 0 <= e1 - e) by lia.
  assert (Hpk : 0 < 2 ^ (e1 - e)) by (apply Z.pow_pos_nonneg; lia).
  assert (Hm1nn : 0 <= m1) by (rewrite Hm1; apply Z.div_pos; lia).
  assert (Hm1lt : m1 < 2 ^ 53).
  { rewrite Hm1. apply Z.div_lt_upper_bound; [lia|].
    rewrite <- Z.pow_add_r by lia.
    eapply Z.lt_le_trans; [apply Zdigits2_gt; lia|].
    apply Z.pow_le_mono_r; [lia|]. rewrite He1, fexp_eq. lia. }
  assert (Hm1big : e1 = -1074 \/ 2 ^ 52 <= m1).
  { destruct (Z.eq_dec e1 (-1074)) as [|Hne]; [auto|right].
    assert (He1d : e1 = Zdigits2 m + e - 53) by (rewrite He1, fexp_eq in *; lia).
    assert (Hmpos : 0 < m).
    { destruct (Z.eq_dec m 0) as [->|]; [simpl in He1d; lia | lia]. }
    rewrite Hm1. apply Z.div_le_lower_bound; [lia|].
    rewrite Z.mul_comm, <- Z.pow_add_r by lia.
    replace (52 + (e1 - e)) with (Zdigits2 m - 1) by lia.
    now apply Zdigits2_lower. }
  pose proof (round_nearest_even_located m1 _ _ Hl1) as Hr. cbv zeta in Hr.
  set (m2 := round_nearest_even m1 (loc_of_shr_record mrs1)) in *.
  destruct Hr as (Hm2 & Hlo & Hhi & Hd1 & Hd2 & Hev).
  assert (Hm2nn : 0 <= m2 <= 2 ^ 53) by lia.
  destruct (shr_fexp_spec m2 e1 loc_Exact ltac:(lia)) as (mrs3 & e3 & Hs3 & He3 & Hm3).
  exists m1, e1, m2, (shr_m mrs3), e3.
  pose proof (pow2_pos e1) as HP.
  pose proof (scale_to_grid x e1) as Hx.
  set (y := (x * pow2 (- e1))%Q) in *. set (P := pow2 e1) in *.
  clearbody y P.
  assert (Habs : (Qabs (inject_Z m2 * P - x) == Qabs (inject_Z m2 - y) * P)%Q).
  { rewrite Hx at 1.
    assert (E : (inject_Z m2 * P - y * P == (inject_Z m2 - y) * P)%Q) by ring.
    rewrite E, Qabs_Qmult, (Qabs_pos P) by lra. reflexivity. }
  split; [exact He1|]. split; [lia|]. split; [exact Hm1big|].
  split; [rewrite Hx; nra|]. split; [rewrite Hx; nra|]. split; [exact Hm2|].
  split; [rewrite Habs, Hx; nra|]. split; [rewrite Habs, Hx; nra|].
  split.
  { destruct Hev as [Hev|Hev]; [left; exact Hev|right]. intros Heq. apply Hev.
    rewrite Hx in Heq. nra. }
  split.
  - destruct (Z.eq_dec m2 (2 ^ 53)) as [Heq|Hne].
    + right. split; [exact Heq|].
      assert (He3' : e3 = e1 + 1).
      { rewrite He3, Heq. change (Zdigits2 (2 ^ 53)) with 54. rewrite fexp_eq. lia. }
      split; [|exact He3'].
      rewrite Hm3, He3', Heq. replace (e1 + 1 - e1) with 1 by lia. reflexivity.
    + left. assert (Hlt : m2 < 2 ^ 53) by lia.
      assert (Hd : Zdigits2 m2 <= 53) by (apply Zdigits2_le; lia).
      rewrite fexp_eq in He3. assert (He3' : e3 = e1) by lia.
      split; [exact Hlt|]. split; [|exact He3'].
      rewrite Hm3, He3', Z.sub_diag. apply Z.div_1_r.
  - unfold binary_round_aux. rewrite Hs1. fold m1. fold m2. rewrite Hs3. reflexivity.
Qed.

Lemma value_abs (s : bool) (m : positive) (e : Z) :
  (Qabs (value (S754_finite s m e)) == inject_Z (Z.pos m) * pow2 e)%Q.
Proof.
  pose proof (pow2_pos e) as HP.
  assert (H0 : (0 < inject_Z (Z.pos m))%Q).
  { change 0%Q with (inject_Z 0). rewrite <- Zlt_Qlt. lia. }
  assert (Hpos : (0 <= inject_Z (Z.pos m) * pow2 e)%Q) by nra.
  unfold value, signed. destruct s.
  - rewrite Qabs_opp. now apply Qabs_pos.
  - now apply Qabs_pos.
Qed.

Lemma bounded_spec (m : positive) (e : Z) :
  bounded prec emax m e = true
  <-> e = Z.max (Zdigits2 (Z.pos m) + e - 53) (-1074) /\ e <= 971.
Proof.
  unfold bounded, canonical_mantissa. rewrite andb_true_iff, Z.eqb_eq, Z.leb_le.
  rewrite fexp_eq. simpl Zdigits2. unfold emax, prec. lia.
Qed.

(** No double lies strictly between two neighbours of the grid that
    rounding works on. *)
Lemma double_grid (g : float) (m1 e1 : Z) :
  is_double g -> 0 <= m1 -> -1074 <= e1 -> (e1 = -1074 \/ 2 ^ 52 <= m1) ->
  (Qabs (value g) <= inject_Z m1 * pow2 e1)%Q
  \/ ((inject_Z m1 + 1) * pow2 e1 <= Qabs (value g))%Q.
Proof.
  intros Hg Hm1 He1 Hbig.
  pose proof (pow2_pos e1) as HP.
  assert (Hm1q : (0 <= inject_Z m1)%Q).
  { change 0%Q with (inject_Z 0). now rewrite <- Zle_Qle. }
  destruct g as [s| | |s mg eg]; simpl in Hg; try contradiction.
  - left. unfold value. change (Qabs 0) with 0%Q. nra.
  - rewrite value_abs. apply bounded_spec in Hg as [Hcan Hmax].
    destruct (Z.le_gt_cases e1 eg) as [Hle|Hgt].
    + set (N := Z.pos mg * 2 ^ (eg - e1)).
      assert (HN : (inject_Z (Z.pos mg) * pow2 eg == inject_Z N * pow2 e1)%Q).
      { unfold N. rewrite inject_Z_mult, <- pow2_Z by lia.
        replace eg with (eg - e1 + e1) at 1 by lia. rewrite pow2_add. ring. }
      rewrite HN. destruct (Z.le_gt_cases N m1) as [H|H].
      * left. apply Qmult_le_compat_r; [|lra]. now rewrite <- Zle_Qle.
      * right. assert (H' : m1 + 1 <= N) by lia.
        apply Qmult_le_compat_r; [|lra].
        rewrite Zle_Qle, inject_Z_plus in H'. exact H'.
    + left. destruct Hbig as [->|Hbig]; [lia|].
      assert (Hd : Zdigits2 (Z.pos mg) <= 53) by lia.
      assert (Hmg : Z.pos mg < 2 ^ 53).
      { eapply Z.lt_le_trans; [apply Zdigits2_gt; lia|].
        apply Z.pow_le_mono_r; lia. }
      assert (Hp : (pow2 eg <= pow2 (e1 - 1))%Q) by (apply pow2_le; lia).
      assert (Hp1 : (pow2 e1 == 2 * pow2 (e1 - 1))%Q).
      { replace e1 with (1 + (e1 - 1)) at 1 by lia. rewrite pow2_add. reflexivity. }
      pose proof (pow2_pos eg) as HPg. pose proof (pow2_pos (e1 - 1)) as HP1.
      assert (Hq1 : (inject_Z (Z.pos mg) <= inject_Z (2 ^ 53))%Q)
        by (rewrite <- Zle_Qle; lia).
      assert (Hq2 : (inject_Z (2 ^ 52) <= inject_Z m1)%Q) by now rewrite <- Zle_Qle.
      assert (Hq3 : (inject_Z (2 ^ 53) == 2 * inject_Z (2 ^ 52))%Q) by reflexivity.
      assert (Hq4 : (0 < inject_Z (Z.pos mg))%Q).
      { change 0%Q with (inject_Z 0). rewrite <- Zlt_Qlt. lia. }
      assert (Hq5 : (0 < inject_Z (2 ^ 52))%Q) by reflexivity.
      rewrite Hp1.
      apply Qle_trans with (inject_Z (2 ^ 53) * pow2 (e1 - 1))%Q; [nra|].
      rewrite Hq3. nra.
Qed.

Ltac qabs z :=
  let H := fresh "Hsgn" in
  destruct (Qlt_le_dec z 0) as [H|H];
  [ rewrite (Qabs_neg z) in * by lra | rewrite (Qabs_pos z) in * by lra ].

Lemma nearest_from_grid (s : bool) (x lo hi v t : Q) :
  (0 < x)%Q -> (0 <= lo)%Q -> (lo <= x)%Q -> (x < hi)%Q ->
  (v == lo \/ v == hi)%Q ->
  (Qabs (v - x) <= x - lo)%Q -> (Qabs (v - x) <= hi - x)%Q ->
  (Qabs t <= lo \/ hi <= Qabs t)%Q ->
  (Qabs (signed s v - signed s x) <= Qabs (t - signed s x))%Q.
Proof.
  intros Hx Hlo Hlox Hxhi Hv Hd1 Hd2 Ht.
  assert (E : (Qabs (signed s v - signed s x) == Qabs (v - x))%Q).
  { destruct s; unfold signed; [|reflexivity].
    rewrite <- (Qabs_opp (v - x)). apply Qabs_wd. ring. }
  rewrite E. clear E.
  qabs t; qabs (v - x)%Q; destruct s; unfold signed;
    match goal with |- (_ <= Qabs ?z)%Q => qabs z end;
    destruct Ht, Hv; lra.
Qed.

Lemma unique_from_grid (s : bool) (x lo hi v t : Q) :
  (0 < x)%Q -> (0 <= lo)%Q -> (lo <= x)%Q -> (x < hi)%Q ->
  (v == lo \/ v == hi)%Q ->
  (Qabs (v - x) <= x - lo)%Q -> (Qabs (v - x) <= hi - x)%Q ->
  ~ (x - lo == hi - x)%Q ->
  (Qabs t <= lo \/ hi <= Qabs t)%Q ->
  (Qabs (t - signed s x) == Qabs (signed s v - signed s x))%Q ->
  (t == signed s v)%Q.
Proof.
  intros Hx Hlo Hlox Hxhi Hv Hd1 Hd2 Hne Ht Heq.
  assert (E : (Qabs (signed s v - signed s x) == Qabs (v - x))%Q).
  { destruct s; unfold signed; [|reflexivity].
    rewrite <- (Qabs_opp (v - x)). apply Qabs_wd. ring. }
  rewrite E in Heq. clear E.
  assert (Hne' : (x - lo < hi - x \/ hi - x < x - lo)%Q).
  { destruct (Q_dec (x - lo) (hi - x)) as [[H|H]|H]; auto. contradiction. }
  qabs t; qabs (v - x)%Q; destruct s; unfold signed in *;
    match type of Heq with (Qabs ?z == _)%Q => qabs z end;
    destruct Ht, Hv, Hne'; lra.
Qed.

Lemma rounded_intro (x : Q) (u : float) :
  is_double u ->
  (sign_of u = true <-> (x < 0)%Q) ->
  (Qabs x < overflow_threshold)%Q ->
  (forall g, is_double g -> (Qabs (value u - x) <= Qabs (value g - x))%Q) ->
  (even_mantissa u
   \/ forall g, is_double g ->
        (Qabs (value g - x) == Qabs (value u - x))%Q -> (value g == value u)%Q) ->
  rounded x u.
Proof.
  intros Hd Hs Ht Hn He. unfold rounded. split; [exact Hs|].
  destruct u; simpl in Hd; try contradiction; auto.
Qed.

Lemma Qabs_signed (s : bool) (x : Q) : (Qabs (signed s x) == Qabs x)%Q.
Proof. destruct s; unfold signed; [apply Qabs_opp | reflexivity]. Qed.

Lemma signed_neg (s : bool) (x : Q) : (0 < x)%Q -> (s = true <-> (signed s x < 0)%Q).
Proof.
  intros Hx. destruct s; unfold signed; split; intros H;
    reflexivity || discriminate || lra.
Qed.

Lemma signed_wd (s : bool) (x y : Q) : (x == y)%Q -> (signed s x == signed s y)%Q.
Proof. intros H. destruct s; unfold signed; rewrite H; reflexivity. Qed.

Lemma pow2_units :
  (pow2 971 == 2 * pow2 970)%Q
  /\ (pow2 1023 == inject_Z (2 ^ 53) * pow2 970)%Q
  /\ (pow2 1024 == inject_Z (2 ^ 54) * pow2 970)%Q
  /\ (pow2 1024 == inject_Z (2 ^ 53) * pow2 971)%Q
  /\ (pow2 1024 == inject_Z (2 ^ 52) * pow2 972)%Q.
Proof.
  rewrite <- !pow2_Z by lia. rewrite <- !pow2_add. repeat split; reflexivity.
Qed.

(** [binary_round_aux] rounds to nearest, ties to even. *)
Lemma binary_round_aux_rounded (s : bool) (m e : Z) (l : location) (x : Q) :
  0 <= m -> (0 < x)%Q -> located m (x * pow2 (- e)) l ->
  e <= fexp prec emax (Zdigits2 m + e) ->
  rounded (signed s x) (binary_round_aux prec emax s m e l).
Proof.
  intros Hm Hx Hl He.
  destruct (binary_round_aux_core s m e l x Hm Hl He)
    as (m1 & e1 & m2 & m3 & e3 & He1 & Hm1 & Hbig & Hlo & Hhi & Hm2 & Hd1 & Hd2
        & Hev & Hcarry & ->).
  assert (He1' : -1074 <= e1) by (rewrite He1, fexp_eq; lia).
  pose proof (pow2_pos e1) as HP.
  assert (Hup : (inject_Z (m1 + 1) == inject_Z m1 + 1)%Q)
    by (rewrite inject_Z_plus; reflexivity).
  assert (Hm1q : (0 <= inject_Z m1)%Q).
  { change 0%Q with (inject_Z 0). rewrite <- Zle_Qle. lia. }
  assert (Hgrid : forall g, is_double g ->
            (Qabs (value g) <= inject_Z m1 * pow2 e1)%Q
            \/ ((inject_Z m1 + 1) * pow2 e1 <= Qabs (value g))%Q).
  { intros g Hg. apply double_grid; [assumption | lia | assumption | assumption]. }
  assert (Hv3 : (inject_Z m3 * pow2 e3 == inject_Z m2 * pow2 e1)%Q).
  { destruct Hcarry as [(_ & -> & ->)|(-> & -> & ->)]; [reflexivity|].
    rewrite pow2_add. change (pow2 1) with 2%Q.
    change (inject_Z (2 ^ 53)) with (2 * inject_Z (2 ^ 52))%Q. ring. }
  assert (Hv : (inject_Z m2 * pow2 e1 == inject_Z m1 * pow2 e1
                \/ inject_Z m2 * pow2 e1 == (inject_Z m1 + 1) * pow2 e1)%Q).
  { destruct Hm2 as [->| ->]; [left; reflexivity|right]. rewrite Hup. reflexivity. }
  assert (Hlo0 : (0 <= inject_Z m1 * pow2 e1)%Q) by nra.
  pose proof pow2_units as (U1 & U2 & U3 & U4 & U5).
  pose proof (pow2_pos 970) as HU.
  assert (Hnear : forall u, (value u == signed s (inject_Z m2 * pow2 e1))%Q ->
            forall g, is_double g ->
              (Qabs (value u - signed s x) <= Qabs (value g - signed s x))%Q).
  { intros u Hu g Hg.
    assert (E : (Qabs (value u - signed s x)
                 == Qabs (signed s (inject_Z m2 * pow2 e1) - signed s x))%Q)
      by (apply Qabs_wd; rewrite Hu; reflexivity).
    rewrite E.
    apply (nearest_from_grid s x (inject_Z m1 * pow2 e1) ((inject_Z m1 + 1) * pow2 e1));
      auto. }
  assert (Huniq : forall p, m3 = Z.pos p ->
            forall u, (value u == signed s (inject_Z m2 * pow2 e1))%Q ->
            Z.even (Z.pos p) = true
            \/ forall g, is_double g ->
                 (Qabs (value g - signed s x) == Qabs (value u - signed s x))%Q ->
                 (value g == value u)%Q).
  { intros p Hp u Hu. destruct Hev as [Hev|Hne].
    - left. rewrite <- Hp. destruct Hcarry as [(_ & -> & _)|(_ & -> & _)];
        [exact Hev | reflexivity].
    - right. intros g Hg Heq. rewrite Hu.
      assert (E : (Qabs (value u - signed s x)
                   == Qabs (signed s (inject_Z m2 * pow2 e1) - signed s x))%Q)
        by (apply Qabs_wd; rewrite Hu; reflexivity).
      rewrite E in Heq.
      apply (unique_from_grid s x (inject_Z m1 * pow2 e1) ((inject_Z m1 + 1) * pow2 e1));
        auto. }
  assert (Hsign : s = true <-> (signed s x < 0)%Q) by now apply signed_neg.
  destruct m3 as [|p|p].
  - (* underflow to zero *)
    assert (Hm20 : m2 = 0) by (destruct Hcarry as [(_ & H & _)|(_ & H & _)]; lia).
    assert (Hm10 : m1 = 0) by lia.
    assert (He10 : e1 = -1074) by (destruct Hbig; lia).
    apply rounded_intro.
    + exact I.
    + exact Hsign.
    + rewrite Qabs_signed, Qabs_pos by lra. unfold overflow_threshold.
      subst m1. change (inject_Z 0 + 1)%Q with 1%Q in Hhi.
      assert (HP' : (pow2 e1 <= pow2 970)%Q) by (apply pow2_le; lia).
      rewrite U3. change (inject_Z (2 ^ 54)) with 18014398509481984%Q. lra.
    + apply Hnear. unfold value. rewrite Hm20.
      destruct s; unfold signed; change (inject_Z 0) with 0%Q; ring.
    + left. exact I.
  - assert (Hval : (value (S754_finite s p e3) == signed s (inject_Z m2 * pow2 e1))%Q).
    { unfold value. apply signed_wd. exact Hv3. }
    destruct (Z.leb_spec e3 971) as [He3|He3].
    + apply rounded_intro.
      * apply bounded_spec. split; [|exact He3].
        destruct Hcarry as [(Hlt & Hm3 & ->)|(_ & Hm3 & ->)].
        -- assert (Hd : Zdigits2 (Z.pos p) <= 53) by (apply Zdigits2_le; lia).
           destruct Hbig as [->|Hbig]; [lia|].
           assert (53 <= Zdigits2 (Z.pos p))
             by (apply (Zdigits2_ge _ 52); lia).
           lia.
        -- rewrite Hm3. change (Zdigits2 (2 ^ 52)) with 53. lia.
      * exact Hsign.
      * rewrite Qabs_signed, Qabs_pos by lra. unfold overflow_threshold.
        rewrite U3.
        destruct Hcarry as [(Hlt & Hm3 & ->)|(Hm2c & Hm3 & ->)].
        -- assert (HP' : (pow2 e1 <= 2 * pow2 970)%Q)
             by (rewrite <- U1; apply pow2_le; lia).
           destruct Hm2 as [Hm2|Hm2].
           ++ rewrite Hm2 in Hd2, Hev.
              rewrite Qabs_neg in Hd2 by lra.
              destruct (Z.eq_dec m1 (2 ^ 53 - 1)) as [Heq|Hne].
              ** destruct Hev as [Hev|Hev]; [rewrite Heq in Hev; discriminate|].
                 assert (Hstrict : (x - inject_Z m1 * pow2 e1
                                    < (inject_Z m1 + 1) * pow2 e1 - x)%Q).
                 { destruct (Q_dec (x - inject_Z m1 * pow2 e1)
                                   ((inject_Z m1 + 1) * pow2 e1 - x)) as [[H|H]|H];
                     [exact H | lra | contradiction]. }
                 rewrite Heq in Hstrict.
                 change (inject_Z (2 ^ 53 - 1)) with 9007199254740991%Q in Hstrict.
                 change (inject_Z (2 ^ 54)) with 18014398509481984%Q. nra.
              ** assert (Hq : (inject_Z m1 <= inject_Z (2 ^ 53 - 2))%Q)
                   by (rewrite <- Zle_Qle; lia).
                 change (inject_Z (2 ^ 53 - 2)) with 9007199254740990%Q in Hq.
                 change (inject_Z (2 ^ 54)) with 18014398509481984%Q. nra.
           ++ assert (Hq : (inject_Z m1 + 1 <= inject_Z (2 ^ 53 - 1))%Q)
                by (rewrite <- Hup, <- Zle_Qle; lia).
              change (inject_Z (2 ^ 53 - 1)) with 9007199254740991%Q in Hq.
              change (inject_Z (2 ^ 54)) with 18014398509481984%Q. nra.
        -- assert (HP' : (pow2 e1 <= pow2 970)%Q) by (apply pow2_le; lia).
           assert (Hq : (inject_Z m1 + 1 <= inject_Z (2 ^ 53))%Q)
             by (rewrite <- Hup, <- Zle_Qle; lia).
           change (inject_Z (2 ^ 53)) with 9007199254740992%Q in Hq.
           change (inject_Z (2 ^ 54)) with 18014398509481984%Q. nra.
      * now apply Hnear.
      * now apply (Huniq p).
    + (* overflow *)
      unfold rounded. split; [exact Hsign|].
      rewrite Qabs_signed, Qabs_pos by lra. unfold overflow_threshold.
      destruct Hcarry as [(Hlt & Hm3 & ->)|(Hm2c & Hm3 & ->)].
      * destruct Hbig as [->|Hbig]; [lia|].
        assert (HP' : (pow2 972 <= pow2 e1)%Q) by (apply pow2_le; lia).
        assert (Hq : (inject_Z (2 ^ 52) <= inject_Z m1)%Q) by (rewrite <- Zle_Qle; lia).
        pose proof (pow2_pos 972) as HP2.
        rewrite U5. change (inject_Z (2 ^ 52)) with 4503599627370496%Q in *. nra.
      * assert (Hm1c : m1 = 2 ^ 53 - 1) by lia.
        assert (HP' : (2 * pow2 970 <= pow2 e1)%Q)
          by (rewrite <- U1; apply pow2_le; lia).
        destruct Hv as [Hv|Hv].
        { exfalso. rewrite Hm2c, Hm1c in Hv.
          change (inject_Z (2 ^ 53)) with 9007199254740992%Q in Hv.
          change (inject_Z (2 ^ 53 - 1)) with 9007199254740991%Q in Hv. nra. }
        rewrite Hv in Hd1. rewrite Qabs_pos in Hd1 by lra.
        rewrite Hm1c in Hd1, Hlo, Hhi.
        change (inject_Z (2 ^ 53 - 1)) with 9007199254740991%Q in *.
        rewrite U3. change (inject_Z (2 ^ 54)) with 18014398509481984%Q. nra.
  - lia.
Qed.

Lemma new_location_located (b q r : Z) (y : Q) :
  0 < b -> 0 <= r < b ->
  (y * inject_Z b == inject_Z q * inject_Z b + inject_Z r)%Q ->
  located q y (new_location b r).
Proof.
  intros Hb Hr Hy.
  assert (HB : (0 < inject_Z b)%Q) by (change 0%Q with (inject_Z 0); rewrite <- Zlt_Qlt; lia).
  assert (HR : (0 <= inject_Z r)%Q) by (change 0%Q with (inject_Z 0); rewrite <- Zle_Qle; lia).
  assert (HRB : (inject_Z r < inject_Z b)%Q) by (rewrite <- Zlt_Qlt; lia).
  assert (H2 : (inject_Z (2 * r) == 2 * inject_Z r)%Q) by (rewrite inject_Z_mult; reflexivity).
  unfold new_location.
  destruct (Z.eq_dec r 0) as [->|Hr0].
  { change (inject_Z 0) with 0%Q in Hy.
    assert (E : (y == inject_Z q)%Q).
    { apply (Qmult_inj_r _ _ (inject_Z b)); [lra|]. rewrite Hy. ring. }
    destruct (Z.even b); exact E. }
  assert (HR0 : (0 < inject_Z r)%Q) by (change 0%Q with (inject_Z 0); rewrite <- Zlt_Qlt; lia).
  assert (Hr0' : (r =? 0) = false) by now apply Z.eqb_neq.
  destruct (Z.even b) eqn:Hev.
  - unfold new_location_even. rewrite Hr0'.
    destruct (Z.compare_spec (2 * r) b) as [Hc|Hc|Hc].
    + assert (Hq : (2 * inject_Z r == inject_Z b)%Q) by (rewrite <- H2, Hc; reflexivity).
      unfold located. apply (Qmult_inj_r _ _ (inject_Z b)); [lra|]. rewrite Hy. lra.
    + assert (Hq : (2 * inject_Z r < inject_Z b)%Q) by (rewrite <- H2, <- Zlt_Qlt; lia).
      unfold located. split; nra.
    + assert (Hq : (inject_Z b < 2 * inject_Z r)%Q) by (rewrite <- H2, <- Zlt_Qlt; lia).
      unfold located. split; nra.
  - assert (Hodd : 2 * r <> b).
    { intros <-. rewrite Z.even_mul in Hev. discriminate. }
    unfold new_location_odd. rewrite Hr0'.
    destruct (Z.compare_spec (2 * r + 1) b) as [Hc|Hc|Hc].
    + assert (Hq : (2 * inject_Z r < inject_Z b)%Q) by (rewrite <- H2, <- Zlt_Qlt; lia).
      unfold located. split; nra.
    + assert (Hq : (2 * inject_Z r < inject_Z b)%Q) by (rewrite <- H2, <- Zlt_Qlt; lia).
      unfold located. split; nra.
    + assert (Hq : (inject_Z b < 2 * inject_Z r)%Q) by (rewrite <- H2, <- Zlt_Qlt; lia).
      unfold located. split; nra.
Qed.

(** [div_round s a b] is [a / b], with sign [s], correctly rounded. *)
Lemma div_round_rounded (s : bool) (a b : positive) (x : Q) :
  (x * inject_Z (Z.pos b) == inject_Z (Z.pos a))%Q ->
  rounded (signed s x) (div_round s a b).
Proof.
  intros Hx.
  assert (HA : (0 < inject_Z (Z.pos a))%Q) by reflexivity.
  assert (HB : (0 < inject_Z (Z.pos b))%Q) by reflexivity.
  assert (Hx0 : (0 < x)%Q) by nra.
  unfold div_round, SFdiv_core_binary.
  set (d1 := Zdigits2 (Z.pos a)). set (d2 := Zdigits2 (Z.pos b)).
  set (e := Z.min (fexp prec emax (d1 + 0 - (d2 + 0))) (0 - 0)).
  assert (He : e <= 0) by (unfold e; lia).
  assert (Hef : e <= fexp prec emax (d1 - d2))
    by (unfold e; replace (d1 + 0 - (d2 + 0)) with (d1 - d2) by lia; lia).
  set (m' := match 0 - 0 - e with
             | Z.pos _ => Z.shiftl (Z.pos a) (0 - 0 - e)
             | 0 => Z.pos a
             | Z.neg _ => 0
             end).
  assert (Hm' : m' = Z.pos a * 2 ^ (- e)).
  { unfold m'. replace (0 - 0 - e) with (- e) by lia.
    destruct (- e) as [|p|p] eqn:Hs; [lia | | lia].
    rewrite Z.shiftl_mul_pow2 by lia. reflexivity. }
  assert (Hpow : 0 < 2 ^ (- e)) by (apply Z.pow_pos_nonneg; lia).
  pose proof (Z_div_mod m' (Z.pos b) ltac:(lia)) as Hdiv.
  destruct (Z.div_eucl m' (Z.pos b)) as [q r] eqn:Hqr.
  destruct Hdiv as [Hdiv Hr].
  assert (Hq : 0 <= q) by nia.
  apply binary_round_aux_rounded; [exact Hq | exact Hx0 | |].
  - apply new_location_located; [lia | exact Hr |].
    rewrite <- inject_Z_mult, <- inject_Z_plus.
    replace (q * Z.pos b + r) with m' by lia.
    rewrite Hm', inject_Z_mult, <- pow2_Z by lia.
    rewrite <- Hx. ring.
  - rewrite fexp_eq in *.
    destruct (Z.le_gt_cases (d1 - d2 - 53) (-1074)) as [Hsub|Hnorm]; [lia|].
    assert (Hk : 52 <= d1 - 1 - e - d2) by lia.
    assert (Hqbig : 2 ^ (d1 - 1 - e - d2) <= q).
    { assert (Hlow : 2 ^ (d1 - 1) <= Z.pos a) by (apply Zdigits2_lower; lia).
      assert (Hup : Z.pos b < 2 ^ d2) by (apply Zdigits2_gt; lia).
      assert (Hd2 : 0 <= d2) by apply Zdigits2_nonneg.
      assert (Hd1 : 1 <= d1) by (unfold d1; simpl; lia).
      assert (Hsplit : 2 ^ (d1 - 1) * 2 ^ (- e) = 2 ^ (d1 - 1 - e - d2) * 2 ^ d2).
      { rewrite <- !Z.pow_add_r by lia. f_equal. lia. }
      assert (Hp : 0 < 2 ^ (d1 - 1 - e - d2)) by (apply Z.pow_pos_nonneg; lia).
      assert (Hlt : 2 ^ (d1 - 1 - e - d2) * Z.pos b < Z.pos b * q + Z.pos b) by nia.
      nia. }
    assert (53 <= Zdigits2 q); [|lia].
    assert (Hq52 : 2 ^ 52 <= q).
    { eapply Z.le_trans; [|exact Hqbig]. apply Z.pow_le_mono_r; lia. }
    apply (Zdigits2_ge q 52); lia.
Qed.

Lemma rounded_ext (x x' : Q) (u : float) : (x == x')%Q -> rounded x u -> rounded x' u.
Proof.
  intros Hx [Hs H]. split; [rewrite <- Hx; exact Hs|].
  destruct u as [s|s| |s m e]; try contradiction.
  - destruct H as (Hd & Ht & Hn & He). split; [exact Hd|]. split; [rewrite <- Hx; exact Ht|].
    split.
    + intros g Hg. rewrite <- Hx. now apply Hn.
    + destruct He as [He|He]; [left; exact He|right].
      intros g Hg Heq. apply He; [exact Hg|]. rewrite Hx. exact Heq.
  - rewrite <- Hx. exact H.
  - destruct H as (Hd & Ht & Hn & He). split; [exact Hd|]. split; [rewrite <- Hx; exact Ht|].
    split.
    + intros g Hg. rewrite <- Hx. now apply Hn.
    + destruct He as [He|He]; [left; exact He|right].
      intros g Hg Heq. apply He; [exact Hg|]. rewrite Hx. exact Heq.
Qed.

Lemma inject_Z_neg (p : positive) : (inject_Z (Z.neg p) == - inject_Z (Z.pos p))%Q.
Proof. reflexivity. Qed.

Lemma signed_quotient (a b : Z) :
  a <> 0 -> b <> 0 ->
  (signed (xorb (a <? 0) (b <? 0))
          (inject_Z (Z.pos (Z.to_pos (Z.abs a))) / inject_Z (Z.pos (Z.to_pos (Z.abs b))))
   == inject_Z a / inject_Z b)%Q.
Proof.
  intros Ha Hb.
  destruct a as [|pa|pa], b as [|pb|pb]; try congruence;
    cbv [signed xorb Z.ltb Z.compare Z.abs Z.to_pos];
    rewrite ?inject_Z_neg; field; discriminate.
Qed.

Lemma int_truediv_spec (a b : Z) :
  b <> 0 ->
  match int_truediv a b with
  | Ok q => float_quotient a b q /\ is_double q
  | Raise e =>
      e = OverflowError
      /\ (overflow_threshold <= Qabs (inject_Z a / inject_Z b))%Q
  end.
Proof.
  intros Hb. unfold float_quotient.
  destruct (Z.eq_dec a 0) as [->|Ha].
  { unfold int_truediv.
    destruct b; [congruence| |]; split; [reflexivity | exact I | reflexivity | exact I]. }
  assert (Ha' : (a =? 0) = false) by now apply Z.eqb_neq.
  rewrite Ha'.
  set (pa := Z.to_pos (Z.abs a)). set (pb := Z.to_pos (Z.abs b)).
  set (s := xorb (a <? 0) (b <? 0)).
  assert (H : rounded (inject_Z a / inject_Z b) (div_round s pa pb)).
  { apply (rounded_ext (signed s (inject_Z (Z.pos pa) / inject_Z (Z.pos pb)))).
    - now apply signed_quotient.
    - apply div_round_rounded. field. discriminate. }
  assert (Hshape : int_truediv a b
                   = match div_round s pa pb with
                     | S754_infinity _ => Raise OverflowError
                     | q => Ok q
                     end).
  { unfold int_truediv. destruct b; [congruence| |]; destruct a; try congruence; reflexivity. }
  rewrite Hshape.
  destruct (div_round s pa pb) as [s'|s'| |s' m e] eqn:Hq.
  - split; [exact H | exact I].
  - split; [reflexivity | exact (proj2 H)].
  - destruct H as [_ []].
  - split; [exact H | exact (proj1 (proj2 H))].
Qed.

Lemma signed_scale (s : bool) (x c : Q) : (signed s (x * c) == signed s x * c)%Q.
Proof. destruct s; unfold signed; ring. Qed.

(** [mul_100] is the correctly rounded product. *)
Lemma mul_100_spec (q : float) : float_times_100 q (mul_100 q).
Proof.
  destruct q as [s|s| |s m e]; unfold float_times_100, mul_100; rewrite hundred_eq.
  - destruct s; reflexivity.
  - destruct s; reflexivity.
  - reflexivity.
  - unfold SFmul.
    assert (Hs : xorb s false = s) by (destruct s; reflexivity). rewrite Hs.
    set (mh := 7036874417766400%positive).
    assert (Hmh : Z.pos mh = 100 * 2 ^ 46) by reflexivity.
    apply (rounded_ext (signed s (inject_Z (Z.pos m) * pow2 e * 100))).
    { unfold value. apply signed_scale. }
    pose proof (pow2_pos e) as HP.
    assert (Hm : (0 < inject_Z (Z.pos m))%Q) by reflexivity.
    apply binary_round_aux_rounded.
    + lia.
    + nra.
    + unfold located. rewrite (Pos2Z.inj_mul m mh), Hmh, !inject_Z_mult.
      rewrite <- pow2_Z by lia.
      replace (- (e + -46)) with (- e + 46) by lia. rewrite pow2_add.
      change (inject_Z 100) with 100%Q.
      transitivity (inject_Z (Z.pos m) * 100 * pow2 46 * (pow2 e * pow2 (- e)))%Q; [ring|].
      rewrite pow2_opp. ring.
    + rewrite fexp_eq.
      assert (Hd : Zdigits2 (Z.pos m) + 52 <= Zdigits2 (Z.pos (m * mh))).
      { pose proof (Zdigits2_lower (Z.pos m) ltac:(lia)) as Hlow.
        assert (Hd1 : 1 <= Zdigits2 (Z.pos m)) by (simpl; lia).
        replace (Zdigits2 (Z.pos m) + 52) with (Zdigits2 (Z.pos m) - 1 + 52 + 1) by lia.
        apply Zdigits2_ge; [lia|].
        rewrite Z.pow_add_r by lia. rewrite (Pos2Z.inj_mul m mh).
        assert (2 ^ 52 <= Z.pos mh) by (rewrite Hmh; simpl; lia).
        assert (0 < 2 ^ (Zdigits2 (Z.pos m) - 1)) by (apply Z.pow_pos_nonneg; lia).
        nia. }
      assert (Hd1 : 1 <= Zdigits2 (Z.pos m)) by (simpl; lia).
      lia.
Qed.

Lemma div_half_even_spec (n d : Z) (y : Q) :
  0 <= n -> 0 < d ->
  (y * inject_Z d == inject_Z n)%Q ->
  0 <= div_half_even n d /\ nearest_integer y (div_half_even n d).
Proof.
  intros Hn Hd Hy.
  pose proof (Z.div_mod n d ltac:(lia)) as Hdiv.
  pose proof (Z.mod_pos_bound n d Hd) as Hr.
  assert (Hk : 0 <= n / d) by (apply Z.div_pos; lia).
  set (k := n / d) in *. set (r := n mod d) in *.
  assert (HD : (0 < inject_Z d)%Q) by (change 0%Q with (inject_Z 0); rewrite <- Zlt_Qlt; lia).
  assert (Hy' : (y * inject_Z d == inject_Z k * inject_Z d + inject_Z r)%Q).
  { rewrite Hy, Hdiv, inject_Z_plus, inject_Z_mult. ring. }
  assert (HR : (0 <= inject_Z r)%Q) by (change 0%Q with (inject_Z 0); rewrite <- Zle_Qle; lia).
  assert (H2 : (inject_Z (2 * r) == 2 * inject_Z r)%Q) by (rewrite inject_Z_mult; reflexivity).
  assert (Hup : (inject_Z (k + 1) == inject_Z k + 1)%Q) by (rewrite inject_Z_plus; reflexivity).
  unfold div_half_even, nearest_integer. fold k r.
  destruct (Z.ltb_spec (2 * r) d) as [Hlt|Hge].
  - assert (Hq : (2 * inject_Z r < inject_Z d)%Q) by (rewrite <- H2, <- Zlt_Qlt; lia).
    split; [exact Hk|].
    assert (Hyk : (inject_Z k <= y /\ y < inject_Z k + (1 # 2))%Q) by (split; nra).
    rewrite Qabs_neg by lra. split; [lra|]. intros Heq. lra.
  - destruct (Z.ltb_spec d (2 * r)) as [Hgt|Hle].
    + assert (Hq : (inject_Z d < 2 * inject_Z r)%Q) by (rewrite <- H2, <- Zlt_Qlt; lia).
      split; [lia|].
      assert (Hyk : (inject_Z k + (1 # 2) < y /\ y < inject_Z k + 1)%Q).
      { assert (inject_Z r < inject_Z d)%Q by (rewrite <- Zlt_Qlt; lia). split; nra. }
      rewrite Hup, Qabs_pos by lra. split; [lra|]. intros Heq. lra.
    + assert (Heq : 2 * r = d) by lia.
      assert (Hq : (2 * inject_Z r == inject_Z d)%Q) by (rewrite <- H2, Heq; reflexivity).
      assert (Hyk : (y == inject_Z k + (1 # 2))%Q).
      { apply (Qmult_inj_r _ _ (inject_Z d)); [lra|]. rewrite Hy'. lra. }
      destruct (Z.even k) eqn:Hev.
      * split; [exact Hk|]. rewrite Qabs_neg by lra. split; [lra|]. intros _. exact Hev.
      * split; [lia|]. rewrite Hup, Qabs_pos by lra. split; [lra|]. intros _.
        rewrite Z.even_add, Hev. reflexivity.
Qed.

Lemma nearest_integer_opp (x : Q) (k : Z) :
  nearest_integer x k -> nearest_integer (- x) (- k).
Proof.
  intros [H1 H2].
  assert (E : (Qabs (inject_Z (- k) - - x) == Qabs (inject_Z k - x))%Q).
  { rewrite <- (Qabs_opp (inject_Z k - x)). apply Qabs_wd.
    rewrite inject_Z_opp. ring. }
  split; [rewrite E; exact H1|]. intros H. rewrite E in H.
  rewrite Z.even_opp. now apply H2.
Qed.

Lemma nearest_integer_ext (x x' : Q) (k : Z) :
  (x == x')%Q -> nearest_integer x k -> nearest_integer x' k.
Proof. intros Hx [H1 H2]. split; [rewrite <- Hx; exact H1|]. rewrite <- Hx. exact H2. Qed.

(** [round2] rounds to the nearest decimal with two places. *)
Lemma round2_spec (p : float) : float_round_2 p (round2 p).
Proof.
  destruct p as [s|s| |s m e]; unfold float_round_2, round2; try reflexivity.
  set (h := match e with
            | Z.neg pe => div_half_even (Z.pos m * 100) (2 ^ Z.pos pe)
            | _ => Z.pos m * 2 ^ e * 100
            end).
  assert (Hh : 0 <= h /\ nearest_integer (inject_Z (Z.pos m) * pow2 e * 100) h).
  { unfold h. destruct e as [|pe|pe].
    - split; [lia|]. split.
      + assert (E : (inject_Z (Z.pos m * 2 ^ 0 * 100)
                     - inject_Z (Z.pos m) * pow2 0 * 100 == 0)%Q).
        { rewrite !inject_Z_mult. change (inject_Z (2 ^ 0)) with 1%Q.
          change (pow2 0) with 1%Q. change (inject_Z 100) with 100%Q. ring. }
        rewrite E. discriminate.
      + intros H.
        assert (E : (inject_Z (Z.pos m * 2 ^ 0 * 100)
                     - inject_Z (Z.pos m) * pow2 0 * 100 == 0)%Q).
        { rewrite !inject_Z_mult. change (inject_Z (2 ^ 0)) with 1%Q.
          change (pow2 0) with 1%Q. change (inject_Z 100) with 100%Q. ring. }
        rewrite E in H. discriminate.
    - assert (E : (inject_Z (Z.pos m * 2 ^ Z.pos pe * 100)
                   - inject_Z (Z.pos m) * pow2 (Z.pos pe) * 100 == 0)%Q).
      { rewrite !inject_Z_mult, <- pow2_Z by lia. change (inject_Z 100) with 100%Q. ring. }
      split; [assert (0 < 2 ^ Z.pos pe) by (apply Z.pow_pos_nonneg; lia); nia|].
      split; [rewrite E; discriminate|]. intros H. rewrite E in H. discriminate.
    - apply div_half_even_spec; [lia | apply Z.pow_pos_nonneg; lia |].
      rewrite inject_Z_mult, <- pow2_Z by lia. change (inject_Z 100) with 100%Q.
      transitivity (inject_Z (Z.pos m) * 100
                    * (pow2 (Z.pos pe) * pow2 (- Z.pos pe)))%Q;
        [change (Z.neg pe) with (- Z.pos pe); ring|].
      rewrite pow2_opp. ring. }
  destruct Hh as [Hh0 Hnear]. fold h.
  exists (if s then - h else h). split.
  - unfold value. destruct s; unfold signed.
    + apply (nearest_integer_ext (- (inject_Z (Z.pos m) * pow2 e * 100))); [ring|].
      now apply nearest_integer_opp.
    + exact Hnear.
  - destruct h as [|k|k]; [destruct s; reflexivity | | lia].
    assert (Hk0 : ((if s then - Z.pos k else Z.pos k) =? 0) = false) by (destruct s; reflexivity).
    rewrite Hk0.
    apply (rounded_ext (signed s (inject_Z (Z.pos k) / 100))).
    + destruct s; unfold signed; [|reflexivity].
      change (- Z.pos k) with (Z.neg k). rewrite inject_Z_neg. field.
    + apply div_round_rounded. change (inject_Z 100) with 100%Q. field.
Qed.

(** One utilization figure before rounding: [0.0] for a capacity that is
    not positive, otherwise the rounded quotient times 100, rounded; the
    only exception is the [OverflowError] of a quotient out of range. *)
Lemma utilization_spec (total capacity : Z) :
  match utilization total capacity with
  | Ok p =>
      (capacity <= 0 -> p = zero)
      /\ (0 < capacity ->
          exists q, float_quotient total capacity q /\ float_times_100 q p)
  | Raise e =>
      e = OverflowError /\ 0 < capacity
      /\ (overflow_threshold <= Qabs (inject_Z total / inject_Z capacity))%Q
  end.
Proof.
  unfold utilization. destruct (Z.ltb_spec 0 capacity) as [Hc|Hc].
  - pose proof (int_truediv_spec total capacity ltac:(lia)) as H.
    destruct (int_truediv total capacity) as [q|e]; simpl.
    + split; [lia|]. intros _. exists q. split; [apply H | apply mul_100_spec].
    + destruct H as [He Hq]. auto.
  - split; [reflexivity | lia].
Qed.

(** C8 (utilization). [optimize_load] never divides by a non-positive
    capacity.  For every input it comes back, with a response or with an
    [OverflowError], never with a [ZeroDivisionError].  In a response, the
    utilization of a capacity that is not positive is [0.0]; the
    utilization of a positive capacity is [(total / capacity) * 100]
    rounded to two decimal places: the quotient of the two integers
    rounded to the nearest float, its product with 100 rounded to the
    nearest float, and that float rounded to the nearest decimal with two
    places.  The [OverflowError] comes only from a total that is, in
    absolute value, at least [overflow_threshold] times its positive
    capacity; for orders within their contract there is always a
    response. *)
Theorem optimize_load_utilization (truck : Truck) (orders : list Order) :
  exists ids p w v out,
    optimize truck orders = Some (ids, p, w, v)
    /\ optimize_load truck orders = Some out
    /\ match out with
       | Ok r =>
           total_weight_lbs r = w /\ total_volume_cuft r = v
           /\ (max_weight_lbs truck <= 0 -> utilization_weight_percent r = zero)
           /\ (max_volume_cuft truck <= 0 -> utilization_volume_percent r = zero)
           /\ (0 < max_weight_lbs truck ->
               percent_of w (max_weight_lbs truck) (utilization_weight_percent r))
           /\ (0 < max_volume_cuft truck ->
               percent_of v (max_volume_cuft truck) (utilization_volume_percent r))
       | Raise e =>
           e = OverflowError
           /\ ((0 < max_weight_lbs truck
                /\ (overflow_threshold
                    <= Qabs (inject_Z w / inject_Z (max_weight_lbs truck)))%Q)
               \/ (0 < max_volume_cuft truck
                   /\ (overflow_threshold
                       <= Qabs (inject_Z v / inject_Z (max_volume_cuft truck)))%Q))
       end
    /\ (Forall valid_order orders -> exists r, out = Ok r).
Proof.
  destruct (optimize_spec truck orders) as (sel & _ & Hopt & Hgood & _).
  eexists _, _, _, _, _. split; [exact Hopt|].
  split; [exact (optimize_load_unfold _ _ _ _ _ _ Hopt)|].
  set (w := subset_weight orders sel). set (v := subset_volume orders sel).
  pose proof (utilization_spec w (max_weight_lbs truck)) as Hw.
  pose proof (utilization_spec v (max_volume_cuft truck)) as Hv.
  split.
  - destruct (utilization w (max_weight_lbs truck)) as [pw|ew]; simpl.
    + destruct (utilization v (max_volume_cuft truck)) as [pv|ev]; simpl.
      * destruct Hw as [Hw0 Hw1], Hv as [Hv0 Hv1].
        split; [reflexivity|]. split; [reflexivity|].
        split; [intros H; now rewrite (Hw0 H)|].
        split; [intros H; now rewrite (Hv0 H)|].
        split.
        -- intros H. destruct (Hw1 H) as (q & Hq & Hp).
           exists q, pw. split; [exact Hq|]. split; [exact Hp | apply round2_spec].
        -- intros H. destruct (Hv1 H) as (q & Hq & Hp).
           exists q, pv. split; [exact Hq|]. split; [exact Hp | apply round2_spec].
      * destruct Hv as (He & Hc & Hq). split; [exact He|]. right. auto.
    + destruct Hw as (He & Hc & Hq). split; [exact He|]. left. auto.
  - intros Hvalid.
    apply good_selection_candidate in Hgood as ([_ Hlt] & Hfeas & _).
    destruct (sel_totals_subset orders sel Hlt) as (_ & Hws & Hvs).
    destruct (sel_nonneg orders Hvalid sel Hlt) as (_ & Hw0 & Hv0).
    rewrite Hws in Hw0. rewrite Hvs in Hv0.
    assert (Hfit : (w = 0 \/ w <= max_weight_lbs truck)
                   /\ (v = 0 \/ v <= max_volume_cuft truck)).
    { unfold w, v.
      destruct Hfeas as [->|[Hfw Hfv]]; [split; left; reflexivity | split; right; assumption]. }
    destruct Hfit as [Hfitw Hfitv].
    destruct (utilization_within w (max_weight_lbs truck) Hw0 Hfitw) as (uw & -> & _).
    destruct (utilization_within v (max_volume_cuft truck) Hv0 Hfitv) as (uv & -> & _).
    simpl. eauto.
Qed.

Lemma optimize_load_utilization_witness :
  Forall valid_order sample_orders
  /\ exists r,
       optimize_load sample_truck sample_orders = Some (Ok r)
       /\ percent_of (total_weight_lbs r) (max_weight_lbs sample_truck)
                     (utilization_weight_percent r).
Proof.
  assert (Hvalid : Forall valid_order sample_orders) by apply sample_preconditions.
  assert (Hcap : 0 < max_weight_lbs sample_truck) by (simpl; lia).
  split; [exact Hvalid|].
  destruct (optimize_load_utilization sample_truck sample_orders)
    as (ids & p & w & v & out & _ & Hload & Hout & Hok).
  destruct (Hok Hvalid) as [r ->].
  destruct Hout as (Hw & _ & _ & _ & Hpw & _).
  exists r. split; [exact Hload|]. rewrite Hw. exact (Hpw Hcap).
Defined.

(** The sample request: weight utilization 68.18, volume utilization 70.0
    (as binary64 numbers). *)
Example optimize_load_sample :
  optimize_load sample_truck sample_orders
  = Some (Ok (mkResponse (text "truck-123") [text "ord-001"; text "ord-002"] 430000 30000 2100
                         (S754_finite false 4797740978033132 (-46))
                         (S754_finite false 4925812092436480 (-46)))).
Proof. vm_compute. reflexivity. Qed.

(** * Further properties of the code *)

(** ** [_build_compatibility_masks]: shape of the result *)

Lemma bit_nonneg (i : nat) : 0 <= bit i.
Proof. unfold bit. apply Z.shiftl_nonneg. lia. Qed.

Lemma or_at_in_range (orders : list Order) (masks : list Z) (i j : nat) :
  (i < length orders)%nat -> (j < length orders)%nat ->
  masks_in_range orders masks -> masks_in_range orders (or_at masks i (bit j)).
Proof.
  intros Hi Hj [Hlen Hrows]. split; [now rewrite or_at_length|].
  intros a Ha. destruct (Hrows a Ha) as [Hpos Hhigh]. split.
  - rewrite or_at_lookup by lia. case_bool_decide; [|assumption].
    apply Z.lor_nonneg. split; [assumption | apply bit_nonneg].
  - intros b Hb. rewrite or_at_testbit, Hhigh by lia.
    rewrite (bool_decide_eq_false_2 (j = b)) by lia. now rewrite andb_false_r.
Qed.

Lemma build_masks_in_range (orders : list Order) :
  masks_in_range orders (_build_compatibility_masks orders).
Proof.
  unfold _build_compatibility_masks.
  apply (foldl_seq_invariant (mask_outer orders)
           (fun _ masks => masks_in_range orders masks) (length orders) 0).
  - split; [apply length_replicate|]. intros a Ha.
    rewrite lookup_total_replicate_2 by assumption.
    split; [lia|]. intros b _. apply Z.bits_0.
  - intros i masks Hi Hin. unfold mask_outer.
    apply (foldl_seq_invariant (mask_inner orders i)
             (fun _ masks => masks_in_range orders masks)).
    + apply or_at_in_range; [lia | lia | assumption].
    + intros j x Hj Hx. unfold mask_inner.
      destruct (can_combine _ _); [|assumption].
      apply or_at_in_range; [lia | lia |].
      apply or_at_in_range; [lia | lia | assumption].
Qed.

Lemma bits_above_lt_pow2 (z : Z) (n : nat) :
  0 <= z ->
  (forall b, (n <= b)%nat -> Z.testbit z (Z.of_nat b) = false) ->
  z < 2 ^ Z.of_nat n.
Proof.
  intros Hz Hbits.
  destruct (Z.lt_ge_cases z (2 ^ Z.of_nat n)) as [|Hge]; [assumption|exfalso].
  assert (Hpos : 0 < z) by (pose proof (Z.pow_pos_nonneg 2 (Z.of_nat n)); lia).
  pose proof (Z.bit_log2 z Hpos) as Hlog.
  assert (Hn : Z.of_nat n <= Z.log2 z) by (apply Z.log2_le_pow2; lia).
  rewrite <- (Z2Nat.id (Z.log2 z)) in Hlog by lia.
  rewrite Hbits in Hlog by lia. discriminate.
Qed.

(** X1. The masks list has one row per order; every row has its own bit
    set, the rows are symmetric (bit [j] of row [i] is bit [i] of row [j]),
    and for two different orders the bit is the verdict of the three
    checks. *)
Theorem compatibility_masks_relation (orders : list Order) :
  let masks := _build_compatibility_masks orders in
  length masks = length orders
  /\ forall i j, (i < length orders)%nat -> (j < length orders)%nat ->
       Z.testbit (masks !!! i) (Z.of_nat i) = true
       /\ Z.testbit (masks !!! i) (Z.of_nat j) = Z.testbit (masks !!! j) (Z.of_nat i)
       /\ (i <> j ->
           Z.testbit (masks !!! i) (Z.of_nat j)
           = can_combine (orders !!! i) (orders !!! j)).
Proof.
  cbv zeta. split; [apply build_masks_length|].
  intros i j Hi Hj. rewrite !build_masks_testbit by assumption.
  split; [|split].
  - unfold compatible. now rewrite bool_decide_eq_true_2.
  - apply compatible_sym.
  - intros Hne. unfold compatible. now rewrite bool_decide_eq_false_2.
Qed.

(** X2. Every row of the masks is a set of order indices and nothing else:
    a non-negative integer below [2 ^ n], with no bit at or above [n]. *)
Theorem compatibility_masks_range (orders : list Order) (i : nat) :
  (i < length orders)%nat ->
  0 <= _build_compatibility_masks orders !!! i < 2 ^ Z.of_nat (length orders)
  /\ forall b, (length orders <= b)%nat ->
       Z.testbit (_build_compatibility_masks orders !!! i) (Z.of_nat b) = false.
Proof.
  intros Hi. destruct (build_masks_in_range orders) as [_ Hrows].
  destruct (Hrows i Hi) as [Hpos Hhigh].
  split; [|exact Hhigh]. split; [exact Hpos|].
  now apply bits_above_lt_pow2.
Qed.

Lemma compatibility_masks_range_witness :
  (1 < length sample_orders)%nat
  /\ 0 <= _build_compatibility_masks sample_orders !!! 1%nat
        < 2 ^ Z.of_nat (length sample_orders).
Proof.
  assert (H : (1 < length sample_orders)%nat) by (simpl; lia).
  split; [exact H|].
  exact (proj1 (compatibility_masks_range sample_orders 1 H)).
Defined.

(** ** The three checks as relations on orders *)

(** X3. The route check and the hazmat check are equivalence relations on
    orders: reflexive, symmetric and transitive. *)
Theorem route_and_hazmat_equivalences :
  (forall o, _check_same_route o o = true /\ _check_hazmat_ok o o = true)
  /\ (forall o1 o2,
        _check_same_route o1 o2 = _check_same_route o2 o1
        /\ _check_hazmat_ok o1 o2 = _check_hazmat_ok o2 o1)
  /\ (forall o1 o2 o3,
        (_check_same_route o1 o2 = true -> _check_same_route o2 o3 = true ->
         _check_same_route o1 o3 = true)
        /\ (_check_hazmat_ok o1 o2 = true -> _check_hazmat_ok o2 o3 = true ->
            _check_hazmat_ok o1 o3 = true)).
Proof.
  unfold _check_same_route, _check_hazmat_ok. split; [|split].
  - intros o. now rewrite !str_eqb_refl, Bool.eqb_reflx.
  - intros o1 o2. split.
    + now rewrite (str_eqb_sym (normalized (origin o1))),
                  (str_eqb_sym (normalized (destination o1))).
    + destruct (is_hazmat o1), (is_hazmat o2); reflexivity.
  - intros o1 o2 o3. split.
    + rewrite !andb_true_iff, !str_eqb_eq. intros [-> ->] [-> ->]. auto.
    + rewrite !Bool.eqb_true_iff. congruence.
Qed.

(** X4. The time-window check is symmetric; an order overlaps itself
    exactly when its pickup is not after its delivery; two windows overlap
    exactly when each pickup is not after either delivery; and overlapping
    is not transitive: the first and the last of three orders may be apart
    although both overlap the middle one. *)
Theorem time_windows_relation :
  (forall o1 o2, _check_time_windows o1 o2 = _check_time_windows o2 o1)
  /\ (forall o, _check_time_windows o o = true
                <-> date_le (pickup_date o) (delivery_date o))
  /\ (forall o1 o2,
        _check_time_windows o1 o2 = true
        <-> date_le (pickup_date o1) (delivery_date o1)
            /\ date_le (pickup_date o1) (delivery_date o2)
            /\ date_le (pickup_date o2) (delivery_date o1)
            /\ date_le (pickup_date o2) (delivery_date o2))
  /\ (exists o1 o2 o3,
        _check_time_windows o1 o2 = true
        /\ _check_time_windows o2 o3 = true
        /\ _check_time_windows o1 o3 = false).
Proof.
  assert (Hfour : forall o1 o2,
            _check_time_windows o1 o2 = true
            <-> date_le (pickup_date o1) (delivery_date o1)
                /\ date_le (pickup_date o1) (delivery_date o2)
                /\ date_le (pickup_date o2) (delivery_date o1)
                /\ date_le (pickup_date o2) (delivery_date o2)).
  { intros o1 o2. unfold _check_time_windows.
    rewrite date_leb_le, py_max_upper, !py_min_lower. tauto. }
  split; [apply _check_time_windows_sym|]. split; [|split; [exact Hfour|]].
  - intros o. rewrite Hfour. tauto.
  - exists (mkOrder (text "a") 1 1 1 (text "x") (text "y") (mkDate 2025 12 1) (mkDate 2025 12 3) false),
           (mkOrder (text "b") 1 1 1 (text "x") (text "y") (mkDate 2025 12 2) (mkDate 2025 12 6) false),
           (mkOrder (text "c") 1 1 1 (text "x") (text "y") (mkDate 2025 12 5) (mkDate 2025 12 7) false).
    repeat split; reflexivity.
Qed.

(** ** [strip] and the route check *)

(** X5. [strip] removes exactly the surrounding whitespace: the string is
    whitespace, then its stripped form, then whitespace; the stripped form
    neither starts nor ends with whitespace; padding a string with
    whitespace on either side does not change what [strip] returns; and so
    the route check does not see whitespace around an origin or a
    destination. *)
Theorem strip_surrounding_whitespace (s : str) :
  (exists l r, s = l ++ Py.strip s ++ r
               /\ all_space l = true /\ all_space r = true)
  /\ head_space (Py.strip s) = false
  /\ last_space (Py.strip s) = false
  /\ (forall l r, all_space l = true -> all_space r = true ->
                  Py.strip (l ++ s ++ r) = Py.strip s)
  /\ (forall l r o o' o2,
        all_space l = true -> all_space r = true ->
        (origin o = s /\ origin o' = l ++ s ++ r /\ destination o' = destination o
         \/ destination o = s /\ destination o' = l ++ s ++ r /\ origin o' = origin o) ->
        _check_same_route o' o2 = _check_same_route o o2
        /\ _check_same_route o2 o' = _check_same_route o2 o).
Proof.
  destruct (strip_split s) as (l & r & Hs & Hl & Hr & Hh & Hlast).
  split; [exists l, r; auto|]. split; [exact Hh|]. split; [exact Hlast|].
  split; [intros l' r'; apply strip_padding|].
  intros l' r' o o' o2 Hl' Hr' Hcase. unfold _check_same_route.
  destruct Hcase as [(Ho & Ho' & Hd)|(Hd & Hd' & Ho)].
  - rewrite Ho', Hd, Ho, (strip_padding l' s r' Hl' Hr'). auto.
  - rewrite Hd', Ho, Hd, (strip_padding l' s r' Hl' Hr'). auto.
Qed.

Lemma strip_surrounding_whitespace_witness :
  all_space (text " ") = true /\ all_space (text "  ") = true
  /\ Py.strip (text " " ++ text "Los Angeles, CA" ++ text "  ")
     = Py.strip (text "Los Angeles, CA").
Proof.
  assert (Hl : all_space (text " ") = true) by reflexivity.
  assert (Hr : all_space (text "  ") = true) by reflexivity.
  split; [exact Hl|]. split; [exact Hr|].
  destruct (strip_surrounding_whitespace (text "Los Angeles, CA")) as (_ & _ & _ & H & _).
  exact (H (text " ") (text "  ") Hl Hr).
Defined.

(** ** [lower] and the route check *)

(** Whitespace is neither cased nor case-ignorable, and lower-casing keeps it. *)
Lemma whitespace_table :
  forallb (fun c => stable c && negb (Unicode.is_case_ignorable c)
                    && negb (Unicode.is_cased c))
          (flat_map range_members Unicode.whitespace) = true.
Proof. vm_compute. reflexivity. Qed.

Lemma isspace_plain (c : N) :
  Py.isspace c = true ->
  stable c = true /\ Unicode.is_case_ignorable c = false /\ Unicode.is_cased c = false.
Proof.
  intros Hc. apply in_ranges_members in Hc.
  pose proof whitespace_table as H. rewrite forallb_forall in H.
  specialize (H c Hc). rewrite !andb_true_iff, !negb_true_iff in H. tauto.
Qed.

(** The lowercase of a code point is stable and holds no whitespace,
    unless the code point is whitespace itself. *)
Lemma lowercase_pairs_table :
  forallb (fun p => stable (snd p) && negb (Py.isspace (snd p)))
          Simple_Lowercase_Mapping = true.
Proof. vm_compute. reflexivity. Qed.

Lemma lowercase_mapping_chunk (c : N) :
  (c =? 0x3A3)%N = false ->
  lowercase_mapping c <> []
  /\ Forall (fun d => stable d = true) (lowercase_mapping c)
  /\ (Py.isspace c = false ->
      Forall (fun d => Py.isspace d = false) (lowercase_mapping c)).
Proof.
  intros Hsigma. unfold lowercase_mapping.
  destruct (c =? 0x130)%N eqn:Hdot.
  { split; [discriminate|]. split; [|intros _]; repeat constructor. }
  destruct (find (fun p => (fst p =? c)%N) Simple_Lowercase_Mapping) as [p|] eqn:Hp.
  - apply find_some in Hp as [Hin _].
    pose proof lowercase_pairs_table as H. rewrite forallb_forall in H.
    specialize (H p Hin). rewrite andb_true_iff, negb_true_iff in H.
    split; [discriminate|]. split; [|intros _]; repeat constructor; tauto.
  - split; [discriminate|]. split; [|intros Hc; repeat constructor; exact Hc].
    repeat constructor. unfold stable, lowercase_mapping.
    rewrite Hsigma, Hdot, Hp, N.eqb_refl. reflexivity.
Qed.

Lemma lowercase_from_cons (before : str) (c : N) (after : str) :
  lowercase_from before (c :: after)
  = chunk before c after ++ lowercase_from (before ++ [c]) after.
Proof. reflexivity. Qed.

Lemma chunk_spec (before : str) (c : N) (after : str) :
  chunk before c after <> []
  /\ Forall (fun d => stable d = true) (chunk before c after)
  /\ (Py.isspace c = false ->
      Forall (fun d => Py.isspace d = false) (chunk before c after)).
Proof.
  unfold chunk. destruct (c =? 0x3A3)%N eqn:Hsigma; [|now apply lowercase_mapping_chunk].
  split; [discriminate|].
  split; [|intros _]; destruct (sigma_is_final before after); repeat constructor.
Qed.

Lemma chunk_stable (before : str) (c : N) (after : str) :
  stable c = true -> chunk before c after = [c].
Proof.
  unfold stable, chunk. intros H. apply andb_true_iff in H as [Hs Hm].
  apply negb_true_iff in Hs. rewrite Hs.
  destruct (lowercase_mapping c) as [|d [|]]; try discriminate.
  apply N.eqb_eq in Hm. now subst.
Qed.

Lemma lowercase_from_stable (before s : str) :
  Forall (fun d => stable d = true) s -> lowercase_from before s = s.
Proof.
  intros Hs. revert before. induction Hs as [|c s Hc Hs IH]; intros before; [reflexivity|].
  rewrite lowercase_from_cons, (chunk_stable _ _ _ Hc), IH. reflexivity.
Qed.

Lemma lowercase_from_is_stable (before s : str) :
  Forall (fun d => stable d = true) (lowercase_from before s).
Proof.
  revert before. induction s as [|c s IH]; intros before; [constructor|].
  rewrite lowercase_from_cons. apply Forall_app. split; [apply chunk_spec | apply IH].
Qed.

Lemma all_space_Forall (s : str) : all_space s = true <-> Forall (fun c => Py.isspace c = true) s.
Proof.
  induction s as [|c s IH]; simpl; [split; auto|].
  rewrite <- isspace_whitespace, andb_true_iff, IH, Forall_cons. tauto.
Qed.

Lemma lowercase_from_spaces (before s : str) :
  all_space s = true -> lowercase_from before s = s.
Proof.
  intros Hs. apply lowercase_from_stable. apply all_space_Forall in Hs.
  eapply Forall_impl; [exact Hs|]. intros c Hc. now apply isspace_plain.
Qed.

(** Whitespace at the far end of the context does not change what a
    capital sigma becomes. *)
Lemma nearest_letter_app (s r : str) :
  nearest_letter (s ++ r)
  = match nearest_letter s with Some c => Some c | None => nearest_letter r end.
Proof.
  unfold nearest_letter. induction s as [|c s IH]; simpl; [reflexivity|].
  destruct (Unicode.is_case_ignorable c); simpl; [exact IH | reflexivity].
Qed.

Lemma nearest_letter_spaces (r : str) :
  all_space r = true ->
  match nearest_letter r with Some c => Unicode.is_cased c | None => false end = false.
Proof.
  destruct r as [|c r]; [reflexivity|]. simpl. intros H.
  apply andb_true_iff in H as [Hc _]. rewrite <- isspace_whitespace in Hc.
  destruct (isspace_plain c Hc) as (_ & Hi & Hcased).
  unfold nearest_letter. simpl. rewrite Hi. simpl. exact Hcased.
Qed.

Lemma all_space_rev (s : str) : all_space s = true -> all_space (rev s) = true.
Proof.
  rewrite !all_space_Forall. apply List.Forall_rev.
Qed.

Lemma sigma_is_final_padding (l before after r : str) :
  all_space l = true -> all_space r = true ->
  sigma_is_final (l ++ before) (after ++ r) = sigma_is_final before after.
Proof.
  intros Hl Hr. unfold sigma_is_final.
  rewrite rev_app_distr, !nearest_letter_app.
  pose proof (nearest_letter_spaces (rev l) (all_space_rev l Hl)) as Hrl.
  pose proof (nearest_letter_spaces r Hr) as Hrr.
  f_equal.
  - destruct (nearest_letter (rev before)); [reflexivity|].
    destruct (nearest_letter (rev l)); exact Hrl.
  - destruct (nearest_letter after); [reflexivity|].
    destruct (nearest_letter r); [now rewrite Hrr | reflexivity].
Qed.

Lemma lowercase_from_padding (l before s r : str) :
  all_space l = true -> all_space r = true ->
  lowercase_from (l ++ before) (s ++ r) = lowercase_from before s ++ r.
Proof.
  intros Hl Hr. revert before. induction s as [|c s IH]; intros before.
  - simpl. now apply lowercase_from_spaces.
  - rewrite <- app_comm_cons, !lowercase_from_cons.
    rewrite <- (app_assoc l before [c]), IH, <- (app_assoc (chunk before c s)).
    f_equal. unfold chunk. destruct (c =? 0x3A3)%N; [|reflexivity].
    now rewrite sigma_is_final_padding.
Qed.

Lemma lowercase_from_spaces_app (before l s : str) :
  all_space l = true ->
  lowercase_from before (l ++ s) = l ++ lowercase_from (before ++ l) s.
Proof.
  revert before. induction l as [|c l IH]; intros before Hl.
  - now rewrite app_nil_r.
  - simpl in Hl. apply andb_true_iff in Hl as [Hc Hl].
    rewrite <- isspace_whitespace in Hc.
    rewrite <- app_comm_cons, lowercase_from_cons.
    rewrite (chunk_stable _ _ _ (proj1 (isspace_plain c Hc))).
    rewrite (IH _ Hl), <- app_assoc. reflexivity.
Qed.

(** Lower-casing leaves the surrounding whitespace alone. *)
Lemma lowercase_padding (l s r : str) :
  all_space l = true -> all_space r = true ->
  lowercase (l ++ s ++ r) = l ++ lowercase s ++ r.
Proof.
  intros Hl Hr. unfold lowercase.
  rewrite (lowercase_from_spaces_app [] l _ Hl). simpl. f_equal.
  rewrite <- (app_nil_r l) at 1. now apply lowercase_from_padding.
Qed.

Lemma head_space_app (x y : str) :
  x <> [] -> head_space (x ++ y) = head_space x.
Proof. destruct x; [congruence | reflexivity]. Qed.

Lemma last_space_app (x y : str) :
  y <> [] -> last_space (x ++ y) = last_space y.
Proof.
  intros Hy. induction x as [|c x IH]; [reflexivity|].
  simpl. destruct (x ++ y) eqn:Hxy; [|exact IH].
  apply app_eq_nil in Hxy as [_ ->]. congruence.
Qed.

Lemma lowercase_from_nil (before s : str) : lowercase_from before s = [] -> s = [].
Proof.
  destruct s as [|c s]; [reflexivity|]. rewrite lowercase_from_cons. intros H.
  apply app_eq_nil in H as [H _]. now destruct (chunk_spec before c s) as [Hne _].
Qed.

Lemma lowercase_from_head (before s : str) :
  head_space s = false -> head_space (lowercase_from before s) = false.
Proof.
  destruct s as [|c s]; [reflexivity|]. intros Hc.
  simpl in Hc. rewrite <- isspace_whitespace in Hc. rewrite lowercase_from_cons.
  destruct (chunk_spec before c s) as (Hne & _ & Hsp). specialize (Hsp Hc).
  rewrite head_space_app by exact Hne.
  destruct (chunk before c s) as [|d ch]; [congruence|].
  simpl. rewrite <- isspace_whitespace. now apply Forall_cons in Hsp as [Hd _].
Qed.

Lemma last_space_Forall (s : str) :
  Forall (fun d => Py.isspace d = false) s -> last_space s = false.
Proof.
  induction 1 as [|c s Hc Hs IH]; [reflexivity|].
  simpl. destruct s; [now rewrite <- isspace_whitespace | exact IH].
Qed.

Lemma lowercase_from_last (before s : str) :
  last_space s = false -> last_space (lowercase_from before s) = false.
Proof.
  revert before. induction s as [|c s IH]; intros before; [reflexivity|].
  rewrite lowercase_from_cons. destruct s as [|c' s'].
  - simpl. rewrite <- isspace_whitespace. intros Hc. rewrite app_nil_r.
    apply last_space_Forall. now apply chunk_spec.
  - intros H. rewrite last_space_app.
    + apply IH. exact H.
    + intros Hnil. apply lowercase_from_nil in Hnil. discriminate.
Qed.

Lemma lower_strip_commute (s : str) : Py.lower (Py.strip s) = Py.strip (Py.lower s).
Proof.
  rewrite !lower_lowercase.
  destruct (strip_split s) as (l & r & Hs & Hl & Hr & Hh & Hlast).
  remember (Py.strip s) as t eqn:Ht. clear Ht.
  rewrite Hs, (lowercase_padding l t r Hl Hr), (strip_padding _ _ _ Hl Hr).
  unfold Py.strip, lowercase.
  rewrite (lstrip_fixed _ (lowercase_from_head [] t Hh)).
  symmetry. apply rstrip_fixed, lowercase_from_last, Hlast.
Qed.

Lemma strip_idempotent (s : str) : Py.strip (Py.strip s) = Py.strip s.
Proof.
  destruct (strip_split s) as (_ & _ & _ & _ & _ & Hh & Hl).
  unfold Py.strip at 1. rewrite (lstrip_fixed _ Hh). now apply rstrip_fixed.
Qed.

Lemma lower_idempotent (s : str) : Py.lower (Py.lower s) = Py.lower s.
Proof.
  rewrite !lower_lowercase. unfold lowercase.
  apply lowercase_from_stable, lowercase_from_is_stable.
Qed.

Lemma normalized_idempotent (s : str) : normalized (normalized s) = normalized s.
Proof.
  unfold normalized.
  now rewrite <- lower_strip_commute, strip_idempotent, lower_idempotent.
Qed.

(** X6. Normalizing a route string is stable: [strip] and [lower] commute,
    each is idempotent, and so is their composition; hence the route check
    gives the same answers for an order and for the order with its origin
    and destination normalized. *)
Theorem normalization_idempotent :
  (forall s, Py.lower (Py.strip s) = Py.strip (Py.lower s))
  /\ (forall s, Py.strip (Py.strip s) = Py.strip s)
  /\ (forall s, Py.lower (Py.lower s) = Py.lower s)
  /\ (forall s, normalized (normalized s) = normalized s)
  /\ (forall o o' o2,
        origin o' = normalized (origin o) ->
        destination o' = normalized (destination o) ->
        _check_same_route o' o2 = _check_same_route o o2
        /\ _check_same_route o2 o' = _check_same_route o2 o).
Proof.
  split; [exact lower_strip_commute|]. split; [exact strip_idempotent|].
  split; [exact lower_idempotent|]. split; [exact normalized_idempotent|].
  intros o o' o2 Ho Hd. unfold _check_same_route.
  fold (normalized (origin o')) (normalized (destination o'))
       (normalized (origin o)) (normalized (destination o)).
  rewrite Ho, Hd, !normalized_idempotent. auto.
Qed.

Lemma normalization_idempotent_witness :
  origin sample_normalized = normalized (origin sample_padded)
  /\ destination sample_normalized = normalized (destination sample_padded)
  /\ _check_same_route sample_normalized sample_extra
     = _check_same_route sample_padded sample_extra.
Proof.
  assert (Ho : origin sample_normalized = normalized (origin sample_padded))
    by (vm_compute; reflexivity).
  assert (Hd : destination sample_normalized = normalized (destination sample_padded))
    by (vm_compute; reflexivity).
  split; [exact Ho|]. split; [exact Hd|].
  destruct normalization_idempotent as (_ & _ & _ & _ & H).
  exact (proj1 (H sample_padded sample_normalized sample_extra Ho Hd)).
Defined.

(** ** The returned selection *)

(** X7. The load returned is uniform: any two selected orders have the same
    hazmat flag, the same normalized origin and the same normalized
    destination; and when every order has its pickup on or before its
    delivery, every selected pickup is on or before every selected
    delivery, so the selected windows share a day. *)
Theorem selection_uniform (truck : Truck) (orders : list Order) :
  exists sel p w v,
    selection truck orders = Some sel
    /\ optimize truck orders = Some (map (fun i => order_id (orders !!! i)) sel, p, w, v)
    /\ (forall a b, a ∈ sel -> b ∈ sel ->
          is_hazmat (orders !!! a) = is_hazmat (orders !!! b)
          /\ normalized (origin (orders !!! a)) = normalized (origin (orders !!! b))
          /\ normalized (destination (orders !!! a))
             = normalized (destination (orders !!! b)))
    /\ (dates_in_order orders ->
        forall a b, a ∈ sel -> b ∈ sel ->
          date_le (pickup_date (orders !!! a)) (delivery_date (orders !!! b))).
Proof.
  destruct (optimize_spec truck orders) as (sel & Hsel & Hopt & Hgood & _).
  apply good_selection_candidate in Hgood as ([_ Hlt] & _ & Hpair & _).
  exists sel. eexists _, _, _. split; [exact Hsel|]. split; [exact Hopt|]. split.
  - intros a b Ha Hb. destruct (decide (a = b)) as [->|Hne]; [repeat split|].
    destruct (Hpair a b Ha Hb Hne) as (Hroute & _ & Hhaz).
    unfold _check_same_route in Hroute. unfold _check_hazmat_ok in Hhaz.
    apply andb_true_iff in Hroute as [Ho Hd].
    apply str_eqb_eq in Ho, Hd. apply (proj1 (Bool.eqb_true_iff _ _)) in Hhaz.
    split; [exact Hhaz|]. split; [exact Ho | exact Hd].
  - intros Hdates a b Ha Hb. destruct (decide (a = b)) as [->|Hne].
    + unfold dates_in_order in Hdates. rewrite Forall_forall in Hdates.
      apply Hdates, list_elem_of_lookup_total_2, Hlt, Hb.
    + destruct (Hpair a b Ha Hb Hne) as (_ & Htw & _).
      unfold _check_time_windows in Htw.
      rewrite date_leb_le, py_max_upper, !py_min_lower in Htw. tauto.
Qed.

Lemma sample_dates_in_order : dates_in_order sample_orders.
Proof.
  unfold dates_in_order, sample_orders, date_le.
  repeat constructor; simpl; lia.
Defined.

Lemma selection_uniform_witness :
  dates_in_order sample_orders
  /\ exists sel,
       selection sample_truck sample_orders = Some sel
       /\ forall a b, a ∈ sel -> b ∈ sel ->
            date_le (pickup_date (sample_orders !!! a))
                    (delivery_date (sample_orders !!! b)).
Proof.
  split; [exact sample_dates_in_order|].
  destruct (selection_uniform sample_truck sample_orders)
    as (sel & p & w & v & Hsel & _ & _ & Hdates).
  exists sel. split; [exact Hsel | exact (Hdates sample_dates_in_order)].
Defined.

Lemma member_le_sum (f : nat -> Z) (l : list nat) (i : nat) :
  (forall k, k ∈ l -> 0 <= f k) -> i ∈ l -> f i <= sumZ (map f l).
Proof.
  induction l as [|x l IH]; intros Hpos Hi; [inversion Hi|].
  unfold sumZ in *. simpl.
  assert (Hrest : 0 <= foldr Z.add 0 (map f l)).
  { apply (sumZ_nonneg (map f l)), Forall_forall. intros y Hy.
    apply list_elem_of_In, in_map_iff in Hy as (k & <- & Hk).
    apply Hpos, elem_of_cons. right. now apply list_elem_of_In. }
  apply elem_of_cons in Hi as [->|Hi].
  - lia.
  - assert (f i <= foldr Z.add 0 (map f l)).
    { apply IH; [|assumption]. intros k Hk. apply Hpos, elem_of_cons. now right. }
    specialize (Hpos x ltac:(apply elem_of_cons; now left)). lia.
Qed.

(** X8. An order that alone is heavier than [max_weight_lbs] or bulkier than
    [max_volume_cuft] is never selected (orders within their contract,
    whatever the capacities). *)
Theorem oversized_order_never_selected (truck : Truck) (orders : list Order) :
  Forall valid_order orders ->
  exists sel p w v,
    selection truck orders = Some sel
    /\ optimize truck orders = Some (map (fun i => order_id (orders !!! i)) sel, p, w, v)
    /\ forall i, i ∈ sel ->
         weight_lbs (orders !!! i) <= max_weight_lbs truck
         /\ volume_cuft (orders !!! i) <= max_volume_cuft truck.
Proof.
  intros Hvalid.
  destruct (optimize_spec truck orders) as (sel & Hsel & Hopt & Hgood & _).
  apply good_selection_candidate in Hgood as ([_ Hlt] & Hfeas & _).
  exists sel. eexists _, _, _. split; [exact Hsel|]. split; [exact Hopt|].
  intros i Hi. destruct Hfeas as [->|[Hw Hv]]; [inversion Hi|].
  split.
  - etransitivity; [|exact Hw].
    apply (member_le_sum (fun k => weight_lbs (orders !!! k))); [|assumption].
    intros k Hk. destruct (valid_order_lookup orders k Hvalid (Hlt k Hk)). lia.
  - etransitivity; [|exact Hv].
    apply (member_le_sum (fun k => volume_cuft (orders !!! k))); [|assumption].
    intros k Hk. destruct (valid_order_lookup orders k Hvalid (Hlt k Hk)). lia.
Qed.

Lemma oversized_order_never_selected_witness :
  Forall valid_order sample_orders
  /\ exists sel,
       selection sample_truck sample_orders = Some sel
       /\ forall i, i ∈ sel ->
            weight_lbs (sample_orders !!! i) <= max_weight_lbs sample_truck
            /\ volume_cuft (sample_orders !!! i) <= max_volume_cuft sample_truck.
Proof.
  assert (Hvalid : Forall valid_order sample_orders) by apply sample_preconditions.
  split; [exact Hvalid|].
  destruct (oversized_order_never_selected sample_truck sample_orders Hvalid)
    as (sel & p & w & v & Hsel & _ & H).
  exists sel. split; [exact Hsel | exact H].
Defined.

Lemma utilization_zero_total (capacity : Z) :
  exists u, utilization 0 capacity = Ok u /\ round2 u = zero.
Proof.
  unfold utilization. destruct (Z.ltb_spec 0 capacity) as [Hc|Hc].
  - rewrite int_truediv_zero by assumption. simpl. eauto.
  - eauto.
Qed.

(** X9. With orders within their contract, a truck whose weight or volume
    capacity is not positive gets the empty load: no identifier, the three
    totals zero and both utilization percentages [0.0], returned normally. *)
Theorem nonpositive_capacity_empty_load (truck : Truck) (orders : list Order) :
  Forall valid_order orders ->
  max_weight_lbs truck <= 0 \/ max_volume_cuft truck <= 0 ->
  optimize truck orders = Some ([], 0, 0, 0)
  /\ optimize_load truck orders
     = Some (Ok (mkResponse (truck_id truck) [] 0 0 0 zero zero)).
Proof.
  intros Hvalid Hcap.
  destruct (optimize_spec truck orders) as (sel & _ & Hopt & Hgood & _).
  apply good_selection_candidate in Hgood as ([_ Hlt] & Hfeas & _).
  assert (Hnil : sel = []).
  { destruct Hfeas as [H|[Hw Hv]]; [exact H|].
    destruct sel as [|i sel]; [reflexivity|exfalso].
    assert (Hi : i ∈ i :: sel) by (apply elem_of_cons; now left).
    destruct (valid_order_lookup orders i Hvalid (Hlt i Hi)) as (_ & Hwi & Hvi).
    assert (Hnonneg : forall (f : Order -> Z), (forall o, valid_order o -> 0 <= f o) ->
              forall k, k ∈ i :: sel -> 0 <= f (orders !!! k)).
    { intros f Hf k Hk. apply Hf, valid_order_lookup; auto. }
    pose proof (member_le_sum (fun k => weight_lbs (orders !!! k)) (i :: sel) i
                  (Hnonneg weight_lbs ltac:(intros o (_ & H & _); lia)) Hi) as Hwle.
    pose proof (member_le_sum (fun k => volume_cuft (orders !!! k)) (i :: sel) i
                  (Hnonneg volume_cuft ltac:(intros o (_ & _ & H); lia)) Hi) as Hvle.
    unfold subset_weight in Hw. unfold subset_volume in Hv.
    cbv beta in Hwle, Hvle. lia. }
  subst sel. split; [exact Hopt|].
  rewrite (optimize_load_unfold _ _ _ _ _ _ Hopt).
  change (subset_weight orders []) with 0. change (subset_volume orders []) with 0.
  destruct (utilization_zero_total (max_weight_lbs truck)) as (uw & -> & Hw).
  destruct (utilization_zero_total (max_volume_cuft truck)) as (uv & -> & Hv).
  simpl. now rewrite Hw, Hv.
Qed.

Lemma nonpositive_capacity_empty_load_witness :
  Forall valid_order sample_orders
  /\ (max_weight_lbs (mkTruck (text "t") 0 3000) <= 0 \/ max_volume_cuft (mkTruck (text "t") 0 3000) <= 0)
  /\ optimize (mkTruck (text "t") 0 3000) sample_orders = Some ([], 0, 0, 0)
  /\ optimize_load (mkTruck (text "t") 0 3000) sample_orders
     = Some (Ok (mkResponse (text "t") [] 0 0 0 zero zero)).
Proof.
  assert (Hvalid : Forall valid_order sample_orders) by apply sample_preconditions.
  assert (Hcap : max_weight_lbs (mkTruck (text "t") 0 3000) <= 0
                 \/ max_volume_cuft (mkTruck (text "t") 0 3000) <= 0) by (left; simpl; lia).
  split; [exact Hvalid|]. split; [exact Hcap|].
  exact (nonpositive_capacity_empty_load (mkTruck (text "t") 0 3000) sample_orders Hvalid Hcap).
Defined.

Lemma sumZ_pos (f : nat -> Z) (l : list nat) :
  (forall k, k ∈ l -> 0 < f k) -> l <> [] -> 0 < sumZ (map f l).
Proof.
  intros Hpos Hne. destruct l as [|x l]; [congruence|].
  unfold sumZ. simpl.
  assert (Hrest : 0 <= sumZ (map f l)).
  { apply sumZ_nonneg, Forall_forall. intros y Hy.
    apply list_elem_of_In, in_map_iff in Hy as (k & <- & Hk).
    apply list_elem_of_In in Hk.
    specialize (Hpos k ltac:(apply elem_of_cons; now right)). lia. }
  specialize (Hpos x ltac:(apply elem_of_cons; now left)).
  unfold sumZ in Hrest. lia.
Qed.

Lemma map_lookup_total_seq (l : list Z) :
  map (fun i => l !!! i) (seq 0 (length l)) = l.
Proof.
  apply list_eq. intros i.
  change (map (fun i => l !!! i) (seq 0 (length l))) with
    ((fun i => l !!! i) <$> seq 0 (length l)).
  rewrite list_lookup_fmap.
  destruct (Nat.lt_ge_cases i (length l)) as [Hi|Hi].
  - rewrite lookup_seq_lt by assumption. simpl.
    now rewrite (list_lookup_lookup_total_lt l i Hi).
  - rewrite lookup_seq_ge by assumption. simpl.
    symmetry. now apply lookup_ge_None.
Qed.

(** Payout of the whole request. *)
Lemma rest_payout_all (orders : list Order) :
  rest_payout orders 0 = sumZ (map payout_cents orders).
Proof.
  unfold rest_payout. rewrite drop_0.
  rewrite (sumZ_perm _ (map (fun k => payouts_of orders !!! k) (seq 0 (length orders)))).
  - replace (length orders) with (length (payouts_of orders))
      by (unfold payouts_of; apply length_map).
    now rewrite map_lookup_total_seq.
  - apply Permutation_map, order_by_value_perm.
Qed.

(** X10. The total payout returned is never negative; it is zero exactly
    when nothing is selected; and when no payout is negative it is at most
    the payout of the whole request. *)
Theorem payout_zero_iff_empty (truck : Truck) (orders : list Order) :
  exists ids p w v,
    optimize truck orders = Some (ids, p, w, v)
    /\ 0 <= p
    /\ (p = 0 <-> ids = [])
    /\ (Forall (fun o => 0 <= payout_cents o) orders ->
        p <= sumZ (map payout_cents orders)).
Proof.
  destruct (optimize_spec truck orders) as (sel & _ & Hopt & Hgood & _).
  pose proof Hgood as (_ & _ & _ & Hsub).
  apply good_selection_candidate in Hgood as ([_ Hlt] & _ & _ & Hpos & _).
  eexists _, _, _, _. split; [exact Hopt|].
  destruct sel as [|i sel].
  - split; [reflexivity|]. split; [split; reflexivity|].
    intros Hnonneg. apply (sumZ_nonneg (map payout_cents orders)).
    now apply Forall_map.
  - pose proof (sumZ_pos (fun k => payout_cents (orders !!! k)) (i :: sel) Hpos
                  ltac:(discriminate)) as Hp.
    fold (subset_payout orders (i :: sel)) in Hp.
    split; [lia|]. split; [split; [lia | discriminate]|].
    intros Hnonneg. rewrite <- rest_payout_all.
    rewrite <- (suffix_payout_lookup orders 0) by lia.
    destruct (sel_totals_subset orders (i :: sel) Hlt) as (<- & _ & _).
    apply suffix_payout_upper_bound; [assumption | lia |].
    now rewrite drop_0.
Qed.

Lemma payout_zero_iff_empty_witness :
  Forall (fun o => 0 <= payout_cents o) sample_orders
  /\ exists ids p w v,
       optimize sample_truck sample_orders = Some (ids, p, w, v)
       /\ p <= sumZ (map payout_cents sample_orders).
Proof.
  assert (Hn : Forall (fun o => 0 <= payout_cents o) sample_orders).
  { unfold sample_orders. repeat constructor; simpl; lia. }
  split; [exact Hn|].
  destruct (payout_zero_iff_empty sample_truck sample_orders)
    as (ids & p & w & v & Hopt & _ & _ & H).
  exists ids, p, w, v. split; [exact Hopt | exact (H Hn)].
Defined.

Lemma sublist_into_filter {A : Type} (P : A -> Prop) `{!forall x, Decision (P x)}
    (l1 l2 : list A) :
  sublist l1 l2 -> Forall P l1 -> sublist l1 (filter P l2).
Proof.
  induction 1 as [|x l1 l2 Hsub IH|x l1 l2 Hsub IH]; intros Hall.
  - constructor.
  - inversion Hall; subst. rewrite filter_cons_True by assumption.
    constructor. now apply IH.
  - rewrite filter_cons. destruct (decide (P x)); [constructor|]; now apply IH.
Qed.

Lemma sublist_sum_eq (f : nat -> Z) (l1 l2 : list nat) :
  sublist l1 l2 -> (forall k, k ∈ l2 -> 0 < f k) ->
  sumZ (map f l2) <= sumZ (map f l1) -> l1 = l2.
Proof.
  induction 1 as [|x l1 l2 Hsub IH|x l1 l2 Hsub IH]; intros Hpos Hsum.
  - reflexivity.
  - f_equal. apply IH.
    + intros k Hk. apply Hpos, elem_of_cons. now right.
    + unfold sumZ in *. simpl in Hsum. lia.
  - exfalso.
    assert (Hle : sumZ (map f l1) <= sumZ (map f l2)).
    { apply sumZ_sublist; [|now apply sublist_map].
      apply Forall_forall. intros y Hy.
      apply list_elem_of_In, in_map_iff in Hy as (k & <- & Hk).
      apply list_elem_of_In in Hk.
      specialize (Hpos k ltac:(apply elem_of_cons; now right)). lia. }
    specialize (Hpos x ltac:(apply elem_of_cons; now left)).
    unfold sumZ in *. simpl in Hsum. lia.
Qed.

(** X11. When the whole request fits in the truck and every two orders can
    be combined, the optimizer takes exactly the orders with a positive
    payout, in search order. *)
Theorem compatible_request_fully_loaded (truck : Truck) (orders : list Order) :
  preconditions truck orders ->
  feasible truck orders (seq 0 (length orders)) ->
  pairwise_can_combine orders (seq 0 (length orders)) ->
  selection truck orders = Some (paying_orders orders)
  /\ optimize truck orders
     = Some (map (fun i => order_id (orders !!! i)) (paying_orders orders),
             subset_payout orders (paying_orders orders),
             subset_weight orders (paying_orders orders),
             subset_volume orders (paying_orders orders)).
Proof.
  intros (Hmw & Hmv & Hvalid) [Hw Hv] Hpair.
  destruct (optimize_spec truck orders) as (sel & Hsel & Hopt & Hgood & Hbest).
  apply good_selection_candidate in Hgood as ([_ Hlt] & _ & _ & Hpos & Hsub).
  assert (Hin : forall i, i ∈ paying_orders orders -> (i < length orders)%nat).
  { intros i Hi. apply list_elem_of_filter in Hi as [_ Hi].
    now apply order_by_value_elem. }
  assert (Hall : Permutation (order_by_value orders) (seq 0 (length orders)))
    by apply order_by_value_perm.
  assert (Hnonneg : forall (f : Order -> Z), (forall o, valid_order o -> 0 <= f o) ->
            Forall (fun x => 0 <= x) (map (fun i => f (orders !!! i)) (order_by_value orders))).
  { intros f Hf. apply Forall_forall. intros y Hy.
    apply list_elem_of_In, in_map_iff in Hy as (k & <- & Hk).
    apply list_elem_of_In, order_by_value_elem in Hk.
    now apply Hf, valid_order_lookup. }
  assert (Hcand : subset_payout orders (paying_orders orders) <= subset_payout orders sel).
  { apply (Hbest Hvalid).
    - split; [apply NoDup_filter, order_by_value_NoDup | exact Hin].
    - split.
      + etransitivity; [|exact Hw]. unfold subset_weight.
        rewrite <- (sumZ_perm _ _ (Permutation_map _ Hall)).
        apply sumZ_sublist; [apply Hnonneg; intros o (_ & H & _); lia|].
        apply sublist_map, sublist_filter.
      + etransitivity; [|exact Hv]. unfold subset_volume.
        rewrite <- (sumZ_perm _ _ (Permutation_map _ Hall)).
        apply sumZ_sublist; [apply Hnonneg; intros o (_ & _ & H); lia|].
        apply sublist_map, sublist_filter.
    - intros a b Ha Hb. apply Hpair; apply list_elem_of_In, in_seq;
        [specialize (Hin a Ha) | specialize (Hin b Hb)]; lia. }
  assert (Heq : sel = paying_orders orders).
  { apply (sublist_sum_eq (fun i => payout_cents (orders !!! i))).
    - apply sublist_into_filter; [exact Hsub|]. now apply Forall_forall.
    - intros k Hk. now apply list_elem_of_filter in Hk as [Hk _].
    - exact Hcand. }
  subst sel. split; assumption.
Qed.

Lemma compatible_request_fully_loaded_witness :
  preconditions sample_truck (take 2 sample_orders)
  /\ feasible sample_truck (take 2 sample_orders) (seq 0 (length (take 2 sample_orders)))
  /\ pairwise_can_combine (take 2 sample_orders) (seq 0 (length (take 2 sample_orders)))
  /\ selection sample_truck (take 2 sample_orders)
     = Some (paying_orders (take 2 sample_orders)).
Proof.
  assert (Hpre : preconditions sample_truck (take 2 sample_orders)).
  { unfold preconditions, valid_order. simpl. repeat split; try lia.
    repeat constructor; simpl; lia. }
  assert (Hfeas : feasible sample_truck (take 2 sample_orders)
                    (seq 0 (length (take 2 sample_orders)))).
  { unfold feasible. vm_compute. split; discriminate. }
  assert (Hpair : pairwise_can_combine (take 2 sample_orders)
                    (seq 0 (length (take 2 sample_orders)))).
  { intros a b Ha Hb Hne. apply list_elem_of_In, in_seq in Ha, Hb. simpl in Ha, Hb.
    destruct a as [|[|a]], b as [|[|b]]; try lia; repeat split; reflexivity. }
  split; [exact Hpre|]. split; [exact Hfeas|]. split; [exact Hpair|].
  exact (proj1 (compatible_request_fully_loaded sample_truck (take 2 sample_orders)
                  Hpre Hfeas Hpair)).
Defined.

Lemma StronglySorted_sublist {A : Type} (R : A -> A -> Prop) (l1 l2 : list A) :
  sublist l1 l2 -> StronglySorted R l2 -> StronglySorted R l1.
Proof.
  induction 1 as [|x l1 l2 Hsub IH|x l1 l2 Hsub IH]; intros Hs.
  - constructor.
  - inversion Hs as [|? ? Hs' Hx]; subst. constructor; [now apply IH|].
    rewrite Forall_forall in Hx |- *. intros y Hy.
    apply Hx. now apply (sublist_subseteq _ _ Hsub).
  - inversion Hs; subst. now apply IH.
Qed.

(** X13. [selected_order_ids] is listed from the most to the least valuable
    order: along the selection the payout never increases, and orders of
    equal payout come in input order. *)
Theorem selection_by_descending_payout (truck : Truck) (orders : list Order) :
  exists sel p w v,
    selection truck orders = Some sel
    /\ optimize truck orders = Some (map (fun i => order_id (orders !!! i)) sel, p, w, v)
    /\ forall i j, (i < j < length sel)%nat ->
         payout_cents (orders !!! (sel !!! j)) < payout_cents (orders !!! (sel !!! i))
         \/ (payout_cents (orders !!! (sel !!! i)) = payout_cents (orders !!! (sel !!! j))
             /\ (sel !!! i < sel !!! j)%nat).
Proof.
  destruct (optimize_spec truck orders) as (sel & Hsel & Hopt & Hgood & _).
  apply good_selection_candidate in Hgood as ([_ Hlt] & _ & _ & _ & Hsub).
  exists sel. eexists _, _, _. split; [exact Hsel|]. split; [exact Hopt|].
  intros i j Hij.
  pose proof (StronglySorted_sublist _ _ _ Hsub (order_by_value_sorted orders)) as Hs.
  pose proof (StronglySorted_lookup _ _ i j Hs Hij) as Hb. unfold before in Hb.
  rewrite !payouts_lookup in Hb
    by (apply Hlt, list_elem_of_lookup_total_2; lia).
  exact Hb.
Qed.

Lemma selection_by_descending_payout_witness :
  selection sample_truck sample_orders = Some [0%nat; 1%nat]
  /\ (0 < 1 < length [0%nat; 1%nat])%nat
  /\ payout_cents (sample_orders !!! 1%nat) <= payout_cents (sample_orders !!! 0%nat).
Proof.
  assert (Hs : selection sample_truck sample_orders = Some [0%nat; 1%nat])
    by (vm_compute; reflexivity).
  assert (Hlen : (0 < 1 < length [0%nat; 1%nat])%nat) by (simpl; lia).
  split; [exact Hs|]. split; [exact Hlen|].
  destruct (selection_by_descending_payout sample_truck sample_orders)
    as (sel & p & w & v & Hsel & _ & H).
  rewrite Hs in Hsel. injection Hsel as <-.
  specialize (H 0%nat 1%nat Hlen). simpl in H. simpl. lia.
Defined.

(** ** The [search] closure on its own *)




(** ** How the optimum depends on the request *)

(** Candidate subsets move along a renumbering of the orders. *)
Lemma candidate_transport (truck : Truck) (orders orders' : list Order)
    (f : nat -> nat) (sel : list nat) :
  (forall i, (i < length orders)%nat ->
             (f i < length orders')%nat /\ orders' !!! f i = orders !!! i) ->
  (forall i j, (i < length orders)%nat -> (j < length orders)%nat ->
               f i = f j -> i = j) ->
  is_subset orders sel -> feasible truck orders sel -> pairwise_can_combine orders sel ->
  is_subset orders' (map f sel)
  /\ feasible truck orders' (map f sel)
  /\ pairwise_can_combine orders' (map f sel)
  /\ subset_payout orders' (map f sel) = subset_payout orders sel.
Proof.
  intros Hf Hinj [Hnd Hlt] [Hw Hv] Hpair.
  assert (Hsum : forall g : Order -> Z,
             map (fun i => g (orders' !!! i)) (map f sel)
             = map (fun i => g (orders !!! i)) sel).
  { intros g. rewrite map_map. apply map_ext_in.
    intros i Hi. apply list_elem_of_In, Hlt, Hf in Hi as [_ ->]. reflexivity. }
  split; [|split; [|split]].
  - split.
    + apply NoDup_fmap_2_strong; [|assumption].
      intros x y Hx Hy. apply Hinj; auto.
    + intros i Hi. apply list_elem_of_In, in_map_iff in Hi as (j & <- & Hj).
      apply list_elem_of_In, Hlt in Hj. now apply Hf.
  - unfold feasible, subset_weight, subset_volume. now rewrite !Hsum.
  - intros a b Ha Hb Hne.
    apply list_elem_of_In, in_map_iff in Ha as (a0 & <- & Ha).
    apply list_elem_of_In, in_map_iff in Hb as (b0 & <- & Hb).
    apply list_elem_of_In in Ha, Hb.
    destruct (Hf a0 (Hlt a0 Ha)) as [_ ->]. destruct (Hf b0 (Hlt b0 Hb)) as [_ ->].
    apply Hpair; [assumption | assumption | congruence].
  - unfold subset_payout. now rewrite Hsum.
Qed.

(** A permutation of a list is a renumbering of its positions. *)
Lemma Permutation_renumbering (l l' : list Order) :
  Permutation l l' ->
  exists f : nat -> nat,
    (forall i, (i < length l)%nat -> (f i < length l')%nat /\ l' !!! f i = l !!! i)
    /\ (forall i j, (i < length l)%nat -> (j < length l)%nat -> f i = f j -> i = j).
Proof.
  induction 1 as [|x l l' Hp (f & Hf & Hinj)|x y l|l l' l'' Hp1 (f & Hf & Hfi) Hp2 (g & Hg & Hgi)].
  - exists (fun i => i). split; [simpl; intros; lia | auto].
  - exists (fun i => match i with O => O | S k => S (f k) end). split.
    + intros [|i] Hi; simpl in *; [split; [lia | reflexivity]|].
      destruct (Hf i ltac:(lia)) as [Hlt Heq]. split; [lia | exact Heq].
    + intros [|i] [|j] Hi Hj Heq; simpl in *; try lia.
      f_equal. apply Hinj; lia.
  - exists (fun i => match i with O => 1%nat | S O => O | _ => i end). split.
    + intros [|[|i]] Hi; simpl in *; (split; [lia | reflexivity]).
    + intros [|[|i]] [|[|j]] Hi Hj Heq; simpl in *; lia.
  - exists (fun i => g (f i)). split.
    + intros i Hi. destruct (Hf i Hi) as [Hlt Heq].
      destruct (Hg (f i) Hlt) as [Hlt' Heq']. split; [exact Hlt' | congruence].
    + intros i j Hi Hj Heq.
      apply Hfi; [assumption | assumption |].
      apply Hgi; [apply Hf, Hi | apply Hf, Hj | exact Heq].
Qed.

(** X16. The total payout does not depend on the order in which the orders
    are listed: two requests that are permutations of each other get the
    same total payout (the selections may differ). *)
Theorem payout_independent_of_listing (truck : Truck) (orders orders' : list Order) :
  preconditions truck orders ->
  Permutation orders orders' ->
  exists ids p w v ids' w' v',
    optimize truck orders = Some (ids, p, w, v)
    /\ optimize truck orders' = Some (ids', p, w', v').
Proof.
  intros Hpre Hperm.
  assert (Hpre' : preconditions truck orders').
  { destruct Hpre as (Hmw & Hmv & Hall). repeat split; try assumption.
    now rewrite <- Hperm. }
  destruct (optimize_maximum truck orders Hpre)
    as (ids & p & w & v & Hopt & (sel & Hsub & Hfeas & Hpair & Hp) & Hbest).
  destruct (optimize_maximum truck orders' Hpre')
    as (ids' & p' & w' & v' & Hopt' & (sel' & Hsub' & Hfeas' & Hpair' & Hp') & Hbest').
  assert (Heq : p' = p).
  { destruct (Permutation_renumbering orders orders' Hperm) as (f & Hf & Hfi).
    destruct (Permutation_renumbering orders' orders (Permutation_sym Hperm))
      as (g & Hg & Hgi).
    destruct (candidate_transport truck orders orders' f sel Hf Hfi Hsub Hfeas Hpair)
      as (H1 & H2 & H3 & H4).
    destruct (candidate_transport truck orders' orders g sel' Hg Hgi Hsub' Hfeas' Hpair')
      as (H1' & H2' & H3' & H4').
    pose proof (Hbest' _ H1 H2 H3). pose proof (Hbest _ H1' H2' H3'). lia. }
  rewrite Heq in Hopt'.
  exists ids, p, w, v, ids', w', v'. split; [exact Hopt | exact Hopt'].
Qed.

Lemma payout_independent_of_listing_witness :
  preconditions sample_truck sample_orders
  /\ Permutation sample_orders (rev sample_orders)
  /\ exists ids p w v ids' w' v',
       optimize sample_truck sample_orders = Some (ids, p, w, v)
       /\ optimize sample_truck (rev sample_orders) = Some (ids', p, w', v').
Proof.
  assert (Hperm : Permutation sample_orders (rev sample_orders))
    by apply Permutation_rev.
  split; [exact sample_preconditions|]. split; [exact Hperm|].
  exact (payout_independent_of_listing sample_truck sample_orders (rev sample_orders)
           sample_preconditions Hperm).
Defined.

(** X15. Adding an order within its contract, at any position of the
    request, never lowers the total payout (no domination needed). *)
Theorem more_orders_never_pay_less (truck : Truck) (orders : list Order) (k : nat)
    (extra : Order) :
  preconditions truck orders ->
  valid_order extra ->
  (k <= length orders)%nat ->
  exists ids p w v ids' p' w' v',
    optimize truck orders = Some (ids, p, w, v)
    /\ optimize truck (insert_order orders k extra) = Some (ids', p', w', v')
    /\ p <= p'.
Proof.
  intros Hpre Hextra Hk.
  assert (Hpre' : preconditions truck (insert_order orders k extra)).
  { destruct Hpre as (Hmw & Hmv & Hall). repeat split; try assumption.
    unfold insert_order. apply Forall_app. split.
    - now apply Forall_take.
    - constructor; [assumption | now apply Forall_drop]. }
  destruct (optimize_maximum truck orders Hpre)
    as (ids & p & w & v & Hopt & (sel & Hsub & Hfeas & Hpair & Hp) & _).
  destruct (optimize_maximum truck _ Hpre')
    as (ids' & p' & w' & v' & Hopt' & _ & Hbest').
  exists ids, p, w, v, ids', p', w', v'. split; [exact Hopt|]. split; [exact Hopt'|].
  destruct (insert_order_candidate truck orders k extra sel Hk Hsub Hfeas Hpair)
    as (Hsub' & Hfeas' & Hpair' & Hp').
  rewrite <- Hp, <- Hp'. now apply Hbest'.
Qed.

Lemma more_orders_never_pay_less_witness :
  preconditions sample_truck (take 2 sample_orders)
  /\ valid_order (sample_orders !!! 2%nat)
  /\ (0 <= length (take 2 sample_orders))%nat
  /\ exists ids p w v ids' p' w' v',
       optimize sample_truck (take 2 sample_orders) = Some (ids, p, w, v)
       /\ optimize sample_truck
            (insert_order (take 2 sample_orders) 0 (sample_orders !!! 2%nat))
          = Some (ids', p', w', v')
       /\ p <= p'.
Proof.
  assert (Hpre : preconditions sample_truck (take 2 sample_orders)).
  { unfold preconditions, valid_order. simpl. repeat split; try lia.
    repeat constructor; simpl; lia. }
  assert (Hv : valid_order (sample_orders !!! 2%nat))
    by (unfold valid_order; simpl; lia).
  assert (Hk : (0 <= length (take 2 sample_orders))%nat) by (simpl; lia).
  split; [exact Hpre|]. split; [exact Hv|]. split; [exact Hk|].
  exact (more_orders_never_pay_less sample_truck (take 2 sample_orders) 0
           (sample_orders !!! 2%nat) Hpre Hv Hk).
Defined.

(** X14. A truck with at least the weight and the volume capacity of another
    gets at least its total payout for the same orders. *)
Theorem larger_truck_never_pays_less (truck truck' : Truck) (orders : list Order) :
  preconditions truck orders ->
  max_weight_lbs truck <= max_weight_lbs truck' ->
  max_volume_cuft truck <= max_volume_cuft truck' ->
  exists ids p w v ids' p' w' v',
    optimize truck orders = Some (ids, p, w, v)
    /\ optimize truck' orders = Some (ids', p', w', v')
    /\ p <= p'.
Proof.
  intros Hpre Hw Hv.
  assert (Hpre' : preconditions truck' orders).
  { destruct Hpre as (Hmw & Hmv & Hall). repeat split; try assumption; lia. }
  destruct (optimize_maximum truck orders Hpre)
    as (ids & p & w & v & Hopt & (sel & Hsub & [Hfw Hfv] & Hpair & Hp) & _).
  destruct (optimize_maximum truck' orders Hpre')
    as (ids' & p' & w' & v' & Hopt' & _ & Hbest').
  exists ids, p, w, v, ids', p', w', v'. split; [exact Hopt|]. split; [exact Hopt'|].
  rewrite <- Hp. apply Hbest'; [assumption | split; lia | assumption].
Qed.

Lemma larger_truck_never_pays_less_witness :
  preconditions sample_truck sample_orders
  /\ max_weight_lbs sample_truck <= max_weight_lbs (mkTruck (text "big") 80000 6000)
  /\ max_volume_cuft sample_truck <= max_volume_cuft (mkTruck (text "big") 80000 6000)
  /\ exists ids p w v ids' p' w' v',
       optimize sample_truck sample_orders = Some (ids, p, w, v)
       /\ optimize (mkTruck (text "big") 80000 6000) sample_orders = Some (ids', p', w', v')
       /\ p <= p'.
Proof.
  assert (Hw : max_weight_lbs sample_truck <= max_weight_lbs (mkTruck (text "big") 80000 6000))
    by (simpl; lia).
  assert (Hv : max_volume_cuft sample_truck <= max_volume_cuft (mkTruck (text "big") 80000 6000))
    by (simpl; lia).
  split; [exact sample_preconditions|]. split; [exact Hw|]. split; [exact Hv|].
  exact (larger_truck_never_pays_less sample_truck (mkTruck (text "big") 80000 6000)
           sample_orders sample_preconditions Hw Hv).
Defined.

(** ** Validation and the optimizer's contract *)

Lemma min_length_1_nonempty (s : str) : min_length_1 s = true <-> s <> [].
Proof.
  unfold min_length_1. destruct s; simpl; split; try congruence; discriminate.
Qed.

Lemma validate_Order_accepts (o o' : Order) :
  validate_Order o = Accepted o' <-> o' = o /\ order_contract o.
Proof.
  unfold validate_Order, check_dates_make_sense, order_contract, Order_fields.
  rewrite <- !min_length_1_nonempty, <- date_leb_le. unfold Py.date_leb.
  destruct o as [oid p w v org dst pk dl hz]. simpl.
  destruct (min_length_1 oid), (Z.leb_spec 0 p), (Z.ltb_spec 0 w), (Z.ltb_spec 0 v),
    (min_length_1 org), (min_length_1 dst), (Py.date_ltb dl pk); simpl;
    (split;
     [ (intros [= <-]; repeat split; (reflexivity || lia)) || discriminate
     | intros [-> Hc];
       (reflexivity || (exfalso; decompose [and] Hc; (congruence || lia))) ]).
Qed.

Lemma validate_orders_accepts (l l' : list Order) :
  validate_orders l = Accepted l' <-> l' = l /\ Forall order_contract l.
Proof.
  revert l'. induction l as [|o l IH]; intros l'; simpl.
  - split; [intros [= <-]; auto | intros [-> _]; reflexivity].
  - destruct (validate_Order o) as [o1|msg] eqn:Ho.
    + apply validate_Order_accepts in Ho as [-> Hc].
      destruct (validate_orders l) as [l1|msg] eqn:Hl.
      * destruct (IH l1) as [H1 _]. destruct (H1 eq_refl) as [-> Hall].
        split; [intros [= <-]; split; [reflexivity | now constructor]
               | intros [-> _]; reflexivity].
      * split; [discriminate|]. intros [_ Hall].
        apply Forall_cons in Hall as [_ Hrest].
        destruct (IH l) as [_ Hacc]. specialize (Hacc (conj eq_refl Hrest)).
        discriminate.
    + split; [discriminate|]. intros [_ Hall].
      apply Forall_cons in Hall as [Hhead _].
      destruct (validate_Order_accepts o o) as [_ Hacc].
      rewrite Hacc in Ho by auto. discriminate.
Qed.

Lemma validate_OptimizeRequest_accepts (r r' : OptimizeRequest) :
  validate_OptimizeRequest r = Accepted r' <-> r' = r /\ request_contract r.
Proof.
  unfold validate_OptimizeRequest, validate_Truck, Truck_fields, not_too_many_orders,
    request_contract.
  rewrite <- min_length_1_nonempty.
  destruct r as [t l]. simpl.
  destruct (validate_orders l) as [l1|msg] eqn:Hl.
  - apply validate_orders_accepts in Hl as [-> Hall].
    destruct (min_length_1 (truck_id t)), (Z.ltb_spec 0 (max_weight_lbs t)),
      (Z.ltb_spec 0 (max_volume_cuft t)), (Nat.ltb_spec 50 (length l)); simpl;
      (split;
       [ (intros [= <-]; repeat split; (reflexivity || lia || assumption)) || discriminate
       | intros [-> Hc];
         (reflexivity || (exfalso; decompose [and] Hc; (congruence || lia))) ]).
  - assert (Hno : ~ Forall order_contract l).
    { intros Hall. destruct (validate_orders_accepts l l) as [_ H2].
      rewrite H2 in Hl by auto. discriminate. }
    destruct (min_length_1 (truck_id t) && (0 <? max_weight_lbs t)
              && (0 <? max_volume_cuft t));
      split; try discriminate; intros [_ H]; exfalso; apply Hno; apply H.
Qed.

(** X17. Validation accepts a request exactly when it meets the declared
    contract (non-empty identifiers and places, positive capacities,
    weights and volumes, non-negative payouts, delivery not before pickup,
    at most 50 orders), and hands it on unchanged. *)
Theorem validation_accepts_contract (r r' : OptimizeRequest) :
  validate_OptimizeRequest r = Accepted r' <-> r' = r /\ request_contract r.
Proof. apply validate_OptimizeRequest_accepts. Qed.

Lemma request_contract_preconditions (r : OptimizeRequest) :
  request_contract r ->
  preconditions (req_truck r) (req_orders r) /\ dates_in_order (req_orders r).
Proof.
  intros (_ & Hw & Hv & _ & Hall). split.
  - repeat split; try assumption.
    eapply Forall_impl; [exact Hall|]. intros o (_ & Hp & Hwo & Hvo & _).
    unfold valid_order. auto.
  - eapply Forall_impl; [exact Hall|]. intros o (_ & _ & _ & _ & _ & _ & Hd). exact Hd.
Qed.

(** X18. On a request whose orders all have their pickup on or before
    their delivery (every validated request), the masks are the relation
    [can_combine] itself, diagonal included: bit [j] of row [i] is set
    exactly when order [i] and order [j] can be combined. *)
Theorem masks_are_can_combine (orders : list Order) (i j : nat) :
  dates_in_order orders ->
  (i < length orders)%nat -> (j < length orders)%nat ->
  Z.testbit (_build_compatibility_masks orders !!! i) (Z.of_nat j)
  = can_combine (orders !!! i) (orders !!! j).
Proof.
  intros Hdates Hi Hj. rewrite build_masks_testbit by assumption.
  unfold compatible. case_bool_decide as Heq; [|reflexivity].
  subst j. simpl. symmetry.
  unfold dates_in_order in Hdates. rewrite Forall_forall in Hdates.
  pose proof (Hdates (orders !!! i) (list_elem_of_lookup_total_2 _ _ Hi)) as Hd.
  unfold can_combine, _check_same_route, _check_hazmat_ok, _check_time_windows.
  rewrite !str_eqb_refl, Bool.eqb_reflx. simpl.
  rewrite andb_true_r. apply date_leb_le.
  rewrite py_max_upper, !py_min_lower. tauto.
Qed.

Lemma masks_are_can_combine_witness :
  dates_in_order sample_orders
  /\ (2 < length sample_orders)%nat /\ (2 < length sample_orders)%nat
  /\ Z.testbit (_build_compatibility_masks sample_orders !!! 2%nat) (Z.of_nat 2)
     = can_combine (sample_orders !!! 2%nat) (sample_orders !!! 2%nat).
Proof.
  assert (H : (2 < length sample_orders)%nat) by (simpl; lia).
  split; [exact sample_dates_in_order|]. split; [exact H|]. split; [exact H|].
  exact (masks_are_can_combine sample_orders 2 2 sample_dates_in_order H H).
Defined.

(** ** The endpoint *)

(** A quotient below [2 ^ 1023] is rounded to a finite float. *)
Lemma div_round_finite_below (s : bool) (a b : positive) (c : Z) :
  0 <= c <= 1023 -> Z.pos a < Z.pos b * 2 ^ c ->
  forall s', div_round s a b <> S754_infinity s'.
Proof.
  intros Hc Hab s'. unfold div_round, SFdiv_core_binary.
  set (e := Z.min (fexp prec emax (Zdigits2 (Z.pos a) + 0 - (Zdigits2 (Z.pos b) + 0)))
                  (0 - 0)).
  assert (He : e <= 0) by (unfold e; lia).
  set (m' := match 0 - 0 - e with
             | Z.pos _ => Z.shiftl (Z.pos a) (0 - 0 - e)
             | 0 => Z.pos a
             | Z.neg _ => 0
             end).
  assert (Hm' : m' = Z.pos a * 2 ^ (- e)).
  { unfold m'. replace (0 - 0 - e) with (- e) by lia.
    destruct (- e) as [|p|p] eqn:Hs; [lia | | lia].
    rewrite Z.shiftl_mul_pow2 by lia. reflexivity. }
  assert (Hpow : 0 < 2 ^ (- e)) by (apply Z.pow_pos_nonneg; lia).
  assert (Hsplit : 2 ^ (c - e) = 2 ^ c * 2 ^ (- e)).
  { replace (c - e) with (c + - e) by lia. apply Z.pow_add_r; lia. }
  pose proof (Z_div_mod m' (Z.pos b) ltac:(lia)) as Hdiv.
  destruct (Z.div_eucl m' (Z.pos b)) as [q r] eqn:Hqr.
  destruct Hdiv as [Hdiv Hr].
  assert (Hq : 0 <= q < 2 ^ (c - e)) by (rewrite Hsplit; nia).
  apply binary_round_aux_finite; [lia | | lia].
  assert (Zdigits2 q <= c - e); [|lia].
  apply Zdigits2_le; lia.
Qed.

Lemma int_truediv_below (a b : Z) :
  0 <= a -> 0 < b -> a < b * 2 ^ 1023 -> exists q, int_truediv a b = Ok q.
Proof.
  intros Ha Hb Hab. unfold int_truediv.
  destruct b as [|pb|pb]; try lia.
  destruct a as [|pa|pa]; try lia; [eauto|].
  simpl Z.abs. simpl Z.to_pos.
  destruct (div_round _ pa pb) eqn:Hq; eauto.
  exfalso. eapply (div_round_finite_below _ pa pb 1023); [lia | exact Hab | exact Hq].
Qed.

Lemma sum_payouts_bound (orders : list Order) (bound : Z) :
  0 <= bound ->
  Forall (fun o => payout_cents o < bound) orders ->
  sumZ (map payout_cents orders) <= Z.of_nat (length orders) * bound.
Proof.
  intros Hb. induction 1 as [|o l Ho Hl IH]; [simpl; lia|].
  unfold sumZ in *. simpl length. simpl map. simpl foldr. lia.
Qed.

(** What [optimize_load] returns for orders within their contract. *)
Lemma optimize_load_returns (truck : Truck) (orders : list Order) :
  Forall valid_order orders ->
  exists sel uw uv,
    good_selection truck orders sel
    /\ utilization (subset_weight orders sel) (max_weight_lbs truck) = Ok uw
    /\ utilization (subset_volume orders sel) (max_volume_cuft truck) = Ok uv
    /\ 0 <= subset_weight orders sel /\ 0 <= subset_volume orders sel
    /\ optimize_load truck orders
       = Some (Ok (mkResponse (truck_id truck)
                              (map (fun i => order_id (orders !!! i)) sel)
                              (subset_payout orders sel) (subset_weight orders sel)
                              (subset_volume orders sel) (round2 uw) (round2 uv))).
Proof.
  intros Hvalid.
  destruct (optimize_spec truck orders) as (sel & _ & Hopt & Hgood & _).
  rewrite (optimize_load_unfold _ _ _ _ _ _ Hopt).
  pose proof Hgood as Hgood'.
  apply good_selection_candidate in Hgood as ([_ Hlt] & Hfeas & _).
  destruct (sel_totals_subset orders sel Hlt) as (_ & Hw & Hv).
  destruct (sel_nonneg orders Hvalid sel Hlt) as (_ & Hw0 & Hv0).
  rewrite Hw in Hw0. rewrite Hv in Hv0.
  assert (Hfit : (subset_weight orders sel = 0 \/
                  subset_weight orders sel <= max_weight_lbs truck)
                 /\ (subset_volume orders sel = 0 \/
                     subset_volume orders sel <= max_volume_cuft truck)).
  { destruct Hfeas as [->|[Hfw Hfv]]; [split; left; reflexivity | split; right; assumption]. }
  destruct Hfit as [Hfitw Hfitv].
  destruct (utilization_within _ (max_weight_lbs truck) Hw0 Hfitw) as (uw & Huw & _).
  destruct (utilization_within _ (max_volume_cuft truck) Hv0 Hfitv) as (uv & Huv & _).
  exists sel, uw, uv. rewrite Huw, Huv. simpl.
  split; [exact Hgood'|]. split; [reflexivity|]. split; [reflexivity|].
  split; [exact Hw0|]. split; [exact Hv0 | reflexivity].
Qed.

(** What the route answers, behind the middleware. *)
Lemma route_answers (request : HttpRequest) :
  (request_contract (json_body request) ->
   Forall (fun o => payout_cents o < 2 ^ 63) (req_orders (json_body request)) ->
   exists r,
     route request = Some (Http200 r)
     /\ resp_truck_id r = truck_id (req_truck (json_body request))
     /\ total_weight_lbs r <= max_weight_lbs (req_truck (json_body request))
     /\ total_volume_cuft r <= max_volume_cuft (req_truck (json_body request))
     /\ 0 <= total_payout_cents r)
  /\ (~ request_contract (json_body request) ->
      route request = Some (Http400 "Validation error")).
Proof.
  unfold route. set (body := json_body request). split.
  - intros Hc Hbound.
    destruct (validate_OptimizeRequest_accepts body body) as [_ Hacc].
    rewrite (Hacc (conj eq_refl Hc)). unfold optimize_truck_load.
    destruct (request_contract_preconditions body Hc) as [(Hmw & Hmv & Hvalid) _].
    destruct (optimize_load_returns (req_truck body) (req_orders body) Hvalid)
      as (sel & uw & uv & Hgood & _ & _ & _ & _ & ->).
    pose proof Hgood as (_ & _ & _ & Hsub).
    apply good_selection_candidate in Hgood as ([_ Hlt] & Hfeas & _ & Hpos & _).
    assert (Hp0 : 0 <= subset_payout (req_orders body) sel).
    { apply (sumZ_nonneg (map _ sel)), Forall_forall. intros y Hy.
      apply list_elem_of_In, in_map_iff in Hy as (k & <- & Hk).
      apply list_elem_of_In, Hpos in Hk. lia. }
    assert (Hp1 : subset_payout (req_orders body) sel
                  <= sumZ (map payout_cents (req_orders body))).
    { rewrite <- rest_payout_all.
      rewrite <- (suffix_payout_lookup (req_orders body) 0) by lia.
      destruct (sel_totals_subset (req_orders body) sel Hlt) as (<- & _ & _).
      apply suffix_payout_upper_bound; [|lia|now rewrite drop_0].
      eapply Forall_impl; [exact Hvalid|]. now intros o (Hp & _). }
    pose proof (sum_payouts_bound (req_orders body) (2 ^ 63) ltac:(lia) Hbound) as Hp2.
    destruct Hc as (_ & _ & _ & Hlen & _).
    simpl total_payout_cents.
    destruct (int_truediv_below (subset_payout (req_orders body) sel) 100 Hp0 ltac:(lia))
      as [q ->].
    { assert (2 ^ 63 * 50 < 100 * 2 ^ 1023) by (vm_compute; reflexivity). nia. }
    eexists. split; [reflexivity|]. simpl.
    split; [reflexivity|].
    destruct Hfeas as [->|[Hfw Hfv]].
    + unfold subset_weight, subset_volume. simpl. lia.
    + lia.
  - intros Hno. destruct (validate_OptimizeRequest body) as [r'|msg] eqn:Hv; [|reflexivity].
    apply validate_OptimizeRequest_accepts in Hv as [_ Hc]. contradiction.
Qed.

(** X19. A POST to the route.  A [Content-Length] that reads as an
    integer above 1 MiB is answered with a 413, whatever the body; one
    that is not empty and does not read as an integer is answered with a
    500.  Behind the size check, a body that meets the contract and whose
    payouts fit a signed 64-bit integer is answered with a 200, never a
    500: the response carries the truck's identifier, totals within both
    capacities and a non-negative payout; a body that does not meet the
    contract is answered with a 400 and never reaches the optimizer. *)
Theorem endpoint_answers (request : HttpRequest) :
  (forall h n,
     content_length request = Some h -> Py.int h = Some n -> MAX_CONTENT_LENGTH < n ->
     post_optimize request = Some (Http413 "Payload too large" MAX_CONTENT_LENGTH))
  /\ (forall h,
        content_length request = Some h -> h <> [] -> Py.int h = None ->
        post_optimize request = Some (Http500 "Internal Server Error"))
  /\ (within_size_limit request ->
      (request_contract (json_body request) ->
       Forall (fun o => payout_cents o < 2 ^ 63) (req_orders (json_body request)) ->
       exists r,
         post_optimize request = Some (Http200 r)
         /\ resp_truck_id r = truck_id (req_truck (json_body request))
         /\ total_weight_lbs r <= max_weight_lbs (req_truck (json_body request))
         /\ total_volume_cuft r <= max_volume_cuft (req_truck (json_body request))
         /\ 0 <= total_payout_cents r)
      /\ (~ request_contract (json_body request) ->
          post_optimize request = Some (Http400 "Validation error"))).
Proof.
  unfold post_optimize, check_payload_size. split; [|split].
  - intros h n -> Hn Hbig. destruct h as [|c h]; [discriminate|].
    rewrite Hn. destruct (Z.ltb_spec MAX_CONTENT_LENGTH n); [reflexivity | lia].
  - intros h -> Hne Hn. destruct h as [|c h]; [congruence|]. now rewrite Hn.
  - intros Hlim. unfold within_size_limit in Hlim.
    assert (Hpass : match content_length request with
                    | None | Some [] => route request
                    | Some h =>
                        match Py.int h with
                        | None => Some (Http500 "Internal Server Error")
                        | Some n =>
                            if MAX_CONTENT_LENGTH <? n
                            then Some (Http413 "Payload too large" MAX_CONTENT_LENGTH)
                            else route request
                        end
                    end = route request).
    { destruct (content_length request) as [[|c h]|]; try reflexivity.
      destruct Hlim as [Hnil|(n & -> & Hn)]; [discriminate|].
      destruct (Z.ltb_spec MAX_CONTENT_LENGTH n); [lia | reflexivity]. }
    rewrite Hpass. apply route_answers.
Qed.

Lemma sample_request_contract : request_contract sample_request.
Proof.
  unfold request_contract, sample_request, sample_truck, sample_orders, order_contract,
    date_le. simpl.
  split; [discriminate|]. split; [lia|]. split; [lia|]. split; [lia|].
  repeat (constructor; [repeat split; simpl; (lia || discriminate)|]).
  constructor.
Defined.

Lemma endpoint_answers_witness :
  within_size_limit sample_http_request
  /\ request_contract (json_body sample_http_request)
  /\ Forall (fun o => payout_cents o < 2 ^ 63) (req_orders (json_body sample_http_request))
  /\ exists r,
       post_optimize sample_http_request = Some (Http200 r)
       /\ total_weight_lbs r <= max_weight_lbs (req_truck (json_body sample_http_request)).
Proof.
  assert (Hlim : within_size_limit sample_http_request).
  { right. exists 2048. split; [vm_compute; reflexivity | vm_compute; discriminate]. }
  assert (Hb : Forall (fun o => payout_cents o < 2 ^ 63)
                      (req_orders (json_body sample_http_request))).
  { simpl. repeat constructor; simpl; lia. }
  split; [exact Hlim|]. split; [exact sample_request_contract|]. split; [exact Hb|].
  destruct (endpoint_answers sample_http_request) as (_ & _ & H).
  destruct (H Hlim) as [H200 _].
  destruct (H200 sample_request_contract Hb) as (r & Hr & _ & Hw & _).
  exists r. split; [exact Hr | exact Hw].
Defined.

(** ** The utilization figures are ordinary numbers *)

Lemma below_pow2_finite_nonneg (k : Z) (x : float) : below_pow2 k x -> finite_nonneg x.
Proof. destruct x as [[]|[]| |[] m e]; simpl; auto. Qed.

(** Rounding a non-negative value below [2 ^ 1023]: the result is a zero
    or a finite number of the same sign, at most one binade higher. *)
Lemma binary_round_aux_shape (m e : Z) (l : location) :
  0 <= m -> Zdigits2 m + e <= 1023 -> e <= 971 ->
  below_pow2 (Z.max (Zdigits2 m + e) (Z.max e (-1074)) + 1)
             (binary_round_aux prec emax false m e l).
Proof.
  intros Hm Hd He. unfold binary_round_aux.
  destruct (shr_fexp_spec m e l Hm) as (mrs1 & e1 & -> & He1 & Hm1).
  assert (Hfexp : forall x, fexp prec emax x = Z.max (x - 53) (-1074)) by reflexivity.
  rewrite Hfexp in He1.
  destruct (shifted_digits m e e1 Hm ltac:(lia)) as [Hm1pos Hd1]. rewrite <- Hm1 in *.
  set (m2 := round_nearest_even (shr_m mrs1) (loc_of_shr_record mrs1)).
  pose proof (round_nearest_even_bound (shr_m mrs1) (loc_of_shr_record mrs1) Hm1pos)
    as Hm2. fold m2 in Hm2.
  assert (Hd2 : Zdigits2 m2 <= Zdigits2 (shr_m mrs1) + 1).
  { pose proof (Zdigits2_gt _ Hm1pos) as Hgt. pose proof (Zdigits2_nonneg (shr_m mrs1)).
    apply Zdigits2_le; [lia | lia |]. rewrite Z.pow_add_r by lia.
    change (2 ^ 1) with 2. lia. }
  destruct (shr_fexp_spec m2 e1 loc_Exact ltac:(lia)) as (mrs3 & e3 & -> & He3 & Hm3).
  rewrite Hfexp in He3.
  destruct (shifted_digits m2 e1 e3 ltac:(lia) ltac:(lia)) as [Hm3pos Hd3].
  rewrite <- Hm3 in *.
  destruct (shr_m mrs3) as [|p|p] eqn:Hp; simpl; [exact I| |lia].
  destruct (Z.leb_spec e3 (emax - prec)) as [_|Hbig].
  - simpl. simpl in Hd3. lia.
  - unfold emax, prec in Hbig. lia.
Qed.

Lemma div_round_shape (a b : positive) (c : Z) :
  0 <= c <= 1022 -> Z.pos a < Z.pos b * 2 ^ c ->
  below_pow2 (c + 1) (div_round false a b).
Proof.
  intros Hc Hab. unfold div_round, SFdiv_core_binary.
  set (e := Z.min (fexp prec emax (Zdigits2 (Z.pos a) + 0 - (Zdigits2 (Z.pos b) + 0)))
                  (0 - 0)).
  assert (He : -1074 <= e <= 0).
  { unfold e. assert (Hfexp : forall x, fexp prec emax x = Z.max (x - 53) (-1074))
      by reflexivity. rewrite Hfexp. lia. }
  set (m' := match 0 - 0 - e with
             | Z.pos _ => Z.shiftl (Z.pos a) (0 - 0 - e)
             | 0 => Z.pos a
             | Z.neg _ => 0
             end).
  assert (Hm' : m' = Z.pos a * 2 ^ (- e)).
  { unfold m'. replace (0 - 0 - e) with (- e) by lia.
    destruct (- e) as [|p|p] eqn:Hs; [lia | | lia].
    rewrite Z.shiftl_mul_pow2 by lia. reflexivity. }
  assert (Hpow : 0 < 2 ^ (- e)) by (apply Z.pow_pos_nonneg; lia).
  assert (Hsplit : 2 ^ (c - e) = 2 ^ c * 2 ^ (- e)).
  { replace (c - e) with (c + - e) by lia. apply Z.pow_add_r; lia. }
  pose proof (Z_div_mod m' (Z.pos b) ltac:(lia)) as Hdiv.
  destruct (Z.div_eucl m' (Z.pos b)) as [q r] eqn:Hqr.
  destruct Hdiv as [Hdiv Hr].
  assert (Hq : 0 <= q < 2 ^ (c - e)) by (rewrite Hsplit; nia).
  assert (Hdq : Zdigits2 q <= c - e) by (apply Zdigits2_le; lia).
  pose proof (Zdigits2_nonneg q) as Hdq0.
  pose proof (binary_round_aux_shape q e (new_location (Z.pos b) r)
                ltac:(lia) ltac:(lia) ltac:(lia)) as Hshape.
  destruct (binary_round_aux prec emax false q e _) as [[]|[]| |[] mm ee];
    simpl in *; try exact I; try contradiction. lia.
Qed.

Lemma below_pow2_mono (k k' : Z) (x : float) :
  k <= k' -> below_pow2 k x -> below_pow2 k' x.
Proof. intros Hk. destruct x as [[]|[]| |[] m e]; simpl; auto. lia. Qed.

Lemma mul_100_shape (x : float) (k : Z) :
  -1000 <= k <= 1000 -> below_pow2 k x -> below_pow2 (k + 8) (mul_100 x).
Proof.
  intros Hk Hx. unfold mul_100. rewrite hundred_eq.
  destruct x as [[]|[]| |[] m e]; simpl in Hx; try contradiction; [exact I|].
  change (Z.pos (digits2_pos m)) with (Zdigits2 (Z.pos m)) in Hx.
  unfold SFmul. change (xorb false false) with false.
  pose proof (Zdigits2_gt (Z.pos m) ltac:(lia)) as Hm.
  pose proof (Zdigits2_nonneg (Z.pos m)) as Hm0.
  assert (Hdm : 1 <= Zdigits2 (Z.pos m)) by (simpl; lia).
  assert (Hprod : Zdigits2 (Z.pos (m * 7036874417766400)) <= Zdigits2 (Z.pos m) + 53).
  { apply Zdigits2_le; [lia | lia |].
    rewrite Z.pow_add_r by lia. rewrite Pos2Z.inj_mul.
    assert (Z.pos 7036874417766400 < 2 ^ 53) by (vm_compute; reflexivity).
    assert (0 < 2 ^ Zdigits2 (Z.pos m)) by (apply Z.pow_pos_nonneg; lia).
    nia. }
  eapply below_pow2_mono;
    [|apply binary_round_aux_shape; [lia | lia | lia]].
  lia.
Qed.

Lemma div_half_even_bound (n q : Z) :
  0 <= n -> 0 < q -> 0 <= div_half_even n q <= n / q + 1.
Proof.
  intros Hn Hq. unfold div_half_even.
  assert (0 <= n / q) by (apply Z.div_pos; lia).
  destruct (_ <? _); [lia|]. destruct (_ <? _); [lia|]. destruct (Z.even _); lia.
Qed.

Lemma round2_shape (x : float) (k : Z) :
  0 <= k <= 1000 -> below_pow2 k x -> below_pow2 (k + 2) (round2 x).
Proof.
  intros Hk Hx. unfold round2.
  destruct x as [[]|[]| |[] m e]; simpl in Hx; try contradiction; [exact I|].
  change (Z.pos (digits2_pos m)) with (Zdigits2 (Z.pos m)) in Hx.
  pose proof (Zdigits2_gt (Z.pos m) ltac:(lia)) as Hm.
  assert (Hdm : 1 <= Zdigits2 (Z.pos m)) by (simpl; lia).
  assert (Hpk : 0 < 2 ^ k) by (apply Z.pow_pos_nonneg; lia).
  assert (Hh : 0 <= match e with
                    | Z.neg p => div_half_even (Z.pos m * 100) (2 ^ Z.pos p)
                    | _ => Z.pos m * 2 ^ e * 100
                    end <= 100 * 2 ^ k).
  { destruct e as [|p|p].
    - assert (2 ^ Zdigits2 (Z.pos m) <= 2 ^ k) by (apply Z.pow_le_mono_r; lia).
      change (2 ^ 0) with 1. lia.
    - assert (H1 : 2 ^ (Zdigits2 (Z.pos m) + Z.pos p) <= 2 ^ k)
        by (apply Z.pow_le_mono_r; lia).
      rewrite Z.pow_add_r in H1 by lia.
      assert (0 < 2 ^ Z.pos p) by (apply Z.pow_pos_nonneg; lia). nia.
    - assert (Hp : 0 < 2 ^ Z.pos p) by (apply Z.pow_pos_nonneg; lia).
      pose proof (div_half_even_bound (Z.pos m * 100) (2 ^ Z.pos p) ltac:(lia) Hp) as Hb.
      assert (H1 : 2 ^ Zdigits2 (Z.pos m) <= 2 ^ (k + Z.pos p))
        by (apply Z.pow_le_mono_r; lia).
      rewrite Z.pow_add_r in H1 by lia.
      assert (Z.pos m * 100 / 2 ^ Z.pos p < 100 * 2 ^ k).
      { apply Z.div_lt_upper_bound; [lia|]. nia. }
      lia. }
  destruct (match e with
            | Z.neg p => div_half_even (Z.pos m * 100) (2 ^ Z.pos p)
            | _ => Z.pos m * 2 ^ e * 100
            end) as [|h|h]; [exact I| |exact I].
  replace (k + 2) with (k + 1 + 1) by lia.
  apply div_round_shape; [lia|].
  rewrite Z.pow_add_r by lia. change (2 ^ 1) with 2. lia.
Qed.

Lemma utilization_shape (total capacity : Z) (u : float) :
  0 <= total -> (total = 0 \/ total <= capacity) ->
  utilization total capacity = Ok u -> below_pow2 10 u.
Proof.
  intros Htot Hfit. unfold utilization, int_truediv.
  destruct (Z.ltb_spec 0 capacity) as [Hc|Hc]; [|intros [= <-]; exact I].
  destruct capacity as [|pb|pb]; try lia.
  destruct total as [|pa|pa]; try lia.
  - simpl. intros [= <-]. exact I.
  - simpl Z.abs. simpl Z.to_pos. change (xorb (Z.pos pa <? 0) (Z.pos pb <? 0)) with false.
    pose proof (div_round_shape pa pb 1 ltac:(lia)) as Hq.
    change (2 ^ 1) with 2 in Hq. specialize (Hq ltac:(lia)).
    destruct (div_round false pa pb) as [[]|[]| |[] m e] eqn:Hd;
      simpl in Hq; try contradiction; simpl; intros [= <-].
    + exact I.
    + apply (mul_100_shape (S754_finite false m e) 2); [lia | exact Hq].
Qed.

(** X20. For orders within their contract, whatever the capacities, both
    utilization percentages of the response are ordinary numbers: zero or
    positive and finite, never NaN, never infinite, never negative. *)
Theorem utilization_finite_nonneg (truck : Truck) (orders : list Order) :
  Forall valid_order orders ->
  exists r,
    optimize_load truck orders = Some (Ok r)
    /\ finite_nonneg (utilization_weight_percent r)
    /\ finite_nonneg (utilization_volume_percent r).
Proof.
  intros Hvalid.
  destruct (optimize_load_returns truck orders Hvalid)
    as (sel & uw & uv & Hgood & Huw & Huv & Hw0 & Hv0 & ->).
  apply good_selection_candidate in Hgood as (_ & Hfeas & _).
  assert (Hfit : (subset_weight orders sel = 0 \/
                  subset_weight orders sel <= max_weight_lbs truck)
                 /\ (subset_volume orders sel = 0 \/
                     subset_volume orders sel <= max_volume_cuft truck)).
  { destruct Hfeas as [->|[Hfw Hfv]]; [split; left; reflexivity | split; right; assumption]. }
  destruct Hfit as [Hfitw Hfitv].
  eexists. split; [reflexivity|]. simpl. split.
  - apply (below_pow2_finite_nonneg 12), (round2_shape uw 10); [lia|].
    exact (utilization_shape _ _ _ Hw0 Hfitw Huw).
  - apply (below_pow2_finite_nonneg 12), (round2_shape uv 10); [lia|].
    exact (utilization_shape _ _ _ Hv0 Hfitv Huv).
Qed.

Lemma utilization_finite_nonneg_witness :
  Forall valid_order sample_orders
  /\ exists r,
       optimize_load sample_truck sample_orders = Some (Ok r)
       /\ finite_nonneg (utilization_weight_percent r)
       /\ finite_nonneg (utilization_volume_percent r).
Proof.
  assert (Hvalid : Forall valid_order sample_orders) by apply sample_preconditions.
  split; [exact Hvalid|].
  exact (utilization_finite_nonneg sample_truck sample_orders Hvalid).
Defined.
